(** * fastjson: a shallow embedding of the parser, the value tree, the
      scanner, the validator and the fast numeric decoders.

    Go strings are byte sequences: they are lists of 8-bit characters here.
    Fixed-width integers are [Z] with their wrap-around written out.  A Go
    result [(value, error)] is a pair whose second component is
    [option error] ([None] is Go's [nil]). *)

From Stdlib Require Import ZArith NArith List Ascii String Bool Lia.
From Stdlib Require PrimFloat FloatOps SpecFloat.
Import ListNotations.

Open Scope Z_scope.

(** ** Bytes and strings *)

Definition gostring := list ascii.

(** A string literal as a Go string. *)
Definition str (s : string) : gostring := list_ascii_of_string s.

(** The numeric value of a byte. *)
Definition code (c : ascii) : Z := Z.of_N (N_of_ascii c).

Definition byte_of (z : Z) : ascii := ascii_of_N (Z.to_N z).

Definition len (s : gostring) : Z := Z.of_nat (List.length s).

(** ['0' <= c && c <= '9'] *)
Definition is_digit (c : ascii) : bool := (48 <=? code c) && (code c <=? 57).

Definition is_byte (z : Z) (c : ascii) : bool := code c =? z.

Definition gostring_eqb (a b : gostring) : bool :=
  if list_eq_dec ascii_dec a b then true else false.

(** [strings.IndexByte(s, c)]: the index of the first [c] in [s], or -1. *)
Fixpoint IndexByte (s : gostring) (c : Z) : Z :=
  match s with
  | [] => -1
  | x :: s' =>
      if is_byte c x then 0
      else let n := IndexByte s' c in if n <? 0 then -1 else n + 1
  end.

(** [s[i:]], [s[:i]] and [s[i]] for an index in range. *)
Definition from (i : Z) (s : gostring) : gostring := skipn (Z.to_nat i) s.
Definition upto (i : Z) (s : gostring) : gostring := firstn (Z.to_nat i) s.
Definition at_ (s : gostring) (i : Z) : ascii := nth (Z.to_nat i) s Ascii.zero.

(** ASCII lower-casing of one byte. *)
Definition lower (c : ascii) : ascii :=
  if (65 <=? code c) && (code c <=? 90) then byte_of (code c + 32) else c.

(** [strings.EqualFold(s, t)] for a target [t] made of the letters of
    "infinity" and "nan".  None of these letters has a fold partner outside
    ASCII, so the comparison is byte-wise, ignoring ASCII case. *)
Definition EqualFold (s t : gostring) : bool :=
  gostring_eqb (map lower s) (map lower t).

(** [strings.HasPrefix(s, "+")] *)
Definition HasPrefixPlus (s : gostring) : bool :=
  match s with
  | c :: _ => is_byte 43 c
  | [] => false
  end.

(** ** Fixed-width integers *)

Definition uint64 (z : Z) : Z := z mod 2 ^ 64.
Definition int64 (z : Z) : Z := (z + 2 ^ 63) mod 2 ^ 64 - 2 ^ 63.
Definition int16 (z : Z) : Z := (z + 2 ^ 15) mod 2 ^ 16 - 2 ^ 15.

(** ** Errors *)

Inductive NumErr := ErrSyntax | ErrRange.

(** A Go [error] value: a message built by [fmt.Errorf] (the format string
    and its string arguments), a [*strconv.NumError], or the scanner's
    end-of-input value [errEOF]. *)
Inductive error :=
| Errorf (format : string) (args : list gostring)
| Wrapf (format : string) (args : list gostring) (cause : error)
| NumError (func : string) (num : gostring) (err : NumErr)
| errEOF.

(** ** float64

    Go's float64 is IEEE 754 binary64, as are Rocq's primitive floats; the
    conversions round to nearest, ties to even. *)

Definition float64 := PrimFloat.float.

(** The float64 nearest to the integer [z]. *)
Definition float64_of_Z (z : Z) : float64 :=
  FloatOps.SF2Prim (SpecFloat.binary_normalize FloatOps.prec FloatOps.emax z 0 false).

(** The float64 nearest to the rational [num / den], for [0 <= num] and
    [0 < den].  The quotient is taken with at least 64 significant bits and
    one more bit that records a remainder, which leaves the rounding of the
    exact value unchanged. *)
Definition float64_of_ratio (num den : Z) : float64 :=
  if num =? 0 then PrimFloat.zero
  else
    let shift := Z.max 0 (Z.log2 den + 66 - Z.log2 num) in
    let q := (num * 2 ^ shift) / den in
    let r := (num * 2 ^ shift) mod den in
    let m := 2 * q + (if r =? 0 then 0 else 1) in
    FloatOps.SF2Prim
      (SpecFloat.binary_normalize FloatOps.prec FloatOps.emax m (- shift - 1) false).

(** The float64 nearest to [m * base ^ e], for [0 <= m]. *)
Definition float64_of_scaled (m base e : Z) : float64 :=
  if 0 <=? e then float64_of_ratio (m * base ^ e) 1
  else float64_of_ratio m (base ^ (- e)).

Definition fneg (neg : bool) (f : float64) : float64 :=
  if neg then PrimFloat.opp f else f.

(** [math.IsInf(f, 0)] *)
Definition IsInf (f : float64) : bool := PrimFloat.is_infinity f.

Definition inf : float64 := PrimFloat.infinity.
Definition nan : float64 := PrimFloat.nan.

(** ** The standard library's integer decoders

    [strconv.ParseUint(s, 10, 64)] and [strconv.ParseInt(s, 10, 64)], the
    only base and size this package asks for.  They belong to Go's standard
    library, not to this repository; the definitions follow its source: with
    an explicit base 10 there is no prefix and no underscore, a byte that is
    not a decimal digit is a syntax error, and a value that does not fit is
    a range error that returns the nearest bound. *)
Module strconv.

Definition maxUint64 : Z := 2 ^ 64 - 1.

(** The digit loop of [ParseUint]: [n] is the value so far. *)
Fixpoint uint_loop (s0 rest : gostring) (n : Z) : Z * option error :=
  match rest with
  | [] => (n, None)
  | c :: rest' =>
      if negb (is_digit c) then (0, Some (NumError "ParseUint" s0 ErrSyntax))
      else if maxUint64 / 10 + 1 <=? n
           then (maxUint64, Some (NumError "ParseUint" s0 ErrRange))
      else
        let n1 := n * 10 + (code c - 48) in
        if maxUint64 <? n1
        then (maxUint64, Some (NumError "ParseUint" s0 ErrRange))
        else uint_loop s0 rest' n1
  end.

Definition ParseUint (s : gostring) : Z * option error :=
  match s with
  | [] => (0, Some (NumError "ParseUint" s ErrSyntax))
  | _ => uint_loop s s 0
  end.

Definition ParseInt (s0 : gostring) : Z * option error :=
  match s0 with
  | [] => (0, Some (NumError "ParseInt" s0 ErrSyntax))
  | c :: s' =>
      let neg := is_byte 45 c in
      let s := if is_byte 43 c || is_byte 45 c then s' else s0 in
      let in_range (un : Z) :=
        let cutoff := 2 ^ 63 in
        if negb neg && (cutoff <=? un)
        then (cutoff - 1, Some (NumError "ParseInt" s0 ErrRange))
        else if neg && (cutoff <? un)
        then (- cutoff, Some (NumError "ParseInt" s0 ErrRange))
        else (if neg then int64 (- int64 un) else int64 un, None) in
      match ParseUint s with
      | (un, None) => in_range un
      | (un, Some (NumError _ _ ErrRange)) => in_range un
      | (_, Some _) => (0, Some (NumError "ParseInt" s0 ErrSyntax))
      end
  end.

(** *** [strconv.ParseFloat(s, 64)]

    Also the standard library's, after its source (atof.go): the special
    values, then a decimal or hexadecimal mantissa with an optional
    exponent, underscores between digits, and the nearest float64 of the
    exact value, with a range error when that is an infinity. *)

(** [lower(c)] of strconv: [c | ('x' - 'X')]. *)
Definition lower20 (c : ascii) : Z := Z.lor (code c) 32.

Fixpoint commonPrefixLenIgnoreCase (s prefix : gostring) : Z :=
  match s, prefix with
  | c :: s', p :: prefix' =>
      if Ascii.eqb (lower c) p then 1 + commonPrefixLenIgnoreCase s' prefix' else 0
  | _, _ => 0
  end.

(** The prefix of "infinity" that counts: all of it, or "inf". *)
Definition inf_prefix (s : gostring) : Z :=
  let n := commonPrefixLenIgnoreCase s (str "infinity") in
  if (3 <? n) && (n <? 8) then 3 else n.

(** [special]: the value and the number of bytes of a leading special
    value. *)
Definition special (s : gostring) : option (float64 * Z) :=
  match s with
  | [] => None
  | c :: s' =>
      if is_byte 43 c || is_byte 45 c then
        let n := inf_prefix s' in
        if (n =? 3) || (n =? 8) then Some (fneg (is_byte 45 c) inf, 1 + n) else None
      else if is_byte 105 c || is_byte 73 c then
        let n := inf_prefix s in
        if (n =? 3) || (n =? 8) then Some (inf, n) else None
      else if is_byte 110 c || is_byte 78 c then
        if commonPrefixLenIgnoreCase s (str "nan") =? 3 then Some (nan, 3) else None
      else None
  end.

(** [underscoreOK]: underscores only between digits, or after a base
    prefix.  [saw] is the kind of the last byte: 0 a digit, 1 an
    underscore, 2 anything else or the start. *)
Fixpoint underscore_loop (hex : bool) (s : gostring) (saw : Z) : bool :=
  match s with
  | [] => negb (saw =? 1)
  | c :: s' =>
      if is_digit c || (hex && (97 <=? lower20 c) && (lower20 c <=? 102))
      then underscore_loop hex s' 0
      else if is_byte 95 c
      then if saw =? 0 then underscore_loop hex s' 1 else false
      else if saw =? 1 then false
      else underscore_loop hex s' 2
  end.

Definition underscoreOK (s0 : gostring) : bool :=
  let s :=
    match s0 with
    | c :: s' => if is_byte 45 c || is_byte 43 c then s' else s0
    | [] => s0
    end in
  match s with
  | c0 :: c1 :: s' =>
      if is_byte 48 c0 &&
         ((lower20 c1 =? 98) || (lower20 c1 =? 111) || (lower20 c1 =? 120))
      then underscore_loop (lower20 c1 =? 120) s' 0
      else underscore_loop false s 2
  | _ => underscore_loop false s 2
  end.

(** The state of [readFloat]'s mantissa loop.  The mantissa is kept exact
    (the library keeps 19 digits and a flag for the rest, and rounds the
    value they denote together). *)
Record mantissa := {
  mant : Z;
  nd : Z;
  dp : Z;
  sawdot : bool;
  sawdigits : bool;
  underscores : bool
}.

Fixpoint mantissa_loop (hex : bool) (rest : gostring) (st : mantissa)
  : mantissa * gostring :=
  match rest with
  | [] => (st, [])
  | c :: rest' =>
      if is_byte 95 c then
        mantissa_loop hex rest'
          {| mant := mant st; nd := nd st; dp := dp st; sawdot := sawdot st;
             sawdigits := sawdigits st; underscores := true |}
      else if is_byte 46 c then
        if sawdot st then (st, rest)
        else mantissa_loop hex rest'
          {| mant := mant st; nd := nd st; dp := nd st; sawdot := true;
             sawdigits := sawdigits st; underscores := underscores st |}
      else if is_digit c then
        if is_byte 48 c && (nd st =? 0) then
          mantissa_loop hex rest'
            {| mant := mant st; nd := nd st; dp := dp st - 1; sawdot := sawdot st;
               sawdigits := true; underscores := underscores st |}
        else
          mantissa_loop hex rest'
            {| mant := mant st * (if hex then 16 else 10) + (code c - 48);
               nd := nd st + 1; dp := dp st; sawdot := sawdot st;
               sawdigits := true; underscores := underscores st |}
      else if hex && (97 <=? lower20 c) && (lower20 c <=? 102) then
        mantissa_loop hex rest'
          {| mant := mant st * 16 + (lower20 c - 97 + 10);
             nd := nd st + 1; dp := dp st; sawdot := sawdot st;
             sawdigits := true; underscores := underscores st |}
      else (st, rest)
  end.

Fixpoint exponent_loop (rest : gostring) (e : Z) (under : bool)
  : Z * bool * gostring :=
  match rest with
  | [] => (e, under, [])
  | c :: rest' =>
      if is_digit c
      then exponent_loop rest' (if e <? 10000 then e * 10 + (code c - 48) else e) under
      else if is_byte 95 c then exponent_loop rest' e true
      else (e, under, rest)
  end.

(** What [readFloat] hands on: the sign, the base, the mantissa, the
    exponent of the base (10, or 2 for a hexadecimal mantissa) and the
    number of bytes read. *)
Record float_parts := {
  neg : bool;
  hex : bool;
  mantissa_of : Z;
  exp_of : Z;
  read : Z
}.

Definition readFloat (s : gostring) : option float_parts :=
  match s with
  | [] => None
  | c :: s' =>
      let neg := is_byte 45 c in
      let s1 := if is_byte 43 c || is_byte 45 c then s' else s in
      let hex := (2 <? len s1) && is_byte 48 (at_ s1 0) && (lower20 (at_ s1 1) =? 120) in
      let s2 := if hex then from 2 s1 else s1 in
      let '(st, rest) :=
        mantissa_loop hex s2
          {| mant := 0; nd := 0; dp := 0; sawdot := false;
             sawdigits := false; underscores := false |} in
      if negb (sawdigits st) then None
      else
        let dp0 := if sawdot st then dp st else nd st in
        let dp1 := if hex then dp0 * 4 else dp0 in
        let ndMant := if hex then nd st * 4 else nd st in
        let finish (dp2 : Z) (under : bool) (rest : gostring) :=
          let n := len s - len rest in
          if under && negb (underscoreOK (upto n s)) then None
          else Some {| neg := neg; hex := hex; mantissa_of := mant st;
                       exp_of := if mant st =? 0 then 0 else dp2 - ndMant;
                       read := n |} in
        match rest with
        | e :: rest1 =>
            if lower20 e =? (if hex then 112 else 101) then
              match rest1 with
              | [] => None
              | c1 :: rest2 =>
                  let esign := if is_byte 45 c1 then -1 else 1 in
                  let rest3 := if is_byte 43 c1 || is_byte 45 c1 then rest2 else rest1 in
                  match rest3 with
                  | [] => None
                  | c2 :: _ =>
                      if negb (is_digit c2) then None
                      else
                        let '(e, under, rest4) := exponent_loop rest3 0 (underscores st) in
                        finish (dp1 + e * esign) under rest4
                  end
              end
            else if hex then None
            else finish dp1 (underscores st) rest
        | [] => if hex then None else finish dp1 (underscores st) rest
        end
  end.

Definition ParseFloat (s : gostring) : float64 * option error :=
  let syntax := (PrimFloat.zero, Some (NumError "ParseFloat" s ErrSyntax)) in
  match special s with
  | Some (f, n) => if n =? len s then (f, None) else syntax
  | None =>
      match readFloat s with
      | None => syntax
      | Some p =>
          if read p =? len s then
            let f := fneg (neg p)
                       (float64_of_scaled (mantissa_of p) (if hex p then 2 else 10) (exp_of p)) in
            (f, if IsInf f then Some (NumError "ParseFloat" s ErrRange) else None)
          else syntax
      end
  end.

End strconv.

(** ** package fastfloat: the integer decoders

    The standard library decoder each function falls back to is an argument
    [slow] of the embedding, so that what a function computes itself and
    what it takes from the library can be told apart; the package's own
    functions are these at [strconv.ParseUint] and [strconv.ParseInt]. *)
Module fastfloat.

(** The digit loop shared by the integer decoders and by the integer part of
    the float decoders:

      for i < uint(len(s)) {
        if s[i] >= '0' && s[i] <= '9' {
          d = d*10 + T(s[i]-'0'); i++
          if i > 18 { fall back to the library }
          continue
        }
        break
      }

    [rest] is [s[i:]] and [wrap] the width of [d].  [None] is the fall-back
    exit; [Some (i, d)] the state after the loop. *)
Fixpoint int_loop (wrap : Z -> Z) (rest : gostring) (i d : Z) : option (Z * Z) :=
  match rest with
  | [] => Some (i, d)
  | c :: rest' =>
      if is_digit c then
        let d := wrap (d * 10 + (code c - 48)) in
        let i := i + 1 in
        if 18 <? i then None else int_loop wrap rest' i d
      else Some (i, d)
  end.

Section Integers.

Variable slowUint : gostring -> Z * option error.
Variable slowInt : gostring -> Z * option error.

Definition ParseUint64BestEffort (s : gostring) : Z :=
  if len s =? 0 then 0
  else
    let j := 0 in
    match int_loop uint64 s 0 0 with
    | None =>
        match slowUint s with
        | (_, Some _) => 0
        | (dd, None) => dd
        end
    | Some (i, d) =>
        if i <=? j then 0
        else if i <? len s then 0
        else d
    end.

Definition ParseUint64 (s : gostring) : Z * option error :=
  if len s =? 0 then (0, Some (Errorf "cannot parse uint64 from empty string" []))
  else
    let j := 0 in
    match int_loop uint64 s 0 0 with
    | None =>
        match slowUint s with
        | (_, Some err) => (0, Some err)
        | (dd, None) => (dd, None)
        end
    | Some (i, d) =>
        if i <=? j then (0, Some (Errorf "cannot parse uint64 from %q" [s]))
        else if i <? len s
        then (0, Some (Errorf "unparsed tail left after parsing uint64 from %q: %q" [s; from i s]))
        else (d, None)
    end.

Definition ParseInt64BestEffort (s : gostring) : Z :=
  if len s =? 0 then 0
  else
    let minus := is_byte 45 (at_ s 0) in
    let i := if minus then 1 else 0 in
    if minus && (len s <=? i) then 0
    else
      let j := i in
      match int_loop int64 (from i s) i 0 with
      | None =>
          match slowInt s with
          | (_, Some _) => 0
          | (dd, None) => dd
          end
      | Some (i, d) =>
          if i <=? j then 0
          else if i <? len s then 0
          else if minus then int64 (- d) else d
      end.

Definition ParseInt64 (s : gostring) : Z * option error :=
  if len s =? 0 then (0, Some (Errorf "cannot parse int64 from empty string" []))
  else
    let minus := is_byte 45 (at_ s 0) in
    let i := if minus then 1 else 0 in
    if minus && (len s <=? i) then (0, Some (Errorf "cannot parse int64 from %q" [s]))
    else
      let j := i in
      match int_loop int64 (from i s) i 0 with
      | None =>
          match slowInt s with
          | (_, Some err) => (0, Some err)
          | (dd, None) => (dd, None)
          end
      | Some (i, d) =>
          if i <=? j then (0, Some (Errorf "cannot parse int64 from %q" [s]))
          else if i <? len s
          then (0, Some (Errorf "unparsed tail left after parsing int64 form %q: %q" [s; from i s]))
          else (if minus then int64 (- d) else d, None)
      end.

End Integers.

(** *** The float decoders *)

(** Exact powers of 10: [float64pow10 = [...]float64{1e0, ..., 1e16}]. *)
Definition float64pow10 : list float64 :=
  map float64_of_Z
    [1; 10; 100; 1000; 10000; 100000; 1000000; 10000000; 100000000;
     1000000000; 10000000000; 100000000000; 1000000000000; 10000000000000;
     100000000000000; 1000000000000000; 10000000000000000].

(** [math.Pow10(n)], the standard library's: two table entries multiplied
    (or divided, for a negative [n]); the tables hold the float64 nearest to
    each power. *)
Definition Pow10 (n : Z) : float64 :=
  if (0 <=? n) && (n <=? 308) then
    PrimFloat.mul (float64_of_scaled 1 10 (32 * (n / 32)))
                  (float64_of_scaled 1 10 (n mod 32))
  else if (-323 <=? n) && (n <=? 0) then
    PrimFloat.div (float64_of_scaled 1 10 (- (32 * ((- n) / 32))))
                  (float64_of_scaled 1 10 ((- n) mod 32))
  else if 0 <? n then inf
  else PrimFloat.zero.

(** The loop over the fractional digits: as [int_loop], on the same [d],
    leaving for the library when [i-j >= uint(len(float64pow10))]. *)
Fixpoint frac_loop (rest : gostring) (i j d : Z) : option (Z * Z) :=
  match rest with
  | [] => Some (i, d)
  | c :: rest' =>
      if is_digit c then
        let d := uint64 (d * 10 + (code c - 48)) in
        let i := i + 1 in
        if Z.of_nat (List.length float64pow10) <=? i - j then None else frac_loop rest' i j d
      else Some (i, d)
  end.

(** The loop over the exponent digits, on an [int16]; it leaves for the
    library when [exp > 300]. *)
Fixpoint exp_loop (rest : gostring) (i exp : Z) : option (Z * Z) :=
  match rest with
  | [] => Some (i, exp)
  | c :: rest' =>
      if is_digit c then
        let exp := int16 (exp * 10 + (code c - 48)) in
        let i := i + 1 in
        if 300 <? exp then None else exp_loop rest' i exp
      else Some (i, exp)
  end.

(** [s[i] == '.' && (i+1 >= uint(len(s)) || s[i+1] < '0' || s[i+1] > '9')] *)
Definition lone_dot (s : gostring) (i : Z) : bool :=
  is_byte 46 (at_ s i) &&
  ((len s <=? i + 1) || (code (at_ s (i + 1)) <? 48) || (57 <? code (at_ s (i + 1)))).

(** The special values, tried on [s[i:]] when no digit was read. *)
Definition special_token (ss : gostring) : gostring :=
  if HasPrefixPlus ss then from 1 ss else ss.

(** Where a float decoder leaves for [strconv.ParseFloat]: in the integer
    part, in the fractional part, or in the exponent. *)
Inductive site := AtInteger | AtMantissa | AtExponent.

(** What the decoder's own scan ends in: a result of its own, or the call
    of the library at one of the three sites. *)
Inductive outcome (A : Type) :=
| Own (r : A)
| Library (at_site : site).
Arguments Own {A} r.
Arguments Library {A} at_site.

(** **** Parse *)

(** The exponent part of [Parse], entered with [i < len(s)]. *)
Definition Parse_exponent (s : gostring) (minus : bool) (i : Z) (f : float64)
  : outcome (float64 * option error) :=
  if is_byte 101 (at_ s i) || is_byte 69 (at_ s i) then
    let i := i + 1 in
    if len s <=? i then Own (PrimFloat.zero, Some (Errorf "cannot parse exponent in %q" [s]))
    else
      let signed := is_byte 43 (at_ s i) || is_byte 45 (at_ s i) in
      let expMinus := is_byte 45 (at_ s i) in
      let i := if signed then i + 1 else i in
      if signed && (len s <=? i)
      then Own (PrimFloat.zero, Some (Errorf "cannot parse exponent in %q" [s]))
      else
        let j := i in
        match exp_loop (from i s) i 0 with
        | None => Library AtExponent
        | Some (i, exp) =>
            if i <=? j
            then Own (PrimFloat.zero, Some (Errorf "cannot parse exponent in %q" [s]))
            else
              let exp := if expMinus then int16 (- exp) else exp in
              let f := PrimFloat.mul f (Pow10 exp) in
              if len s <=? i then Own (fneg minus f, None)
              else Own (PrimFloat.zero, Some (Errorf "cannot parse float64 from %q" [s]))
        end
  else Own (PrimFloat.zero, Some (Errorf "cannot parse float64 from %q" [s])).

(** The fractional part of [Parse], entered with [i < len(s)] after the
    integer part left [d] and [f = float64(d)]. *)
Definition Parse_fraction (s : gostring) (minus : bool) (j i d : Z) (f : float64)
  : outcome (float64 * option error) :=
  if is_byte 46 (at_ s i) then
    let i := i + 1 in
    if len s <=? i then Own (f, None)
    else
      let k := i in
      match frac_loop (from i s) i j d with
      | None => Library AtMantissa
      | Some (i, d) =>
          if i <? k
          then Own (PrimFloat.zero, Some (Errorf "cannot find mantissa in %q" [s]))
          else
            let f := PrimFloat.div (float64_of_Z d)
                       (nth (Z.to_nat (i - k)) float64pow10 PrimFloat.zero) in
            if len s <=? i then Own (fneg minus f, None)
            else Parse_exponent s minus i f
      end
  else Parse_exponent s minus i f.

(** [Parse] up to its calls of the library. *)
Definition Parse_scan (s : gostring) : outcome (float64 * option error) :=
  if len s =? 0
  then Own (PrimFloat.zero, Some (Errorf "cannot parse float64 from empty string" []))
  else
    let minus := is_byte 45 (at_ s 0) in
    let i := if minus then 1 else 0 in
    if minus && (len s <=? i)
    then Own (PrimFloat.zero, Some (Errorf "cannot parse float64 from %q" [s]))
    else if lone_dot s i
    then Own (PrimFloat.zero, Some (Errorf "missing integer and fractional part in %q" [s]))
    else
      let j := i in
      match int_loop uint64 (from i s) i 0 with
      | None => Library AtInteger
      | Some (i, d) =>
          if (i <=? j) && negb (is_byte 46 (at_ s i)) then
            let ss := special_token (from i s) in
            if EqualFold ss (str "inf") || EqualFold ss (str "infinity")
            then Own (fneg minus inf, None)
            else if EqualFold ss (str "nan") then Own (nan, None)
            else Own (PrimFloat.zero,
                      Some (Errorf "unparsed tail left after parsing float64 from %q: %q" [s; ss]))
          else
            let f := float64_of_Z d in
            if len s <=? i then Own (fneg minus f, None)
            else Parse_fraction s minus j i d f
      end.

(** What [Parse] returns from the library's result [(f, err)]:
    [if err != nil && !math.IsInf(f, 0) { return 0, ... }; return f, nil],
    the error as it is in the integer part and wrapped in the others. *)
Definition Parse_library (at_site : site) (s : gostring) (r : float64 * option error)
  : float64 * option error :=
  match r with
  | (f, Some err) =>
      if negb (IsInf f) then
        (PrimFloat.zero,
         Some match at_site with
              | AtInteger => err
              | AtMantissa => Wrapf "cannot parse mantissa in %q: %s" [s] err
              | AtExponent => Wrapf "cannot parse exponent in %q: %s" [s] err
              end)
      else (f, None)
  | (f, None) => (f, None)
  end.

(** **** ParseBestEffort *)

Definition ParseBestEffort_exponent (s : gostring) (minus : bool) (i : Z) (f : float64)
  : outcome float64 :=
  if is_byte 101 (at_ s i) || is_byte 69 (at_ s i) then
    let i := i + 1 in
    if len s <=? i then Own PrimFloat.zero
    else
      let signed := is_byte 43 (at_ s i) || is_byte 45 (at_ s i) in
      let expMinus := is_byte 45 (at_ s i) in
      let i := if signed then i + 1 else i in
      if signed && (len s <=? i) then Own PrimFloat.zero
      else
        let j := i in
        match exp_loop (from i s) i 0 with
        | None => Library AtExponent
        | Some (i, exp) =>
            if i <=? j then Own PrimFloat.zero
            else
              let exp := if expMinus then int16 (- exp) else exp in
              let f := PrimFloat.mul f (Pow10 exp) in
              if len s <=? i then Own (fneg minus f) else Own PrimFloat.zero
        end
  else Own PrimFloat.zero.

Definition ParseBestEffort_fraction (s : gostring) (minus : bool) (j i d : Z) (f : float64)
  : outcome float64 :=
  if is_byte 46 (at_ s i) then
    let i := i + 1 in
    if len s <=? i then Own f
    else
      let k := i in
      match frac_loop (from i s) i j d with
      | None => Library AtMantissa
      | Some (i, d) =>
          if i <? k then Own PrimFloat.zero
          else
            let f := PrimFloat.div (float64_of_Z d)
                       (nth (Z.to_nat (i - k)) float64pow10 PrimFloat.zero) in
            if len s <=? i then Own (fneg minus f)
            else ParseBestEffort_exponent s minus i f
      end
  else ParseBestEffort_exponent s minus i f.

(** [ParseBestEffort] up to its calls of the library. *)
Definition ParseBestEffort_scan (s : gostring) : outcome float64 :=
  if len s =? 0 then Own PrimFloat.zero
  else
    let minus := is_byte 45 (at_ s 0) in
    let i := if minus then 1 else 0 in
    if minus && (len s <=? i) then Own PrimFloat.zero
    else if lone_dot s i then Own PrimFloat.zero
    else
      let j := i in
      match int_loop uint64 (from i s) i 0 with
      | None => Library AtInteger
      | Some (i, d) =>
          if (i <=? j) && negb (is_byte 46 (at_ s i)) then
            let ss := special_token (from i s) in
            if EqualFold ss (str "inf") || EqualFold ss (str "infinity")
            then Own (fneg minus inf)
            else if EqualFold ss (str "nan") then Own nan
            else Own PrimFloat.zero
          else
            let f := float64_of_Z d in
            if len s <=? i then Own (fneg minus f)
            else ParseBestEffort_fraction s minus j i d f
      end.

(** [if err != nil && !math.IsInf(f, 0) { return 0 }; return f] *)
Definition ParseBestEffort_library (r : float64 * option error) : float64 :=
  match r with
  | (f, Some _) => if negb (IsInf f) then PrimFloat.zero else f
  | (f, None) => f
  end.

Section Floats.

(** [strconv.ParseFloat(s, 64)] *)
Variable slowFloat : gostring -> float64 * option error.

Definition Parse (s : gostring) : float64 * option error :=
  match Parse_scan s with
  | Own r => r
  | Library at_site => Parse_library at_site s (slowFloat s)
  end.

Definition ParseBestEffort (s : gostring) : float64 :=
  match ParseBestEffort_scan s with
  | Own f => f
  | Library _ => ParseBestEffort_library (slowFloat s)
  end.

End Floats.

End fastfloat.

(** ** The standard library's hexadecimal and UTF helpers *)

Module hex16.

(** The value of one byte as a base-16 digit, as [strconv.ParseUint] reads
    it. *)
Definition digit (c : ascii) : option Z :=
  if is_digit c then Some (code c - 48)
  else if (97 <=? strconv.lower20 c) && (strconv.lower20 c <=? 102)
  then Some (strconv.lower20 c - 97 + 10)
  else None.

Fixpoint loop (s0 rest : gostring) (n : Z) : Z * option error :=
  match rest with
  | [] => (n, None)
  | c :: rest' =>
      match digit c with
      | None => (0, Some (NumError "ParseUint" s0 ErrSyntax))
      | Some d =>
          if 65535 <? n * 16 + d
          then (65535, Some (NumError "ParseUint" s0 ErrRange))
          else loop s0 rest' (n * 16 + d)
      end
  end.

(** [strconv.ParseUint(xs, 16, 16)] *)
Definition ParseUint (xs : gostring) : Z * option error :=
  match xs with
  | [] => (0, Some (NumError "ParseUint" xs ErrSyntax))
  | _ => loop xs xs 0
  end.

End hex16.

Module utf16.

(** [utf16.IsSurrogate(r)] *)
Definition IsSurrogate (r : Z) : bool := (55296 <=? r) && (r <? 57344).

(** [utf16.DecodeRune(r1, r2)]: the code point of a surrogate pair, or
    U+FFFD when the pair is not a high surrogate followed by a low one. *)
Definition DecodeRune (r1 r2 : Z) : Z :=
  if (55296 <=? r1) && (r1 <? 56320) && (56320 <=? r2) && (r2 <? 57344)
  then Z.lor (Z.shiftl (r1 - 55296) 10) (r2 - 56320) + 65536
  else 65533.

End utf16.

Module utf8.

(** [string(rune(r))]: the UTF-8 encoding of [r]; U+FFFD for a surrogate or
    a value out of range. *)
Definition encode (r : Z) : gostring :=
  let b z := byte_of z in
  if (0 <=? r) && (r <? 128) then [b r]
  else if (0 <=? r) && (r <? 2048)
  then [b (Z.lor 192 (Z.shiftr r 6)); b (Z.lor 128 (Z.land r 63))]
  else if (r <? 0) || (1114111 <? r) || utf16.IsSurrogate r
  then [b 239; b 191; b 189]
  else if r <? 65536
  then [b (Z.lor 224 (Z.shiftr r 12));
        b (Z.lor 128 (Z.land (Z.shiftr r 6) 63));
        b (Z.lor 128 (Z.land r 63))]
  else [b (Z.lor 240 (Z.shiftr r 18));
        b (Z.lor 128 (Z.land (Z.shiftr r 12) 63));
        b (Z.lor 128 (Z.land (Z.shiftr r 6) 63));
        b (Z.lor 128 (Z.land r 63))].

End utf8.

(** ** package fastjson: white space and the raw tokenizers *)

Definition quote : ascii := byte_of 34.
Definition backslash : ascii := byte_of 92.

(** The message of a string with no closing quote; the quote byte is
    spliced into the literal. *)
Definition missing_closing_quote : string :=
  "missing closing '" ++ String quote "'".

Definition is_ws (c : ascii) : bool :=
  is_byte 32 c || is_byte 10 c || is_byte 9 c || is_byte 13 c.

(** The loop of [skipWSSlow], from index 1 on. *)
Fixpoint skipWS_loop (s : gostring) : gostring :=
  match s with
  | [] => []
  | c :: s' => if negb (is_ws c) then s else skipWS_loop s'
  end.

Definition skipWSSlow (s : gostring) : gostring :=
  match s with
  | [] => s
  | c :: s' => if negb (is_ws c) then s else skipWS_loop s'
  end.

Definition skipWS (s : gostring) : gostring :=
  match s with
  | [] => s
  | c :: _ => if 32 <? code c then s else skipWSSlow s
  end.

(** The inner loop of [parseRawString]:
    [i := n - 1; for i > 0 && s[i-1] == '\\' { i-- }], from [i]. *)
Fixpoint backslash_run (s : gostring) (i : nat) : nat :=
  match i with
  | O => O
  | S i' => if is_byte 92 (nth i' s Ascii.zero) then backslash_run s i' else i
  end.

(** The outer loop of [parseRawString]'s slow path.  [ss] is the whole
    string, [s] what is left of it, [n] the index of a quote of [s] that
    follows a backslash.  Every round drops at least one byte of [s], so
    [fuel = len(s)] rounds are never used up. *)
Fixpoint parseRawString_loop (fuel : nat) (ss s : gostring) (n : Z)
  : gostring * gostring * option error :=
  match fuel with
  | O => (ss, [], Some (Errorf missing_closing_quote []))
  | S fuel' =>
      let i := Z.of_nat (backslash_run s (Z.to_nat (n - 1))) in
      if (n - i) mod 2 =? 0
      then (upto (len ss - len s + n) ss, from (n + 1) s, None)
      else
        let s := from (n + 1) s in
        let n := IndexByte s 34 in
        if n <? 0 then (ss, [], Some (Errorf missing_closing_quote []))
        else if (n =? 0) || negb (is_byte 92 (at_ s (n - 1)))
        then (upto (len ss - len s + n) ss, from (n + 1) s, None)
        else parseRawString_loop fuel' ss s n
  end.

Definition parseRawString (s : gostring) : gostring * gostring * option error :=
  let n := IndexByte s 34 in
  if n <? 0 then (s, [], Some (Errorf missing_closing_quote []))
  else if (n =? 0) || negb (is_byte 92 (at_ s (n - 1)))
  then (upto n s, from (n + 1) s, None)
  else parseRawString_loop (List.length s) s s n.

(** The loop of [parseRawKey]; [rest] is [s[i:]]. *)
Fixpoint parseRawKey_loop (s rest : gostring) (i : Z)
  : gostring * gostring * option error :=
  match rest with
  | [] => (s, [], Some (Errorf missing_closing_quote []))
  | c :: rest' =>
      if is_byte 34 c then (upto i s, from (i + 1) s, None)
      else if is_byte 92 c then parseRawString s
      else parseRawKey_loop s rest' (i + 1)
  end.

Definition parseRawKey (s : gostring) : gostring * gostring * option error :=
  parseRawKey_loop s s 0.

(** A byte a number may hold: a digit or one of [. - e E +]. *)
Definition is_number_byte (ch : ascii) : bool :=
  is_digit ch || is_byte 46 ch || is_byte 45 ch || is_byte 101 ch ||
  is_byte 69 ch || is_byte 43 ch.

(** The loop of [parseRawNumber]; [rest] is [s[i:]]. *)
Fixpoint parseRawNumber_loop (s rest : gostring) (i : Z)
  : gostring * gostring * option error :=
  match rest with
  | [] => (s, [], None)
  | ch :: rest' =>
      if is_number_byte ch then parseRawNumber_loop s rest' (i + 1)
      else if (i =? 0) || ((i =? 1) && (is_byte 45 (at_ s 0) || is_byte 43 (at_ s 0)))
      then
        if (3 <=? len (from i s)) &&
           (EqualFold (upto 3 (from i s)) (str "inf") ||
            EqualFold (upto 3 (from i s)) (str "nan"))
        then (upto (i + 3) s, from (i + 3) s, None)
        else ([], s, Some (Errorf "unexpected char: %q" [upto 1 s]))
      else (upto i s, from i s, None)
  end.

Definition parseRawNumber (s : gostring) : gostring * gostring * option error :=
  parseRawNumber_loop s s 0.

(** ** The string unescaper *)

(** One round of [unescapeStringBestEffort]'s loop, after [ch := s[0];
    s = s[1:]]: what is appended to [b], and what is left of [s]. *)
Definition unescape_one (ch : ascii) (s : gostring) : gostring * gostring :=
  if is_byte 34 ch then ([quote], s)
  else if is_byte 92 ch then ([backslash], s)
  else if is_byte 47 ch then ([byte_of 47], s)
  else if is_byte 98 ch then ([byte_of 8], s)
  else if is_byte 102 ch then ([byte_of 12], s)
  else if is_byte 110 ch then ([byte_of 10], s)
  else if is_byte 114 ch then ([byte_of 13], s)
  else if is_byte 116 ch then ([byte_of 9], s)
  else if is_byte 117 ch then
    if len s <? 4 then ([backslash; byte_of 117], s)
    else
      let xs := upto 4 s in
      match hex16.ParseUint xs with
      | (_, Some _) => ([backslash; byte_of 117], s)
      | (x, None) =>
          let s := from 4 s in
          if negb (utf16.IsSurrogate x) then (utf8.encode x, s)
          else if (len s <? 6) || negb (is_byte 92 (at_ s 0)) || negb (is_byte 117 (at_ s 1))
          then ([backslash; byte_of 117] ++ xs, s)
          else
            match hex16.ParseUint (upto 4 (from 2 s)) with
            | (_, Some _) => ([backslash; byte_of 117] ++ xs, s)
            | (x1, None) => (utf8.encode (utf16.DecodeRune x x1), from 6 s)
            end
      end
  else ([backslash; ch], s).

(** The loop [for len(s) > 0]; every round drops at least one byte of
    [s]. *)
Fixpoint unescape_loop (fuel : nat) (b s : gostring) : gostring :=
  match fuel, s with
  | _, [] => b
  | O, _ => b
  | S fuel', ch :: s1 =>
      let '(out, s2) := unescape_one ch s1 in
      let b := b ++ out in
      let n := IndexByte s2 92 in
      if n <? 0 then b ++ s2
      else unescape_loop fuel' (b ++ upto n s2) (from (n + 1) s2)
  end.

Definition unescapeStringBestEffort (s : gostring) : gostring :=
  let n := IndexByte s 92 in
  if n <? 0 then s
  else unescape_loop (List.length s) (upto n s) (from (n + 1) s).

(** ** The value tree *)

(** [type kv struct { k string; v *Value }] *)
Record kv (V : Type) := mkKV { k : gostring; v : V }.
Arguments mkKV {V} k v.
Arguments k {V}.
Arguments v {V}.

(** [type Object struct { kvs []kv; keysUnescaped bool }] over the values
    [V]. *)
Record ObjectOf (V : Type) := mkObject { kvs : list (kv V); keysUnescaped : bool }.
Arguments mkObject {V} kvs keysUnescaped.
Arguments kvs {V}.
Arguments keysUnescaped {V}.

(** [type Type int] *)
Inductive Type_ :=
| TypeNull | TypeObject | TypeArray | TypeString | TypeNumber | TypeTrue
| TypeFalse | typeRawString.

#[local] Set Warnings "-register-all".

(** [type Value struct { o Object; a []*Value; s string; t Type }]: the tag
    [t] with the one field that is meaningful under it (a value taken from
    the cache keeps whatever the other fields held, and nothing reads
    them). *)
Inductive Value :=
| VNull
| VObject (o : ObjectOf Value)
| VArray (a : list Value)
| VString (s : gostring)
| VNumber (s : gostring)
| VTrue
| VFalse
| VRawString (s : gostring).

Definition Object := ObjectOf Value.

Definition t (x : Value) : Type_ :=
  match x with
  | VNull => TypeNull
  | VObject _ => TypeObject
  | VArray _ => TypeArray
  | VString _ => TypeString
  | VNumber _ => TypeNumber
  | VTrue => TypeTrue
  | VFalse => TypeFalse
  | VRawString _ => typeRawString
  end.

Definition valueTrue := VTrue.
Definition valueFalse := VFalse.
Definition valueNull := VNull.

(** The nesting depth of a value as [parseValue] counts it: one for the
    value itself, plus the deepest element or member. *)
Fixpoint value_depth (x : Value) : Z :=
  match x with
  | VArray a => 1 + fold_right (fun e m => Z.max (value_depth e) m) 0 a
  | VObject o => 1 + fold_right (fun e m => Z.max (value_depth (v e)) m) 0 (kvs o)
  | _ => 1
  end.

(** ** The recursive-descent parser *)

(** [const MaxDepth = 300] *)
Definition MaxDepth : Z := 300.

(** What [parseValue], [parseArray] and [parseObject] return: the value and
    the tail, or the tail and the error.  [OutOfFuel] is the embedding's
    own: the functions below recurse on a counter. *)
Inductive parsed :=
| Parsed (x : Value) (tail : gostring)
| Failed (tail : gostring) (err : error)
| OutOfFuel.

(** [s[:len(lit)] == lit], with the length check before it. *)
Definition starts_with (lit s : gostring) : bool :=
  (len lit <=? len s) && gostring_eqb (upto (len lit) s) lit.

Definition opening_quote_for_key : string :=
  "cannot find opening '" ++ String quote (String quote " for object key").

Section Parse.

(** The depth limit, [MaxDepth] in the package. *)
Variable limit : Z.

(** [parseValue], the loops of [parseArray] and [parseObject] after their
    first node is taken from the cache, and the two functions themselves.
    The cache only supplies storage and is left out. *)
Fixpoint parseValue (fuel : nat) (s : gostring) (depth : Z) : parsed :=
  match fuel with
  | O => OutOfFuel
  | S fuel =>
      match s with
      | [] => Failed s (Errorf "cannot parse empty string" [])
      | c :: s1 =>
          let depth := depth + 1 in
          if limit <? depth
          then Failed s (Errorf "too big depth for the nested JSON; it exceeds %d" [])
          else if is_byte 123 c then
            match parseObject fuel s1 depth with
            | Parsed x tail => Parsed x tail
            | Failed tail err => Failed tail (Wrapf "cannot parse object: %s" [] err)
            | OutOfFuel => OutOfFuel
            end
          else if is_byte 91 c then
            match parseArray fuel s1 depth with
            | Parsed x tail => Parsed x tail
            | Failed tail err => Failed tail (Wrapf "cannot parse array: %s" [] err)
            | OutOfFuel => OutOfFuel
            end
          else if is_byte 34 c then
            match parseRawString s1 with
            | (_, tail, Some err) => Failed tail (Wrapf "cannot parse string: %s" [] err)
            | (ss, tail, None) => Parsed (VRawString ss) tail
            end
          else if is_byte 116 c then
            if negb (starts_with (str "true") s)
            then Failed s (Errorf "unexpected value found: %q" [s])
            else Parsed valueTrue (from 4 s)
          else if is_byte 102 c then
            if negb (starts_with (str "false") s)
            then Failed s (Errorf "unexpected value found: %q" [s])
            else Parsed valueFalse (from 5 s)
          else if is_byte 110 c then
            if negb (starts_with (str "null") s) then
              if (3 <=? len s) && EqualFold (upto 3 s) (str "nan")
              then Parsed (VNumber (upto 3 s)) (from 3 s)
              else Failed s (Errorf "unexpected value found: %q" [s])
            else Parsed valueNull (from 4 s)
          else
            match parseRawNumber s with
            | (_, tail, Some err) => Failed tail (Wrapf "cannot parse number: %s" [] err)
            | (ns, tail, None) => Parsed (VNumber ns) tail
            end
      end
  end

with parseArray_loop (fuel : nat) (a : list Value) (s : gostring) (depth : Z) : parsed :=
  match fuel with
  | O => OutOfFuel
  | S fuel =>
      let s := skipWS s in
      match parseValue fuel s depth with
      | OutOfFuel => OutOfFuel
      | Failed s err => Failed s (Wrapf "cannot parse array value: %s" [] err)
      | Parsed x s =>
          let a := a ++ [x] in
          let s := skipWS s in
          match s with
          | [] => Failed s (Errorf "unexpected end of array" [])
          | c :: s1 =>
              if is_byte 44 c then parseArray_loop fuel a s1 depth
              else if is_byte 93 c then Parsed (VArray a) s1
              else Failed s (Errorf "missing ',' after array value" [])
          end
      end
  end

with parseArray (fuel : nat) (s : gostring) (depth : Z) : parsed :=
  match fuel with
  | O => OutOfFuel
  | S fuel =>
      let s := skipWS s in
      match s with
      | [] => Failed s (Errorf "missing ']'" [])
      | c :: s1 =>
          if is_byte 93 c then Parsed (VArray []) s1
          else parseArray_loop fuel [] s depth
      end
  end

with parseObject_loop (fuel : nat) (o : list (kv Value)) (s : gostring) (depth : Z) : parsed :=
  match fuel with
  | O => OutOfFuel
  | S fuel =>
      let s := skipWS s in
      match s with
      | [] => Failed s (Errorf opening_quote_for_key [])
      | c :: s1 =>
          if negb (is_byte 34 c) then Failed s (Errorf opening_quote_for_key [])
          else
            match parseRawKey s1 with
            | (_, s, Some err) => Failed s (Wrapf "cannot parse object key: %s" [] err)
            | (key, s, None) =>
                let s := skipWS s in
                match s with
                | [] => Failed s (Errorf "missing ':' after object key" [])
                | c :: s1 =>
                    if negb (is_byte 58 c)
                    then Failed s (Errorf "missing ':' after object key" [])
                    else
                      let s := skipWS s1 in
                      match parseValue fuel s depth with
                      | OutOfFuel => OutOfFuel
                      | Failed s err =>
                          Failed s (Wrapf "cannot parse object value: %s" [] err)
                      | Parsed x s =>
                          let o := o ++ [mkKV key x] in
                          let s := skipWS s in
                          match s with
                          | [] => Failed s (Errorf "unexpected end of object" [])
                          | c :: s1 =>
                              if is_byte 44 c then parseObject_loop fuel o s1 depth
                              else if is_byte 125 c
                              then Parsed (VObject (mkObject o false)) s1
                              else Failed s (Errorf "missing ',' after object value" [])
                          end
                      end
                end
            end
      end
  end

with parseObject (fuel : nat) (s : gostring) (depth : Z) : parsed :=
  match fuel with
  | O => OutOfFuel
  | S fuel =>
      let s := skipWS s in
      match s with
      | [] => Failed s (Errorf "missing '}'" [])
      | c :: s1 =>
          if is_byte 125 c then Parsed (VObject (mkObject [] false)) s1
          else parseObject_loop fuel [] s depth
      end
  end.

(** Enough fuel for an input: each call either consumes a byte or is
    followed by one that does. *)
Definition fuel_for (s : gostring) : nat := 3 * List.length s + 3.

(** [startEndString], which shortens a tail for an error message, is
    defined outside the files at hand; it only feeds messages. *)
Variable startEndString : gostring -> gostring.

(** [Parser.Parse]: the parser's buffer and cache hold the input and the
    nodes; the result is the value or the error. *)
Definition Parser_Parse (s : gostring) : Value + error :=
  let s := skipWS s in
  match parseValue (fuel_for s) s 0 with
  | OutOfFuel => inr (Errorf "out of fuel" [])
  | Failed tail err =>
      inr (Wrapf "cannot parse JSON: %s; unparsed tail: %q" [startEndString tail] err)
  | Parsed x tail =>
      let tail := skipWS tail in
      if 0 <? len tail then inr (Errorf "unexpected tail: %q" [startEndString tail])
      else inl x
  end.

End Parse.

(** ** Serialization *)

(** [hasSpecialChars]: a quote, a backslash or a byte below 0x20. *)
Definition hasSpecialChars (s : gostring) : bool :=
  (0 <=? IndexByte s 34) || (0 <=? IndexByte s 92) ||
  existsb (fun c => code c <? 32) s.

Section Marshal.

(** [strconv.AppendQuote(dst, s)], the standard library's Go-syntax quoting
    (it depends on Unicode tables); the serializer only hands strings with
    special characters to it. *)
Variable AppendQuote : gostring -> gostring -> gostring.

Definition escapeString (dst s : gostring) : gostring :=
  if negb (hasSpecialChars s) then dst ++ [quote] ++ s ++ [quote]
  else AppendQuote dst s.

(** [Value.MarshalTo], with [Object.MarshalTo] as its case for objects. *)
Fixpoint MarshalTo (x : Value) (dst : gostring) : gostring :=
  match x with
  | VRawString s => dst ++ [quote] ++ s ++ [quote]
  | VObject o =>
      let fix members (l : list (kv Value)) (dst : gostring) : gostring :=
        match l with
        | [] => dst
        | e :: l' =>
            let dst :=
              if keysUnescaped o then escapeString dst (k e)
              else dst ++ [quote] ++ k e ++ [quote] in
            let dst := dst ++ str ":" in
            let dst := MarshalTo (v e) dst in
            let dst := match l' with [] => dst | _ => dst ++ str "," end in
            members l' dst
        end in
      members (kvs o) (dst ++ str "{") ++ str "}"
  | VArray a =>
      let fix elements (l : list Value) (dst : gostring) : gostring :=
        match l with
        | [] => dst
        | vv :: l' =>
            let dst := MarshalTo vv dst in
            let dst := match l' with [] => dst | _ => dst ++ str "," end in
            elements l' dst
        end in
      elements a (dst ++ str "[") ++ str "]"
  | VString s => escapeString dst s
  | VNumber s => dst ++ s
  | VTrue => dst ++ str "true"
  | VFalse => dst ++ str "false"
  | VNull => dst ++ str "null"
  end.

Definition Object_MarshalTo (o : Object) (dst : gostring) : gostring :=
  MarshalTo (VObject o) dst.

End Marshal.

(** ** Accessors and mutators of objects

    An [Object] is mutated in place by its methods; here each method
    returns the object as it leaves it. *)

(** [Value.Type]: a raw string becomes a string, in place. *)
Definition Value_Type (x : Value) : Type_ * Value :=
  match x with
  | VRawString s => (TypeString, VString (unescapeStringBestEffort s))
  | _ => (t x, x)
  end.

Definition unescapeKeys (o : Object) : Object :=
  if keysUnescaped o then o
  else mkObject (map (fun e => mkKV (unescapeStringBestEffort (k e)) (v e)) (kvs o)) true.

(** [for _, kv := range o.kvs { if kv.k == key { return kv.v } }] *)
Fixpoint scan_kvs (l : list (kv Value)) (key : gostring) : option Value :=
  match l with
  | [] => None
  | e :: l' => if gostring_eqb (k e) key then Some (v e) else scan_kvs l' key
  end.

(** [Object.Get]: the value found, if any, and the object afterwards. *)
Definition Object_Get (o : Object) (key : gostring) : option Value * Object :=
  match
    (if negb (keysUnescaped o) && (IndexByte key 92 <? 0)
     then scan_kvs (kvs o) key else None)
  with
  | Some x => (Some x, o)
  | None =>
      let o := unescapeKeys o in
      (scan_kvs (kvs o) key, o)
  end.

Definition Object_Len (o : Object) : Z := Z.of_nat (List.length (kvs o)).

(** [Object.Visit]: [f] is called on each entry in order; its effect is a
    state [S] threaded through the calls. *)
Definition Object_Visit {S : Type} (o : Object) (f : gostring -> Value -> S -> S) (st : S)
  : S * Object :=
  let o := unescapeKeys o in
  (fold_left (fun st e => f (k e) (v e) st) (kvs o) st, o).

(** [for i, kv := range o.kvs { if kv.k == key {
      o.kvs = append(o.kvs[:i], o.kvs[i+1:]...); return } }]:
    the entries without the first one under [key], if there is one. *)
Fixpoint del_kvs (l : list (kv Value)) (key : gostring) : option (list (kv Value)) :=
  match l with
  | [] => None
  | e :: l' =>
      if gostring_eqb (k e) key then Some l'
      else match del_kvs l' key with
           | Some r => Some (e :: r)
           | None => None
           end
  end.

Definition Object_Del (o : Object) (key : gostring) : Object :=
  match
    (if negb (keysUnescaped o) && (IndexByte key 92 <? 0)
     then del_kvs (kvs o) key else None)
  with
  | Some l => mkObject l (keysUnescaped o)
  | None =>
      let o := unescapeKeys o in
      match del_kvs (kvs o) key with
      | Some l => mkObject l (keysUnescaped o)
      | None => o
      end
  end.

(** [for i := range o.kvs { kv := &o.kvs[i]; if kv.k == key {
      kv.v = value; return } }] *)
Fixpoint set_kvs (l : list (kv Value)) (key : gostring) (value : Value)
  : option (list (kv Value)) :=
  match l with
  | [] => None
  | e :: l' =>
      if gostring_eqb (k e) key then Some (mkKV (k e) value :: l')
      else match set_kvs l' key value with
           | Some r => Some (e :: r)
           | None => None
           end
  end.

(** [Object.Set]; [None] is a nil value. *)
Definition Object_Set (o : Object) (key : gostring) (value : option Value) : Object :=
  let value := match value with None => valueNull | Some x => x end in
  let o := unescapeKeys o in
  match set_kvs (kvs o) key value with
  | Some l => mkObject l (keysUnescaped o)
  | None => mkObject (kvs o ++ [mkKV key value]) (keysUnescaped o)
  end.

(** ** The stream scanner *)

(** [type Scanner struct]: [s] is what is left to parse, [err] the last
    error and [v] the last value (the buffer and the cache only supply
    storage). *)
Record Scanner := mkScanner {
  sc_s : gostring;
  sc_err : option error;
  sc_v : option Value
}.

Definition Scanner_Init (s : gostring) : Scanner :=
  {| sc_s := s; sc_err := None; sc_v := None |}.

(** [Scanner.Next]: what it returns and the scanner afterwards. *)
Definition Scanner_Next (sc : Scanner) : bool * Scanner :=
  match sc_err sc with
  | Some _ => (false, sc)
  | None =>
      let s := skipWS (sc_s sc) in
      if len s =? 0
      then (false, {| sc_s := s; sc_err := Some errEOF; sc_v := sc_v sc |})
      else
        match parseValue MaxDepth (fuel_for s) s 0 with
        | Failed _ err => (false, {| sc_s := s; sc_err := Some err; sc_v := sc_v sc |})
        | Parsed x tail => (true, {| sc_s := tail; sc_err := None; sc_v := Some x |})
        | OutOfFuel =>
            (false, {| sc_s := s; sc_err := Some (Errorf "out of fuel" []); sc_v := sc_v sc |})
        end
  end.

(** [Scanner.Error] *)
Definition Scanner_Error (sc : Scanner) : option error :=
  match sc_err sc with
  | Some errEOF => None
  | e => e
  end.

(** [Scanner.Value] *)
Definition Scanner_Value (sc : Scanner) : option Value := sc_v sc.

(** ** The validator *)

Definition too_short_escape : string :=
  "too short escape sequence: " ++ String backslash "u%s".
Definition invalid_escape : string :=
  "invalid escape sequence " ++ String backslash "u%s: %s".
Definition unknown_escape : string :=
  "unknown escape sequence " ++ String backslash "%c".

(** One of the bytes that may follow a backslash: a quote, a backslash, a
    slash or one of [b f n r t]. *)
Definition is_simple_escape (ch : ascii) : bool :=
  is_byte 34 ch || is_byte 92 ch || is_byte 47 ch || is_byte 98 ch ||
  is_byte 102 ch || is_byte 110 ch || is_byte 114 ch || is_byte 116 ch.

(** The loop of [validateString] over the escape sequences of [rs]; every
    round drops at least two bytes of [rs]. *)
Fixpoint validateString_loop (fuel : nat) (rs tail : gostring)
  : gostring * gostring * option error :=
  match fuel with
  | O => (rs, tail, None)
  | S fuel =>
      let n := IndexByte rs 92 in
      if n <? 0 then (rs, tail, None)
      else
        let n := n + 1 in
        if len rs <=? n
        then (rs, tail,
              Some (Errorf "BUG: parseRawString returned invalid string with trailing backslash: %q" [rs]))
        else
          let ch := at_ rs n in
          let rs := from (n + 1) rs in
          if is_simple_escape ch then validateString_loop fuel rs tail
          else if is_byte 117 ch then
            if len rs <? 4 then (rs, tail, Some (Errorf too_short_escape [rs]))
            else
              let xs := upto 4 rs in
              match hex16.ParseUint xs with
              | (_, Some err) => (rs, tail, Some (Wrapf invalid_escape [xs] err))
              | (_, None) => validateString_loop fuel (from 4 rs) tail
              end
          else (rs, tail, Some (Errorf unknown_escape [[ch]]))
  end.

Definition validateString (s : gostring) : gostring * gostring * option error :=
  let n := IndexByte s 34 in
  if (0 <=? n) && (IndexByte (upto n s) 92 <? 0)
  then (upto n s, from (n + 1) s, None)
  else
    match parseRawString s with
    | (rs, tail, Some err) => (rs, tail, Some err)
    | (rs, tail, None) => validateString_loop (List.length rs) rs tail
    end.

(** The loop of [validateKey]; [rest] is [s[i:]]. *)
Fixpoint validateKey_loop (s rest : gostring) (i : Z)
  : gostring * gostring * option error :=
  match rest with
  | [] => ([], s, Some (Errorf missing_closing_quote []))
  | c :: rest' =>
      if is_byte 34 c then (upto i s, from (i + 1) s, None)
      else if is_byte 92 c then validateString s
      else validateKey_loop s rest' (i + 1)
  end.

Definition validateKey (s : gostring) : gostring * gostring * option error :=
  validateKey_loop s s 0.

(** [for i < len(s) { if s[i] < '0' || s[i] > '9' { break }; i++ }], from
    [i] with [rest = s[i:]]. *)
Fixpoint digits_end (rest : gostring) (i : Z) : Z :=
  match rest with
  | [] => i
  | c :: rest' => if is_digit c then digits_end rest' (i + 1) else i
  end.

Definition validateNumber_exponent (s : gostring) (i : Z) : gostring * option error :=
  if is_byte 101 (at_ s i) || is_byte 69 (at_ s i) then
    let s := from (i + 1) s in
    if len s =? 0 then (s, Some (Errorf "missing exponent part" []))
    else
      let signed := is_byte 45 (at_ s 0) || is_byte 43 (at_ s 0) in
      let s := if signed then from 1 s else s in
      if signed && (len s =? 0) then (s, Some (Errorf "missing exponent part" []))
      else
        let i := digits_end s 0 in
        if i =? 0
        then (s, Some (Errorf "expecting 0..9 digit in exponent part, got %c" [[at_ s 0]]))
        else if len s <=? i then ([], None)
        else (from i s, None)
  else (from i s, None).

Definition validateNumber_fraction (s : gostring) (i : Z) : gostring * option error :=
  if is_byte 46 (at_ s i) then
    let s := from (i + 1) s in
    if len s =? 0 then (s, Some (Errorf "missing fractional part" []))
    else
      let i := digits_end s 0 in
      if i =? 0
      then (s, Some (Errorf "expecting 0..9 digit in fractional part, got %c" [[at_ s 0]]))
      else if len s <=? i then ([], None)
      else validateNumber_exponent s i
  else validateNumber_exponent s i.

Definition validateNumber (s0 : gostring) : gostring * option error :=
  if len s0 =? 0 then (s0, Some (Errorf "zero-length number" []))
  else
    let minus := is_byte 45 (at_ s0 0) in
    let s := if minus then from 1 s0 else s0 in
    if minus && (len s =? 0) then (s, Some (Errorf "missing number after minus" []))
    else
      let i := digits_end s 0 in
      if i <=? 0 then (s, Some (Errorf "expecting 0..9 digit, got %c" [[at_ s 0]]))
      else if is_byte 48 (at_ s 0) && negb (i =? 1)
      then (s, Some (Errorf "unexpected number starting from 0" []))
      else if len s <=? i then ([], None)
      else validateNumber_fraction s i.

(** [for i := 0; i < len(sv); i++ { if sv[i] < 0x20 { ... } }]: the first
    control character of [sv]. *)
Fixpoint control_char (sv : gostring) : option ascii :=
  match sv with
  | [] => None
  | c :: sv' => if code c <? 32 then Some c else control_char sv'
  end.

(** What the validating functions return: the tail, with the error if there
    is one ([Go]'s [(string, error)]); [NoFuel] is the embedding's own. *)
Inductive validated :=
| Valid (tail : gostring)
| Invalid (tail : gostring) (err : error)
| NoFuel.

Fixpoint validateValue (fuel : nat) (s : gostring) : validated :=
  match fuel with
  | O => NoFuel
  | S fuel =>
      match s with
      | [] => Invalid s (Errorf "cannot parse empty string" [])
      | c :: s1 =>
          if is_byte 123 c then
            match validateObject fuel s1 with
            | Invalid tail err => Invalid tail (Wrapf "cannot parse object: %s" [] err)
            | r => r
            end
          else if is_byte 91 c then
            match validateArray fuel s1 with
            | Invalid tail err => Invalid tail (Wrapf "cannot parse array: %s" [] err)
            | r => r
            end
          else if is_byte 34 c then
            match validateString s1 with
            | (_, tail, Some err) => Invalid tail (Wrapf "cannot parse string: %s" [] err)
            | (sv, tail, None) =>
                match control_char sv with
                | Some ch =>
                    Invalid tail (Errorf "string cannot contain control char 0x%02X" [[ch]])
                | None => Valid tail
                end
            end
          else if is_byte 116 c then
            if negb (starts_with (str "true") s)
            then Invalid s (Errorf "unexpected value found: %q" [s])
            else Valid (from 4 s)
          else if is_byte 102 c then
            if negb (starts_with (str "false") s)
            then Invalid s (Errorf "unexpected value found: %q" [s])
            else Valid (from 5 s)
          else if is_byte 110 c then
            if negb (starts_with (str "null") s)
            then Invalid s (Errorf "unexpected value found: %q" [s])
            else Valid (from 4 s)
          else
            match validateNumber s with
            | (tail, Some err) => Invalid tail (Wrapf "cannot parse number: %s" [] err)
            | (tail, None) => Valid tail
            end
      end
  end

with validateArray_loop (fuel : nat) (s : gostring) : validated :=
  match fuel with
  | O => NoFuel
  | S fuel =>
      let s := skipWS s in
      match validateValue fuel s with
      | NoFuel => NoFuel
      | Invalid s err => Invalid s (Wrapf "cannot parse array value: %s" [] err)
      | Valid s =>
          let s := skipWS s in
          match s with
          | [] => Invalid s (Errorf "unexpected end of array" [])
          | c :: s1 =>
              if is_byte 44 c then validateArray_loop fuel s1
              else if is_byte 93 c then Valid s1
              else Invalid s (Errorf "missing ',' after array value" [])
          end
      end
  end

with validateArray (fuel : nat) (s : gostring) : validated :=
  match fuel with
  | O => NoFuel
  | S fuel =>
      let s := skipWS s in
      match s with
      | [] => Invalid s (Errorf "missing ']'" [])
      | c :: s1 => if is_byte 93 c then Valid s1 else validateArray_loop fuel s
      end
  end

with validateObject_loop (fuel : nat) (s : gostring) : validated :=
  match fuel with
  | O => NoFuel
  | S fuel =>
      let s := skipWS s in
      match s with
      | [] => Invalid s (Errorf opening_quote_for_key [])
      | c :: s1 =>
          if negb (is_byte 34 c) then Invalid s (Errorf opening_quote_for_key [])
          else
            match validateKey s1 with
            | (_, s, Some err) => Invalid s (Wrapf "cannot parse object key: %s" [] err)
            | (key, s, None) =>
                match control_char key with
                | Some ch =>
                    Invalid s (Errorf "object key cannot contain control char 0x%02X" [[ch]])
                | None =>
                    let s := skipWS s in
                    match s with
                    | [] => Invalid s (Errorf "missing ':' after object key" [])
                    | c :: s1 =>
                        if negb (is_byte 58 c)
                        then Invalid s (Errorf "missing ':' after object key" [])
                        else
                          let s := skipWS s1 in
                          match validateValue fuel s with
                          | NoFuel => NoFuel
                          | Invalid s err =>
                              Invalid s (Wrapf "cannot parse object value: %s" [] err)
                          | Valid s =>
                              let s := skipWS s in
                              match s with
                              | [] => Invalid s (Errorf "unexpected end of object" [])
                              | c :: s1 =>
                                  if is_byte 44 c then validateObject_loop fuel s1
                                  else if is_byte 125 c then Valid s1
                                  else Invalid s (Errorf "missing ',' after object value" [])
                              end
                          end
                    end
                end
            end
      end
  end

with validateObject (fuel : nat) (s : gostring) : validated :=
  match fuel with
  | O => NoFuel
  | S fuel =>
      let s := skipWS s in
      match s with
      | [] => Invalid s (Errorf "missing '}'" [])
      | c :: s1 => if is_byte 125 c then Valid s1 else validateObject_loop fuel s
      end
  end.

Section Validate.

Variable startEndString : gostring -> gostring.

(** [Validate]: [None] is a nil error. *)
Definition Validate (s : gostring) : option error :=
  let s := skipWS s in
  match validateValue (fuel_for s) s with
  | NoFuel => Some (Errorf "out of fuel" [])
  | Invalid tail err =>
      Some (Wrapf "cannot parse JSON: %s; unparsed tail: %q" [startEndString tail] err)
  | Valid tail =>
      let tail := skipWS tail in
      if 0 <? len tail then Some (Errorf "unexpected tail: %q" [startEndString tail])
      else None
  end.

End Validate.

(** ** Vocabulary of the properties *)

(** The number of leading decimal digits of a string. *)
Fixpoint leading_digits (s : gostring) : Z :=
  match s with
  | c :: s' => if is_digit c then 1 + leading_digits s' else 0
  | [] => 0
  end.

(** The decimal value of the digits [rest], continuing from [n]. *)
Fixpoint decimal (rest : gostring) (n : Z) : Z :=
  match rest with
  | [] => n
  | c :: rest' => decimal rest' (n * 10 + (code c - 48))
  end.

(** A width that holds every number below [10 ^ 18]. *)
Definition wide (wrap : Z -> Z) : Prop :=
  forall z, 0 <= z < 10 ^ 18 -> wrap z = z.

(** The outcome of a scan under a function of its own result. *)
Definition outcome_map {A B} (g : A -> B) (o : fastfloat.outcome A) : fastfloat.outcome B :=
  match o with
  | fastfloat.Own r => fastfloat.Own (g r)
  | fastfloat.Library at_site => fastfloat.Library at_site
  end.

(** A string that is empty or starts with a byte that is no digit. *)
Definition no_digit_ahead (rest : gostring) : bool :=
  match rest with
  | [] => true
  | c :: _ => negb (is_digit c)
  end.

(** What a strict integer decoder makes of the library's result:
    [if err != nil { return 0, err }; return dd, nil]. *)
Definition strict_of (r : Z * option error) : Z * option error :=
  match r with
  | (_, Some err) => (0, Some err)
  | (dd, None) => (dd, None)
  end.

(** What a best-effort integer decoder makes of a result with an error. *)
Definition best_of (r : Z * option error) : Z :=
  match r with
  | (_, Some _) => 0
  | (dd, None) => dd
  end.

(** The index at which the digit loop of the signed decoders stops on [s]
    when nothing cuts it short: the leading ['-'], if any, counts. *)
Definition signed_index (s : gostring) : Z :=
  match s with
  | c :: s' => if is_byte 45 c then 1 + leading_digits s' else leading_digits s
  | [] => 0
  end.

(** The optional sign of a literal. *)
Definition sign_of (minus : bool) : gostring := if minus then str "-" else [].

(** The scanner after [n] more calls of [Next]. *)
Fixpoint after_calls (n : nat) (sc : Scanner) : Scanner :=
  match n with
  | O => sc
  | S n => after_calls n (snd (Scanner_Next sc))
  end.

(** The key of an entry as a lookup compares it once the keys are
    unescaped: the stored key when the object's keys are unescaped
    already, its unescaped form otherwise. *)
Definition logical_key (o : Object) (e : kv Value) : gostring :=
  if keysUnescaped o then k e else unescapeStringBestEffort (k e).

(** The value of the first entry, in the order of the entries, whose key
    under [key_of] is [key]. *)
Definition first_match (key_of : kv Value -> gostring) (l : list (kv Value))
  (key : gostring) : option Value :=
  option_map v (find (fun e => gostring_eqb (key_of e) key) l).

(** The byte sequence of an escape: a backslash, [u] and four hexadecimal
    digits. *)
Definition escape_u (digits : string) : gostring := backslash :: str "u" ++ str digits.

(** The raw scan of [Get] and [Del] applies and finds the key: the keys are
    not unescaped yet, the search key has no backslash, and a stored key is
    the search key. *)
Definition raw_hit (o : Object) (key : gostring) : bool :=
  negb (keysUnescaped o) && (IndexByte key 92 <? 0) &&
  existsb (fun e => gostring_eqb (k e) key) (kvs o).

(** The members of an object as [Object.MarshalTo] lays them out, with
    [key_bytes] for what a key appends. *)
Fixpoint marshal_members (value_bytes : Value -> gostring -> gostring)
  (key_bytes : gostring -> gostring -> gostring)
  (l : list (kv Value)) (dst : gostring) : gostring :=
  match l with
  | [] => dst
  | e :: l' =>
      let dst := value_bytes (v e) (key_bytes dst (k e) ++ str ":") in
      marshal_members value_bytes key_bytes l'
        (match l' with [] => dst | _ => dst ++ str "," end)
  end.

(** A key emitted raw between quotes. *)
Definition raw_key_bytes (dst key : gostring) : gostring :=
  dst ++ [quote] ++ key ++ [quote].

(** The document with the members [u0061 : 1] and [a : 2], the first key
    written as the escape of the letter a. *)
Definition escaped_duplicate : gostring :=
  str "{" ++ [quote] ++ escape_u "0061" ++ [quote] ++ str ":1," ++
  [quote] ++ str "a" ++ [quote] ++ str ":2}".

(** The object with the one member [a\/b : 1], the key raw as parsed. *)
Definition escaped_slash : Object :=
  mkObject [mkKV (str "a" ++ [backslash] ++ str "/b") (VNumber (str "1"))] false.

(** A string literal with the control character 0x01 before an escape
    sequence, one with it after, and an object whose key has it before an
    escape sequence. *)
Definition control_before_escape : gostring :=
  [quote; byte_of 1; backslash] ++ str "n" ++ [quote].
Definition control_after_escape : gostring :=
  [quote; backslash] ++ str "n" ++ [byte_of 1; quote].
Definition control_in_key_before_escape : gostring :=
  str "{" ++ [quote; byte_of 1; backslash] ++ str "n" ++ [quote] ++ str ":1}".

(** The error an error wraps, innermost. *)
Fixpoint root_cause (e : error) : error :=
  match e with
  | Wrapf _ _ cause => root_cause cause
  | _ => e
  end.

(** The error is, at its root, that of [parseValue] for a depth over the
    limit. *)
Definition is_depth_error (e : error) : bool :=
  match root_cause e with
  | Errorf format _ =>
      String.eqb format "too big depth for the nested JSON; it exceeds %d"
  | _ => false
  end.

(** The parse failed, and for the depth. *)
Definition fails_for_depth (r : parsed) : Prop :=
  exists tail e, r = Failed tail e /\ is_depth_error e = true.

(** The deepest of the elements of an array, and of the members of an
    object. *)
Definition elements_depth (l : list Value) : Z :=
  fold_right (fun e m => Z.max (value_depth e) m) 0 l.
Definition members_depth (l : list (kv Value)) : Z :=
  fold_right (fun e m => Z.max (value_depth (v e)) m) 0 l.

(** [n] arrays, one inside the other, and the document that denotes
    them. *)
Fixpoint nested_arrays (n : nat) : Value :=
  match n with
  | O => VArray []
  | S n => VArray [nested_arrays n]
  end.
Definition nested_brackets (n : nat) : gostring :=
  repeat "["%char (S n) ++ repeat "]"%char (S n).

(** A parse under the limit [L] that succeeded, and the same parse under
    the limit [M]: it succeeds alike when the value fits [M], and fails for
    the depth when it does not.  [d] is the depth the parse starts at. *)
Definition value_sim (L M : Z) (fuel : nat) : Prop :=
  forall s d x tail,
    parseValue L fuel s d = Parsed x tail ->
    (d + value_depth x <= M -> parseValue M fuel s d = Parsed x tail) /\
    (M < d + value_depth x -> fails_for_depth (parseValue M fuel s d)).

Definition array_loop_sim (L M : Z) (fuel : nat) : Prop :=
  forall a s d x tail,
    parseArray_loop L fuel a s d = Parsed x tail ->
    exists new, x = VArray (a ++ new) /\
    (d + elements_depth new <= M -> parseArray_loop M fuel a s d = Parsed x tail) /\
    (M < d + elements_depth new -> fails_for_depth (parseArray_loop M fuel a s d)).

Definition array_sim (L M : Z) (fuel : nat) : Prop :=
  forall s d x tail,
    parseArray L fuel s d = Parsed x tail ->
    exists new, x = VArray new /\
    (d + elements_depth new <= M -> parseArray M fuel s d = Parsed x tail) /\
    (M < d + elements_depth new -> d <= M -> fails_for_depth (parseArray M fuel s d)).

Definition object_loop_sim (L M : Z) (fuel : nat) : Prop :=
  forall o s d x tail,
    parseObject_loop L fuel o s d = Parsed x tail ->
    exists new, x = VObject (mkObject (o ++ new) false) /\
    (d + members_depth new <= M -> parseObject_loop M fuel o s d = Parsed x tail) /\
    (M < d + members_depth new -> fails_for_depth (parseObject_loop M fuel o s d)).

Definition object_sim (L M : Z) (fuel : nat) : Prop :=
  forall s d x tail,
    parseObject L fuel s d = Parsed x tail ->
    exists new, x = VObject (mkObject new false) /\
    (d + members_depth new <= M -> parseObject M fuel s d = Parsed x tail) /\
    (M < d + members_depth new -> d <= M -> fails_for_depth (parseObject M fuel s d)).

(** ** Paths, typed accessors and updates of values

    Go's [int] and [uint] are taken as 64 bits wide, as on the 64-bit
    platforms. *)

Definition int (z : Z) : Z := int64 z.
Definition uint (z : Z) : Z := uint64 z.

(** [strconv.Atoi(s)], the standard library's: [ParseInt(s, 10, 0)] with
    the error renamed after [Atoi]; its fast path for short strings
    computes the same value and fails on the same strings. *)
Definition Atoi (s : gostring) : Z * option error :=
  match strconv.ParseInt s with
  | (n, Some (NumError _ num err)) => (int n, Some (NumError "Atoi" num err))
  | (n, e) => (int n, e)
  end.

(** [Type.String]; [None] is the panic on [typeRawString]. *)
Definition Type_String (ty : Type_) : option gostring :=
  match ty with
  | TypeObject => Some (str "object")
  | TypeArray => Some (str "array")
  | TypeString => Some (str "string")
  | TypeNumber => Some (str "number")
  | TypeTrue => Some (str "true")
  | TypeFalse => Some (str "false")
  | TypeNull => Some (str "null")
  | typeRawString => None
  end.

(** The argument [v.Type()] of the accessors' error messages, under
    [%s]. *)
Definition type_name (x : Value) : gostring :=
  match Type_String (fst (Value_Type x)) with
  | Some name => name
  | None => []
  end.

(** [Value.Get(keys...)] on a value that is not nil: the value found, or
    [None] for nil.  The lookups in the objects on the way rewrite their
    keys as [Object_Get] says; the value found is not touched. *)
Fixpoint Value_Get (x : Value) (keys : list gostring) : option Value :=
  match keys with
  | [] => Some x
  | key :: keys' =>
      match x with
      | VObject o =>
          match fst (Object_Get o key) with
          | Some y => Value_Get y keys'
          | None => None
          end
      | VArray a =>
          match Atoi key with
          | (_, Some _) => None
          | (n, None) =>
              if (n <? 0) || (Z.of_nat (List.length a) <=? n) then None
              else match nth_error a (Z.to_nat n) with
                   | Some y => Value_Get y keys'
                   | None => None
                   end
          end
      | _ => None
      end
  end.

(** [Value.Exists(keys...)] *)
Definition Value_Exists (x : Value) (keys : list gostring) : bool :=
  match Value_Get x keys with
  | Some _ => true
  | None => false
  end.

(** [Value.GetObject(keys...)]; [None] is nil. *)
Definition Value_GetObject (x : Value) (keys : list gostring) : option Object :=
  match Value_Get x keys with
  | Some (VObject o) => Some o
  | _ => None
  end.

(** [Value.GetArray(keys...)]; a nil slice is the empty one. *)
Definition Value_GetArray (x : Value) (keys : list gostring) : list Value :=
  match Value_Get x keys with
  | Some (VArray a) => a
  | _ => []
  end.

(** [v.Type() != TypeNumber] fails and [v.s]: the text of a number. *)
Definition number_text (x : Value) : option gostring :=
  match Value_Type x with
  | (TypeNumber, VNumber s) => Some s
  | _ => None
  end.

(** [v.Type() != TypeString] fails and [v.s]: the text of a string, which
    [Type] has unescaped if it was raw. *)
Definition string_text (x : Value) : option gostring :=
  match Value_Type x with
  | (TypeString, VString s) => Some s
  | _ => None
  end.

(** [Value.GetFloat64(keys...)] *)
Definition Value_GetFloat64 (x : Value) (keys : list gostring) : float64 :=
  match Value_Get x keys with
  | None => PrimFloat.zero
  | Some y =>
      match number_text y with
      | None => PrimFloat.zero
      | Some s => fastfloat.ParseBestEffort strconv.ParseFloat s
      end
  end.

(** [Value.GetInt(keys...)] *)
Definition Value_GetInt (x : Value) (keys : list gostring) : Z :=
  match Value_Get x keys with
  | None => 0
  | Some y =>
      match number_text y with
      | None => 0
      | Some s =>
          let n := fastfloat.ParseInt64BestEffort strconv.ParseInt s in
          let nn := int n in
          if negb (int64 nn =? n) then 0 else nn
      end
  end.

(** [Value.GetUint(keys...)] *)
Definition Value_GetUint (x : Value) (keys : list gostring) : Z :=
  match Value_Get x keys with
  | None => 0
  | Some y =>
      match number_text y with
      | None => 0
      | Some s =>
          let n := fastfloat.ParseUint64BestEffort strconv.ParseUint s in
          let nn := uint n in
          if negb (uint64 nn =? n) then 0 else nn
      end
  end.

(** [Value.GetInt64(keys...)] *)
Definition Value_GetInt64 (x : Value) (keys : list gostring) : Z :=
  match Value_Get x keys with
  | None => 0
  | Some y =>
      match number_text y with
      | None => 0
      | Some s => fastfloat.ParseInt64BestEffort strconv.ParseInt s
      end
  end.

(** [Value.GetUint64(keys...)] *)
Definition Value_GetUint64 (x : Value) (keys : list gostring) : Z :=
  match Value_Get x keys with
  | None => 0
  | Some y =>
      match number_text y with
      | None => 0
      | Some s => fastfloat.ParseUint64BestEffort strconv.ParseUint s
      end
  end.

(** [Value.GetStringBytes(keys...)]; a nil slice is the empty one. *)
Definition Value_GetStringBytes (x : Value) (keys : list gostring) : gostring :=
  match Value_Get x keys with
  | None => []
  | Some y =>
      match string_text y with
      | None => []
      | Some s => s
      end
  end.

(** [Value.GetBool(keys...)] *)
Definition Value_GetBool (x : Value) (keys : list gostring) : bool :=
  match Value_Get x keys with
  | Some VTrue => true
  | _ => false
  end.

(** [Value.Object] *)
Definition Value_Object (x : Value) : option Object * option error :=
  match x with
  | VObject o => (Some o, None)
  | _ => (None, Some (Errorf "value doesn't contain object; it contains %s" [type_name x]))
  end.

(** [Value.Array] *)
Definition Value_Array (x : Value) : list Value * option error :=
  match x with
  | VArray a => (a, None)
  | _ => ([], Some (Errorf "value doesn't contain array; it contains %s" [type_name x]))
  end.

(** [Value.StringBytes] *)
Definition Value_StringBytes (x : Value) : gostring * option error :=
  match string_text x with
  | Some s => (s, None)
  | None => ([], Some (Errorf "value doesn't contain string; it contains %s" [type_name x]))
  end.

(** [Value.Float64] *)
Definition Value_Float64 (x : Value) : float64 * option error :=
  match number_text x with
  | Some s => fastfloat.Parse strconv.ParseFloat s
  | None =>
      (PrimFloat.zero,
       Some (Errorf "value doesn't contain number; it contains %s" [type_name x]))
  end.

(** [Value.Int] *)
Definition Value_Int (x : Value) : Z * option error :=
  match number_text x with
  | None => (0, Some (Errorf "value doesn't contain number; it contains %s" [type_name x]))
  | Some s =>
      match fastfloat.ParseInt64 strconv.ParseInt s with
      | (_, Some err) => (0, Some err)
      | (n, None) =>
          let nn := int n in
          if negb (int64 nn =? n)
          then (0, Some (Errorf "number %q doesn't fit int" [s]))
          else (nn, None)
      end
  end.

(** [Value.Uint] *)
Definition Value_Uint (x : Value) : Z * option error :=
  match number_text x with
  | None => (0, Some (Errorf "value doesn't contain number; it contains %s" [type_name x]))
  | Some s =>
      match fastfloat.ParseUint64 strconv.ParseUint s with
      | (_, Some err) => (0, Some err)
      | (n, None) =>
          let nn := uint n in
          if negb (uint64 nn =? n)
          then (0, Some (Errorf "number %q doesn't fit uint" [s]))
          else (nn, None)
      end
  end.

(** [Value.Int64] *)
Definition Value_Int64 (x : Value) : Z * option error :=
  match number_text x with
  | Some s => fastfloat.ParseInt64 strconv.ParseInt s
  | None => (0, Some (Errorf "value doesn't contain number; it contains %s" [type_name x]))
  end.

(** [Value.Uint64] *)
Definition Value_Uint64 (x : Value) : Z * option error :=
  match number_text x with
  | Some s => fastfloat.ParseUint64 strconv.ParseUint s
  | None => (0, Some (Errorf "value doesn't contain number; it contains %s" [type_name x]))
  end.

(** [Value.Bool] *)
Definition Value_Bool (x : Value) : bool * option error :=
  match x with
  | VTrue => (true, None)
  | VFalse => (false, None)
  | _ => (false, Some (Errorf "value doesn't contain bool; it contains %s" [type_name x]))
  end.

(** [Value.SetArrayItem(idx, value)] on a value that is not nil, with a
    [value] that is not nil: the value afterwards, or [None] for the panic
    of the assignment [v.a[idx] = value] at a negative index.  The array
    first grows by null values until [idx] is in it. *)
Definition Value_SetArrayItem (x : Value) (idx : Z) (value : Value) : option Value :=
  match x with
  | VArray a =>
      if idx <? 0 then None
      else
        let a := a ++ repeat valueNull (Z.to_nat (idx + 1) - List.length a) in
        Some (VArray (firstn (Z.to_nat idx) a ++ value :: skipn (S (Z.to_nat idx)) a))
  | _ => Some x
  end.

(** [Value.Set(key, value)] on a value that is not nil, with a [value]
    that is not nil. *)
Definition Value_Set (x : Value) (key : gostring) (value : Value) : Value :=
  match x with
  | VObject o => VObject (Object_Set o key (Some value))
  | VArray a =>
      match Atoi key with
      | (_, Some _) => x
      | (idx, None) =>
          if idx <? 0 then x
          else match Value_SetArrayItem x idx value with
               | Some y => y
               | None => x
               end
      end
  | _ => x
  end.

(** [Value.Del(key)] on a value that is not nil. *)
Definition Value_Del (x : Value) (key : gostring) : Value :=
  match x with
  | VObject o => VObject (Object_Del o key)
  | VArray a =>
      match Atoi key with
      | (_, Some _) => x
      | (n, None) =>
          if (n <? 0) || (Z.of_nat (List.length a) <=? n) then x
          else VArray (firstn (Z.to_nat n) a ++ skipn (S (Z.to_nat n)) a)
      end
  | _ => x
  end.

(** [Object.String] and [Value.String]: [MarshalTo(nil)]. *)
Definition Value_String (AppendQuote : gostring -> gostring -> gostring) (x : Value)
  : gostring :=
  MarshalTo AppendQuote x [].

(** An entry of the object has the key [key], its own key taken
    unescaped. *)
Definition has_key (o : Object) (key : gostring) : bool :=
  existsb (fun e => gostring_eqb (logical_key o e) key) (kvs o).

(** The number of entries of the object with the key [key]. *)
Definition count_key (o : Object) (key : gostring) : nat :=
  List.length (filter (fun e => gostring_eqb (logical_key o e) key) (kvs o)).

(** A string that is empty or starts with a byte that no number holds:
    where the scan of [parseRawNumber] stops. *)
Definition number_ends (tail : gostring) : bool :=
  match tail with
  | [] => true
  | c :: _ => negb (is_number_byte c)
  end.

(** The parse of what was validated: it succeeds with the tail the
    validator left, or it fails for the depth. *)
Definition parses_to (r : parsed) (tail : gostring) : Prop :=
  (exists x, r = Parsed x tail) \/ fails_for_depth r.

(** The elements of an array as [Value.MarshalTo] lays them out. *)
Fixpoint marshal_elements (value_bytes : Value -> gostring -> gostring)
  (l : list Value) (dst : gostring) : gostring :=
  match l with
  | [] => dst
  | vv :: l' =>
      let dst := value_bytes vv dst in
      marshal_elements value_bytes l' (match l' with [] => dst | _ => dst ++ str "," end)
  end.

(** What may stand behind the text of a value that is parsed again, when
    [tail] stood behind it the first time: nothing, or, if [tail] was not
    empty, a byte that no number holds. *)
Definition follows (tail tail' : gostring) : Prop :=
  tail' = [] \/ (tail <> [] /\ number_ends tail' = true).

(** A value as the parser makes it, for the serializer and the parser:
    [MarshalTo] appends its text to what it is given, the text starts with a
    byte above the space that is no closing bracket, and the text parses to the value again, at any
    depth at which it was parsed and with the same fuel. *)
Definition reparses (AppendQuote : gostring -> gostring -> gostring) (limit : Z)
  (fuel : nat) (d : Z) (tail : gostring) (x : Value) : Prop :=
  (forall dst, MarshalTo AppendQuote x dst = dst ++ MarshalTo AppendQuote x []) /\
  (exists c r, MarshalTo AppendQuote x [] = c :: r /\ 32 < code c /\ is_byte 93 c = false) /\
  (forall tail', follows tail tail' ->
     parseValue limit fuel (MarshalTo AppendQuote x [] ++ tail') d = Parsed x tail').

(** The same without the parse: what the elements of a parsed array and
    the members of a parsed object keep. *)
Definition marshals (AppendQuote : gostring -> gostring -> gostring) (x : Value) : Prop :=
  (forall dst, MarshalTo AppendQuote x dst = dst ++ MarshalTo AppendQuote x []) /\
  (exists c r, MarshalTo AppendQuote x [] = c :: r /\ 32 < code c /\ is_byte 93 c = false).

(** A key as the parser stores it: the tokenizer of keys reads it again,
    whatever stands behind its closing quote. *)
Definition key_reparses (key : gostring) : Prop :=
  forall rest, parseRawKey (key ++ quote :: rest) = (key, rest, None).

Definition member_marshals (AppendQuote : gostring -> gostring -> gostring)
  (e : kv Value) : Prop :=
  key_reparses (k e) /\ marshals AppendQuote (v e).

(** What the parse of an array or an object yields, for a second parse of
    its text: the loops add the elements or members [new] to what they are
    given, and do so again on the text of [new] before a closing bracket. *)
Definition array_loop_reparses (AppendQuote : gostring -> gostring -> gostring)
  (limit : Z) (fuel : nat) : Prop :=
  forall a s d x tail,
    parseArray_loop limit fuel a s d = Parsed x tail ->
    exists new, x = VArray (a ++ new) /\ new <> [] /\
      Forall (marshals AppendQuote) new /\
      forall a' tail',
        parseArray_loop limit fuel a'
          (marshal_elements (MarshalTo AppendQuote) new [] ++ str "]" ++ tail') d =
        Parsed (VArray (a' ++ new)) tail'.

Definition array_reparses (AppendQuote : gostring -> gostring -> gostring)
  (limit : Z) (fuel : nat) : Prop :=
  forall s d x tail,
    parseArray limit fuel s d = Parsed x tail ->
    exists new, x = VArray new /\ Forall (marshals AppendQuote) new /\
      forall tail',
        parseArray limit fuel
          (marshal_elements (MarshalTo AppendQuote) new [] ++ str "]" ++ tail') d =
        Parsed (VArray new) tail'.

Definition object_loop_reparses (AppendQuote : gostring -> gostring -> gostring)
  (limit : Z) (fuel : nat) : Prop :=
  forall o s d x tail,
    parseObject_loop limit fuel o s d = Parsed x tail ->
    exists new, x = VObject (mkObject (o ++ new) false) /\ new <> [] /\
      Forall (member_marshals AppendQuote) new /\
      forall o' tail',
        parseObject_loop limit fuel o'
          (marshal_members (MarshalTo AppendQuote) raw_key_bytes new [] ++ str "}" ++ tail') d =
        Parsed (VObject (mkObject (o' ++ new) false)) tail'.

Definition object_reparses (AppendQuote : gostring -> gostring -> gostring)
  (limit : Z) (fuel : nat) : Prop :=
  forall s d x tail,
    parseObject limit fuel s d = Parsed x tail ->
    exists new, x = VObject (mkObject new false) /\
      Forall (member_marshals AppendQuote) new /\
      forall tail',
        parseObject limit fuel
          (marshal_members (MarshalTo AppendQuote) raw_key_bytes new [] ++ str "}" ++ tail') d =
        Parsed (VObject (mkObject new false)) tail'.

Definition value_reparses (AppendQuote : gostring -> gostring -> gostring)
  (limit : Z) (fuel : nat) : Prop :=
  forall s d x tail,
    parseValue limit fuel s d = Parsed x tail ->
    reparses AppendQuote limit fuel d tail x.

(** A document with white space between its tokens, and the value it
    denotes. *)
Definition sample_document : gostring :=
  str " {" ++ [quote] ++ str "a" ++ [quote] ++ str " : [1, -2.5e3 , true, null, " ++
  [quote] ++ str "x" ++ [backslash; quote] ++ str "y" ++ [quote] ++ str "] } ".

Definition sample_value : Value :=
  VObject (mkObject
    [mkKV (str "a")
       (VArray [VNumber (str "1"); VNumber (str "-2.5e3"); VTrue; VNull;
                VRawString (str "x" ++ [backslash; quote] ++ str "y")])] false).

(** [s] without its leading bytes that satisfy [p]. *)
Fixpoint drop_while (p : ascii -> bool) (s : gostring) : gostring :=
  match s with
  | [] => []
  | c :: s' => if p c then drop_while p s' else s
  end.

(** The numbers of JSON: an optional minus; a zero, or a digit that is not
    zero and more digits; an optional fraction, a dot and digits; an
    optional exponent, [e] or [E], an optional sign and digits. *)
Definition json_int (s : gostring) : Prop :=
  s = str "0" \/
  exists d ds, s = d :: ds /\ is_digit d = true /\ is_byte 48 d = false /\
               forallb is_digit ds = true.

Definition json_frac (s : gostring) : Prop :=
  s = [] \/
  exists c fs, s = c :: fs /\ is_byte 46 c = true /\ fs <> [] /\ forallb is_digit fs = true.

Definition json_exp (s : gostring) : Prop :=
  s = [] \/
  exists e sign es, s = e :: sign ++ es /\
    (is_byte 101 e = true \/ is_byte 69 e = true) /\
    (sign = [] \/ exists c, sign = [c] /\ (is_byte 45 c = true \/ is_byte 43 c = true)) /\
    es <> [] /\ forallb is_digit es = true.

Definition json_number (s : gostring) : Prop :=
  exists minus int frac exp,
    s = minus ++ int ++ frac ++ exp /\
    (minus = [] \/ exists c, minus = [c] /\ is_byte 45 c = true) /\
    json_int int /\ json_frac frac /\ json_exp exp.

(** ** The bodies of string literals *)

(** The body of a string literal, read from the left: bytes other than a
    quote and a backslash, and pairs of a backslash and any byte.  [esc]
    says that the byte before was the backslash of a pair. *)
Fixpoint raw_from (esc : bool) (s : gostring) : bool :=
  match s with
  | [] => negb esc
  | c :: s' =>
      if esc then raw_from false s'
      else if is_byte 92 c then raw_from true s'
      else if is_byte 34 c then false
      else raw_from false s'
  end.

Definition raw_body (s : gostring) : bool := raw_from false s.

(** Whether the last byte of [s] is the backslash of a pair that [s] does
    not complete. *)
Fixpoint esc_after (esc : bool) (s : gostring) : bool :=
  match s with
  | [] => esc
  | c :: s' => esc_after (if esc then false else is_byte 92 c) s'
  end.

(** A body with the escapes of a quote, a backslash and a letter. *)
Definition escaped_body : gostring :=
  str "a" ++ [backslash; quote] ++ str "b" ++ [backslash; backslash] ++
  [backslash] ++ str "n".

(** * Properties *)

(** ** Strings and indices *)


Lemma leading_digits_nonneg s : 0 <= leading_digits s.
Proof. induction s as [|c s IH]; cbn [leading_digits]; [lia|]. destruct (is_digit c); lia. Qed.

Lemma len_nil : len [] = 0. Proof. reflexivity. Qed.
Lemma len_cons c s : len (c :: s) = 1 + len s.
Proof. unfold len. cbn [List.length]. lia. Qed.
Lemma len_nonneg s : 0 <= len s. Proof. unfold len. lia. Qed.
Lemma len_app a b : len (a ++ b) = len a + len b.
Proof. unfold len. rewrite length_app. lia. Qed.

Lemma leading_digits_le s : leading_digits s <= len s.
Proof.
  induction s as [|c s IH]; cbn [leading_digits]; [rewrite len_nil; lia|].
  rewrite len_cons. destruct (is_digit c); pose proof (len_nonneg s); lia.
Qed.

Lemma is_digit_range c : is_digit c = true -> 0 <= code c - 48 <= 9.
Proof. unfold is_digit. intros H. apply andb_prop in H. lia. Qed.

Lemma upto_0 s : upto 0 s = [].
Proof. reflexivity. Qed.

Lemma upto_succ n c s : 0 <= n -> upto (1 + n) (c :: s) = c :: upto n s.
Proof.
  intros Hn. unfold upto. replace (Z.to_nat (1 + n)) with (S (Z.to_nat n)) by lia.
  reflexivity.
Qed.

Lemma from_0 s : from 0 s = s.
Proof. reflexivity. Qed.

Lemma from_succ n c s : 0 <= n -> from (1 + n) (c :: s) = from n s.
Proof.
  intros Hn. unfold from. replace (Z.to_nat (1 + n)) with (S (Z.to_nat n)) by lia.
  reflexivity.
Qed.

(** The loop leaves for the library exactly when the index passes 18. *)
Lemma int_loop_None wrap rest : forall i d,
  i <= 18 ->
  (fastfloat.int_loop wrap rest i d = None <-> 18 < i + leading_digits rest).
Proof.
  induction rest as [|c rest IH]; intros i d Hi; cbn [fastfloat.int_loop leading_digits].
  - split; [discriminate | lia].
  - destruct (is_digit c).
    + destruct (18 <? i + 1) eqn:E.
      * apply Z.ltb_lt in E. pose proof (leading_digits_nonneg rest). split; [lia | reflexivity].
      * apply Z.ltb_ge in E. rewrite IH by lia. lia.
    + split; [discriminate | lia].
Qed.


Lemma uint64_wide : wide uint64.
Proof. intros z Hz. unfold uint64. apply Z.mod_small. lia. Qed.

Lemma int64_wide : wide int64.
Proof. intros z Hz. unfold int64. rewrite Z.mod_small; lia. Qed.

Lemma pow10_step i : 0 <= i -> 10 ^ (i + 1) = 10 * 10 ^ i.
Proof. intros. rewrite Z.pow_add_r by lia. lia. Qed.

Lemma pow10_mono i j : 0 <= i <= j -> 10 ^ i <= 10 ^ j.
Proof. intros. apply Z.pow_le_mono_r; lia. Qed.

(** When the loop ends by itself, it has read the leading digits and holds
    their value. *)
Lemma int_loop_Some wrap rest : wide wrap -> forall i d i' d',
  0 <= i <= 18 -> 0 <= d < 10 ^ i ->
  fastfloat.int_loop wrap rest i d = Some (i', d') ->
  i' = i + leading_digits rest /\ i' <= 18 /\
  d' = decimal (upto (leading_digits rest) rest) d /\ 0 <= d' < 10 ^ i'.
Proof.
  intros Hw. induction rest as [|c rest IH]; intros i d i' d' Hi Hd H;
    cbn [fastfloat.int_loop leading_digits] in *.
  - injection H as <- <-. rewrite upto_0. cbn [decimal]. repeat split; lia.
  - destruct (is_digit c) eqn:Hc.
    + destruct (18 <? i + 1) eqn:E; [discriminate|]. apply Z.ltb_ge in E.
      pose proof (is_digit_range c Hc) as Hr.
      assert (Hb : 0 <= d * 10 + (code c - 48) < 10 ^ (i + 1)).
      { rewrite pow10_step by lia. lia. }
      assert (Hs : wrap (d * 10 + (code c - 48)) = d * 10 + (code c - 48)).
      { apply Hw. pose proof (pow10_mono (i + 1) 18). lia. }
      rewrite Hs in H. apply IH in H; [|lia|exact Hb].
      destruct H as (-> & H18 & -> & Hd').
      rewrite upto_succ by apply leading_digits_nonneg. cbn [decimal].
      repeat split; try lia.
    + injection H as <- <-. rewrite upto_0. cbn [decimal]. repeat split; lia.
Qed.

(** [strconv.ParseUint] on a string of digits whose value fits. *)
Lemma uint_loop_digits s0 rest : forall n,
  forallb is_digit rest = true -> 0 <= n -> decimal rest n <= strconv.maxUint64 ->
  strconv.uint_loop s0 rest n = (decimal rest n, None).
Proof.
  induction rest as [|c rest IH]; intros n Hall Hn Hmax; cbn [strconv.uint_loop decimal forallb] in *.
  - reflexivity.
  - apply andb_prop in Hall. destruct Hall as [Hc Hall]. rewrite Hc. cbn [negb].
    pose proof (is_digit_range c Hc) as Hr.
    assert (Hmono : forall r m, forallb is_digit r = true -> 0 <= m -> m <= decimal r m).
    { clear. induction r as [|x r IHr]; intros m Hr Hm; cbn [decimal forallb] in *; [lia|].
      apply andb_prop in Hr. destruct Hr as [Hx Hr]. pose proof (is_digit_range x Hx).
      specialize (IHr (m * 10 + (code x - 48)) Hr). lia. }
    pose proof (Hmono rest (n * 10 + (code c - 48)) Hall ltac:(lia)) as Hle.
    assert (Hcut : (strconv.maxUint64 / 10 + 1 <=? n) = false).
    { apply Z.leb_gt. unfold strconv.maxUint64 in *.
      assert (n <= (2 ^ 64 - 1) / 10) by (apply Z.div_le_lower_bound; lia). lia. }
    rewrite Hcut.
    assert (Hov : (strconv.maxUint64 <? n * 10 + (code c - 48)) = false) by (apply Z.ltb_ge; lia).
    rewrite Hov. apply IH; [exact Hall | lia | exact Hmax].
Qed.

Lemma leading_digits_all s :
  leading_digits s = len s -> forallb is_digit s = true /\ upto (leading_digits s) s = s.
Proof.
  induction s as [|c s IH]; cbn [leading_digits forallb]; intros H.
  - split; reflexivity.
  - rewrite len_cons in H. destruct (is_digit c) eqn:Hc.
    + assert (H' : leading_digits s = len s) by lia.
      destruct (IH H') as [Ha Hu]. split; [exact Ha|].
      rewrite upto_succ by apply leading_digits_nonneg. now rewrite Hu.
    + pose proof (len_nonneg s). lia.
Qed.

Lemma int64_small z : - 2 ^ 63 <= z < 2 ^ 63 -> int64 z = z.
Proof. intros H. unfold int64. rewrite Z.mod_small; lia. Qed.

Lemma is_digit_not_sign c : is_digit c = true -> is_byte 43 c = false /\ is_byte 45 c = false.
Proof. unfold is_digit, is_byte. intros H. apply andb_prop in H. lia. Qed.

Lemma len_0_nil s : len s = 0 -> s = [].
Proof. destruct s; [reflexivity|]. rewrite len_cons. pose proof (len_nonneg s). lia. Qed.

(** The value [ParseUint64] computes by itself is the library's. *)
Lemma ParseUint64_sound slow s v :
  (forall dd, slow s = (dd, None) -> strconv.ParseUint s = (dd, None)) ->
  fastfloat.ParseUint64 slow s = (v, None) -> strconv.ParseUint s = (v, None).
Proof.
  intros Hslow. unfold fastfloat.ParseUint64.
  destruct (len s =? 0) eqn:E0; [discriminate|]. apply Z.eqb_neq in E0.
  destruct (fastfloat.int_loop uint64 s 0 0) as [[i d]|] eqn:EL.
  - destruct (i <=? 0) eqn:E1; [discriminate|].
    destruct (i <? len s) eqn:E2; [discriminate|].
    intros H. injection H as ->. apply Z.leb_gt in E1. apply Z.ltb_ge in E2.
    apply (int_loop_Some uint64 s uint64_wide) in EL; [|lia|lia].
    destruct EL as (Hi & H18 & Hd & Hb). pose proof (leading_digits_le s).
    assert (Hall : leading_digits s = len s) by lia.
    destruct (leading_digits_all s Hall) as [Ha Hu]. rewrite Hu in Hd. subst v.
    destruct s as [|c s]; [now rewrite len_nil in E0|].
    unfold strconv.ParseUint. apply uint_loop_digits; [exact Ha|lia|].
    assert (10 ^ i <= 10 ^ 18) by (apply pow10_mono; lia).
    unfold strconv.maxUint64. lia.
  - destruct (slow s) as [dd [err|]] eqn:ES; [discriminate|].
    intros H. injection H as ->. now apply Hslow.
Qed.

(** The value [ParseInt64] computes by itself is the library's. *)
Lemma ParseInt64_sound slow s v :
  (forall dd, slow s = (dd, None) -> strconv.ParseInt s = (dd, None)) ->
  fastfloat.ParseInt64 slow s = (v, None) -> strconv.ParseInt s = (v, None).
Proof.
  intros Hslow. unfold fastfloat.ParseInt64.
  destruct (len s =? 0) eqn:E0; [discriminate|]. apply Z.eqb_neq in E0.
  destruct s as [|c s]; [now rewrite len_nil in E0|].
  change (at_ (c :: s) 0) with c.
  destruct (is_byte 45 c) eqn:Hm; cbn [andb].
  - (* a leading '-' *)
    destruct (len (c :: s) <=? 1) eqn:E1; [discriminate|].
    apply Z.leb_gt in E1. rewrite len_cons in E1.
    change (from 1 (c :: s)) with s.
    destruct (fastfloat.int_loop int64 s 1 0) as [[i d]|] eqn:EL.
    + destruct (i <=? 1) eqn:E2; [discriminate|].
      destruct (i <? len (c :: s)) eqn:E3; [discriminate|].
      intros H. injection H as <-. apply Z.leb_gt in E2. apply Z.ltb_ge in E3.
      rewrite len_cons in E3.
      apply (int_loop_Some int64 s int64_wide) in EL; [|lia|lia].
      destruct EL as (Hi & H18 & Hd & Hb). pose proof (leading_digits_le s).
      assert (Hall : leading_digits s = len s) by lia.
      destruct (leading_digits_all s Hall) as [Ha Hu]. rewrite Hu in Hd.
      assert (H10 : 10 ^ i <= 10 ^ 18) by (apply pow10_mono; lia).
      unfold strconv.ParseInt. rewrite Hm. rewrite orb_true_r.
      destruct s as [|c' s]; [rewrite len_nil in *; lia|].
      unfold strconv.ParseUint.
      rewrite (uint_loop_digits _ _ 0 Ha) by (unfold strconv.maxUint64; lia).
      rewrite <- Hd. cbn [negb andb].
      assert (E4 : (2 ^ 63 <? d) = false) by (apply Z.ltb_ge; lia). rewrite E4.
      rewrite (int64_small d) by lia. reflexivity.
    + destruct (slow (c :: s)) as [dd [err|]] eqn:ES; [discriminate|].
      intros H. injection H as ->. now apply Hslow.
  - (* no sign *)
    change (from 0 (c :: s)) with (c :: s).
    destruct (fastfloat.int_loop int64 (c :: s) 0 0) as [[i d]|] eqn:EL.
    + destruct (i <=? 0) eqn:E2; [discriminate|].
      destruct (i <? len (c :: s)) eqn:E3; [discriminate|].
      intros H. injection H as <-. apply Z.leb_gt in E2. apply Z.ltb_ge in E3.
      apply (int_loop_Some int64 _ int64_wide) in EL; [|lia|lia].
      destruct EL as (Hi & H18 & Hd & Hb). pose proof (leading_digits_le (c :: s)).
      assert (Hall : leading_digits (c :: s) = len (c :: s)) by lia.
      destruct (leading_digits_all _ Hall) as [Ha Hu]. rewrite Hu in Hd.
      assert (H10 : 10 ^ i <= 10 ^ 18) by (apply pow10_mono; lia).
      assert (Hc : is_digit c = true) by (cbn [forallb] in Ha; now apply andb_prop in Ha).
      destruct (is_digit_not_sign c Hc) as [Hp _].
      unfold strconv.ParseInt. rewrite Hm, Hp. cbn [orb].
      unfold strconv.ParseUint.
      rewrite (uint_loop_digits _ _ 0 Ha) by (unfold strconv.maxUint64; lia).
      rewrite <- Hd. cbn [negb andb].
      assert (E4 : (2 ^ 63 <=? d) = false) by (apply Z.leb_gt; lia). rewrite E4.
      rewrite (int64_small d) by lia. reflexivity.
    + destruct (slow (c :: s)) as [dd [err|]] eqn:ES; [discriminate|].
      intros H. injection H as ->. now apply Hslow.
Qed.

(** ** The special values of the float decoders *)


(** A byte whose lower-case form is a letter is no digit, dot or sign. *)
Lemma letter_not_numeric c :
  (97 <=? code (lower c)) && (code (lower c) <=? 122) = true ->
  is_digit c = false /\ is_byte 46 c = false /\ is_byte 43 c = false /\
  is_byte 45 c = false.
Proof.
  destruct c as [[] [] [] [] [] [] [] []]; vm_compute; intros H;
    try discriminate H; repeat split.
Qed.

Lemma commonPrefix_nonneg s p : 0 <= strconv.commonPrefixLenIgnoreCase s p.
Proof.
  revert p. induction s as [|c s IH]; intros [|x p]; cbn [strconv.commonPrefixLenIgnoreCase]; try lia.
  destruct (Ascii.eqb (lower c) x); [specialize (IH p)|]; lia.
Qed.

Lemma commonPrefix_le s p : strconv.commonPrefixLenIgnoreCase s p <= len s.
Proof.
  revert p. induction s as [|c s IH]; intros [|x p]; cbn [strconv.commonPrefixLenIgnoreCase];
    rewrite ?len_nil, ?len_cons; try (pose proof (len_nonneg s)); try lia.
  destruct (Ascii.eqb (lower c) x); [specialize (IH p)|]; lia.
Qed.

(** A string that is, up to case, a prefix of [p]. *)
Lemma commonPrefix_full s : forall p,
  strconv.commonPrefixLenIgnoreCase s p = len s ->
  map lower s = firstn (List.length s) p.
Proof.
  induction s as [|c s IH]; intros [|x p]; cbn [strconv.commonPrefixLenIgnoreCase];
    rewrite ?len_nil, ?len_cons; try (pose proof (len_nonneg s) as Hs); intros HH;
    try reflexivity; try lia.
  destruct (Ascii.eqb (lower c) x) eqn:E; [|lia].
  apply Ascii.eqb_eq in E. cbn [map List.length firstn]. rewrite E. f_equal. apply IH. lia.
Qed.

Lemma length_len s n : len s = Z.of_nat n -> List.length s = n.
Proof. unfold len. lia. Qed.

(** The strings the library reads as an infinity after the sign. *)
Lemma inf_prefix_full s :
  let n := strconv.inf_prefix s in
  (n =? 3) || (n =? 8) = true -> n = len s ->
  (map lower s = str "inf" \/ map lower s = str "infinity") /\
  exists c s', s = c :: s' /\ lower c = "i"%char.
Proof.
  unfold strconv.inf_prefix.
  pose proof (commonPrefix_le s (str "infinity")) as Hle.
  pose proof (commonPrefix_full s (str "infinity")) as Hfull.
  destruct ((3 <? strconv.commonPrefixLenIgnoreCase s (str "infinity")) &&
            (strconv.commonPrefixLenIgnoreCase s (str "infinity") <? 8)) eqn:E.
  - intros _ H. apply andb_prop in E. lia.
  - cbn zeta. intros Hn Hlen. specialize (Hfull Hlen).
    apply orb_prop in Hn. 
    assert (Hm : map lower s = str "inf" \/ map lower s = str "infinity").
    { destruct Hn as [Hn|Hn]; apply Z.eqb_eq in Hn; rewrite Hn in Hlen; symmetry in Hlen.
      - left. rewrite (length_len s 3 Hlen) in Hfull. exact Hfull.
      - right. rewrite (length_len s 8 Hlen) in Hfull. exact Hfull. }
    split; [exact Hm|].
    destruct s as [|c s']; [destruct Hm as [Hm|Hm]; discriminate Hm|].
    exists c, s'. split; [reflexivity|].
    destruct Hm as [Hm|Hm]; cbn [map] in Hm; now injection Hm.
Qed.

Lemma EqualFold_lower s p : map lower s = p -> EqualFold s p = gostring_eqb p (map lower p).
Proof. intros H. unfold EqualFold. now rewrite H. Qed.

Lemma int_loop_stop wrap c rest i d :
  is_digit c = false -> fastfloat.int_loop wrap (c :: rest) i d = Some (i, d).
Proof. intros H. cbn [fastfloat.int_loop]. now rewrite H. Qed.

Lemma lower_i_letter c x :
  lower c = x -> (97 <=? code x) && (code x <=? 122) = true ->
  is_digit c = false /\ is_byte 46 c = false /\ is_byte 43 c = false /\
  is_byte 45 c = false.
Proof. intros <- H. now apply letter_not_numeric. Qed.

(** What the library reads as a special value, [Parse] reads as the same
    value, whatever the library is. *)
Lemma Parse_special_complete s f :
  strconv.special s = Some (f, len s) ->
  fastfloat.Parse_scan s = fastfloat.Own (f, None).
Proof.
  unfold strconv.special. destruct s as [|c s]; [discriminate|].
  destruct (is_byte 43 c || is_byte 45 c) eqn:Hsign.
  - (* a sign, then an infinity *)
    destruct ((strconv.inf_prefix s =? 3) || (strconv.inf_prefix s =? 8)) eqn:Hn; [|discriminate].
    remember (1 + strconv.inf_prefix s) as m eqn:Em.
    intros H. injection H as <- Hlen. subst m. rewrite len_cons in Hlen.
    destruct (inf_prefix_full s Hn ltac:(lia)) as [Hm (c1 & s1 & -> & Hc1)].
    destruct (lower_i_letter c1 _ Hc1 eq_refl) as (Hd & Hdot & Hp & Hmi).
    unfold fastfloat.Parse_scan. rewrite !len_cons.
    assert (E0 : (1 + (1 + len s1) =? 0) = false) by (pose proof (len_nonneg s1); lia).
    rewrite E0. change (at_ (c :: c1 :: s1) 0) with c.
    assert (Hws : EqualFold (c1 :: s1) (str "inf") || EqualFold (c1 :: s1) (str "infinity") = true).
    { unfold EqualFold. destruct Hm as [Hm|Hm]; rewrite Hm; reflexivity. }
    destruct (is_byte 45 c) eqn:Hminus; cbn [andb].
    + assert (E1 : (1 + (1 + len s1) <=? 1) = false) by (pose proof (len_nonneg s1); lia).
      rewrite E1. unfold fastfloat.lone_dot. change (at_ (c :: c1 :: s1) 1) with c1.
      rewrite Hdot. cbn [andb]. change (from 1 (c :: c1 :: s1)) with (c1 :: s1).
      rewrite int_loop_stop by exact Hd. rewrite Z.leb_refl. 
      change (at_ (c :: c1 :: s1) 1) with c1. rewrite Hdot. cbn [negb andb].
      unfold fastfloat.special_token.
      change (from 1 (c :: c1 :: s1)) with (c1 :: s1).
      cbn [HasPrefixPlus]. rewrite Hp. rewrite Hws. reflexivity.
    + rewrite orb_false_r in Hsign.
      unfold fastfloat.lone_dot. change (at_ (c :: c1 :: s1) 0) with c.
      assert (Hcdot : is_byte 46 c = false) by (unfold is_byte in *; lia).
      assert (Hcd : is_digit c = false) by (unfold is_digit, is_byte in *; lia).
      rewrite Hcdot. cbn [andb]. change (from 0 (c :: c1 :: s1)) with (c :: c1 :: s1).
      rewrite int_loop_stop by exact Hcd. rewrite Z.leb_refl.
      change (at_ (c :: c1 :: s1) 0) with c. rewrite Hcdot. cbn [negb andb].
      unfold fastfloat.special_token.
      change (from 0 (c :: c1 :: s1)) with (c :: c1 :: s1).
      cbn [HasPrefixPlus]. rewrite Hsign.
      change (from 1 (c :: c1 :: s1)) with (c1 :: s1). rewrite Hws. reflexivity.
  - apply orb_false_elim in Hsign. destruct Hsign as [Hp Hmi].
    destruct (is_byte 105 c || is_byte 73 c) eqn:Hi.
    + (* an infinity *)
      destruct ((strconv.inf_prefix (c :: s) =? 3) || (strconv.inf_prefix (c :: s) =? 8)) eqn:Hn;
        [|discriminate].
      intros H. injection H as <- Hlen.
      destruct (inf_prefix_full (c :: s) Hn Hlen) as [Hm (c1 & s1 & Heq & Hc1)].
      injection Heq as <- <-.
      destruct (lower_i_letter c _ Hc1 eq_refl) as (Hd & Hdot & _ & _).
      unfold fastfloat.Parse_scan. rewrite !len_cons.
      assert (E0 : (1 + len s =? 0) = false) by (pose proof (len_nonneg s); lia).
      rewrite E0. change (at_ (c :: s) 0) with c. rewrite Hmi. cbn [andb].
      unfold fastfloat.lone_dot. change (at_ (c :: s) 0) with c. rewrite Hdot. cbn [andb].
      change (from 0 (c :: s)) with (c :: s).
      rewrite int_loop_stop by exact Hd. rewrite Z.leb_refl.
      change (at_ (c :: s) 0) with c. rewrite Hdot. cbn [negb andb].
      unfold fastfloat.special_token. change (from 0 (c :: s)) with (c :: s).
      cbn [HasPrefixPlus]. rewrite Hp.
      assert (Hws : EqualFold (c :: s) (str "inf") || EqualFold (c :: s) (str "infinity") = true).
      { unfold EqualFold. destruct Hm as [Hm|Hm]; rewrite Hm; reflexivity. }
      rewrite Hws. reflexivity.
    + destruct (is_byte 110 c || is_byte 78 c) eqn:Hnn; [|discriminate].
      destruct (strconv.commonPrefixLenIgnoreCase (c :: s) (str "nan") =? 3) eqn:Hn; [|discriminate].
      remember (len (c :: s)) as L eqn:EL.
      intros H. injection H as <- Hlen. subst L. apply Z.eqb_eq in Hn.
      assert (Hm : map lower (c :: s) = str "nan").
      { rewrite (commonPrefix_full (c :: s) (str "nan")) by lia.
        rewrite (length_len (c :: s) 3) by (symmetry; exact Hlen). reflexivity. }
      assert (Hc1 : lower c = "n"%char) by (cbn [map] in Hm; now injection Hm).
      destruct (lower_i_letter c _ Hc1 eq_refl) as (Hd & Hdot & _ & _).
      unfold fastfloat.Parse_scan. rewrite <- Hlen. cbn [Z.eqb].
      change (at_ (c :: s) 0) with c. rewrite Hmi. cbn [andb].
      unfold fastfloat.lone_dot. change (at_ (c :: s) 0) with c. rewrite Hdot. cbn [andb].
      change (from 0 (c :: s)) with (c :: s).
      rewrite int_loop_stop by exact Hd. rewrite Z.leb_refl.
      change (at_ (c :: s) 0) with c. rewrite Hdot. cbn [negb andb].
      unfold fastfloat.special_token. change (from 0 (c :: s)) with (c :: s).
      cbn [HasPrefixPlus]. rewrite Hp.
      unfold EqualFold. rewrite Hm. reflexivity.
Qed.

(** What [Parse] takes from the library is the library's value. *)
Lemma Parse_library_value at_site s r f :
  fastfloat.Parse_library at_site s r = (f, None) -> fst r = f.
Proof.
  unfold fastfloat.Parse_library. destruct r as [g [err|]].
  - destruct (negb (IsInf g)); intros H; [discriminate|]. now injection H.
  - intros H. now injection H.
Qed.

(** ** The two float decoders scan alike *)


Ltac split_ifs :=
  repeat match goal with
         | |- context [match ?x with Some _ => _ | None => _ end] => destruct x as [[? ?]|] eqn:?
         | |- context [if ?b then _ else _] => destruct b eqn:?
         end.

Lemma ParseBestEffort_exponent_scan s minus i f :
  fastfloat.ParseBestEffort_exponent s minus i f =
  outcome_map fst (fastfloat.Parse_exponent s minus i f).
Proof.
  unfold fastfloat.ParseBestEffort_exponent, fastfloat.Parse_exponent.
  cbv zeta. split_ifs; reflexivity.
Qed.

Lemma ParseBestEffort_fraction_scan s minus j i d f :
  fastfloat.ParseBestEffort_fraction s minus j i d f =
  outcome_map fst (fastfloat.Parse_fraction s minus j i d f).
Proof.
  unfold fastfloat.ParseBestEffort_fraction, fastfloat.Parse_fraction.
  cbv zeta. split_ifs; try reflexivity; apply ParseBestEffort_exponent_scan.
Qed.

(** The two float decoders scan alike: the best-effort one ends where the
    strict one does, with the strict one's value. *)
Lemma ParseBestEffort_scan_Parse s :
  fastfloat.ParseBestEffort_scan s = outcome_map fst (fastfloat.Parse_scan s).
Proof.
  unfold fastfloat.ParseBestEffort_scan, fastfloat.Parse_scan.
  cbv zeta. split_ifs; try reflexivity; apply ParseBestEffort_fraction_scan.
Qed.

Lemma ParseBestEffort_Parse slow s :
  fastfloat.ParseBestEffort slow s = fst (fastfloat.Parse slow s).
Proof.
  unfold fastfloat.ParseBestEffort, fastfloat.Parse. rewrite ParseBestEffort_scan_Parse.
  destruct (fastfloat.Parse_scan s) as [r|at_site]; cbn [outcome_map]; [reflexivity|].
  unfold fastfloat.ParseBestEffort_library, fastfloat.Parse_library.
  destruct (slow s) as [f [err|]]; [|reflexivity]. destruct (negb (IsInf f)); reflexivity.
Qed.

(** ** The fall-back in the fractional part *)

Lemma from_app a b : from (len a) (a ++ b) = b.
Proof.
  unfold from, len. rewrite Nat2Z.id. induction a as [|x a IH]; [reflexivity|exact IH].
Qed.

Lemma upto_app a b : upto (len a) (a ++ b) = a.
Proof.
  unfold upto, len. rewrite Nat2Z.id. induction a as [|x a IH]; [reflexivity|].
  cbn [List.length firstn app]. now rewrite IH.
Qed.

Lemma at_app a c b : at_ (a ++ c :: b) (len a) = c.
Proof.
  unfold at_, len. rewrite Nat2Z.id. induction a as [|x a IH]; [reflexivity|exact IH].
Qed.

Lemma decimal_app a b n : decimal (a ++ b) n = decimal b (decimal a n).
Proof. revert n. induction a as [|x a IH]; intros n; cbn [decimal app]; [reflexivity|apply IH]. Qed.


Lemma leading_digits_app a b :
  forallb is_digit a = true -> no_digit_ahead b = true ->
  leading_digits (a ++ b) = len a.
Proof.
  intros Ha Hb. induction a as [|x a IH]; cbn [app leading_digits forallb] in *.
  - rewrite len_nil. destruct b as [|c b]; [reflexivity|].
    cbn [leading_digits no_digit_ahead] in *. now destruct (is_digit c).
  - apply andb_prop in Ha. destruct Ha as [Hx Ha]. rewrite Hx, len_cons, IH by exact Ha.
    reflexivity.
Qed.

(** The loop over the fractional digits leaves for the library exactly
    when the bytes from [s[j]] on reach the size of the table. *)
Lemma frac_loop_None rest : forall i j d,
  i - j < 17 ->
  (fastfloat.frac_loop rest i j d = None <-> 17 <= i - j + leading_digits rest).
Proof.
  induction rest as [|c rest IH]; intros i j d Hi; cbn [fastfloat.frac_loop leading_digits].
  - split; [discriminate | lia].
  - destruct (is_digit c).
    + change (Z.of_nat (List.length fastfloat.float64pow10)) with 17.
      destruct (17 <=? i + 1 - j) eqn:E.
      * apply Z.leb_le in E. pose proof (leading_digits_nonneg rest). split; [lia | reflexivity].
      * apply Z.leb_gt in E. rewrite IH by lia. lia.
    + split; [discriminate | lia].
Qed.

Lemma frac_loop_Some rest : forall i j d i' d',
  0 <= i - j < 17 -> 0 <= d < 10 ^ (i - j) ->
  fastfloat.frac_loop rest i j d = Some (i', d') ->
  i' = i + leading_digits rest /\ i' - j < 17 /\
  d' = decimal (upto (leading_digits rest) rest) d /\ 0 <= d' < 10 ^ (i' - j).
Proof.
  induction rest as [|c rest IH]; intros i j d i' d' Hi Hd H;
    cbn [fastfloat.frac_loop leading_digits] in *.
  - injection H as <- <-. rewrite upto_0. cbn [decimal]. repeat split; lia.
  - destruct (is_digit c) eqn:Hc.
    + change (Z.of_nat (List.length fastfloat.float64pow10)) with 17 in H.
      destruct (17 <=? i + 1 - j) eqn:E; [discriminate|]. apply Z.leb_gt in E.
      pose proof (is_digit_range c Hc) as Hr.
      assert (Hb : 0 <= d * 10 + (code c - 48) < 10 ^ (i + 1 - j)).
      { replace (i + 1 - j) with (i - j + 1) by lia. rewrite pow10_step by lia. lia. }
      assert (Hs : uint64 (d * 10 + (code c - 48)) = d * 10 + (code c - 48)).
      { apply uint64_wide. pose proof (pow10_mono (i + 1 - j) 18). lia. }
      rewrite Hs in H. apply IH in H; [|lia|exact Hb].
      destruct H as (-> & H17 & -> & Hd').
      rewrite upto_succ by apply leading_digits_nonneg. cbn [decimal].
      repeat split; try lia.
    + injection H as <- <-. rewrite upto_0. cbn [decimal]. repeat split; lia.
Qed.

Lemma decimal_bound a : forall n i,
  forallb is_digit a = true -> 0 <= i -> 0 <= n < 10 ^ i ->
  0 <= decimal a n < 10 ^ (i + len a).
Proof.
  induction a as [|x a IH]; intros n i Ha Hi Hn; cbn [decimal forallb] in *.
  - rewrite len_nil, Z.add_0_r. exact Hn.
  - apply andb_prop in Ha. destruct Ha as [Hx Ha]. pose proof (is_digit_range x Hx).
    rewrite len_cons. replace (i + (1 + len a)) with ((i + 1) + len a) by lia.
    apply IH; [exact Ha|lia|]. rewrite pow10_step by lia. lia.
Qed.

Section Fraction.

(** A float literal with a fractional part: an optional ['-'], the digits
    [ip] of the integer part, a dot, the digits [fp] of the fractional part
    (at least one), and a [rest] that starts with no digit. *)
Variable minus : bool.
Variables ip fp rest : gostring.

Let sign : gostring := if minus then str "-" else [].
Let s : gostring := sign ++ ip ++ str "." ++ fp ++ rest.

Hypothesis ip_digits : forallb is_digit ip = true.
Hypothesis fp_digits : forallb is_digit fp = true.
Hypothesis fp_nonempty : fp <> [].
Hypothesis rest_no_digit : no_digit_ahead rest = true.

(** The integer part stays below the limit of the integer loop. *)
Hypothesis ip_short : len sign + len ip <= 18.

Let i0 : Z := len sign.
Let i1 : Z := i0 + len ip.

Lemma fraction_len_s : len s = i1 + 1 + len fp + len rest.
Proof. unfold s, i1, i0. rewrite !len_app. change (len (str ".")) with 1. lia. Qed.

Lemma fraction_from_i0 : from i0 s = ip ++ str "." ++ fp ++ rest.
Proof. unfold i0, s. apply from_app. Qed.

Lemma fraction_i0 : i0 = if minus then 1 else 0.
Proof. unfold i0, sign. now destruct minus. Qed.

Lemma fraction_at_i1 : at_ s i1 = "."%char.
Proof.
  unfold s, i1, i0. rewrite app_assoc, <- len_app. apply at_app.
Qed.

Lemma fraction_from_i1 : from (i1 + 1) s = fp ++ rest.
Proof.
  unfold s, i1, i0.
  replace (sign ++ ip ++ str "." ++ fp ++ rest) with ((sign ++ ip ++ str ".") ++ fp ++ rest)
    by now rewrite <- !app_assoc.
  replace (len sign + len ip + 1) with (len (sign ++ ip ++ str "."))
    by (rewrite !len_app; change (len (str ".")) with 1; lia).
  apply from_app.
Qed.

Lemma fraction_minus : is_byte 45 (at_ s 0) = minus.
Proof.
  unfold s, sign. destruct minus; [reflexivity|]. cbn [app].
  destruct ip as [|c ip']; [reflexivity|]. cbn [forallb] in ip_digits.
  apply andb_prop in ip_digits. destruct ip_digits as [Hc _].
  now destruct (is_digit_not_sign c Hc).
Qed.

Lemma fraction_not_lone_dot : fastfloat.lone_dot s i0 = false.
Proof.
  pose proof fraction_len_s as HL.
  unfold fastfloat.lone_dot. destruct ip as [|c ip'] eqn:Eip.
  - (* the integer part is elided: the dot is followed by a digit *)
    destruct fp as [|x fp'] eqn:Efp; [now elim fp_nonempty|].
    assert (H1 : at_ s (i0 + 1) = x).
    { unfold s, i0. change (sign ++ [] ++ str "." ++ (x :: fp') ++ rest)
        with (sign ++ str "." ++ x :: fp' ++ rest).
      rewrite app_assoc. replace (len sign + 1) with (len (sign ++ str "."))
        by (rewrite len_app; change (len (str ".")) with 1; lia).
      apply at_app. }
    rewrite H1. cbn [forallb] in fp_digits. apply andb_prop in fp_digits.
    destruct fp_digits as [Hx _]. pose proof (is_digit_range x Hx).
    unfold i1 in HL. rewrite !len_nil, !len_cons in HL.
    pose proof (len_nonneg fp'). pose proof (len_nonneg rest).
    assert (E1 : (len s <=? i0 + 1) = false) by (apply Z.leb_gt; lia).
    assert (E2 : (code x <? 48) = false) by (apply Z.ltb_ge; lia).
    assert (E3 : (57 <? code x) = false) by (apply Z.ltb_ge; lia).
    rewrite E1, E2, E3. apply andb_false_r.
  - assert (H0 : at_ s i0 = c).
    { unfold s, i0. cbn [app]. apply at_app. }
    rewrite H0. cbn [forallb] in ip_digits. apply andb_prop in ip_digits.
    destruct ip_digits as [Hc _]. pose proof (is_digit_range c Hc).
    unfold is_byte. assert (E : (code c =? 46) = false) by lia. now rewrite E.
Qed.

Lemma fraction_leading_ip : leading_digits (ip ++ str "." ++ fp ++ rest) = len ip.
Proof. apply leading_digits_app; [exact ip_digits|reflexivity]. Qed.

Lemma fraction_leading_fp : leading_digits (fp ++ rest) = len fp.
Proof. apply leading_digits_app; [exact fp_digits|exact rest_no_digit]. Qed.

Lemma fraction_int_loop :
  fastfloat.int_loop uint64 (from i0 s) i0 0 = Some (i1, decimal ip 0).
Proof.
  rewrite fraction_from_i0.
  destruct (fastfloat.int_loop uint64 (ip ++ str "." ++ fp ++ rest) i0 0) as [[i d]|] eqn:E.
  - apply (int_loop_Some uint64 _ uint64_wide) in E.
    + destruct E as (-> & _ & -> & _). rewrite fraction_leading_ip, upto_app. reflexivity.
    + unfold i0. pose proof (len_nonneg sign). pose proof (len_nonneg ip). lia.
    + unfold i0. pose proof (len_nonneg sign). 
      assert (1 <= 10 ^ len sign) by (apply Z.pow_le_mono_r with (b := 0) (c := len sign); lia).
      lia.
  - apply int_loop_None in E.
    + rewrite fraction_leading_ip in E. unfold i0 in E. lia.
    + unfold i0. pose proof (len_nonneg ip). lia.
Qed.

(** The mantissa read through the fractional part. *)
Definition fraction_value : float64 :=
  PrimFloat.div (float64_of_Z (decimal (ip ++ fp) 0))
    (nth (Z.to_nat (len fp)) fastfloat.float64pow10 PrimFloat.zero).

(** The scan of a literal with a fractional part: it leaves for the library
    in the fractional part exactly when the integer digits, the dot and the
    fractional digits are 17 bytes or more; otherwise it goes on with the
    exponent, or ends with [mantissa / 10 ^ len fp] when nothing follows. *)
Lemma Parse_scan_fraction :
  fastfloat.Parse_scan s =
  if 17 <=? len ip + 1 + len fp then fastfloat.Library fastfloat.AtMantissa
  else if len rest =? 0 then fastfloat.Own (fneg minus fraction_value, None)
  else fastfloat.Parse_exponent s minus (i1 + 1 + len fp) fraction_value.
Proof.
  pose proof (len_nonneg sign) as Hsg. pose proof (len_nonneg ip) as Hip.
  pose proof (len_nonneg fp) as Hfp. pose proof (len_nonneg rest) as Hrs.
  assert (Hfp1 : 1 <= len fp).
  { destruct fp as [|x fp']; [now elim fp_nonempty|]. rewrite len_cons.
    pose proof (len_nonneg fp'). lia. }
  pose proof fraction_len_s as HL.
  unfold fastfloat.Parse_scan.
  assert (E0 : (len s =? 0) = false) by (apply Z.eqb_neq; unfold i1, i0 in HL; lia).
  rewrite E0, fraction_minus. rewrite <- fraction_i0.
  assert (E1 : minus && (len s <=? i0) = false).
  { assert ((len s <=? i0) = false) by (apply Z.leb_gt; unfold i1 in HL; lia).
    rewrite H. apply andb_false_r. }
  rewrite E1, fraction_not_lone_dot. cbv zeta. rewrite fraction_int_loop.
  rewrite fraction_at_i1. change (is_byte 46 ".") with true. cbn [negb]. rewrite andb_false_r.
  assert (E2 : (len s <=? i1) = false) by (apply Z.leb_gt; lia).
  rewrite E2. unfold fastfloat.Parse_fraction.
  rewrite fraction_at_i1. change (is_byte 46 ".") with true. cbv iota zeta.
  assert (E3 : (len s <=? i1 + 1) = false) by (apply Z.leb_gt; lia).
  rewrite E3, fraction_from_i1.
  assert (Hd : 0 <= decimal ip 0 < 10 ^ (i1 + 1 - i0)).
  { pose proof (decimal_bound ip 0 0 ip_digits ltac:(lia) ltac:(lia)) as Hb.
    rewrite Z.add_0_l in Hb. unfold i1. replace (i0 + len ip + 1 - i0) with (len ip + 1) by lia.
    rewrite pow10_step by lia. lia. }
  destruct (17 <=? len ip + 1 + len fp) eqn:E17.
  - apply Z.leb_le in E17.
    destruct (Z_lt_le_dec (i1 + 1 - i0) 17) as [Hlt|Hge].
    + assert (Hn : fastfloat.frac_loop (fp ++ rest) (i1 + 1) i0 (decimal ip 0) = None).
      { apply frac_loop_None; [exact Hlt|]. rewrite fraction_leading_fp. unfold i1. lia. }
      now rewrite Hn.
    + (* the integer part alone fills the table: the first digit leaves *)
      destruct fp as [|x fp'] eqn:Efp; [now elim fp_nonempty|].
      cbn [app fastfloat.frac_loop]. cbn [forallb] in fp_digits.
      apply andb_prop in fp_digits. destruct fp_digits as [Hx _]. rewrite Hx.
      change (Z.of_nat (List.length fastfloat.float64pow10)) with 17.
      assert (E : (17 <=? i1 + 1 + 1 - i0) = true) by (apply Z.leb_le; lia).
      now rewrite E.
  - apply Z.leb_gt in E17.
    destruct (fastfloat.frac_loop (fp ++ rest) (i1 + 1) i0 (decimal ip 0)) as [[i d]|] eqn:EF.
    + apply frac_loop_Some in EF; [|unfold i1; lia|exact Hd].
      destruct EF as (-> & _ & -> & _). rewrite fraction_leading_fp, upto_app.
      rewrite <- decimal_app.
      assert (E4 : (i1 + 1 + len fp <? i1 + 1) = false) by (apply Z.ltb_ge; lia).
      rewrite E4. replace (i1 + 1 + len fp - (i1 + 1)) with (len fp) by lia.
      fold fraction_value.
      destruct (len rest =? 0) eqn:ER.
      * apply Z.eqb_eq in ER.
        assert (E5 : (len s <=? i1 + 1 + len fp) = true) by (apply Z.leb_le; lia).
        now rewrite E5.
      * apply Z.eqb_neq in ER.
        assert (E5 : (len s <=? i1 + 1 + len fp) = false) by (apply Z.leb_gt; lia).
        now rewrite E5.
    + apply frac_loop_None in EF; [|unfold i1; lia].
      rewrite fraction_leading_fp in EF. unfold i1 in EF. lia.
Qed.

End Fraction.

(** ** The integer decoders and the library *)

Lemma ParseUint64BestEffort_strict slow s :
  fastfloat.ParseUint64BestEffort slow s = best_of (fastfloat.ParseUint64 slow s).
Proof.
  unfold fastfloat.ParseUint64BestEffort, fastfloat.ParseUint64. cbv zeta.
  destruct (len s =? 0); [reflexivity|].
  destruct (fastfloat.int_loop uint64 s 0 0) as [[i d]|].
  - destruct (i <=? 0); [reflexivity|]. destruct (i <? len s); reflexivity.
  - destruct (slow s) as [dd [err|]]; reflexivity.
Qed.

Lemma ParseInt64BestEffort_strict slow s :
  fastfloat.ParseInt64BestEffort slow s = best_of (fastfloat.ParseInt64 slow s).
Proof.
  unfold fastfloat.ParseInt64BestEffort, fastfloat.ParseInt64. cbv zeta.
  destruct (len s =? 0); [reflexivity|].
  destruct (is_byte 45 (at_ s 0) && (len s <=? (if is_byte 45 (at_ s 0) then 1 else 0)));
    [reflexivity|].
  destruct (fastfloat.int_loop int64 _ _ 0) as [[i d]|].
  - destruct (i <=? _); [reflexivity|]. destruct (i <? len s); reflexivity.
  - destruct (slow s) as [dd [err|]]; reflexivity.
Qed.

(** The unsigned decoders leave for the library exactly when the string
    starts with more than 18 digits. *)
Lemma ParseUint64_library slow s :
  18 < leading_digits s -> fastfloat.ParseUint64 slow s = strict_of (slow s).
Proof.
  intros H. unfold fastfloat.ParseUint64.
  assert (E0 : (len s =? 0) = false).
  { apply Z.eqb_neq. pose proof (leading_digits_le s). lia. }
  rewrite E0. cbv zeta.
  assert (EL : fastfloat.int_loop uint64 s 0 0 = None) by (apply int_loop_None; lia).
  rewrite EL. reflexivity.
Qed.

Lemma ParseUint64_own slow slow' s :
  leading_digits s <= 18 -> fastfloat.ParseUint64 slow s = fastfloat.ParseUint64 slow' s.
Proof.
  intros H. unfold fastfloat.ParseUint64. destruct (len s =? 0); [reflexivity|]. cbv zeta.
  destruct (fastfloat.int_loop uint64 s 0 0) as [[i d]|] eqn:EL; [reflexivity|].
  apply int_loop_None in EL; lia.
Qed.

Lemma ParseInt64_shape slow s :
  fastfloat.ParseInt64 slow s =
  match s with
  | [] => (0, Some (Errorf "cannot parse int64 from empty string" []))
  | c :: s' =>
      let minus := is_byte 45 c in
      let i := if minus then 1 else 0 in
      if minus && (len s <=? i) then (0, Some (Errorf "cannot parse int64 from %q" [s]))
      else
        match fastfloat.int_loop int64 (if minus then s' else s) i 0 with
        | None => strict_of (slow s)
        | Some (i', d) =>
            if i' <=? i then (0, Some (Errorf "cannot parse int64 from %q" [s]))
            else if i' <? len s
            then (0, Some (Errorf "unparsed tail left after parsing int64 form %q: %q" [s; from i' s]))
            else (if minus then int64 (- d) else d, None)
        end
  end.
Proof.
  unfold fastfloat.ParseInt64. destruct s as [|c s']; [reflexivity|].
  rewrite len_cons. pose proof (len_nonneg s').
  assert (E0 : (1 + len s' =? 0) = false) by lia. rewrite E0.
  change (at_ (c :: s') 0) with c. cbv zeta.
  destruct (is_byte 45 c); reflexivity.
Qed.

(** The signed decoders leave for the library exactly when the index after
    the digits, the sign counted, is more than 18. *)
Lemma ParseInt64_library slow s :
  18 < signed_index s -> fastfloat.ParseInt64 slow s = strict_of (slow s).
Proof.
  rewrite ParseInt64_shape. destruct s as [|c s']; cbn [signed_index]; [lia|]. cbv zeta.
  rewrite len_cons. pose proof (leading_digits_le s') as Hl.
  pose proof (leading_digits_le (c :: s')) as Hl'. rewrite len_cons in Hl'.
  destruct (is_byte 45 c); cbn [andb]; intros H.
  - assert (E : (1 + len s' <=? 1) = false) by lia. rewrite E.
    assert (EL : fastfloat.int_loop int64 s' 1 0 = None) by (apply int_loop_None; lia).
    now rewrite EL.
  - assert (EL : fastfloat.int_loop int64 (c :: s') 0 0 = None) by (apply int_loop_None; lia).
    now rewrite EL.
Qed.

Lemma ParseInt64_own slow slow' s :
  signed_index s <= 18 -> fastfloat.ParseInt64 slow s = fastfloat.ParseInt64 slow' s.
Proof.
  rewrite !ParseInt64_shape. destruct s as [|c s']; cbn [signed_index]; [reflexivity|]. cbv zeta.
  destruct (is_byte 45 c); cbn [andb]; intros H.
  - destruct (len (c :: s') <=? 1); [reflexivity|].
    destruct (fastfloat.int_loop int64 s' 1 0) as [[i d]|] eqn:EL; [reflexivity|].
    apply int_loop_None in EL; lia.
  - destruct (fastfloat.int_loop int64 (c :: s') 0 0) as [[i d]|] eqn:EL; [reflexivity|].
    apply int_loop_None in EL; lia.
Qed.

(** What the library accepts as an unsigned number is a non-empty string
    of digits. *)
Lemma uint_loop_accepts s0 rest : forall n v,
  strconv.uint_loop s0 rest n = (v, None) -> forallb is_digit rest = true.
Proof.
  induction rest as [|c rest IH]; intros n v H; cbn [strconv.uint_loop forallb] in *.
  - reflexivity.
  - destruct (is_digit c); cbn [negb] in H; [|discriminate]. cbn [andb].
    destruct (strconv.maxUint64 / 10 + 1 <=? n); [discriminate|].
    destruct (strconv.maxUint64 <? n * 10 + (code c - 48)); [discriminate|].
    eapply IH, H.
Qed.

Lemma leading_digits_forallb s : forallb is_digit s = true -> leading_digits s = len s.
Proof.
  induction s as [|c s IH]; cbn [forallb leading_digits]; intros H; [reflexivity|].
  apply andb_prop in H. destruct H as [Hc H]. rewrite Hc, len_cons, IH by exact H. reflexivity.
Qed.

(** On what the library accepts, [ParseUint64] returns no error. *)
Lemma ParseUint64_complete s v :
  strconv.ParseUint s = (v, None) ->
  fastfloat.ParseUint64 strconv.ParseUint s = (v, None).
Proof.
  intros H. 
  assert (Hok : exists v', fastfloat.ParseUint64 strconv.ParseUint s = (v', None)).
  { unfold fastfloat.ParseUint64. destruct s as [|c s]; [discriminate H|].
    rewrite len_cons. pose proof (len_nonneg s).
    assert (E0 : (1 + len s =? 0) = false) by lia. rewrite E0. cbv zeta.
    destruct (fastfloat.int_loop uint64 (c :: s) 0 0) as [[i d]|] eqn:EL.
    - unfold strconv.ParseUint in H. apply uint_loop_accepts in H.
      apply (int_loop_Some uint64 _ uint64_wide) in EL; [|lia|lia].
      destruct EL as (-> & _ & _ & _). rewrite (leading_digits_forallb _ H), len_cons.
      assert (E1 : (0 + (1 + len s) <=? 0) = false) by lia.
      assert (E2 : (0 + (1 + len s) <? 1 + len s) = false) by lia.
      rewrite E1, E2. eauto.
    - rewrite H. eauto. }
  destruct Hok as [v' Hv']. rewrite Hv'.
  apply (ParseUint64_sound strconv.ParseUint) in Hv'; [|auto]. congruence.
Qed.

(** An error of [strconv.ParseUint] is a syntax error with 0 or a range
    error with the largest value. *)
Lemma uint_loop_error s0 rest : forall n v e,
  strconv.uint_loop s0 rest n = (v, Some e) ->
  (v = 0 /\ e = NumError "ParseUint" s0 ErrSyntax) \/
  (v = strconv.maxUint64 /\ e = NumError "ParseUint" s0 ErrRange).
Proof.
  induction rest as [|c rest IH]; intros n v e H; cbn [strconv.uint_loop] in H.
  - discriminate.
  - destruct (negb (is_digit c)); [injection H as <- <-; now left|].
    destruct (strconv.maxUint64 / 10 + 1 <=? n); [injection H as <- <-; now right|].
    destruct (strconv.maxUint64 <? n * 10 + (code c - 48)); [injection H as <- <-; now right|].
    eapply IH, H.
Qed.

Lemma ParseUint_error s v e :
  strconv.ParseUint s = (v, Some e) ->
  (v = 0 /\ e = NumError "ParseUint" s ErrSyntax) \/
  (v = strconv.maxUint64 /\ e = NumError "ParseUint" s ErrRange).
Proof.
  unfold strconv.ParseUint. destruct s as [|c s].
  - intros H. injection H as <- <-. now left.
  - apply uint_loop_error.
Qed.

(** On what the library accepts with no leading ['+'], [ParseInt64]
    returns no error. *)
Lemma ParseInt64_complete s v :
  strconv.ParseInt s = (v, None) -> HasPrefixPlus s = false ->
  fastfloat.ParseInt64 strconv.ParseInt s = (v, None).
Proof.
  intros H Hplus.
  assert (Hok : exists v', fastfloat.ParseInt64 strconv.ParseInt s = (v', None)).
  { rewrite ParseInt64_shape. destruct s as [|c s']; [discriminate H|]. cbv zeta.
    cbn [HasPrefixPlus] in Hplus.
    assert (Hu : exists un, strconv.ParseUint (if is_byte 45 c then s' else c :: s') = (un, None)).
    { unfold strconv.ParseInt in H. rewrite Hplus in H. cbn [orb] in H. cbv zeta in H.
      match type of H with
      | context [strconv.ParseUint ?x] =>
          destruct (strconv.ParseUint x) as [un [e|]] eqn:EU
      end; [|exists un; exact EU].
      exfalso. destruct (ParseUint_error _ _ _ EU) as [[-> ->]|[-> ->]];
        cbv beta iota in H; [discriminate H|].
      destruct (is_byte 45 c); cbn [negb andb] in H.
      - replace (2 ^ 63 <? strconv.maxUint64) with true in H by reflexivity. discriminate H.
      - replace (2 ^ 63 <=? strconv.maxUint64) with true in H by reflexivity. discriminate H. }
    destruct Hu as [un Hu]. rewrite len_cons. pose proof (len_nonneg s').
    destruct (is_byte 45 c) eqn:Hm; cbn [andb].
    - destruct s' as [|c' s'']; [discriminate Hu|]. rewrite len_cons.
      pose proof (len_nonneg s'').
      assert (E : (1 + (1 + len s'') <=? 1) = false) by lia. rewrite E.
      unfold strconv.ParseUint in Hu. apply uint_loop_accepts in Hu.
      destruct (fastfloat.int_loop int64 (c' :: s'') 1 0) as [[i d]|] eqn:EL.
      + apply (int_loop_Some int64 _ int64_wide) in EL; [|lia|lia].
        destruct EL as (-> & _ & _ & _). rewrite (leading_digits_forallb _ Hu), len_cons.
        assert (E1 : (1 + (1 + len s'') <=? 1) = false) by lia.
        assert (E2 : (1 + (1 + len s'') <? 1 + (1 + len s'')) = false) by lia.
        rewrite E1, E2. eauto.
      + rewrite H. cbn [strict_of]. eauto.
    - unfold strconv.ParseUint in Hu. apply uint_loop_accepts in Hu.
      destruct (fastfloat.int_loop int64 (c :: s') 0 0) as [[i d]|] eqn:EL.
      + apply (int_loop_Some int64 _ int64_wide) in EL; [|lia|lia].
        destruct EL as (-> & _ & _ & _). rewrite (leading_digits_forallb _ Hu), len_cons.
        assert (E1 : (0 + (1 + len s') <=? 0) = false) by lia.
        assert (E2 : (0 + (1 + len s') <? 1 + len s') = false) by lia.
        rewrite E1, E2. eauto.
      + rewrite H. cbn [strict_of]. eauto. }
  destruct Hok as [v' Hv']. rewrite Hv'.
  apply (ParseInt64_sound strconv.ParseInt) in Hv'; [|auto]. congruence.
Qed.

(** ** The claims about the numeric decoders *)

Lemma Parse_exponent_not_mantissa s minus i f :
  fastfloat.Parse_exponent s minus i f <> fastfloat.Library fastfloat.AtMantissa.
Proof.
  unfold fastfloat.Parse_exponent. cbv zeta. split_ifs; discriminate.
Qed.

Lemma best_of_strict_of r : best_of (strict_of r) = best_of r.
Proof. destruct r as [d [e|]]; reflexivity. Qed.

(** ** The float decoder and the library *)

(** [Parse] reads "-nan" as a NaN and returns no error, where
    [strconv.ParseFloat] returns 0 and a syntax error (it reads a NaN only
    without a sign). *)
Example Parse_reads_signed_nan :
  fastfloat.Parse strconv.ParseFloat (str "-nan") = (nan, None) /\
  strconv.ParseFloat (str "-nan") =
    (PrimFloat.zero, Some (NumError "ParseFloat" (str "-nan") ErrSyntax)) /\
  PrimFloat.is_nan nan = true /\
  PrimFloat.is_nan PrimFloat.zero = false.
Proof. repeat split; reflexivity. Qed.


(** ** C2 *)

(** C2, as the code has it.  The integer decoders accumulate the digits
    themselves while the index of the next byte is at most 18, and hand the
    whole input to the library exactly when that index passes 18: for the
    unsigned decoders when more than 18 digits are read, for the signed
    ones when the leading ['-'], if any, and the digits read are more than
    18 bytes (18 digits after a ['-'] are enough).  What the library
    accepts (for the signed decoders, with no leading ['+']) is returned
    with the library's value, at the boundaries as everywhere. *)
Theorem integer_decoders_fall_back_past_index_18 s :
  (18 < leading_digits s ->
   forall slow,
     fastfloat.ParseUint64 slow s = strict_of (slow s) /\
     fastfloat.ParseUint64BestEffort slow s = best_of (slow s)) /\
  (leading_digits s <= 18 ->
   forall slow slow',
     fastfloat.ParseUint64 slow s = fastfloat.ParseUint64 slow' s /\
     fastfloat.ParseUint64BestEffort slow s = fastfloat.ParseUint64BestEffort slow' s) /\
  (18 < signed_index s ->
   forall slow,
     fastfloat.ParseInt64 slow s = strict_of (slow s) /\
     fastfloat.ParseInt64BestEffort slow s = best_of (slow s)) /\
  (signed_index s <= 18 ->
   forall slow slow',
     fastfloat.ParseInt64 slow s = fastfloat.ParseInt64 slow' s /\
     fastfloat.ParseInt64BestEffort slow s = fastfloat.ParseInt64BestEffort slow' s) /\
  (forall v,
     strconv.ParseUint s = (v, None) ->
     fastfloat.ParseUint64 strconv.ParseUint s = (v, None) /\
     fastfloat.ParseUint64BestEffort strconv.ParseUint s = v) /\
  (forall v,
     strconv.ParseInt s = (v, None) -> HasPrefixPlus s = false ->
     fastfloat.ParseInt64 strconv.ParseInt s = (v, None) /\
     fastfloat.ParseInt64BestEffort strconv.ParseInt s = v).
Proof.
  split; [|split; [|split; [|split; [|split]]]].
  - intros H slow. split; [now apply ParseUint64_library|].
    rewrite ParseUint64BestEffort_strict, ParseUint64_library by assumption.
    apply best_of_strict_of.
  - intros H slow slow'. split; [now apply ParseUint64_own|].
    rewrite !ParseUint64BestEffort_strict. f_equal. now apply ParseUint64_own.
  - intros H slow. split; [now apply ParseInt64_library|].
    rewrite ParseInt64BestEffort_strict, ParseInt64_library by assumption.
    apply best_of_strict_of.
  - intros H slow slow'. split; [now apply ParseInt64_own|].
    rewrite !ParseInt64BestEffort_strict. f_equal. now apply ParseInt64_own.
  - intros n H. split; [now apply ParseUint64_complete|].
    rewrite ParseUint64BestEffort_strict, (ParseUint64_complete s n) by assumption.
    reflexivity.
  - intros n H Hplus. split; [now apply ParseInt64_complete|].
    rewrite ParseInt64BestEffort_strict, (ParseInt64_complete s n) by assumption.
    reflexivity.
Qed.

(** C2 fails as stated: after a ['-'], 18 digits (not more) are enough for
    the signed decoders to hand the input to the library; with a library
    that answers 7, the answer is 7. *)
Lemma ParseInt64_falls_back_at_18_digits :
  leading_digits (str "100000000000000000") = 18 /\
  fastfloat.ParseInt64 (fun _ => (7, None)) (str "-100000000000000000") = (7, None) /\
  fastfloat.ParseInt64BestEffort (fun _ => (7, None)) (str "-100000000000000000") = 7 /\
  fastfloat.ParseInt64 (fun _ => (7, None)) (str "100000000000000000")
    = (100000000000000000, None).
Proof. repeat split; reflexivity. Qed.

(** ** C3 *)

(** C3, as the code has it.  On a float literal with a fractional part
    whose integer part stayed within the integer loop, [Parse] and
    [ParseBestEffort] leave for [strconv.ParseFloat] in the fractional part
    exactly when the integer digits, the dot and the fractional digits make
    17 bytes (the size of the table of powers of ten), that is when the
    mantissa has 16 digits or more.  Below that the mantissa is
    accumulated as one integer, and a literal that ends there is
    [mantissa / 10 ^ (fractional digits)] with the sign. *)
Theorem fraction_falls_back_at_17_bytes (minus : bool) (ip fp rest : gostring) :
  forallb is_digit ip = true ->
  forallb is_digit fp = true ->
  fp <> [] ->
  no_digit_ahead rest = true ->
  len (sign_of minus) + len ip <= 18 ->
  let s := sign_of minus ++ ip ++ str "." ++ fp ++ rest in
  (fastfloat.Parse_scan s = fastfloat.Library fastfloat.AtMantissa <->
   17 <= len ip + 1 + len fp) /\
  (fastfloat.ParseBestEffort_scan s = fastfloat.Library fastfloat.AtMantissa <->
   17 <= len ip + 1 + len fp) /\
  (len ip + 1 + len fp < 17 -> rest = [] ->
   forall slow,
     fastfloat.Parse slow s = (fneg minus (fraction_value ip fp), None) /\
     fastfloat.ParseBestEffort slow s = fneg minus (fraction_value ip fp)).
Proof.
  intros Hip Hfp Hne Hrest Hshort s.
  pose proof (Parse_scan_fraction minus ip fp rest Hip Hfp Hne Hrest Hshort) as HS.
  fold (sign_of minus) in HS. fold s in HS.
  assert (H1 : fastfloat.Parse_scan s = fastfloat.Library fastfloat.AtMantissa <->
               17 <= len ip + 1 + len fp).
  { rewrite HS. destruct (17 <=? len ip + 1 + len fp) eqn:E.
    - apply Z.leb_le in E. tauto.
    - apply Z.leb_gt in E. split; [|lia]. intros H. exfalso.
      destruct (len rest =? 0); [discriminate H|].
      now apply Parse_exponent_not_mantissa in H. }
  split; [exact H1|]. split.
  - rewrite ParseBestEffort_scan_Parse. rewrite <- H1.
    destruct (fastfloat.Parse_scan s) as [r|[| |]]; cbn [outcome_map];
      split; intros H; try discriminate H; reflexivity.
  - intros Hlt -> slow. 
    assert (HP : fastfloat.Parse slow s = (fneg minus (fraction_value ip fp), None)).
    { unfold fastfloat.Parse. rewrite HS.
      assert (E : (17 <=? len ip + 1 + len fp) = false) by (apply Z.leb_gt; lia).
      rewrite E. reflexivity. }
    split; [exact HP|]. rewrite ParseBestEffort_Parse, HP. reflexivity.
Qed.

(** A mantissa of 15 digits is read on the fast path, and one of 16 digits
    leaves for the library. *)
Lemma fraction_falls_back_at_17_bytes_witness :
  (fastfloat.Parse_scan (str "1.234567890123456") = fastfloat.Library fastfloat.AtMantissa <->
   17 <= len (str "1") + 1 + len (str "234567890123456")) /\
  (fastfloat.ParseBestEffort_scan (str "1.234567890123456")
     = fastfloat.Library fastfloat.AtMantissa <->
   17 <= len (str "1") + 1 + len (str "234567890123456")) /\
  (len (str "1") + 1 + len (str "234567890123456") < 17 -> @nil ascii = [] ->
   forall slow,
     fastfloat.Parse slow (str "1.234567890123456")
       = (fneg false (fraction_value (str "1") (str "234567890123456")), None) /\
     fastfloat.ParseBestEffort slow (str "1.234567890123456")
       = fneg false (fraction_value (str "1") (str "234567890123456"))).
Proof.
  apply (fraction_falls_back_at_17_bytes false (str "1") (str "234567890123456") []).
  - reflexivity.
  - reflexivity.
  - discriminate.
  - reflexivity.
  - vm_compute. discriminate.
Defined.

(** C3 fails as stated: a literal with a 17-digit mantissa is not read on
    the fast path, and one with a 16-digit mantissa leaves for the library
    already; the fast path ends at 15 digits. *)
Lemma fraction_of_16_digits_falls_back :
  fastfloat.Parse_scan (str "1.2345678901234567") = fastfloat.Library fastfloat.AtMantissa /\
  fastfloat.ParseBestEffort_scan (str "1.2345678901234567")
    = fastfloat.Library fastfloat.AtMantissa /\
  fastfloat.Parse_scan (str "1.234567890123456") = fastfloat.Library fastfloat.AtMantissa /\
  fastfloat.Parse (fun _ => (nan, None)) (str "1.234567890123456") = (nan, None) /\
  fastfloat.Parse (fun _ => (nan, None)) (str "1.23456789012345")
    = (PrimFloat.div (float64_of_Z 123456789012345) (float64_of_Z 100000000000000), None).
Proof. repeat split; reflexivity. Qed.

(** ** The scanner *)

Lemma Scanner_Next_sticky sc :
  sc_err sc <> None -> Scanner_Next sc = (false, sc).
Proof.
  unfold Scanner_Next. destruct (sc_err sc); [reflexivity|]. intros H. now elim H.
Qed.

Lemma Scanner_Next_false sc :
  fst (Scanner_Next sc) = false <-> sc_err (snd (Scanner_Next sc)) <> None.
Proof.
  unfold Scanner_Next. destruct (sc_err sc) as [e|] eqn:E.
  - cbn [fst snd]. rewrite E. split; [discriminate|reflexivity].
  - destruct (len (skipWS (sc_s sc)) =? 0).
    + cbn. split; [discriminate|reflexivity].
    + destruct (parseValue MaxDepth (fuel_for (skipWS (sc_s sc))) (skipWS (sc_s sc)) 0);
        cbn; split; intros H; try discriminate; try reflexivity; now elim H.
Qed.

Lemma after_calls_sticky n : forall sc,
  sc_err sc <> None -> after_calls n sc = sc.
Proof.
  induction n as [|n IH]; intros sc H; cbn [after_calls]; [reflexivity|].
  rewrite Scanner_Next_sticky by exact H. cbn [snd]. now apply IH.
Qed.

(** C9.  Once only white space is left and no error was recorded, [Next]
    returns false and [Error] returns nil afterwards.  A call of [Next]
    that recorded an error (it is the calls that return false that do) is
    followed only by calls that return false and leave the scanner as it
    is: nothing more is parsed. *)
Theorem scanner_end_and_sticky_error (sc : Scanner) :
  (sc_err sc = None -> skipWS (sc_s sc) = [] ->
   fst (Scanner_Next sc) = false /\ Scanner_Error (snd (Scanner_Next sc)) = None) /\
  (fst (Scanner_Next sc) = false <-> sc_err (snd (Scanner_Next sc)) <> None) /\
  (sc_err (snd (Scanner_Next sc)) <> None ->
   forall n,
     Scanner_Next (after_calls n (snd (Scanner_Next sc))) = (false, snd (Scanner_Next sc))).
Proof.
  split; [|split].
  - intros Herr Hws. unfold Scanner_Next. rewrite Herr, Hws. split; reflexivity.
  - apply Scanner_Next_false.
  - intros H n. rewrite after_calls_sticky by exact H. now apply Scanner_Next_sticky.
Qed.

(** ** Lookup in objects *)

Lemma unescape_no_backslash s :
  (IndexByte s 92 <? 0) = true -> unescapeStringBestEffort s = s.
Proof. intros H. unfold unescapeStringBestEffort. now rewrite H. Qed.

Lemma scan_kvs_first_match l key : scan_kvs l key = first_match k l key.
Proof.
  unfold first_match. induction l as [|e l IH]; cbn [scan_kvs find]; [reflexivity|].
  destruct (gostring_eqb (k e) key); [reflexivity|exact IH].
Qed.

Lemma first_match_map g l key :
  first_match k (map (fun e => mkKV (g (k e)) (v e)) l) key = first_match (fun e => g (k e)) l key.
Proof.
  unfold first_match. induction l as [|e l IH]; cbn [map find]; [reflexivity|].
  cbn [k]. destruct (gostring_eqb (g (k e)) key); [reflexivity|exact IH].
Qed.

Lemma first_match_ext f g l key :
  (forall e, In e l -> f e = g e) -> first_match f l key = first_match g l key.
Proof.
  unfold first_match. induction l as [|e l IH]; intros H; cbn [find]; [reflexivity|].
  rewrite (H e) by now left. destruct (gostring_eqb (g e) key); [reflexivity|].
  apply IH. intros e' He'. apply H. now right.
Qed.

(** The scan after [unescapeKeys] finds the first entry whose logical key
    is the search key. *)
Lemma scan_unescaped o key :
  scan_kvs (kvs (unescapeKeys o)) key = first_match (logical_key o) (kvs o) key.
Proof.
  rewrite scan_kvs_first_match. unfold unescapeKeys, logical_key.
  destruct (keysUnescaped o); [reflexivity|]. cbn [kvs]. apply first_match_map.
Qed.

(** What [Object.Get] returns: the first raw match when the raw scan
    applies and finds one, the first logical match otherwise. *)
Lemma Object_Get_value o key :
  fst (Object_Get o key) =
  match (if negb (keysUnescaped o) && (IndexByte key 92 <? 0)
         then first_match k (kvs o) key else None) with
  | Some x => Some x
  | None => first_match (logical_key o) (kvs o) key
  end.
Proof.
  unfold Object_Get. rewrite scan_kvs_first_match.
  destruct (if negb (keysUnescaped o) && (IndexByte key 92 <? 0)
            then first_match k (kvs o) key else None); cbn [fst]; [reflexivity|].
  apply scan_unescaped.
Qed.

Lemma fold_left_collect (g : kv Value -> gostring * Value) l : forall acc,
  fold_left (fun seen e => seen ++ [g e]) l acc = acc ++ map g l.
Proof.
  induction l as [|e l IH]; intros acc; cbn [fold_left map].
  - now rewrite app_nil_r.
  - rewrite IH, <- app_assoc. reflexivity.
Qed.


(** ** The keys of an object are rewritten by lookups *)

Lemma scan_kvs_existsb l key :
  scan_kvs l key = None <-> existsb (fun e => gostring_eqb (k e) key) l = false.
Proof.
  induction l as [|e l IH]; cbn [scan_kvs existsb]; [tauto|].
  destruct (gostring_eqb (k e) key); cbn [orb]; [split; discriminate|exact IH].
Qed.

Lemma del_kvs_existsb l key :
  del_kvs l key = None <-> existsb (fun e => gostring_eqb (k e) key) l = false.
Proof.
  induction l as [|e l IH]; cbn [del_kvs existsb]; [tauto|].
  destruct (gostring_eqb (k e) key); cbn [orb]; [split; discriminate|].
  destruct (del_kvs l key); [|exact IH].
  split; [discriminate|]. intros H. apply IH in H. discriminate H.
Qed.

Lemma del_kvs_incl l key : forall r, del_kvs l key = Some r -> incl r l.
Proof.
  induction l as [|e l IH]; intros r; cbn [del_kvs]; [discriminate|].
  destruct (gostring_eqb (k e) key).
  - intros H. injection H as <-. apply incl_tl, incl_refl.
  - destruct (del_kvs l key) as [r'|]; [|discriminate]. intros H. injection H as <-.
    apply incl_cons; [now left|]. apply incl_tl. now apply IH.
Qed.

Lemma set_kvs_keys l key value : forall r,
  set_kvs l key value = Some r -> map k r = map k l.
Proof.
  induction l as [|e l IH]; intros r; cbn [set_kvs]; [discriminate|].
  destruct (gostring_eqb (k e) key).
  - intros H. injection H as <-. reflexivity.
  - destruct (set_kvs l key value) as [r'|]; [|discriminate]. intros H. injection H as <-.
    cbn [map]. f_equal. now apply IH.
Qed.

Lemma keysUnescaped_unescapeKeys o : keysUnescaped (unescapeKeys o) = true.
Proof. unfold unescapeKeys. destruct (keysUnescaped o) eqn:E; [exact E|reflexivity]. Qed.

Lemma Object_Get_object o key :
  snd (Object_Get o key) = if raw_hit o key then o else unescapeKeys o.
Proof.
  unfold Object_Get, raw_hit.
  destruct (negb (keysUnescaped o) && (IndexByte key 92 <? 0)); cbn [andb]; [|reflexivity].
  destruct (scan_kvs (kvs o) key) as [x|] eqn:E.
  - destruct (existsb _ (kvs o)) eqn:E'; [reflexivity|].
    apply scan_kvs_existsb in E'. congruence.
  - apply scan_kvs_existsb in E. now rewrite E.
Qed.

Lemma Object_MarshalTo_members AppendQuote o dst :
  Object_MarshalTo AppendQuote o dst =
  marshal_members (MarshalTo AppendQuote)
    (if keysUnescaped o then escapeString AppendQuote else raw_key_bytes)
    (kvs o) (dst ++ str "{") ++ str "}".
Proof.
  unfold Object_MarshalTo. cbn [MarshalTo]. f_equal.
  generalize (dst ++ str "{"). induction (kvs o) as [|e l IH]; intros d; [reflexivity|].
  cbn [marshal_members]. rewrite <- IH. destruct (keysUnescaped o); reflexivity.
Qed.


(** C10.  [Object.Get] leaves the object as it is only when its raw scan
    returns a value; in every other case (key absent, backslash in the
    search key, keys unescaped already) the object it leaves behind has the
    flag [keysUnescaped] set and holds every key in its unescaped form.
    [MarshalTo] then emits the keys through the escaper instead of raw, so
    the same object can serialize to other bytes after a failed lookup than
    before it.  [Visit] and [Set] always leave the keys rewritten, and [Del]
    does whenever its raw scan does not delete. *)
Theorem Object_Get_unescapes_keys_in_place
  (AppendQuote : gostring -> gostring -> gostring) (o : Object) (key : gostring) :
  snd (Object_Get o key) = (if raw_hit o key then o else unescapeKeys o) /\
  keysUnescaped (unescapeKeys o) = true /\
  kvs (unescapeKeys o) =
    (if keysUnescaped o then kvs o
     else map (fun e => mkKV (unescapeStringBestEffort (k e)) (v e)) (kvs o)) /\
  (forall dst,
     Object_MarshalTo AppendQuote o dst =
       marshal_members (MarshalTo AppendQuote)
         (if keysUnescaped o then escapeString AppendQuote else raw_key_bytes)
         (kvs o) (dst ++ str "{") ++ str "}" /\
     Object_MarshalTo AppendQuote (unescapeKeys o) dst =
       marshal_members (MarshalTo AppendQuote) (escapeString AppendQuote)
         (kvs (unescapeKeys o)) (dst ++ str "{") ++ str "}") /\
  (fst (Object_Get escaped_slash (str "x")) = None /\
   Object_MarshalTo AppendQuote escaped_slash []
     = str "{" ++ [quote] ++ str "a" ++ [backslash] ++ str "/b" ++ [quote] ++ str ":1}" /\
   Object_MarshalTo AppendQuote (snd (Object_Get escaped_slash (str "x"))) []
     = str "{" ++ [quote] ++ str "a/b" ++ [quote] ++ str ":1}") /\
  (forall (S : Type) (f : gostring -> Value -> S -> S) (st : S),
     snd (Object_Visit o f st) = unescapeKeys o) /\
  (forall value,
     keysUnescaped (Object_Set o key value) = true /\
     exists added, map k (kvs (Object_Set o key value)) = map k (kvs (unescapeKeys o)) ++ added) /\
  keysUnescaped (Object_Del o key) = negb (raw_hit o key) /\
  (raw_hit o key = false -> incl (kvs (Object_Del o key)) (kvs (unescapeKeys o))).
Proof.
  split; [apply Object_Get_object|]. split; [apply keysUnescaped_unescapeKeys|].
  split; [unfold unescapeKeys; now destruct (keysUnescaped o)|].
  split.
  { intros dst. split; [apply Object_MarshalTo_members|].
    rewrite Object_MarshalTo_members, keysUnescaped_unescapeKeys. reflexivity. }
  split; [repeat split; reflexivity|].
  split; [reflexivity|].
  split.
  { intros value. unfold Object_Set.
    destruct (set_kvs (kvs (unescapeKeys o)) key _) as [l|] eqn:E; cbn [keysUnescaped kvs].
    - split; [apply keysUnescaped_unescapeKeys|]. exists [].
      rewrite app_nil_r. eapply set_kvs_keys, E.
    - split; [apply keysUnescaped_unescapeKeys|]. eexists. rewrite map_app. reflexivity. }
  unfold Object_Del, raw_hit.
  destruct (negb (keysUnescaped o) && (IndexByte key 92 <? 0)) eqn:E0; cbn [andb].
  - apply andb_prop in E0. destruct E0 as [E0 _]. apply negb_true_iff in E0.
    destruct (del_kvs (kvs o) key) as [l|] eqn:E.
    + assert (Hex : existsb (fun e => gostring_eqb (k e) key) (kvs o) = true).
      { destruct (existsb _ (kvs o)) eqn:E'; [reflexivity|].
        apply del_kvs_existsb in E'. congruence. }
      rewrite Hex. cbn [keysUnescaped negb]. split; [exact E0|discriminate].
    + apply del_kvs_existsb in E. rewrite E. cbn [negb]. 
      destruct (del_kvs (kvs (unescapeKeys o)) key) as [l|] eqn:E'; cbn [keysUnescaped kvs].
      * split; [apply keysUnescaped_unescapeKeys|]. intros _. eapply del_kvs_incl, E'.
      * split; [apply keysUnescaped_unescapeKeys|]. intros _. apply incl_refl.
  - destruct (del_kvs (kvs (unescapeKeys o)) key) as [l|] eqn:E'; cbn [keysUnescaped kvs negb].
    + split; [apply keysUnescaped_unescapeKeys|]. intros _. eapply del_kvs_incl, E'.
    + split; [apply keysUnescaped_unescapeKeys|]. intros _. apply incl_refl.
Qed.

(** ** The raw tokenizer of strings *)

Lemma is_byte_eq z x : 0 <= z < 256 -> is_byte z x = true -> x = byte_of z.
Proof.
  unfold is_byte, byte_of, code. intros Hz H. apply Z.eqb_eq in H. rewrite <- H.
  rewrite N2Z.id. symmetry. apply ascii_N_embedding.
Qed.

Lemma IndexByte_bounds s c : -1 <= IndexByte s c < len s.
Proof.
  induction s as [|x s IH]; cbn [IndexByte]; [rewrite len_nil; lia|].
  rewrite len_cons. destruct (is_byte c x); [pose proof (len_nonneg s); lia|].
  destruct (IndexByte s c <? 0) eqn:E; [pose proof (len_nonneg s); lia|].
  apply Z.ltb_ge in E. lia.
Qed.

(** The string around the first byte [c]. *)
Lemma IndexByte_split s c :
  0 <= IndexByte s c ->
  exists x, is_byte c x = true /\
            s = upto (IndexByte s c) s ++ x :: from (IndexByte s c + 1) s.
Proof.
  induction s as [|y s IH]; cbn [IndexByte]; [lia|].
  destruct (is_byte c y) eqn:Ey.
  - intros _. exists y. split; [exact Ey|reflexivity].
  - destruct (IndexByte s c <? 0) eqn:E; [lia|]. apply Z.ltb_ge in E. intros _.
    destruct (IH E) as (x & Hx & Hs). exists x. split; [exact Hx|].
    replace (IndexByte s c + 1) with (1 + IndexByte s c) by lia.
    rewrite upto_succ by exact E.
    replace (1 + IndexByte s c + 1) with (1 + (IndexByte s c + 1)) by lia.
    rewrite from_succ by lia. cbn [app]. f_equal.
    replace (1 + IndexByte s c) with (IndexByte s c + 1) in Hs by lia. exact Hs.
Qed.

Lemma quote_split s :
  0 <= IndexByte s 34 ->
  s = upto (IndexByte s 34) s ++ quote :: from (IndexByte s 34 + 1) s.
Proof.
  intros H. destruct (IndexByte_split s 34 H) as (x & Hx & Hs).
  apply is_byte_eq in Hx; [|lia]. now subst x.
Qed.

Lemma upto_app_plus pre s n :
  0 <= n -> upto (len pre + n) (pre ++ s) = pre ++ upto n s.
Proof.
  intros Hn. unfold upto, len.
  replace (Z.to_nat (Z.of_nat (List.length pre) + n))
    with (List.length pre + Z.to_nat n)%nat by lia.
  apply firstn_app_2.
Qed.

(** The slow path of [parseRawString] cuts the string at a quote. *)
Lemma parseRawString_loop_sound fuel : forall ss s n pre r tail,
  ss = pre ++ s -> n = IndexByte s 34 -> 0 <= n ->
  parseRawString_loop fuel ss s n = (r, tail, None) ->
  ss = r ++ quote :: tail.
Proof.
  induction fuel as [|fuel IH]; intros ss s n pre r tail Hss Hn H0 H;
    cbn [parseRawString_loop] in H; [discriminate|].
  assert (Hlen : len ss - len s = len pre) by (rewrite Hss, len_app; lia).
  destruct ((n - Z.of_nat (backslash_run s (Z.to_nat (n - 1)))) mod 2 =? 0).
  - injection H as <- <-. rewrite Hlen, Hss, upto_app_plus by exact H0.
    rewrite <- app_assoc. f_equal. subst n. now apply quote_split.
  - cbv zeta in H.
    pose proof (quote_split s ltac:(lia)) as Hs. rewrite <- Hn in Hs.
    set (s' := from (n + 1) s) in *.
    assert (Hss' : ss = (pre ++ upto n s ++ [quote]) ++ s').
    { rewrite Hss, Hs at 1. now rewrite <- !app_assoc. }
    destruct (IndexByte s' 34 <? 0) eqn:E; [discriminate|]. apply Z.ltb_ge in E.
    destruct ((IndexByte s' 34 =? 0) || negb (is_byte 92 (at_ s' (IndexByte s' 34 - 1)))).
    + injection H as <- <-.
      assert (Hlen' : len ss - len s' = len (pre ++ upto n s ++ [quote]))
        by (rewrite Hss' at 1; rewrite len_app; lia).
      rewrite Hlen'. rewrite Hss' at 2. rewrite upto_app_plus by exact E.
      rewrite Hss' at 1. rewrite <- !app_assoc. do 3 f_equal.
      now apply quote_split.
    + eapply IH; [exact Hss'|reflexivity|exact E|exact H].
Qed.

(** [parseRawString] returns the bytes before a quote and the bytes after
    it. *)
Lemma parseRawString_sound s ss tail :
  parseRawString s = (ss, tail, None) -> s = ss ++ quote :: tail.
Proof.
  unfold parseRawString. destruct (IndexByte s 34 <? 0) eqn:E; [discriminate|].
  apply Z.ltb_ge in E.
  destruct ((IndexByte s 34 =? 0) || negb (is_byte 92 (at_ s (IndexByte s 34 - 1)))).
  - intros H. injection H as <- <-. now apply quote_split.
  - apply (parseRawString_loop_sound _ s s (IndexByte s 34) []); [reflexivity|reflexivity|exact E].
Qed.

(** What the parser makes of an array or an object is one. *)
Lemma parse_containers limit fuel :
  (forall a s d x tail, parseArray_loop limit fuel a s d = Parsed x tail -> t x = TypeArray) /\
  (forall s d x tail, parseArray limit fuel s d = Parsed x tail -> t x = TypeArray) /\
  (forall o s d x tail, parseObject_loop limit fuel o s d = Parsed x tail -> t x = TypeObject) /\
  (forall s d x tail, parseObject limit fuel s d = Parsed x tail -> t x = TypeObject).
Proof.
  induction fuel as [|fuel (IHal & IHa & IHol & IHo)];
    [repeat split; intros; discriminate|].
  repeat split.
  - intros a s d x tail H. cbn [parseArray_loop] in H.
    destruct (parseValue limit fuel (skipWS s) d) as [y s'| |]; try discriminate.
    destruct (skipWS s') as [|c s1]; [discriminate|].
    destruct (is_byte 44 c); [eapply IHal, H|].
    destruct (is_byte 93 c); [|discriminate]. now injection H as <- _.
  - intros s d x tail H. cbn [parseArray] in H.
    destruct (skipWS s) as [|c s1]; [discriminate|].
    destruct (is_byte 93 c); [now injection H as <- _|]. eapply IHal, H.
  - intros o s d x tail H. cbn [parseObject_loop] in H.
    destruct (skipWS s) as [|c s1]; [discriminate|].
    destruct (negb (is_byte 34 c)); [discriminate|].
    destruct (parseRawKey s1) as [[key s2] [err|]]; [discriminate|].
    destruct (skipWS s2) as [|c2 s3]; [discriminate|].
    destruct (negb (is_byte 58 c2)); [discriminate|].
    destruct (parseValue limit fuel (skipWS s3) d) as [y s'| |]; try discriminate.
    destruct (skipWS s') as [|c4 s4]; [discriminate|].
    destruct (is_byte 44 c4); [eapply IHol, H|].
    destruct (is_byte 125 c4); [|discriminate]. now injection H as <- _.
  - intros s d x tail H. cbn [parseObject] in H.
    destruct (skipWS s) as [|c s1]; [discriminate|].
    destruct (is_byte 125 c); [now injection H as <- _|]. eapply IHol, H.
Qed.

(** A string value is read from a quote, its bytes and a quote. *)
Lemma parseValue_raw_string limit fuel s depth x tail :
  parseValue limit fuel s depth = Parsed x tail -> t x = typeRawString ->
  exists raw, x = VRawString raw /\ s = [quote] ++ raw ++ [quote] ++ tail.
Proof.
  destruct fuel as [|fuel]; [discriminate|]. cbn [parseValue].
  destruct s as [|c s1]; [discriminate|].
  destruct (limit <? depth + 1); [discriminate|].
  destruct (is_byte 123 c).
  { destruct (parseObject limit fuel s1 (depth + 1)) as [y tl| |] eqn:E; try discriminate.
    intros H Ht. injection H as -> ->. apply parse_containers in E. congruence. }
  destruct (is_byte 91 c).
  { destruct (parseArray limit fuel s1 (depth + 1)) as [y tl| |] eqn:E; try discriminate.
    intros H Ht. injection H as -> ->. apply parse_containers in E. congruence. }
  destruct (is_byte 34 c) eqn:Ec.
  { destruct (parseRawString s1) as [[ss tl] [err|]] eqn:E; [discriminate|].
    intros H _. injection H as <- <-. exists ss. split; [reflexivity|].
    apply is_byte_eq in Ec; [|lia]. subst c. apply parseRawString_sound in E.
    rewrite E. reflexivity. }
  destruct (is_byte 116 c).
  { destruct (negb _); [discriminate|]. intros H Ht. injection H as <- _. discriminate Ht. }
  destruct (is_byte 102 c).
  { destruct (negb _); [discriminate|]. intros H Ht. injection H as <- _. discriminate Ht. }
  destruct (is_byte 110 c).
  { destruct (negb _).
    - destruct (_ && _); [|discriminate]. intros H Ht. injection H as <- _. discriminate Ht.
    - intros H Ht. injection H as <- _. discriminate Ht. }
  destruct (parseRawNumber (c :: s1)) as [[ns tl] [err|]]; [discriminate|].
  intros H Ht. injection H as <- _. discriminate Ht.
Qed.


(** ** C5 *)

(** C5 on five inputs.  The escapes of a high and a low surrogate become
    the four UTF-8 bytes of U+1D11E, and an orphan surrogate at the end of
    the string or before a plain byte stays as it is.  An orphan surrogate
    followed by another well-formed escape does not: the escape of U+D834
    followed by that of the letter A becomes the three bytes of U+FFFD,
    and neither the surrogate's source bytes nor the A are left. *)
Theorem unescape_surrogates :
  unescapeStringBestEffort (escape_u "D834" ++ escape_u "DD1E")
    = map byte_of [240; 157; 132; 158] /\
  unescapeStringBestEffort (escape_u "D834") = escape_u "D834" /\
  unescapeStringBestEffort (escape_u "D834" ++ str "x") = escape_u "D834" ++ str "x" /\
  unescapeStringBestEffort (escape_u "D834" ++ escape_u "0041")
    = map byte_of [239; 191; 189] /\
  unescapeStringBestEffort (escape_u "DD1E" ++ escape_u "D834")
    = map byte_of [239; 191; 189].
Proof. repeat split; reflexivity. Qed.

(** ** C8 *)


(** C8 on these inputs.  The parser accepts all three.  The validator
    reports the control character that follows the last escape sequence of
    a string, and accepts the two documents whose control character stands
    before an escape sequence: the scan for control characters runs over
    what [validateString] returns, which on its slow path is what is left
    of the string after its last escape sequence. *)
Theorem Validate_misses_control_char_before_escape
  (startEndString : gostring -> gostring) :
  Parser_Parse MaxDepth startEndString control_before_escape
    = inl (VRawString ([byte_of 1; backslash] ++ str "n")) /\
  Validate startEndString control_before_escape = None /\
  Parser_Parse MaxDepth startEndString control_after_escape
    = inl (VRawString ([backslash] ++ str "n" ++ [byte_of 1])) /\
  Validate startEndString control_after_escape
    = Some (Wrapf "cannot parse JSON: %s; unparsed tail: %q" [startEndString []]
              (Errorf "string cannot contain control char 0x%02X" [[byte_of 1]])) /\
  (exists o, Parser_Parse MaxDepth startEndString control_in_key_before_escape
             = inl (VObject o)) /\
  Validate startEndString control_in_key_before_escape = None.
Proof. repeat split; try reflexivity. eexists. reflexivity. Qed.

(** ** The depth limit *)

Lemma elements_depth_nonneg l : 0 <= elements_depth l.
Proof. induction l as [|e l IH]; cbn [elements_depth fold_right]; [lia|]. fold (elements_depth l). lia. Qed.

Lemma members_depth_nonneg l : 0 <= members_depth l.
Proof. induction l as [|e l IH]; cbn [members_depth fold_right]; [lia|]. fold (members_depth l). lia. Qed.

Lemma value_depth_array a : value_depth (VArray a) = 1 + elements_depth a.
Proof. reflexivity. Qed.

Lemma value_depth_object o : value_depth (VObject o) = 1 + members_depth (kvs o).
Proof. reflexivity. Qed.

Lemma value_depth_pos x : 1 <= value_depth x.
Proof.
  destruct x as [|o|a|s|s| | |s]; try (cbn [value_depth]; lia).
  - rewrite value_depth_object. pose proof (members_depth_nonneg (kvs o)). lia.
  - rewrite value_depth_array. pose proof (elements_depth_nonneg a). lia.
Qed.

Lemma elements_depth_cons e l :
  elements_depth (e :: l) = Z.max (value_depth e) (elements_depth l).
Proof. reflexivity. Qed.

Lemma members_depth_cons e l :
  members_depth (e :: l) = Z.max (value_depth (v e)) (members_depth l).
Proof. reflexivity. Qed.

Lemma is_depth_error_wrap e format args :
  is_depth_error e = true -> is_depth_error (Wrapf format args e) = true.
Proof. intros H. exact H. Qed.

Section Limits.

(** Two limits: a parse under [L] that succeeded, and the same parse under
    [M]. *)
Variables L M : Z.

Lemma array_loop_sim_step fuel :
  value_sim L M fuel -> array_loop_sim L M fuel -> array_loop_sim L M (S fuel).
Proof.
  intros HV HAL a s d x tail H. cbn [parseArray_loop] in H. cbn [parseArray_loop].
  destruct (parseValue L fuel (skipWS s) d) as [y s2| |] eqn:EV; try discriminate.
  destruct (HV _ _ _ _ EV) as [Hok Hdeep]. pose proof (value_depth_pos y) as Hy.
  destruct (skipWS s2) as [|c s4] eqn:E3; [discriminate|].
  destruct (is_byte 44 c) eqn:Ecomma.
  - destruct (HAL _ _ _ _ _ H) as (new & -> & Hok' & Hdeep').
    exists (y :: new). split; [now rewrite <- app_assoc|].
    rewrite elements_depth_cons. split.
    + intros Hd. rewrite Hok by lia. rewrite E3, Ecomma. apply Hok'. lia.
    + intros Hd. destruct (Z_le_gt_dec (d + value_depth y) M) as [Hle|Hgt].
      * rewrite Hok by exact Hle. rewrite E3, Ecomma. apply Hdeep'. lia.
      * destruct (Hdeep ltac:(lia)) as (tl & e & -> & He).
        exists tl, (Wrapf "cannot parse array value: %s" [] e). split; [reflexivity|exact He].
  - destruct (is_byte 93 c) eqn:Eclose; [|discriminate]. injection H as <- <-.
    exists [y]. split; [reflexivity|]. rewrite elements_depth_cons.
    change (elements_depth []) with 0. split.
    + intros Hd. rewrite Hok by lia. now rewrite E3, Ecomma, Eclose.
    + intros Hd. destruct (Hdeep ltac:(lia)) as (tl & e & -> & He).
      exists tl, (Wrapf "cannot parse array value: %s" [] e). split; [reflexivity|exact He].
Qed.

Lemma array_sim_step fuel : array_loop_sim L M fuel -> array_sim L M (S fuel).
Proof.
  intros HAL s d x tail H. cbn [parseArray] in H. cbn [parseArray].
  destruct (skipWS s) as [|c s1] eqn:E; [discriminate|].
  destruct (is_byte 93 c) eqn:Eclose.
  - injection H as <- <-. exists []. split; [reflexivity|].
    change (elements_depth []) with 0. split; [reflexivity|lia].
  - destruct (HAL _ _ _ _ _ H) as (new & -> & Hok & Hdeep).
    exists new. split; [reflexivity|]. split; [exact Hok|]. intros Hd _. now apply Hdeep.
Qed.

Lemma object_loop_sim_step fuel :
  value_sim L M fuel -> object_loop_sim L M fuel -> object_loop_sim L M (S fuel).
Proof.
  intros HV HOL o s d x tail H. cbn [parseObject_loop] in H. cbn [parseObject_loop].
  destruct (skipWS s) as [|c s1] eqn:E1; [discriminate|].
  destruct (negb (is_byte 34 c)); [discriminate|].
  destruct (parseRawKey s1) as [[key s2] [err|]]; [discriminate|].
  destruct (skipWS s2) as [|c2 s3] eqn:E2; [discriminate|].
  destruct (negb (is_byte 58 c2)); [discriminate|].
  destruct (parseValue L fuel (skipWS s3) d) as [y s4| |] eqn:EV; try discriminate.
  destruct (HV _ _ _ _ EV) as [Hok Hdeep]. pose proof (value_depth_pos y) as Hy.
  destruct (skipWS s4) as [|c5 s5] eqn:E5; [discriminate|].
  destruct (is_byte 44 c5) eqn:Ecomma.
  - destruct (HOL _ _ _ _ _ H) as (new & -> & Hok' & Hdeep').
    exists (mkKV key y :: new). split; [now rewrite <- app_assoc|].
    rewrite members_depth_cons. cbn [v]. split.
    + intros Hd. rewrite Hok by lia. rewrite E5, Ecomma. apply Hok'. lia.
    + intros Hd. destruct (Z_le_gt_dec (d + value_depth y) M) as [Hle|Hgt].
      * rewrite Hok by exact Hle. rewrite E5, Ecomma. apply Hdeep'. lia.
      * destruct (Hdeep ltac:(lia)) as (tl & e & -> & He).
        exists tl, (Wrapf "cannot parse object value: %s" [] e). split; [reflexivity|exact He].
  - destruct (is_byte 125 c5) eqn:Eclose; [|discriminate]. injection H as <- <-.
    exists [mkKV key y]. split; [reflexivity|]. rewrite members_depth_cons. cbn [v].
    change (members_depth []) with 0. split.
    + intros Hd. rewrite Hok by lia. now rewrite E5, Ecomma, Eclose.
    + intros Hd. destruct (Hdeep ltac:(lia)) as (tl & e & -> & He).
      exists tl, (Wrapf "cannot parse object value: %s" [] e). split; [reflexivity|exact He].
Qed.

Lemma object_sim_step fuel : object_loop_sim L M fuel -> object_sim L M (S fuel).
Proof.
  intros HOL s d x tail H. cbn [parseObject] in H. cbn [parseObject].
  destruct (skipWS s) as [|c s1] eqn:E; [discriminate|].
  destruct (is_byte 125 c) eqn:Eclose.
  - injection H as <- <-. exists []. split; [reflexivity|].
    change (members_depth []) with 0. split; [reflexivity|lia].
  - destruct (HOL _ _ _ _ _ H) as (new & -> & Hok & Hdeep).
    exists new. split; [reflexivity|]. split; [exact Hok|]. intros Hd _. now apply Hdeep.
Qed.

Lemma too_deep_fails s :
  fails_for_depth
    (Failed s (Errorf "too big depth for the nested JSON; it exceeds %d" [])).
Proof. exists s, (Errorf "too big depth for the nested JSON; it exceeds %d" []). now split. Qed.

Lemma value_sim_step fuel : array_sim L M fuel -> object_sim L M fuel -> value_sim L M (S fuel).
Proof.
  intros HA HO s d x tail H. cbn [parseValue] in H. cbn [parseValue].
  destruct s as [|c s1]; [discriminate|].
  destruct (L <? d + 1) eqn:EL; [discriminate|].
  pose proof (value_depth_pos x) as Hx.
  destruct (M <? d + 1) eqn:EM.
  { apply Z.ltb_lt in EM. split; [lia|]. intros _. apply too_deep_fails. }
  apply Z.ltb_ge in EM.
  destruct (is_byte 123 c).
  { destruct (parseObject L fuel s1 (d + 1)) as [y tl| |] eqn:E; try discriminate.
    injection H as -> ->. destruct (HO _ _ _ _ E) as (new & -> & Hok & Hdeep).
    rewrite value_depth_object. cbn [kvs]. split.
    - intros Hd. now rewrite Hok by lia.
    - intros Hd. destruct (Hdeep ltac:(lia) EM) as (tl' & e & -> & He).
      exists tl', (Wrapf "cannot parse object: %s" [] e). split; [reflexivity|exact He]. }
  destruct (is_byte 91 c).
  { destruct (parseArray L fuel s1 (d + 1)) as [y tl| |] eqn:E; try discriminate.
    injection H as -> ->. destruct (HA _ _ _ _ E) as (new & -> & Hok & Hdeep).
    rewrite value_depth_array. split.
    - intros Hd. now rewrite Hok by lia.
    - intros Hd. destruct (Hdeep ltac:(lia) EM) as (tl' & e & -> & He).
      exists tl', (Wrapf "cannot parse array: %s" [] e). split; [reflexivity|exact He]. }
  (* the scalars do not look at the limit again, and their depth is 1 *)
  assert (Hscalar : value_depth x = 1 -> 
            (d + value_depth x <= M -> Parsed x tail = Parsed x tail) /\
            (M < d + value_depth x -> fails_for_depth (Parsed x tail))).
  { intros ->. split; [reflexivity|lia]. }
  destruct (is_byte 34 c).
  { destruct (parseRawString s1) as [[ss tl] [err|]]; [discriminate|].
    injection H as <- <-. now apply Hscalar. }
  destruct (is_byte 116 c).
  { destruct (negb _); [discriminate|]. injection H as <- <-. now apply Hscalar. }
  destruct (is_byte 102 c).
  { destruct (negb _); [discriminate|]. injection H as <- <-. now apply Hscalar. }
  destruct (is_byte 110 c).
  { destruct (negb _).
    - destruct (_ && _); [|discriminate]. injection H as <- <-. now apply Hscalar.
    - injection H as <- <-. now apply Hscalar. }
  destruct (parseRawNumber (c :: s1)) as [[ns tl] [err|]]; [discriminate|].
  injection H as <- <-. now apply Hscalar.
Qed.

Lemma parse_sim fuel :
  value_sim L M fuel /\ array_loop_sim L M fuel /\ array_sim L M fuel /\
  object_loop_sim L M fuel /\ object_sim L M fuel.
Proof.
  induction fuel as [|fuel (HV & HAL & HA & HOL & HO)].
  - split; [intros s d x tail H; discriminate H|].
    split; [intros a s d x tail H; discriminate H|].
    split; [intros s d x tail H; discriminate H|].
    split; [intros o s d x tail H; discriminate H|intros s d x tail H; discriminate H].
  - split; [now apply value_sim_step|].
    split; [now apply array_loop_sim_step|].
    split; [now apply array_sim_step|].
    split; [now apply object_loop_sim_step|now apply object_sim_step].
Qed.

End Limits.

(** The depth the elements of a value are parsed at never reaches the limit
    of a parse that succeeded. *)
Lemma parseValue_depth_within_limit L fuel s d x tail :
  parseValue L fuel s d = Parsed x tail -> d + value_depth x <= L.
Proof.
  intros H. destruct (parse_sim L L fuel) as (HV & _).
  destruct (HV _ _ _ _ H) as [_ Hdeep].
  destruct (Z_le_gt_dec (d + value_depth x) L) as [Hle|Hgt]; [exact Hle|].
  destruct (Hdeep ltac:(lia)) as (tl & e & E & _). rewrite H in E. discriminate E.
Qed.

(** [nested_arrays n] is [n + 1] deep. *)
Lemma value_depth_nested_arrays n : value_depth (nested_arrays n) = Z.of_nat n + 1.
Proof.
  induction n as [|n IH].
  - reflexivity.
  - cbn [nested_arrays]. rewrite value_depth_array, elements_depth_cons, IH.
    change (elements_depth []) with 0. lia.
Qed.



(** At the boundary: 300 arrays parse, 301 do not. *)
Example Parse_300_arrays :
  Parser_Parse MaxDepth (fun tail => tail) (nested_brackets 299) = inl (nested_arrays 299) /\
  value_depth (nested_arrays 299) = 300.
Proof. split; vm_compute; reflexivity. Qed.

Example Parse_301_arrays :
  value_depth (nested_arrays 300) = 301 /\
  match Parser_Parse MaxDepth (fun tail => tail) (nested_brackets 300) with
  | inr e => is_depth_error e
  | inl _ => false
  end = true.
Proof. split; vm_compute; reflexivity. Qed.

(** ** What a parse leaves is shorter than what it was given *)

Lemma length_from n s : (List.length (from n s) <= List.length s)%nat.
Proof. unfold from. rewrite length_skipn. lia. Qed.

Lemma length_from_lt n c s : 0 < n -> (List.length (from n (c :: s)) < List.length (c :: s))%nat.
Proof.
  intros Hn. unfold from. rewrite length_skipn. cbn [List.length].
  assert (0 < Z.to_nat n)%nat by lia. lia.
Qed.

Lemma length_skipWS_loop s : (List.length (skipWS_loop s) <= List.length s)%nat.
Proof.
  induction s as [|c s IH]; cbn [skipWS_loop]; [lia|].
  destruct (negb (is_ws c)); cbn [List.length]; lia.
Qed.

Lemma length_skipWS s : (List.length (skipWS s) <= List.length s)%nat.
Proof.
  destruct s as [|c s]; cbn [skipWS]; [lia|].
  destruct (32 <? code c); [lia|]. cbn [skipWSSlow].
  destruct (negb (is_ws c)); [lia|].
  pose proof (length_skipWS_loop s). cbn [List.length]. lia.
Qed.

Lemma length_parseRawString s ss tail :
  parseRawString s = (ss, tail, None) -> (List.length tail < List.length s)%nat.
Proof.
  intros H. apply parseRawString_sound in H. rewrite H, length_app. cbn [List.length]. lia.
Qed.

Lemma length_parseRawKey_loop s : forall rest i key tail,
  parseRawKey_loop s rest i = (key, tail, None) ->
  (List.length tail <= List.length s)%nat.
Proof.
  induction rest as [|c rest IH]; intros i key tail H; cbn [parseRawKey_loop] in H;
    [discriminate|].
  destruct (is_byte 34 c).
  - injection H as _ <-. apply length_from.
  - destruct (is_byte 92 c).
    + apply length_parseRawString in H. lia.
    + eapply IH, H.
Qed.

Lemma length_parseRawKey s key tail :
  parseRawKey s = (key, tail, None) -> (List.length tail <= List.length s)%nat.
Proof. apply length_parseRawKey_loop. Qed.

Lemma length_parseRawNumber_loop c s : forall rest i ns tail,
  0 <= i ->
  parseRawNumber_loop (c :: s) rest i = (ns, tail, None) ->
  (List.length tail < List.length (c :: s))%nat.
Proof.
  induction rest as [|ch rest IH]; intros i ns tail Hi H; cbn [parseRawNumber_loop] in H.
  - injection H as _ <-. cbn [List.length]. lia.
  - destruct (is_number_byte ch); [apply (IH (i + 1) ns tail); [lia|exact H]|].
    destruct ((i =? 0) || ((i =? 1) && _)) eqn:E.
    + match type of H with context [if ?b then _ else _] => destruct b end;
        [|discriminate]. injection H as _ <-.
      apply length_from_lt. lia.
    + injection H as _ <-. apply length_from_lt.
      apply orb_false_iff in E. destruct E as [E _]. apply Z.eqb_neq in E. lia.
Qed.

Lemma length_parseRawNumber c s ns tail :
  parseRawNumber (c :: s) = (ns, tail, None) ->
  (List.length tail < List.length (c :: s))%nat.
Proof. apply length_parseRawNumber_loop. lia. Qed.

(** A value, an array or an object that is parsed takes at least one byte
    of the input. *)
Lemma parse_progress limit fuel :
  (forall s d x tail, parseValue limit fuel s d = Parsed x tail ->
     (List.length tail < List.length s)%nat) /\
  (forall a s d x tail, parseArray_loop limit fuel a s d = Parsed x tail ->
     (List.length tail < List.length s)%nat) /\
  (forall s d x tail, parseArray limit fuel s d = Parsed x tail ->
     (List.length tail < List.length s)%nat) /\
  (forall o s d x tail, parseObject_loop limit fuel o s d = Parsed x tail ->
     (List.length tail < List.length s)%nat) /\
  (forall s d x tail, parseObject limit fuel s d = Parsed x tail ->
     (List.length tail < List.length s)%nat).
Proof.
  induction fuel as [|fuel (HV & HAL & HA & HOL & HO)].
  - split; [intros s d x tail H; discriminate H|].
    split; [intros a s d x tail H; discriminate H|].
    split; [intros s d x tail H; discriminate H|].
    split; [intros o s d x tail H; discriminate H|intros s d x tail H; discriminate H].
  - split; [|split; [|split; [|split]]].
    + intros s d x tail H. cbn [parseValue] in H.
      destruct s as [|c s1]; [discriminate|].
      destruct (limit <? d + 1); [discriminate|].
      destruct (is_byte 123 c).
      { destruct (parseObject limit fuel s1 (d + 1)) as [y tl| |] eqn:E; try discriminate.
        injection H as _ <-. apply HO in E. cbn [List.length]. lia. }
      destruct (is_byte 91 c).
      { destruct (parseArray limit fuel s1 (d + 1)) as [y tl| |] eqn:E; try discriminate.
        injection H as _ <-. apply HA in E. cbn [List.length]. lia. }
      destruct (is_byte 34 c).
      { destruct (parseRawString s1) as [[ss tl] [err|]] eqn:E; [discriminate|].
        injection H as _ <-. apply length_parseRawString in E. cbn [List.length]. lia. }
      destruct (is_byte 116 c).
      { destruct (negb _); [discriminate|]. injection H as _ <-. apply length_from_lt. lia. }
      destruct (is_byte 102 c).
      { destruct (negb _); [discriminate|]. injection H as _ <-. apply length_from_lt. lia. }
      destruct (is_byte 110 c).
      { destruct (negb _).
        - destruct (_ && _); [|discriminate]. injection H as _ <-. apply length_from_lt. lia.
        - injection H as _ <-. apply length_from_lt. lia. }
      destruct (parseRawNumber (c :: s1)) as [[ns tl] [err|]] eqn:E; [discriminate|].
      injection H as _ <-. now apply length_parseRawNumber in E.
    + intros a s d x tail H. cbn [parseArray_loop] in H.
      pose proof (length_skipWS s) as Hs.
      destruct (parseValue limit fuel (skipWS s) d) as [y s2| |] eqn:EV; try discriminate.
      apply HV in EV. pose proof (length_skipWS s2) as Hs2.
      destruct (skipWS s2) as [|c s4]; [discriminate|]. cbn [List.length] in Hs2.
      destruct (is_byte 44 c); [apply HAL in H; lia|].
      destruct (is_byte 93 c); [|discriminate]. injection H as _ <-. lia.
    + intros s d x tail H. cbn [parseArray] in H.
      pose proof (length_skipWS s) as Hs.
      destruct (skipWS s) as [|c s1]; [discriminate|]. cbn [List.length] in Hs.
      destruct (is_byte 93 c); [injection H as _ <-; lia|].
      apply HAL in H. cbn [List.length] in H. lia.
    + intros o s d x tail H. cbn [parseObject_loop] in H.
      pose proof (length_skipWS s) as Hs.
      destruct (skipWS s) as [|c s1]; [discriminate|]. cbn [List.length] in Hs.
      destruct (negb (is_byte 34 c)); [discriminate|].
      destruct (parseRawKey s1) as [[key s2] [err|]] eqn:EK; [discriminate|].
      apply length_parseRawKey in EK. pose proof (length_skipWS s2) as Hs2.
      destruct (skipWS s2) as [|c2 s3]; [discriminate|]. cbn [List.length] in Hs2.
      destruct (negb (is_byte 58 c2)); [discriminate|].
      pose proof (length_skipWS s3) as Hs3.
      destruct (parseValue limit fuel (skipWS s3) d) as [y s4| |] eqn:EV; try discriminate.
      apply HV in EV. pose proof (length_skipWS s4) as Hs4.
      destruct (skipWS s4) as [|c5 s5]; [discriminate|]. cbn [List.length] in Hs4.
      destruct (is_byte 44 c5); [apply HOL in H; lia|].
      destruct (is_byte 125 c5); [|discriminate]. injection H as _ <-. lia.
    + intros s d x tail H. cbn [parseObject] in H.
      pose proof (length_skipWS s) as Hs.
      destruct (skipWS s) as [|c s1]; [discriminate|]. cbn [List.length] in Hs.
      destruct (is_byte 125 c); [injection H as _ <-; lia|].
      apply HOL in H. cbn [List.length] in H. lia.
Qed.

(** The fuel of the embedding is enough: three rounds and one for a byte
    of a value, one more for the loop of an array or an object, and one
    more for the array or the object. *)
Lemma parse_fuel limit fuel :
  (forall s d, (3 * List.length s + 1 <= fuel)%nat ->
     parseValue limit fuel s d <> OutOfFuel) /\
  (forall a s d, (3 * List.length s + 2 <= fuel)%nat ->
     parseArray_loop limit fuel a s d <> OutOfFuel) /\
  (forall s d, (3 * List.length s + 3 <= fuel)%nat ->
     parseArray limit fuel s d <> OutOfFuel) /\
  (forall o s d, (3 * List.length s + 2 <= fuel)%nat ->
     parseObject_loop limit fuel o s d <> OutOfFuel) /\
  (forall s d, (3 * List.length s + 3 <= fuel)%nat ->
     parseObject limit fuel s d <> OutOfFuel).
Proof.
  induction fuel as [|fuel (HV & HAL & HA & HOL & HO)].
  - split; [intros s d H; lia|]. split; [intros a s d H; lia|].
    split; [intros s d H; lia|]. split; [intros o s d H; lia|intros s d H; lia].
  - destruct (parse_progress limit fuel) as (PV & PAL & PA & POL & PO).
    split; [|split; [|split; [|split]]].
    + intros s d Hf. cbn [parseValue].
      destruct s as [|c s1]; [discriminate|]. cbn [List.length] in Hf.
      destruct (limit <? d + 1); [discriminate|].
      destruct (is_byte 123 c).
      { specialize (HO s1 (d + 1) ltac:(lia)).
        destruct (parseObject limit fuel s1 (d + 1)); [discriminate|discriminate|exact HO]. }
      destruct (is_byte 91 c).
      { specialize (HA s1 (d + 1) ltac:(lia)).
        destruct (parseArray limit fuel s1 (d + 1)); [discriminate|discriminate|exact HA]. }
      destruct (is_byte 34 c).
      { destruct (parseRawString s1) as [[ss tl] [err|]]; discriminate. }
      destruct (is_byte 116 c); [destruct (negb _); discriminate|].
      destruct (is_byte 102 c); [destruct (negb _); discriminate|].
      destruct (is_byte 110 c).
      { destruct (negb _); [|discriminate]. destruct (_ && _); discriminate. }
      destruct (parseRawNumber (c :: s1)) as [[ns tl] [err|]]; discriminate.
    + intros a s d Hf. cbn [parseArray_loop].
      pose proof (length_skipWS s) as Hs.
      specialize (HV (skipWS s) d ltac:(lia)).
      destruct (parseValue limit fuel (skipWS s) d) as [y s2| |] eqn:EV;
        [|discriminate|exact HV].
      apply PV in EV. pose proof (length_skipWS s2) as Hs2.
      destruct (skipWS s2) as [|c s4]; [discriminate|]. cbn [List.length] in Hs2.
      destruct (is_byte 44 c); [apply HAL; lia|].
      destruct (is_byte 93 c); discriminate.
    + intros s d Hf. cbn [parseArray].
      pose proof (length_skipWS s) as Hs.
      destruct (skipWS s) as [|c s1]; [discriminate|].
      destruct (is_byte 93 c); [discriminate|]. apply HAL. lia.
    + intros o s d Hf. cbn [parseObject_loop].
      pose proof (length_skipWS s) as Hs.
      destruct (skipWS s) as [|c s1]; [discriminate|]. cbn [List.length] in Hs.
      destruct (negb (is_byte 34 c)); [discriminate|].
      destruct (parseRawKey s1) as [[key s2] [err|]] eqn:EK; [discriminate|].
      apply length_parseRawKey in EK. pose proof (length_skipWS s2) as Hs2.
      destruct (skipWS s2) as [|c2 s3]; [discriminate|]. cbn [List.length] in Hs2.
      destruct (negb (is_byte 58 c2)); [discriminate|].
      pose proof (length_skipWS s3) as Hs3.
      specialize (HV (skipWS s3) d ltac:(lia)).
      destruct (parseValue limit fuel (skipWS s3) d) as [y s4| |] eqn:EV;
        [|discriminate|exact HV].
      apply PV in EV. pose proof (length_skipWS s4) as Hs4.
      destruct (skipWS s4) as [|c5 s5]; [discriminate|]. cbn [List.length] in Hs4.
      destruct (is_byte 44 c5); [apply HOL; lia|].
      destruct (is_byte 125 c5); discriminate.
    + intros s d Hf. cbn [parseObject].
      pose proof (length_skipWS s) as Hs.
      destruct (skipWS s) as [|c s1]; [discriminate|].
      destruct (is_byte 125 c); [discriminate|]. apply HOL. lia.
Qed.

(** [Parser.Parse] returns a value or an error of the parser: the fuel of
    the embedding is never used up. *)
Lemma Parser_Parse_fuel limit s d :
  parseValue limit (fuel_for s) s d <> OutOfFuel.
Proof. apply parse_fuel. unfold fuel_for. lia. Qed.

(** ** The validator takes bytes as the parser does *)

Lemma length_from_pos n s :
  0 < n -> s <> [] -> (List.length (from n s) < List.length s)%nat.
Proof. intros Hn Hs. destruct s as [|c s]; [congruence|]. now apply length_from_lt. Qed.

Lemma length_validateString_loop fuel : forall rs tail rs' tail' e,
  validateString_loop fuel rs tail = (rs', tail', e) -> tail' = tail.
Proof.
  induction fuel as [|fuel IH]; intros rs tail rs' tail' e H;
    cbn [validateString_loop] in H; [now injection H as _ <- _|].
  destruct (IndexByte rs 92 <? 0); [now injection H as _ <- _|].
  destruct (len rs <=? IndexByte rs 92 + 1); [now injection H as _ <- _|].
  cbv zeta in H.
  destruct (is_simple_escape _); [eapply IH, H|].
  destruct (is_byte 117 _); [|now injection H as _ <- _].
  destruct (len _ <? 4); [now injection H as _ <- _|].
  destruct (hex16.ParseUint _) as [x [err|]]; [now injection H as _ <- _|].
  eapply IH, H.
Qed.

Lemma length_validateString s sv tail :
  validateString s = (sv, tail, None) -> (List.length tail < List.length s)%nat.
Proof.
  unfold validateString.
  destruct ((0 <=? IndexByte s 34) && _) eqn:E.
  - intros H. injection H as _ <-. apply andb_prop in E. destruct E as [E _].
    apply Z.leb_le in E. apply length_from_pos; [lia|].
    intros ->. cbn [IndexByte] in E. lia.
  - destruct (parseRawString s) as [[rs tl] [err|]] eqn:EP; [discriminate|].
    intros H. apply length_validateString_loop in H. subst tail.
    now apply length_parseRawString in EP.
Qed.

Lemma length_validateKey_loop s : forall rest i key tail,
  validateKey_loop s rest i = (key, tail, None) ->
  (List.length tail <= List.length s)%nat.
Proof.
  induction rest as [|c rest IH]; intros i key tail H; cbn [validateKey_loop] in H;
    [discriminate|].
  destruct (is_byte 34 c).
  - injection H as _ <-. apply length_from.
  - destruct (is_byte 92 c).
    + apply length_validateString in H. lia.
    + eapply IH, H.
Qed.

Lemma length_validateKey s key tail :
  validateKey s = (key, tail, None) -> (List.length tail <= List.length s)%nat.
Proof. apply length_validateKey_loop. Qed.

Lemma digits_end_ge rest : forall i, i <= digits_end rest i.
Proof.
  induction rest as [|c rest IH]; intros i; cbn [digits_end]; [lia|].
  destruct (is_digit c); [|lia]. specialize (IH (i + 1)). lia.
Qed.

Lemma len_0_iff s : (len s =? 0) = false -> s <> [].
Proof. intros H ->. discriminate H. Qed.

Lemma length_validateNumber_exponent s i tail :
  0 < i -> s <> [] ->
  validateNumber_exponent s i = (tail, None) ->
  (List.length tail < List.length s)%nat.
Proof.
  intros Hi Hs. unfold validateNumber_exponent.
  assert (Hnil : (0 < List.length s)%nat) by (destruct s; [congruence|cbn; lia]).
  destruct (is_byte 101 (at_ s i) || is_byte 69 (at_ s i)).
  - pose proof (length_from_pos (i + 1) s ltac:(lia) Hs) as H1.
    set (s1 := from (i + 1) s) in *.
    destruct (len s1 =? 0); [discriminate|]. cbv zeta.
    set (signed := is_byte 45 (at_ s1 0) || is_byte 43 (at_ s1 0)).
    set (s2 := if signed then from 1 s1 else s1).
    assert (H2 : (List.length s2 <= List.length s1)%nat).
    { unfold s2. destruct signed; [apply length_from|lia]. }
    destruct (signed && (len s2 =? 0)); [discriminate|].
    destruct (digits_end s2 0 =? 0); [discriminate|].
    destruct (len s2 <=? digits_end s2 0).
    + intros H. injection H as <-. exact Hnil.
    + intros H. injection H as <-. pose proof (length_from (digits_end s2 0) s2). lia.
  - intros H. injection H as <-. now apply length_from_pos.
Qed.

Lemma length_validateNumber_fraction s i tail :
  0 < i -> s <> [] ->
  validateNumber_fraction s i = (tail, None) ->
  (List.length tail < List.length s)%nat.
Proof.
  intros Hi Hs. unfold validateNumber_fraction.
  assert (Hnil : (0 < List.length s)%nat) by (destruct s; [congruence|cbn; lia]).
  destruct (is_byte 46 (at_ s i)); [|now apply length_validateNumber_exponent].
  pose proof (length_from (i + 1) s) as H1.
  set (s1 := from (i + 1) s) in *.
  destruct (len s1 =? 0) eqn:E1; [discriminate|]. cbv zeta.
  destruct (digits_end s1 0 =? 0) eqn:Ed; [discriminate|].
  destruct (len s1 <=? digits_end s1 0).
  - intros H. injection H as <-. exact Hnil.
  - intros H. apply length_validateNumber_exponent in H.
    + lia.
    + apply Z.eqb_neq in Ed. pose proof (digits_end_ge s1 0). lia.
    + now apply len_0_iff.
Qed.

Lemma length_validateNumber s tail :
  validateNumber s = (tail, None) -> (List.length tail < List.length s)%nat.
Proof.
  unfold validateNumber. destruct (len s =? 0) eqn:E0; [discriminate|].
  apply len_0_iff in E0.
  assert (Hnil : (0 < List.length s)%nat) by (destruct s; [congruence|cbn; lia]).
  cbv zeta. set (minus := is_byte 45 (at_ s 0)).
  set (s1 := if minus then from 1 s else s).
  assert (H1 : (List.length s1 <= List.length s)%nat).
  { unfold s1. destruct minus; [apply length_from|lia]. }
  destruct (minus && (len s1 =? 0)); [discriminate|].
  destruct (digits_end s1 0 <=? 0) eqn:Ed; [discriminate|]. apply Z.leb_gt in Ed.
  destruct (is_byte 48 (at_ s1 0) && negb (digits_end s1 0 =? 1)); [discriminate|].
  destruct (len s1 <=? digits_end s1 0) eqn:El.
  - intros H. injection H as <-. exact Hnil.
  - intros H. apply length_validateNumber_fraction in H; [lia|exact Ed|].
    apply Z.leb_gt in El. intros ->. change (len []) with 0 in El. lia.
Qed.

(** What the validator accepts takes at least one byte of the input. *)
Lemma validate_progress fuel :
  (forall s tail, validateValue fuel s = Valid tail ->
     (List.length tail < List.length s)%nat) /\
  (forall s tail, validateArray_loop fuel s = Valid tail ->
     (List.length tail < List.length s)%nat) /\
  (forall s tail, validateArray fuel s = Valid tail ->
     (List.length tail < List.length s)%nat) /\
  (forall s tail, validateObject_loop fuel s = Valid tail ->
     (List.length tail < List.length s)%nat) /\
  (forall s tail, validateObject fuel s = Valid tail ->
     (List.length tail < List.length s)%nat).
Proof.
  induction fuel as [|fuel (HV & HAL & HA & HOL & HO)].
  - repeat split; intros s tail H; discriminate H.
  - split; [|split; [|split; [|split]]].
    + intros s tail H. cbn [validateValue] in H.
      destruct s as [|c s1]; [discriminate|].
      destruct (is_byte 123 c).
      { destruct (validateObject fuel s1) as [tl|tl e|] eqn:E; try discriminate.
        injection H as <-. apply HO in E. cbn [List.length]. lia. }
      destruct (is_byte 91 c).
      { destruct (validateArray fuel s1) as [tl|tl e|] eqn:E; try discriminate.
        injection H as <-. apply HA in E. cbn [List.length]. lia. }
      destruct (is_byte 34 c).
      { destruct (validateString s1) as [[sv tl] [err|]] eqn:E; [discriminate|].
        destruct (control_char sv); [discriminate|].
        injection H as <-. apply length_validateString in E. cbn [List.length]. lia. }
      destruct (is_byte 116 c).
      { destruct (negb _); [discriminate|]. injection H as <-. apply length_from_lt. lia. }
      destruct (is_byte 102 c).
      { destruct (negb _); [discriminate|]. injection H as <-. apply length_from_lt. lia. }
      destruct (is_byte 110 c).
      { destruct (negb _); [discriminate|]. injection H as <-. apply length_from_lt. lia. }
      destruct (validateNumber (c :: s1)) as [tl [err|]] eqn:E; [discriminate|].
      injection H as <-. now apply length_validateNumber in E.
    + intros s tail H. cbn [validateArray_loop] in H.
      pose proof (length_skipWS s) as Hs.
      destruct (validateValue fuel (skipWS s)) as [s2|s2 e|] eqn:EV; try discriminate.
      apply HV in EV. pose proof (length_skipWS s2) as Hs2.
      destruct (skipWS s2) as [|c s4]; [discriminate|]. cbn [List.length] in Hs2.
      destruct (is_byte 44 c); [apply HAL in H; lia|].
      destruct (is_byte 93 c); [|discriminate]. injection H as <-. lia.
    + intros s tail H. cbn [validateArray] in H.
      pose proof (length_skipWS s) as Hs.
      destruct (skipWS s) as [|c s1]; [discriminate|]. cbn [List.length] in Hs.
      destruct (is_byte 93 c); [injection H as <-; lia|].
      apply HAL in H. cbn [List.length] in H. lia.
    + intros s tail H. cbn [validateObject_loop] in H.
      pose proof (length_skipWS s) as Hs.
      destruct (skipWS s) as [|c s1]; [discriminate|]. cbn [List.length] in Hs.
      destruct (negb (is_byte 34 c)); [discriminate|].
      destruct (validateKey s1) as [[key s2] [err|]] eqn:EK; [discriminate|].
      destruct (control_char key); [discriminate|].
      apply length_validateKey in EK. pose proof (length_skipWS s2) as Hs2.
      destruct (skipWS s2) as [|c2 s3]; [discriminate|]. cbn [List.length] in Hs2.
      destruct (negb (is_byte 58 c2)); [discriminate|].
      pose proof (length_skipWS s3) as Hs3.
      destruct (validateValue fuel (skipWS s3)) as [s4|s4 e|] eqn:EV; try discriminate.
      apply HV in EV. pose proof (length_skipWS s4) as Hs4.
      destruct (skipWS s4) as [|c5 s5]; [discriminate|]. cbn [List.length] in Hs4.
      destruct (is_byte 44 c5); [apply HOL in H; lia|].
      destruct (is_byte 125 c5); [|discriminate]. injection H as <-. lia.
    + intros s tail H. cbn [validateObject] in H.
      pose proof (length_skipWS s) as Hs.
      destruct (skipWS s) as [|c s1]; [discriminate|]. cbn [List.length] in Hs.
      destruct (is_byte 125 c); [injection H as <-; lia|].
      apply HOL in H. cbn [List.length] in H. lia.
Qed.

(** The same fuel is enough for the validator. *)
Lemma validate_fuel fuel :
  (forall s, (3 * List.length s + 1 <= fuel)%nat -> validateValue fuel s <> NoFuel) /\
  (forall s, (3 * List.length s + 2 <= fuel)%nat -> validateArray_loop fuel s <> NoFuel) /\
  (forall s, (3 * List.length s + 3 <= fuel)%nat -> validateArray fuel s <> NoFuel) /\
  (forall s, (3 * List.length s + 2 <= fuel)%nat -> validateObject_loop fuel s <> NoFuel) /\
  (forall s, (3 * List.length s + 3 <= fuel)%nat -> validateObject fuel s <> NoFuel).
Proof.
  induction fuel as [|fuel (HV & HAL & HA & HOL & HO)].
  - repeat split; intros s H; lia.
  - destruct (validate_progress fuel) as (PV & PAL & PA & POL & PO).
    split; [|split; [|split; [|split]]].
    + intros s Hf. cbn [validateValue].
      destruct s as [|c s1]; [discriminate|]. cbn [List.length] in Hf.
      destruct (is_byte 123 c).
      { specialize (HO s1 ltac:(lia)).
        destruct (validateObject fuel s1); [discriminate|discriminate|exact HO]. }
      destruct (is_byte 91 c).
      { specialize (HA s1 ltac:(lia)).
        destruct (validateArray fuel s1); [discriminate|discriminate|exact HA]. }
      destruct (is_byte 34 c).
      { destruct (validateString s1) as [[sv tl] [err|]]; [discriminate|].
        destruct (control_char sv); discriminate. }
      destruct (is_byte 116 c); [destruct (negb _); discriminate|].
      destruct (is_byte 102 c); [destruct (negb _); discriminate|].
      destruct (is_byte 110 c); [destruct (negb _); discriminate|].
      destruct (validateNumber (c :: s1)) as [tl [err|]]; discriminate.
    + intros s Hf. cbn [validateArray_loop].
      pose proof (length_skipWS s) as Hs.
      specialize (HV (skipWS s) ltac:(lia)).
      destruct (validateValue fuel (skipWS s)) as [s2|s2 e|] eqn:EV;
        [|discriminate|exact HV].
      apply PV in EV. pose proof (length_skipWS s2) as Hs2.
      destruct (skipWS s2) as [|c s4]; [discriminate|]. cbn [List.length] in Hs2.
      destruct (is_byte 44 c); [apply HAL; lia|].
      destruct (is_byte 93 c); discriminate.
    + intros s Hf. cbn [validateArray].
      pose proof (length_skipWS s) as Hs.
      destruct (skipWS s) as [|c s1]; [discriminate|].
      destruct (is_byte 93 c); [discriminate|]. apply HAL. lia.
    + intros s Hf. cbn [validateObject_loop].
      pose proof (length_skipWS s) as Hs.
      destruct (skipWS s) as [|c s1]; [discriminate|]. cbn [List.length] in Hs.
      destruct (negb (is_byte 34 c)); [discriminate|].
      destruct (validateKey s1) as [[key s2] [err|]] eqn:EK; [discriminate|].
      destruct (control_char key); [discriminate|].
      apply length_validateKey in EK. pose proof (length_skipWS s2) as Hs2.
      destruct (skipWS s2) as [|c2 s3]; [discriminate|]. cbn [List.length] in Hs2.
      destruct (negb (is_byte 58 c2)); [discriminate|].
      pose proof (length_skipWS s3) as Hs3.
      specialize (HV (skipWS s3) ltac:(lia)).
      destruct (validateValue fuel (skipWS s3)) as [s4|s4 e|] eqn:EV;
        [|discriminate|exact HV].
      apply PV in EV. pose proof (length_skipWS s4) as Hs4.
      destruct (skipWS s4) as [|c5 s5]; [discriminate|]. cbn [List.length] in Hs4.
      destruct (is_byte 44 c5); [apply HOL; lia|].
      destruct (is_byte 125 c5); discriminate.
    + intros s Hf. cbn [validateObject].
      pose proof (length_skipWS s) as Hs.
      destruct (skipWS s) as [|c s1]; [discriminate|].
      destruct (is_byte 125 c); [discriminate|]. apply HOL. lia.
Qed.

Lemma Validate_fuel s : validateValue (fuel_for s) s <> NoFuel.
Proof. apply validate_fuel. unfold fuel_for. lia. Qed.

(** ** The rounds of the inner loops are never used up

    The loops over a string are bounded by its length; with that many
    rounds, or more, their result is the same, so the bound is never what
    ends them. *)

Lemma parseRawString_loop_fuel fuel : forall fuel' ss s n,
  n = IndexByte s 34 -> 0 <= n ->
  (List.length s <= fuel)%nat -> (List.length s <= fuel')%nat ->
  parseRawString_loop fuel ss s n = parseRawString_loop fuel' ss s n.
Proof.
  induction fuel as [|fuel IH]; intros fuel' ss s n Hn H0 Hf Hf'.
  { destruct s as [|c s]; [|cbn [List.length] in Hf; lia].
    cbn [IndexByte] in Hn. lia. }
  destruct fuel' as [|fuel'].
  { destruct s as [|c s]; [|cbn [List.length] in Hf'; lia].
    cbn [IndexByte] in Hn. lia. }
  cbn [parseRawString_loop].
  destruct ((n - Z.of_nat (backslash_run s (Z.to_nat (n - 1)))) mod 2 =? 0); [reflexivity|].
  cbv zeta. destruct (IndexByte (from (n + 1) s) 34 <? 0) eqn:E; [reflexivity|].
  apply Z.ltb_ge in E.
  destruct ((IndexByte (from (n + 1) s) 34 =? 0) || _); [reflexivity|].
  assert (Hs : s <> []) by (intros ->; cbn [IndexByte] in Hn; lia).
  pose proof (length_from_pos (n + 1) s ltac:(lia) Hs) as Hl.
  apply IH; [reflexivity|exact E|lia|lia].
Qed.

Lemma length_unescape_one ch s out s2 :
  unescape_one ch s = (out, s2) -> (List.length s2 <= List.length s)%nat.
Proof.
  unfold unescape_one.
  repeat match goal with
  | |- context [if is_byte ?z ch then _ else _] =>
      destruct (is_byte z ch); [try (intros H; injection H as _ <-; lia)|]
  end.
  - destruct (len s <? 4); [intros H; injection H as _ <-; lia|].
    destruct (hex16.ParseUint (upto 4 s)) as [x [err|]]; [intros H; injection H as _ <-; lia|].
    pose proof (length_from 4 s) as H4.
    destruct (negb (utf16.IsSurrogate x)); [intros H; injection H as _ <-; exact H4|].
    destruct ((len (from 4 s) <? 6) || _ || _); [intros H; injection H as _ <-; exact H4|].
    destruct (hex16.ParseUint (upto 4 (from 2 (from 4 s)))) as [x1 [err|]];
      [intros H; injection H as _ <-; exact H4|].
    intros H; injection H as _ <-. pose proof (length_from 6 (from 4 s)). lia.
  - intros H; injection H as _ <-; lia.
Qed.

Lemma unescape_loop_fuel fuel : forall fuel' b s,
  (List.length s <= fuel)%nat -> (List.length s <= fuel')%nat ->
  unescape_loop fuel b s = unescape_loop fuel' b s.
Proof.
  induction fuel as [|fuel IH]; intros fuel' b s Hf Hf'.
  { destruct s as [|c s]; [|cbn [List.length] in Hf; lia]. now destruct fuel'. }
  destruct s as [|ch s1]; [now destruct fuel'|].
  destruct fuel' as [|fuel']; [cbn [List.length] in Hf'; lia|].
  cbn [unescape_loop]. cbn [List.length] in Hf, Hf'.
  destruct (unescape_one ch s1) as [out s2] eqn:E. apply length_unescape_one in E.
  destruct (IndexByte s2 92 <? 0); [reflexivity|].
  pose proof (length_from (IndexByte s2 92 + 1) s2).
  apply IH; lia.
Qed.

Lemma validateString_loop_fuel fuel : forall fuel' rs tail,
  (List.length rs <= fuel)%nat -> (List.length rs <= fuel')%nat ->
  validateString_loop fuel rs tail = validateString_loop fuel' rs tail.
Proof.
  induction fuel as [|fuel IH]; intros fuel' rs tail Hf Hf'.
  { destruct rs as [|c rs]; [|cbn [List.length] in Hf; lia]. now destruct fuel'. }
  destruct fuel' as [|fuel'].
  { destruct rs as [|c rs]; [|cbn [List.length] in Hf'; lia]. reflexivity. }
  cbn [validateString_loop].
  destruct (IndexByte rs 92 <? 0) eqn:E; [reflexivity|]. apply Z.ltb_ge in E.
  destruct (len rs <=? IndexByte rs 92 + 1); [reflexivity|]. cbv zeta.
  assert (Hs : rs <> []) by (intros ->; cbn [IndexByte] in E; lia).
  pose proof (length_from_pos (IndexByte rs 92 + 1 + 1) rs ltac:(lia) Hs) as Hl.
  destruct (is_simple_escape _); [apply IH; lia|].
  destruct (is_byte 117 _); [|reflexivity].
  destruct (len _ <? 4); [reflexivity|].
  destruct (hex16.ParseUint _) as [x [err|]]; [reflexivity|].
  pose proof (length_from 4 (from (IndexByte rs 92 + 1 + 1) rs)).
  apply IH; lia.
Qed.

(** [Parser.Parse] and [Validate] return what the code returns: the
    branch of the embedding for a parse out of fuel is never taken (nor is
    it in [Scanner.Next], by [Parser_Parse_fuel]). *)
Lemma Parser_Parse_total limit startEndString s :
  Parser_Parse limit startEndString s <> inr (Errorf "out of fuel" []).
Proof.
  pose proof (Parser_Parse_fuel limit (skipWS s) 0) as H. unfold Parser_Parse.
  destruct (parseValue limit (fuel_for (skipWS s)) (skipWS s) 0);
    [|discriminate|now contradiction H].
  destruct (0 <? len (skipWS tail)); discriminate.
Qed.

Lemma Validate_total startEndString s :
  Validate startEndString s <> Some (Errorf "out of fuel" []).
Proof.
  pose proof (Validate_fuel (skipWS s)) as H. unfold Validate.
  destruct (validateValue (fuel_for (skipWS s)) (skipWS s));
    [|discriminate|now contradiction H].
  destruct (0 <? len (skipWS tail)); discriminate.
Qed.

(** A run of the scanner over two values and white space, and one over a
    value and a stray bracket. *)
Example Scanner_run :
  let sc0 := Scanner_Init (str "1 [2] ") in
  let sc1 := snd (Scanner_Next sc0) in
  let sc2 := snd (Scanner_Next sc1) in
  let sc3 := snd (Scanner_Next sc2) in
  fst (Scanner_Next sc0) = true /\ Scanner_Value sc1 = Some (VNumber (str "1")) /\
  fst (Scanner_Next sc1) = true /\ Scanner_Value sc2 = Some (VArray [VNumber (str "2")]) /\
  fst (Scanner_Next sc2) = false /\ Scanner_Error sc3 = None /\
  fst (Scanner_Next sc3) = false /\ Scanner_Error (snd (Scanner_Next sc3)) = None.
Proof. repeat split; reflexivity. Qed.

Example Scanner_run_error :
  let sc0 := Scanner_Init (str "1 ] 2") in
  let sc1 := snd (Scanner_Next sc0) in
  let sc2 := snd (Scanner_Next sc1) in
  fst (Scanner_Next sc0) = true /\
  fst (Scanner_Next sc1) = false /\
  Scanner_Error sc2 = Some (Wrapf "cannot parse number: %s" []
                              (Errorf "unexpected char: %q" [str "]"])) /\
  Scanner_Next sc2 = (false, sc2).
Proof. repeat split; reflexivity. Qed.

(** Whatever follows them, 301 opening brackets are refused for their
    depth: the parser gives up at the 301st and reads no further. *)
Lemma parseValue_open_brackets rest : forall n d fuel,
  d + Z.of_nat n = 300 -> (3 * n + 1 <= fuel)%nat ->
  fails_for_depth (parseValue MaxDepth fuel (repeat "["%char (S n) ++ rest) d).
Proof.
  induction n as [|n IH]; intros d fuel Hd Hf.
  - destruct fuel as [|fuel]; [lia|]. cbn [repeat app parseValue].
    replace (MaxDepth <? d + 1) with true by (symmetry; apply Z.ltb_lt; unfold MaxDepth; lia).
    apply too_deep_fails.
  - destruct fuel as [|[|[|fuel]]]; try lia.
    specialize (IH (d + 1) fuel ltac:(lia) ltac:(lia)).
    destruct IH as (tl & e & E & He).
    remember (repeat "["%char (S n) ++ rest) as s eqn:Es.
    assert (Hs : exists s1, s = "["%char :: s1) by (subst s; cbn [repeat app]; eauto).
    destruct Hs as (s1 & Hs1).
    change (repeat "["%char (S (S n)) ++ rest) with ("["%char :: (repeat "["%char (S n) ++ rest)).
    rewrite <- Es. cbn [parseValue].
    replace (MaxDepth <? d + 1) with false by (symmetry; apply Z.ltb_ge; unfold MaxDepth; lia).
    change (is_byte 123 "["%char) with false. change (is_byte 91 "["%char) with true.
    cbv iota.
    assert (Hws : skipWS s = s) by (rewrite Hs1; reflexivity).
    assert (HA : parseArray MaxDepth (S (S fuel)) s (d + 1) =
                 Failed tl (Wrapf "cannot parse array value: %s" [] e)).
    { cbn [parseArray]. rewrite Hws. rewrite Hs1 at 1.
      change (is_byte 93 "["%char) with false. cbv iota.
      cbn [parseArray_loop]. rewrite Hws, E. reflexivity. }
    rewrite HA. eexists _, _. split; [reflexivity|exact He].
Qed.

Lemma Parse_refuses_301_open_brackets startEndString rest :
  exists e,
    Parser_Parse MaxDepth startEndString (repeat "["%char 301 ++ rest) = inr e /\
    is_depth_error e = true.
Proof.
  unfold Parser_Parse.
  assert (Hws : skipWS (repeat "["%char 301 ++ rest) = repeat "["%char 301 ++ rest)
    by reflexivity.
  rewrite Hws.
  destruct (parseValue_open_brackets rest 300 0
              (fuel_for (repeat "["%char 301 ++ rest))) as (tl & e & E & He).
  - reflexivity.
  - unfold fuel_for. rewrite length_app, repeat_length. lia.
  - rewrite E. eexists. split; [reflexivity|exact He].
Qed.

(** * More of the code *)

(** ** More fuel changes nothing *)

Lemma parse_more_fuel limit fuel :
  (forall s d r, parseValue limit fuel s d = r -> r <> OutOfFuel ->
     parseValue limit (S fuel) s d = r) /\
  (forall a s d r, parseArray_loop limit fuel a s d = r -> r <> OutOfFuel ->
     parseArray_loop limit (S fuel) a s d = r) /\
  (forall s d r, parseArray limit fuel s d = r -> r <> OutOfFuel ->
     parseArray limit (S fuel) s d = r) /\
  (forall o s d r, parseObject_loop limit fuel o s d = r -> r <> OutOfFuel ->
     parseObject_loop limit (S fuel) o s d = r) /\
  (forall s d r, parseObject limit fuel s d = r -> r <> OutOfFuel ->
     parseObject limit (S fuel) s d = r).
Proof.
  induction fuel as [|fuel (HV & HAL & HA & HOL & HO)].
  - split; [intros s d r <- H; now contradiction H|].
    split; [intros a s d r <- H; now contradiction H|].
    split; [intros s d r <- H; now contradiction H|].
    split; [intros o s d r <- H; now contradiction H|intros s d r <- H; now contradiction H].
  - split; [|split; [|split; [|split]]].
    + intros s d r <- Hr. remember (S fuel) as f1 eqn:Ef.
      cbn [parseValue]. subst f1. cbn [parseValue] in Hr. cbn [parseValue].
      destruct s as [|c s1]; [reflexivity|].
      destruct (limit <? d + 1); [reflexivity|].
      destruct (is_byte 123 c).
      { destruct (parseObject limit fuel s1 (d + 1)) as [y tl|tl e|] eqn:E;
          [| |now contradiction Hr];
          apply HO in E; try discriminate; now rewrite E. }
      destruct (is_byte 91 c).
      { destruct (parseArray limit fuel s1 (d + 1)) as [y tl|tl e|] eqn:E;
          [| |now contradiction Hr];
          apply HA in E; try discriminate; now rewrite E. }
      reflexivity.
    + intros a s d r <- Hr. remember (S fuel) as f1 eqn:Ef.
      cbn [parseArray_loop]. subst f1. cbn [parseArray_loop] in Hr. cbn [parseArray_loop].
      destruct (parseValue limit fuel (skipWS s) d) as [y s2|tl e|] eqn:EV;
        [| |now contradiction Hr]; apply HV in EV; try discriminate; rewrite EV; [|reflexivity].
      destruct (skipWS s2) as [|c s4]; [reflexivity|].
      destruct (is_byte 44 c); [|reflexivity].
      now apply HAL.
    + intros s d r <- Hr. remember (S fuel) as f1 eqn:Ef.
      cbn [parseArray]. subst f1. cbn [parseArray] in Hr. cbn [parseArray].
      destruct (skipWS s) as [|c s1]; [reflexivity|].
      destruct (is_byte 93 c); [reflexivity|]. now apply HAL.
    + intros o s d r <- Hr. remember (S fuel) as f1 eqn:Ef.
      cbn [parseObject_loop]. subst f1. cbn [parseObject_loop] in Hr. cbn [parseObject_loop].
      destruct (skipWS s) as [|c s1]; [reflexivity|].
      destruct (negb (is_byte 34 c)); [reflexivity|].
      destruct (parseRawKey s1) as [[key s2] [err|]]; [reflexivity|].
      destruct (skipWS s2) as [|c2 s3]; [reflexivity|].
      destruct (negb (is_byte 58 c2)); [reflexivity|].
      destruct (parseValue limit fuel (skipWS s3) d) as [y s4|tl e|] eqn:EV;
        [| |now contradiction Hr]; apply HV in EV; try discriminate; rewrite EV; [|reflexivity].
      destruct (skipWS s4) as [|c5 s5]; [reflexivity|].
      destruct (is_byte 44 c5); [|reflexivity].
      now apply HOL.
    + intros s d r <- Hr. remember (S fuel) as f1 eqn:Ef.
      cbn [parseObject]. subst f1. cbn [parseObject] in Hr. cbn [parseObject].
      destruct (skipWS s) as [|c s1]; [reflexivity|].
      destruct (is_byte 125 c); [reflexivity|]. now apply HOL.
Qed.

Lemma parseValue_more_fuel limit fuel extra s d r :
  parseValue limit fuel s d = r -> r <> OutOfFuel ->
  parseValue limit (extra + fuel) s d = r.
Proof.
  intros H Hr. induction extra as [|extra IH]; [exact H|].
  cbn [Nat.add]. now apply (parse_more_fuel limit (extra + fuel)).
Qed.

(** The result of a parse does not depend on the fuel, once there is
    enough of it. *)
Lemma parseValue_any_fuel limit fuel s d :
  (3 * List.length s + 1 <= fuel)%nat ->
  parseValue limit fuel s d = parseValue limit (fuel_for s) s d.
Proof.
  intros Hf.
  pose proof (Parser_Parse_fuel limit s d) as H0.
  destruct (Nat.le_ge_cases fuel (fuel_for s)) as [Hle|Hge].
  - replace (fuel_for s) with ((fuel_for s - fuel) + fuel)%nat by lia.
    symmetry. apply parseValue_more_fuel; [reflexivity|].
    apply (parse_fuel limit fuel). exact Hf.
  - replace fuel with ((fuel - fuel_for s) + fuel_for s)%nat at 1 by lia.
    now apply parseValue_more_fuel.
Qed.

(** ** The scanner and the parser *)

Lemma parseValue_nil limit fuel d x tail : parseValue limit fuel [] d <> Parsed x tail.
Proof. destruct fuel; discriminate. Qed.

(** X1.  A document that [Parser.Parse] accepts is, for a scanner, one
    value: the first [Next] returns true with the value [Parse] returns,
    the second returns false, and [Error] is nil then. *)
Theorem Scanner_reads_what_Parse_reads
    (startEndString : gostring -> gostring) (s : gostring) (x : Value) :
  Parser_Parse MaxDepth startEndString s = inl x ->
  fst (Scanner_Next (Scanner_Init s)) = true /\
  Scanner_Value (snd (Scanner_Next (Scanner_Init s))) = Some x /\
  fst (Scanner_Next (snd (Scanner_Next (Scanner_Init s)))) = false /\
  Scanner_Error (snd (Scanner_Next (snd (Scanner_Next (Scanner_Init s))))) = None.
Proof.
  unfold Parser_Parse. intros H.
  destruct (parseValue MaxDepth (fuel_for (skipWS s)) (skipWS s) 0) as [y tail| |] eqn:E;
    try discriminate H.
  destruct (0 <? len (skipWS tail)) eqn:Et; [discriminate H|]. injection H as ->.
  assert (Hs : (len (skipWS s) =? 0) = false).
  { destruct (skipWS s) as [|c r] eqn:Es; [now apply parseValue_nil in E|].
    rewrite len_cons. pose proof (len_nonneg r). apply Z.eqb_neq. lia. }
  assert (Ht : (len (skipWS tail) =? 0) = true).
  { apply Z.ltb_ge in Et. pose proof (len_nonneg (skipWS tail)). apply Z.eqb_eq. lia. }
  assert (H1 : Scanner_Next (Scanner_Init s) =
               (true, {| sc_s := tail; sc_err := None; sc_v := Some x |})).
  { unfold Scanner_Next, Scanner_Init. cbn [sc_err sc_s sc_v]. now rewrite Hs, E. }
  rewrite H1. cbn [fst snd]. unfold Scanner_Next. cbn [sc_err sc_s sc_v].
  rewrite Ht. repeat split; reflexivity.
Qed.

Lemma Scanner_reads_what_Parse_reads_witness :
  Parser_Parse MaxDepth (fun tail => tail) (str " [1] ") = inl (VArray [VNumber (str "1")]) /\
  (fst (Scanner_Next (Scanner_Init (str " [1] "))) = true /\
   Scanner_Value (snd (Scanner_Next (Scanner_Init (str " [1] "))))
     = Some (VArray [VNumber (str "1")]) /\
   fst (Scanner_Next (snd (Scanner_Next (Scanner_Init (str " [1] "))))) = false /\
   Scanner_Error (snd (Scanner_Next (snd (Scanner_Next (Scanner_Init (str " [1] "))))))
     = None).
Proof.
  split; [reflexivity|].
  apply (Scanner_reads_what_Parse_reads (fun tail => tail) (str " [1] ")). reflexivity.
Defined.

Lemma Scanner_Next_shorter sc :
  fst (Scanner_Next sc) = true ->
  (List.length (sc_s (snd (Scanner_Next sc))) < List.length (sc_s sc))%nat.
Proof.
  unfold Scanner_Next. destruct (sc_err sc); [discriminate|].
  destruct (len (skipWS (sc_s sc)) =? 0); [discriminate|].
  destruct (parseValue MaxDepth (fuel_for (skipWS (sc_s sc))) (skipWS (sc_s sc)) 0)
    as [y tail| |] eqn:E; try discriminate.
  intros _. cbn [snd sc_s]. apply (parse_progress MaxDepth) in E.
  pose proof (length_skipWS (sc_s sc)). lia.
Qed.

Lemma Scanner_stops_within m : forall sc,
  (List.length (sc_s sc) <= m)%nat ->
  exists n, (n <= m)%nat /\ fst (Scanner_Next (after_calls n sc)) = false.
Proof.
  induction m as [|m IH]; intros sc Hm.
  - exists O. split; [lia|]. cbn [after_calls].
    destruct (fst (Scanner_Next sc)) eqn:E; [|reflexivity].
    apply Scanner_Next_shorter in E. lia.
  - destruct (fst (Scanner_Next sc)) eqn:E.
    + pose proof (Scanner_Next_shorter sc E) as Hs.
      destruct (IH (snd (Scanner_Next sc)) ltac:(lia)) as (n & Hn & Hf).
      exists (S n). split; [lia|exact Hf].
    + exists O. split; [lia|exact E].
Qed.

(** X2.  A scanner comes to its end: over an input of [n] bytes [Next]
    returns false by its [n + 1]st call at the latest (and false ever
    after), whatever the input holds. *)
Theorem Scanner_ends (s : gostring) :
  exists n, (n <= List.length s)%nat /\
    fst (Scanner_Next (after_calls n (Scanner_Init s))) = false /\
    forall m, fst (Scanner_Next (after_calls (m + n) (Scanner_Init s))) = false.
Proof.
  destruct (Scanner_stops_within (List.length s) (Scanner_Init s)) as (n & Hn & Hf);
    [cbn [Scanner_Init sc_s]; lia|].
  exists n. split; [exact Hn|]. split; [exact Hf|].
  induction m as [|m IH]; [exact Hf|].
  replace (S m + n)%nat with (m + n + 1)%nat by lia.
  assert (Hstep : forall j sc, after_calls (j + 1) sc = snd (Scanner_Next (after_calls j sc))).
  { induction j as [|j IHj]; intros sc; [reflexivity|]. cbn [Nat.add after_calls]. apply IHj. }
  rewrite Hstep.
  pose proof (proj1 (Scanner_Next_false (after_calls (m + n) (Scanner_Init s))) IH) as He.
  rewrite (Scanner_Next_sticky _ He). reflexivity.
Qed.

(** ** The depth of what is parsed *)

(** X3.  A value that [Parser.Parse] returns is at most [MaxDepth] = 300
    deep, whatever the input. *)
Theorem Parse_value_depth
    (startEndString : gostring -> gostring) (s : gostring) (x : Value) :
  Parser_Parse MaxDepth startEndString s = inl x -> value_depth x <= 300.
Proof.
  unfold Parser_Parse. intros H.
  destruct (parseValue MaxDepth (fuel_for (skipWS s)) (skipWS s) 0) as [y tail| |] eqn:E;
    try discriminate H.
  destruct (0 <? len (skipWS tail)); [discriminate H|]. injection H as ->.
  apply parseValue_depth_within_limit in E. unfold MaxDepth in E. lia.
Qed.

Lemma Parse_value_depth_witness :
  Parser_Parse MaxDepth (fun tail => tail) (nested_brackets 299) = inl (nested_arrays 299) /\
  value_depth (nested_arrays 299) <= 300.
Proof.
  split; [vm_compute; reflexivity|].
  apply (Parse_value_depth (fun tail => tail) (nested_brackets 299)).
  vm_compute; reflexivity.
Defined.

(** ** Indices in concatenations *)

Lemma IndexByte_app_hit a b c : 0 <= IndexByte a c -> IndexByte (a ++ b) c = IndexByte a c.
Proof.
  induction a as [|x a IH]; cbn [IndexByte app]; [lia|].
  destruct (is_byte c x); [reflexivity|].
  destruct (IndexByte a c <? 0) eqn:E; [lia|]. pose proof E as E'. apply Z.ltb_ge in E'.
  intros _. rewrite (IH E'), E. reflexivity.
Qed.

Lemma IndexByte_app_miss a b c :
  IndexByte a c < 0 ->
  IndexByte (a ++ b) c = if IndexByte b c <? 0 then -1 else len a + IndexByte b c.
Proof.
  induction a as [|x a IH]; cbn [IndexByte app].
  - intros _. rewrite len_nil. pose proof (IndexByte_bounds b c).
    destruct (IndexByte b c <? 0) eqn:E; [apply Z.ltb_lt in E|]; lia.
  - destruct (is_byte c x); [lia|].
    destruct (IndexByte a c <? 0) eqn:E; [|apply Z.ltb_ge in E; lia].
    apply Z.ltb_lt in E. intros _. rewrite (IH E), len_cons.
    pose proof (IndexByte_bounds b c). pose proof (len_nonneg a).
    destruct (IndexByte b c <? 0) eqn:Eb; [reflexivity|]. apply Z.ltb_ge in Eb.
    replace (len a + IndexByte b c <? 0) with false by (symmetry; apply Z.ltb_ge; lia).
    lia.
Qed.

Lemma IndexByte_snoc_miss a x c :
  IndexByte a c < 0 -> is_byte c x = false -> IndexByte (a ++ [x]) c < 0.
Proof.
  intros Ha Hx. rewrite IndexByte_app_miss by exact Ha. cbn [IndexByte]. rewrite Hx.
  cbn. lia.
Qed.

Lemma at_app_last a x b : at_ (a ++ x :: b) (len a) = x.
Proof. apply at_app. Qed.

Lemma at_snoc_prev a x y b : at_ ((a ++ [x]) ++ y :: b) (len (a ++ [x]) - 1) = x.
Proof.
  rewrite len_app. change (len [x]) with 1.
  replace (len a + 1 - 1) with (len a) by lia.
  rewrite <- app_assoc. cbn [app]. apply at_app.
Qed.

(** ** The tokenizer of keys *)

Lemma parseRawKey_loop_parseRawString rest : forall pre,
  IndexByte pre 34 < 0 -> IndexByte pre 92 < 0 ->
  parseRawKey_loop (pre ++ rest) rest (len pre) = parseRawString (pre ++ rest).
Proof.
  induction rest as [|c rest IH]; intros pre Hq Hb; cbn [parseRawKey_loop].
  - rewrite app_nil_r. unfold parseRawString.
    replace (IndexByte pre 34 <? 0) with true by (symmetry; apply Z.ltb_lt; exact Hq).
    reflexivity.
  - destruct (is_byte 34 c) eqn:Ec.
    + unfold parseRawString.
      assert (Hn : IndexByte (pre ++ c :: rest) 34 = len pre).
      { rewrite IndexByte_app_miss by exact Hq. cbn [IndexByte]. rewrite Ec. cbn. lia. }
      rewrite Hn. pose proof (len_nonneg pre) as Hl.
      replace (len pre <? 0) with false by (symmetry; apply Z.ltb_ge; lia).
      assert (Hprev : (len pre =? 0) || negb (is_byte 92 (at_ (pre ++ c :: rest) (len pre - 1)))
                      = true).
      { destruct (len pre =? 0) eqn:E0; [reflexivity|]. apply Z.eqb_neq in E0.
        cbn [orb]. apply negb_true_iff.
        destruct (is_byte 92 (at_ (pre ++ c :: rest) (len pre - 1))) eqn:E; [|reflexivity].
        exfalso. clear - Hb E E0 Hl.
        revert E0 Hl E Hb. unfold at_, len.
        generalize (c :: rest). intros l.
        induction pre as [|x pre IHp]; [cbn; lia|]. intros E0 Hl E Hb.
        cbn [IndexByte] in Hb. destruct (is_byte 92 x) eqn:Ex; [lia|].
        destruct (IndexByte pre 92 <? 0) eqn:Ep; [apply Z.ltb_lt in Ep|apply Z.ltb_ge in Ep; lia].
        destruct pre as [|y pre].
        - cbn in E. congruence.
        - apply IHp; try exact Ep; cbn [List.length] in *; try lia.
          replace (Z.to_nat (Z.of_nat (S (S (List.length pre))) - 1))
            with (S (Z.to_nat (Z.of_nat (S (List.length pre)) - 1))) in E by lia.
          exact E. }
      rewrite Hprev. reflexivity.
    + destruct (is_byte 92 c) eqn:Eb; [reflexivity|].
      specialize (IH (pre ++ [c]) (IndexByte_snoc_miss _ _ _ Hq Ec)
                     (IndexByte_snoc_miss _ _ _ Hb Eb)).
      rewrite <- app_assoc in IH. cbn [app] in IH.
      rewrite len_app in IH. change (len [c]) with 1 in IH. exact IH.
Qed.

(** ** The unescaper writes no more than it reads *)

Lemma len_from n s : 0 <= n <= len s -> len (from n s) = len s - n.
Proof. intros H. unfold len, from in *. rewrite length_skipn. lia. Qed.

Lemma len_from_le n s : len (from n s) <= len s.
Proof. unfold len, from. rewrite length_skipn. lia. Qed.

Lemma len_upto n s : 0 <= n <= len s -> len (upto n s) = n.
Proof. intros H. unfold len, upto in *. rewrite length_firstn. lia. Qed.

Lemma len_upto_le n s : len (upto n s) <= len s.
Proof. unfold len, upto. rewrite length_firstn. lia. Qed.

Lemma len_utf8_encode r : len (utf8.encode r) <= 4.
Proof.
  unfold utf8.encode.
  repeat match goal with |- context [if ?b then _ else _] => destruct b end;
    cbn; lia.
Qed.

(** One round: the backslash, [ch] and what is dropped from [s] are read,
    and no more bytes than that are written. *)
Lemma unescape_one_writes ch s out s2 :
  unescape_one ch s = (out, s2) -> len out + len s2 <= 2 + len s.
Proof.
  unfold unescape_one.
  repeat match goal with
  | |- context [if is_byte ?z ch then _ else _] =>
      destruct (is_byte z ch); [try (intros H; injection H as <- <-; unfold len; cbn [List.length]; lia)|]
  end.
  - destruct (len s <? 4) eqn:E4;
      [intros H; injection H as <- <-; unfold len; cbn [List.length]; lia|].
    apply Z.ltb_ge in E4.
    pose proof (len_from 4 s ltac:(lia)) as H4.
    pose proof (len_upto 4 s ltac:(lia)) as U4.
    destruct (hex16.ParseUint (upto 4 s)) as [x [err|]];
      [intros H; injection H as <- <-; unfold len; cbn [List.length]; lia|].
    destruct (negb (utf16.IsSurrogate x)).
    { intros H; injection H as <- <-. pose proof (len_utf8_encode x). lia. }
    destruct ((len (from 4 s) <? 6) || _ || _) eqn:E6.
    { intros H; injection H as <- <-. unfold len in *. cbn [app List.length] in *. rewrite ?length_app in *. cbn [List.length] in *. lia. }
    destruct (hex16.ParseUint (upto 4 (from 2 (from 4 s)))) as [x1 [err|]].
    { intros H; injection H as <- <-. unfold len in *. cbn [app List.length] in *. rewrite ?length_app in *. cbn [List.length] in *. lia. }
    intros H; injection H as <- <-.
    pose proof (len_utf8_encode (utf16.DecodeRune x x1)).
    pose proof (len_from_le 6 (from 4 s)). lia.
  - intros H; injection H as <- <-; unfold len; cbn [List.length]; lia.
Qed.

Lemma unescape_loop_writes fuel : forall b s,
  len (unescape_loop fuel b s) <= len b + 1 + len s.
Proof.
  induction fuel as [|fuel IH]; intros b s.
  - pose proof (len_nonneg s). destruct s; cbn [unescape_loop]; lia.
  - destruct s as [|ch s1]; cbn [unescape_loop]; [pose proof (len_nonneg (@nil ascii)); lia|].
    destruct (unescape_one ch s1) as [out s2] eqn:E. apply unescape_one_writes in E.
    rewrite len_cons.
    destruct (IndexByte s2 92 <? 0) eqn:En.
    + rewrite !len_app. lia.
    + apply Z.ltb_ge in En. pose proof (IndexByte_bounds s2 92) as Hb.
      specialize (IH ((b ++ out) ++ upto (IndexByte s2 92) s2) (from (IndexByte s2 92 + 1) s2)).
      rewrite !len_app in IH. rewrite len_upto, len_from in IH by lia. lia.
Qed.

(** X5.  Unescaping never lengthens a string: the result of
    [unescapeStringBestEffort] has at most the bytes of its argument.  In
    every round of its loop the bytes appended are at most the bytes
    consumed, the backslash and the byte behind it included, which is what
    lets the code write the result over the argument it reads. *)
Theorem unescape_never_longer (s : gostring) :
  len (unescapeStringBestEffort s) <= len s /\
  (forall ch rest out rest',
     unescape_one ch rest = (out, rest') -> len out + len rest' <= 2 + len rest) /\
  (forall fuel b rest, len (unescape_loop fuel b rest) <= len b + 1 + len rest).
Proof.
  split; [|split; [apply unescape_one_writes|intros fuel b rest; apply unescape_loop_writes]].
  unfold unescapeStringBestEffort.
  destruct (IndexByte s 92 <? 0) eqn:E; [lia|]. apply Z.ltb_ge in E.
  pose proof (IndexByte_bounds s 92) as Hb.
  pose proof (unescape_loop_writes (List.length s) (upto (IndexByte s 92) s)
                (from (IndexByte s 92 + 1) s)) as H.
  rewrite len_upto, len_from in H by lia. lia.
Qed.


(** ** The accessors with and without an error *)

Lemma int64_int64 z : int64 (int64 z) = int64 z.
Proof.
  unfold int64. replace (z + 2 ^ 63) with (z + 2 ^ 63) by lia.
  replace ((z + 2 ^ 63) mod 2 ^ 64 - 2 ^ 63 + 2 ^ 63) with ((z + 2 ^ 63) mod 2 ^ 64) by lia.
  now rewrite Z.mod_mod by lia.
Qed.

Lemma uint64_uint64 z : uint64 (uint64 z) = uint64 z.
Proof. unfold uint64. now rewrite Z.mod_mod by lia. Qed.

Lemma Parse_error_zero slow s f e :
  fastfloat.Parse slow s = (f, Some e) -> f = PrimFloat.zero.
Proof.
  unfold fastfloat.Parse, fastfloat.Parse_scan, fastfloat.Parse_fraction,
    fastfloat.Parse_exponent, fastfloat.Parse_library.
  cbv zeta.
  repeat match goal with
         | |- context [match ?x with Some _ => _ | None => _ end] =>
             destruct x as [[? ?]|] eqn:?
         | |- context [if ?b then _ else _] => destruct b eqn:?
         | |- context [match slow s with _ => _ end] => destruct (slow s) as [? [?|]]
         end; intros H; congruence.
Qed.

(** X7.  Each [Get...] accessor returns what the accessor with an error
    returns on the value the path leads to, when that one returns no
    error, and the zero value otherwise: when the path leads nowhere, when
    the value has another type, and when the number does not parse. *)
Theorem Get_accessors_agree (x : Value) (keys : list gostring) :
  Value_GetInt64 x keys =
    match Value_Get x keys with
    | Some y => match Value_Int64 y with (n, None) => n | _ => 0 end
    | None => 0
    end /\
  Value_GetUint64 x keys =
    match Value_Get x keys with
    | Some y => match Value_Uint64 y with (n, None) => n | _ => 0 end
    | None => 0
    end /\
  Value_GetInt x keys =
    match Value_Get x keys with
    | Some y => match Value_Int y with (n, None) => n | _ => 0 end
    | None => 0
    end /\
  Value_GetUint x keys =
    match Value_Get x keys with
    | Some y => match Value_Uint y with (n, None) => n | _ => 0 end
    | None => 0
    end /\
  Value_GetFloat64 x keys =
    match Value_Get x keys with
    | Some y => match Value_Float64 y with (f, None) => f | _ => PrimFloat.zero end
    | None => PrimFloat.zero
    end /\
  Value_GetStringBytes x keys =
    match Value_Get x keys with
    | Some y => match Value_StringBytes y with (s, None) => s | _ => [] end
    | None => []
    end /\
  Value_GetBool x keys =
    match Value_Get x keys with
    | Some y => match Value_Bool y with (b, None) => b | _ => false end
    | None => false
    end /\
  Value_GetObject x keys =
    match Value_Get x keys with
    | Some y => fst (Value_Object y)
    | None => None
    end /\
  Value_GetArray x keys =
    match Value_Get x keys with
    | Some y => fst (Value_Array y)
    | None => []
    end.
Proof.
  unfold Value_GetInt64, Value_GetUint64, Value_GetInt, Value_GetUint, Value_GetFloat64,
    Value_GetStringBytes, Value_GetBool, Value_GetObject, Value_GetArray.
  destruct (Value_Get x keys) as [y|]; [|repeat split; reflexivity].
  unfold Value_Int64, Value_Uint64, Value_Int, Value_Uint, Value_Float64,
    Value_StringBytes, Value_Bool, Value_Object, Value_Array.
  repeat split.
  - destruct (number_text y) as [s|]; [|reflexivity].
    rewrite ParseInt64BestEffort_strict. unfold best_of.
    now destruct (fastfloat.ParseInt64 strconv.ParseInt s) as [n [e|]].
  - destruct (number_text y) as [s|]; [|reflexivity].
    rewrite ParseUint64BestEffort_strict. unfold best_of.
    now destruct (fastfloat.ParseUint64 strconv.ParseUint s) as [n [e|]].
  - destruct (number_text y) as [s|]; [|reflexivity].
    rewrite ParseInt64BestEffort_strict. unfold best_of. cbv zeta.
    destruct (fastfloat.ParseInt64 strconv.ParseInt s) as [n [e|]].
    + reflexivity.
    + now destruct (negb (int64 (int n) =? n)).
  - destruct (number_text y) as [s|]; [|reflexivity].
    rewrite ParseUint64BestEffort_strict. unfold best_of. cbv zeta.
    destruct (fastfloat.ParseUint64 strconv.ParseUint s) as [n [e|]].
    + reflexivity.
    + now destruct (negb (uint64 (uint n) =? n)).
  - destruct (number_text y) as [s|]; [|reflexivity]. rewrite ParseBestEffort_Parse.
    destruct (fastfloat.Parse strconv.ParseFloat s) as [f [e|]] eqn:E; [|reflexivity].
    now apply Parse_error_zero in E.
  - now destruct (string_text y).
  - now destruct y.
  - now destruct y.
  - now destruct y.
Qed.

(** ** Updates of objects *)

Lemma gostring_eqb_eq a b : gostring_eqb a b = true <-> a = b.
Proof. unfold gostring_eqb. destruct (list_eq_dec ascii_dec a b); split; congruence. Qed.

Lemma gostring_eqb_refl a : gostring_eqb a a = true.
Proof. now apply gostring_eqb_eq. Qed.

Lemma gostring_eqb_neq a b : gostring_eqb a b = false <-> a <> b.
Proof. unfold gostring_eqb. destruct (list_eq_dec ascii_dec a b); split; congruence. Qed.

Lemma set_kvs_scan l key value : forall r,
  set_kvs l key value = Some r -> scan_kvs r key = Some value.
Proof.
  induction l as [|e l IH]; intros r; cbn [set_kvs]; [discriminate|].
  destruct (gostring_eqb (k e) key) eqn:E.
  - intros H. injection H as <-. cbn [scan_kvs k v]. now rewrite E.
  - destruct (set_kvs l key value) as [r'|]; [|discriminate]. intros H. injection H as <-.
    cbn [scan_kvs]. rewrite E. now apply IH.
Qed.

Lemma set_kvs_None l key value :
  set_kvs l key value = None <-> scan_kvs l key = None.
Proof.
  induction l as [|e l IH]; cbn [set_kvs scan_kvs]; [tauto|].
  destruct (gostring_eqb (k e) key); [split; discriminate|].
  destruct (set_kvs l key value); [|exact IH].
  split; [discriminate|]. intros H. apply IH in H. discriminate H.
Qed.

Lemma scan_kvs_app l1 l2 key :
  scan_kvs (l1 ++ l2) key =
  match scan_kvs l1 key with Some x => Some x | None => scan_kvs l2 key end.
Proof.
  induction l1 as [|e l1 IH]; cbn [app scan_kvs]; [reflexivity|].
  destruct (gostring_eqb (k e) key); [reflexivity|exact IH].
Qed.

Lemma set_kvs_other l key value key' : key' <> key -> forall r,
  set_kvs l key value = Some r -> scan_kvs r key' = scan_kvs l key'.
Proof.
  intros Hne. induction l as [|e l IH]; intros r; cbn [set_kvs]; [discriminate|].
  destruct (gostring_eqb (k e) key) eqn:E.
  - intros H. injection H as <-. cbn [scan_kvs k v]. apply gostring_eqb_eq in E.
    replace (gostring_eqb (k e) key') with false; [reflexivity|].
    symmetry. apply gostring_eqb_neq. congruence.
  - destruct (set_kvs l key value) as [r'|]; [|discriminate]. intros H. injection H as <-.
    cbn [scan_kvs]. destruct (gostring_eqb (k e) key'); [reflexivity|]. now apply IH.
Qed.

Lemma set_kvs_length l key value : forall r,
  set_kvs l key value = Some r -> List.length r = List.length l.
Proof.
  intros r H. apply set_kvs_keys in H. apply (f_equal (@List.length _)) in H.
  now rewrite !length_map in H.
Qed.

(** A lookup in an object whose keys are unescaped. *)
Lemma Object_Get_unescaped o key :
  keysUnescaped o = true -> fst (Object_Get o key) = scan_kvs (kvs o) key.
Proof.
  intros H. unfold Object_Get, unescapeKeys. rewrite H. reflexivity.
Qed.

Lemma scan_has_key o key :
  scan_kvs (kvs (unescapeKeys o)) key = None <-> has_key o key = false.
Proof.
  rewrite scan_kvs_existsb. unfold has_key, unescapeKeys, logical_key.
  destruct (keysUnescaped o); cbn [kvs]; [tauto|].
  assert (H : forall l : list (kv Value),
            existsb (fun e => gostring_eqb (k e) key)
              (map (fun e => mkKV (unescapeStringBestEffort (k e)) (v e)) l) =
            existsb (fun e => gostring_eqb (unescapeStringBestEffort (k e)) key) l).
  { induction l as [|e l IH]; cbn [map existsb k]; [reflexivity|]. now rewrite IH. }
  rewrite H. tauto.
Qed.

Lemma Object_Set_keysUnescaped o key value :
  keysUnescaped (Object_Set o key value) = true.
Proof.
  unfold Object_Set. cbv zeta.
  destruct (set_kvs _ _ _); cbn [keysUnescaped]; apply keysUnescaped_unescapeKeys.
Qed.

Lemma Object_Set_Get_same o key value :
  fst (Object_Get (Object_Set o key value) key) =
  Some (match value with Some x => x | None => valueNull end).
Proof.
  rewrite Object_Get_unescaped by apply Object_Set_keysUnescaped.
  unfold Object_Set. cbv zeta.
  destruct (set_kvs _ _ _) as [r|] eqn:E; cbn [kvs].
  - now apply set_kvs_scan in E.
  - apply set_kvs_None in E. rewrite scan_kvs_app, E. cbn [scan_kvs k v].
    now rewrite gostring_eqb_refl.
Qed.

(** X8.  What [Object.Set] stores, [Object.Get] finds: after [Set(key,
    value)] a lookup of [key] returns [value], or the null value when
    [value] was nil.  Lookups of other keys return what they returned
    before among the unescaped keys, and the object has one entry more
    when it had none with this key, and as many as before when it had. *)
Theorem Object_Set_then_Get (o : Object) (key : gostring) (value : option Value) :
  fst (Object_Get (Object_Set o key value) key) =
    Some (match value with Some x => x | None => valueNull end) /\
  (forall key', key' <> key ->
     fst (Object_Get (Object_Set o key value) key') =
     first_match (logical_key o) (kvs o) key') /\
  Object_Len (Object_Set o key value) =
    (if has_key o key then Object_Len o else Object_Len o + 1).
Proof.
  pose proof (Object_Set_keysUnescaped o key value) as Hflag.
  assert (Hlen : Object_Len (unescapeKeys o) = Object_Len o).
  { unfold Object_Len, unescapeKeys. destruct (keysUnescaped o); [reflexivity|].
    cbn [kvs]. now rewrite length_map. }
  split; [|split].
  - apply Object_Set_Get_same.
  - intros key' Hne. rewrite Object_Get_unescaped by exact Hflag.
    rewrite <- scan_unescaped. unfold Object_Set. cbv zeta.
    destruct (set_kvs _ _ _) as [r|] eqn:E; cbn [kvs].
    + now apply (set_kvs_other _ _ _ key' Hne) in E.
    + rewrite scan_kvs_app. destruct (scan_kvs (kvs (unescapeKeys o)) key'); [reflexivity|].
      cbn [scan_kvs k v].
      replace (gostring_eqb key key') with false; [reflexivity|].
      symmetry. apply gostring_eqb_neq. congruence.
  - rewrite <- Hlen. unfold Object_Set, Object_Len. cbv zeta.
    destruct (set_kvs _ _ _) as [r|] eqn:E; cbn [kvs].
    + destruct (has_key o key) eqn:Hk.
      * now rewrite (set_kvs_length _ _ _ _ E).
      * apply scan_has_key in Hk.
        pose proof (proj2 (set_kvs_None _ _
                      (match value with Some x => x | None => valueNull end)) Hk).
        congruence.
    + apply set_kvs_None in E. apply scan_has_key in E. rewrite E.
      rewrite length_app. cbn [List.length]. lia.
Qed.

(** ** Deletion *)

Lemma del_kvs_length l key : forall r,
  del_kvs l key = Some r -> S (List.length r) = List.length l.
Proof.
  induction l as [|e l IH]; intros r; cbn [del_kvs]; [discriminate|].
  destruct (gostring_eqb (k e) key).
  - intros H. now injection H as <-.
  - destruct (del_kvs l key) as [r'|]; [|discriminate]. intros H. injection H as <-.
    cbn [List.length]. f_equal. now apply IH.
Qed.

Lemma del_kvs_find (key_of : kv Value -> gostring) l key key' :
  (forall e, In e l -> gostring_eqb (k e) key = true -> key_of e <> key') ->
  forall r, del_kvs l key = Some r ->
  first_match key_of r key' = first_match key_of l key'.
Proof.
  unfold first_match. induction l as [|e l IH]; intros Hk r; cbn [del_kvs]; [discriminate|].
  destruct (gostring_eqb (k e) key) eqn:E.
  - intros H. injection H as <-. cbn [find].
    replace (gostring_eqb (key_of e) key') with false; [reflexivity|].
    symmetry. apply gostring_eqb_neq. apply Hk; [now left|exact E].
  - destruct (del_kvs l key) as [r'|]; [|discriminate]. intros H. injection H as <-.
    cbn [find]. destruct (gostring_eqb (key_of e) key'); [reflexivity|].
    apply IH; [|reflexivity]. intros e' He'. apply Hk. now right.
Qed.

Lemma del_kvs_filter (p : kv Value -> bool) l key :
  (forall e, In e l -> gostring_eqb (k e) key = true -> p e = true) ->
  forall r, del_kvs l key = Some r ->
  S (List.length (filter p r)) = List.length (filter p l).
Proof.
  induction l as [|e l IH]; intros Hk r; cbn [del_kvs]; [discriminate|].
  destruct (gostring_eqb (k e) key) eqn:E.
  - intros H. injection H as <-. cbn [filter]. rewrite (Hk e); [reflexivity|now left|exact E].
  - destruct (del_kvs l key) as [r'|]; [|discriminate]. intros H. injection H as <-.
    cbn [filter]. destruct (p e); cbn [List.length]; [f_equal|];
      (apply IH; [|reflexivity]; intros e' He'; apply Hk; now right).
Qed.

Lemma filter_nil_existsb {A} (p : A -> bool) l :
  List.length (filter p l) = O -> existsb p l = false.
Proof.
  induction l as [|e l IH]; cbn [filter existsb]; [reflexivity|].
  destruct (p e); cbn [List.length orb]; [discriminate|exact IH].
Qed.

Lemma existsb_filter_pos {A} (p : A -> bool) l :
  existsb p l = true -> (0 < List.length (filter p l))%nat.
Proof.
  induction l as [|e l IH]; cbn [filter existsb]; [discriminate|].
  destruct (p e); cbn [List.length orb]; [lia|exact IH].
Qed.

(** What [Del] leaves: the entries, and whether the keys are unescaped. *)
Lemma Object_Del_cases o key :
  (raw_hit o key = true /\ keysUnescaped o = false /\ (IndexByte key 92 <? 0) = true /\
   exists r, del_kvs (kvs o) key = Some r /\ Object_Del o key = mkObject r false) \/
  (raw_hit o key = false /\
   exists r, del_kvs (kvs (unescapeKeys o)) key = Some r /\
             Object_Del o key = mkObject r true) \/
  (raw_hit o key = false /\ del_kvs (kvs (unescapeKeys o)) key = None /\
   Object_Del o key = unescapeKeys o).
Proof.
  unfold Object_Del, raw_hit.
  destruct (negb (keysUnescaped o) && (IndexByte key 92 <? 0)) eqn:E; cbn [andb].
  - apply andb_prop in E. destruct E as [E1 E2]. apply negb_true_iff in E1.
    destruct (del_kvs (kvs o) key) as [r|] eqn:Ed.
    + left. assert (existsb (fun e => gostring_eqb (k e) key) (kvs o) = true) as ->.
      { destruct (existsb _ (kvs o)) eqn:Ex; [reflexivity|].
        apply del_kvs_existsb in Ex. congruence. }
      rewrite E1. repeat split; try assumption. exists r. now split.
    + right. pose proof Ed as Ex. apply del_kvs_existsb in Ex. rewrite Ex.
      cbv zeta. rewrite keysUnescaped_unescapeKeys.
      destruct (del_kvs (kvs (unescapeKeys o)) key) as [r|].
      * left. split; [reflexivity|]. exists r. now split.
      * right. now repeat split.
  - right. cbv zeta. rewrite keysUnescaped_unescapeKeys.
    destruct (del_kvs (kvs (unescapeKeys o)) key) as [r|].
    + left. split; [reflexivity|]. exists r. now split.
    + right. now repeat split.
Qed.

Lemma raw_key_logical o e key :
  keysUnescaped o = false -> (IndexByte key 92 <? 0) = true ->
  gostring_eqb (k e) key = true -> logical_key o e = key.
Proof.
  intros Hf Hb He. apply gostring_eqb_eq in He. unfold logical_key. rewrite Hf, He.
  now apply unescape_no_backslash.
Qed.

Lemma kvs_unescapeKeys o :
  kvs (unescapeKeys o) = map (fun e => mkKV (logical_key o e) (v e)) (kvs o).
Proof.
  unfold unescapeKeys, logical_key. destruct (keysUnescaped o) eqn:E; cbn [kvs].
  - rewrite <- (map_id (kvs o)) at 1. apply map_ext. now intros [].
  - reflexivity.
Qed.

Lemma first_match_unescapeKeys o key :
  first_match (logical_key (unescapeKeys o)) (kvs (unescapeKeys o)) key =
  first_match (logical_key o) (kvs o) key.
Proof.
  rewrite (first_match_ext (logical_key (unescapeKeys o)) k)
    by (intros e _; unfold logical_key; now rewrite keysUnescaped_unescapeKeys).
  rewrite <- scan_kvs_first_match. apply scan_unescaped.
Qed.

Lemma count_unescapeKeys o key : count_key (unescapeKeys o) key = count_key o key.
Proof.
  unfold count_key. rewrite kvs_unescapeKeys.
  rewrite (filter_ext (fun e => gostring_eqb (logical_key (unescapeKeys o) e) key)
             (fun e => gostring_eqb (k e) key))
    by (intros e; unfold logical_key; now rewrite keysUnescaped_unescapeKeys).
  induction (kvs o) as [|e l IH]; cbn [map filter k]; [reflexivity|].
  destruct (gostring_eqb (logical_key o e) key); cbn [List.length]; now rewrite IH.
Qed.

Lemma has_key_count o key : has_key o key = negb (count_key o key =? 0)%nat.
Proof.
  unfold has_key, count_key.
  destruct (existsb _ (kvs o)) eqn:E.
  - apply existsb_filter_pos in E. symmetry. apply negb_true_iff, Nat.eqb_neq. lia.
  - symmetry. apply negb_false_iff, Nat.eqb_eq.
    induction (kvs o) as [|e l IH]; [reflexivity|]. cbn [existsb] in E.
    apply orb_false_iff in E. destruct E as [E1 E2]. cbn [filter]. rewrite E1. now apply IH.
Qed.

Lemma Object_Get_absent o key :
  has_key o key = false -> fst (Object_Get o key) = None.
Proof.
  intros Hk. rewrite Object_Get_value.
  assert (Hl : first_match (logical_key o) (kvs o) key = None).
  { rewrite <- scan_unescaped. now apply scan_has_key. }
  rewrite Hl.
  destruct (negb (keysUnescaped o) && (IndexByte key 92 <? 0)) eqn:E; [|reflexivity].
  apply andb_prop in E. destruct E as [E1 E2]. apply negb_true_iff in E1.
  rewrite <- scan_kvs_first_match.
  destruct (scan_kvs (kvs o) key) as [x|] eqn:Es; [|reflexivity].
  exfalso.
  assert (Hex : existsb (fun e => gostring_eqb (k e) key) (kvs o) = true).
  { destruct (existsb (fun e => gostring_eqb (k e) key) (kvs o)) eqn:Ex; [reflexivity|].
    apply scan_kvs_existsb in Ex. congruence. }
  unfold has_key in Hk.
  apply existsb_exists in Hex. destruct Hex as (e & He & Hke).
  assert (Ht : existsb (fun e => gostring_eqb (logical_key o e) key) (kvs o) = true).
  { apply existsb_exists. exists e. split; [exact He|].
    rewrite (raw_key_logical o e key E1 E2 Hke). apply gostring_eqb_refl. }
  congruence.
Qed.

(** X9.  [Object.Del] takes one entry with the key out, if there is one:
    the object has one entry less when an entry had the key and as many as
    before when none had; one entry with the key less is left in either
    case, so after deleting a key that occurred once a lookup of it returns
    nil; and lookups of other keys find among the unescaped keys what they
    found before. *)
Theorem Object_Del_removes_one (o : Object) (key : gostring) :
  Object_Len (Object_Del o key) =
    (if has_key o key then Object_Len o - 1 else Object_Len o) /\
  count_key (Object_Del o key) key = Nat.pred (count_key o key) /\
  ((count_key o key <= 1)%nat -> fst (Object_Get (Object_Del o key) key) = None) /\
  (forall key', key' <> key ->
     first_match (logical_key (Object_Del o key)) (kvs (Object_Del o key)) key' =
     first_match (logical_key o) (kvs o) key').
Proof.
  assert (Hlen : Object_Len (unescapeKeys o) = Object_Len o).
  { unfold Object_Len. now rewrite kvs_unescapeKeys, length_map. }
  assert (Hcount : count_key (Object_Del o key) key = Nat.pred (count_key o key)).
  { destruct (Object_Del_cases o key)
      as [(Hr & Hf & Hb & r & Hd & ->)|[(Hr & r & Hd & ->)|(Hr & Hd & ->)]].
    - unfold count_key. cbn [kvs].
      rewrite <- (del_kvs_filter (fun e => gostring_eqb (logical_key o e) key)
                    (kvs o) key) with (r := r); [| |exact Hd].
      + cbn [Nat.pred]. f_equal. apply filter_ext. intros e. unfold logical_key.
        cbn [keysUnescaped]. now rewrite Hf.
      + intros e _ He. rewrite (raw_key_logical o e key Hf Hb He). apply gostring_eqb_refl.
    - rewrite <- (count_unescapeKeys o key). unfold count_key. cbn [kvs].
      rewrite <- (del_kvs_filter
                    (fun e => gostring_eqb (logical_key (unescapeKeys o) e) key) _ key)
        with (r := r); [| |exact Hd].
      + cbn [Nat.pred]. f_equal. apply filter_ext. intros e. unfold logical_key.
        cbn [keysUnescaped]. now rewrite keysUnescaped_unescapeKeys.
      + intros e _ He. unfold logical_key. now rewrite keysUnescaped_unescapeKeys.
    - rewrite count_unescapeKeys.
      apply del_kvs_existsb in Hd.
      assert (Hk : has_key o key = false) by (apply scan_has_key, scan_kvs_existsb, Hd).
      rewrite has_key_count in Hk. apply negb_false_iff, Nat.eqb_eq in Hk. now rewrite Hk. }
  split; [|split; [exact Hcount|split]].
  - rewrite has_key_count.
    destruct (Object_Del_cases o key)
      as [(Hr & Hf & Hb & r & Hd & E)|[(Hr & r & Hd & E)|(Hr & Hd & E)]].
    + assert (Hpos : (0 < count_key o key)%nat).
      { unfold count_key.
        rewrite <- (del_kvs_filter (fun e => gostring_eqb (logical_key o e) key)
                      (kvs o) key) with (r := r); [lia| |exact Hd].
        intros e _ He. rewrite (raw_key_logical o e key Hf Hb He). apply gostring_eqb_refl. }
      replace (count_key o key =? 0)%nat with false by (symmetry; apply Nat.eqb_neq; lia).
      cbn [negb]. rewrite E. unfold Object_Len. cbn [kvs].
      apply del_kvs_length in Hd. lia.
    + assert (Hpos : (0 < count_key o key)%nat).
      { rewrite <- count_unescapeKeys. unfold count_key.
        rewrite <- (del_kvs_filter _ _ key) with (r := r); [lia| |exact Hd].
        intros e _ He. unfold logical_key. now rewrite keysUnescaped_unescapeKeys. }
      replace (count_key o key =? 0)%nat with false by (symmetry; apply Nat.eqb_neq; lia).
      cbn [negb]. rewrite E. rewrite <- Hlen. unfold Object_Len. cbn [kvs].
      apply del_kvs_length in Hd. lia.
    + apply del_kvs_existsb in Hd.
      assert (Hk : has_key o key = false) by (apply scan_has_key, scan_kvs_existsb, Hd).
      rewrite has_key_count in Hk. apply negb_false_iff in Hk. rewrite Hk. cbn [negb].
      now rewrite E.
  - intros Hone.
    assert (Hz : count_key (Object_Del o key) key = O) by lia.
    assert (Hk : has_key (Object_Del o key) key = false).
    { rewrite has_key_count, Hz. reflexivity. }
    now apply Object_Get_absent.
  - intros key' Hne.
    destruct (Object_Del_cases o key)
      as [(Hr & Hf & Hb & r & Hd & ->)|[(Hr & r & Hd & ->)|(Hr & Hd & ->)]].
    + cbn [kvs].
      rewrite (first_match_ext (logical_key {| kvs := r; keysUnescaped := false |})
                 (logical_key o)).
      * apply (del_kvs_find _ _ key key'); [|exact Hd].
        intros e _ He. rewrite (raw_key_logical o e key Hf Hb He). congruence.
      * intros e _. unfold logical_key. cbn [keysUnescaped]. now rewrite Hf.
    + cbn [kvs]. etransitivity; [|apply (first_match_unescapeKeys o key')].
      rewrite (first_match_ext (logical_key {| kvs := r; keysUnescaped := true |})
                 (logical_key (unescapeKeys o))).
      * apply (del_kvs_find _ _ key key'); [|exact Hd].
        intros e _ He. apply gostring_eqb_eq in He. unfold logical_key.
        rewrite keysUnescaped_unescapeKeys. congruence.
      * intros e _. unfold logical_key. cbn [keysUnescaped].
        now rewrite keysUnescaped_unescapeKeys.
    + apply first_match_unescapeKeys.
Qed.

(** ** Updates of arrays *)

Lemma nth_error_repeat {A} (x : A) n j : (j < n)%nat -> nth_error (repeat x n) j = Some x.
Proof.
  revert j. induction n as [|n IH]; intros j Hj; [lia|].
  destruct j as [|j]; [reflexivity|]. cbn [repeat nth_error]. apply IH. lia.
Qed.

Lemma nth_error_replace {A} (l : list A) (i : nat) (x : A) :
  (i < List.length l)%nat ->
  List.length (firstn i l ++ x :: skipn (S i) l) = List.length l /\
  nth_error (firstn i l ++ x :: skipn (S i) l) i = Some x /\
  (forall j, j <> i -> nth_error (firstn i l ++ x :: skipn (S i) l) j = nth_error l j).
Proof.
  revert i. induction l as [|y l IH]; intros i Hi; [cbn in Hi; lia|].
  destruct i as [|i].
  - cbn [firstn skipn app]. repeat split. intros [|j] Hj; [lia|reflexivity].
  - cbn [List.length] in Hi. destruct (IH i ltac:(lia)) as (H1 & H2 & H3).
    cbn [firstn skipn app List.length nth_error] in *. repeat split.
    + now rewrite H1.
    + exact H2.
    + intros [|j] Hj; [reflexivity|]. cbn [nth_error]. apply H3. lia.
Qed.

Lemma nth_error_remove {A} (l : list A) (i : nat) :
  (i < List.length l)%nat ->
  S (List.length (firstn i l ++ skipn (S i) l)) = List.length l /\
  (forall j, nth_error (firstn i l ++ skipn (S i) l) j =
             if (j <? i)%nat then nth_error l j else nth_error l (S j)).
Proof.
  revert i. induction l as [|y l IH]; intros i Hi; [cbn in Hi; lia|].
  destruct i as [|i].
  - cbn [firstn skipn app List.length]. split; [reflexivity|]. intros j. reflexivity.
  - cbn [List.length] in Hi. destruct (IH i ltac:(lia)) as (H1 & H2).
    cbn [firstn skipn app List.length] in *. split; [now rewrite H1|].
    intros [|j]; [reflexivity|]. cbn [nth_error]. rewrite H2.
    change (S j <? S i)%nat with (j <? i)%nat. reflexivity.
Qed.

Lemma SetArrayItem_at (a : list Value) (idx : Z) (value : Value) :
  0 <= idx ->
  exists a',
    Value_SetArrayItem (VArray a) idx value = Some (VArray a') /\
    idx < Z.of_nat (List.length a') /\
    nth_error a' (Z.to_nat idx) = Some value.
Proof.
  intros Hidx. unfold Value_SetArrayItem.
  replace (idx <? 0) with false by (symmetry; apply Z.ltb_ge; lia).
  cbv zeta. eexists. split; [reflexivity|].
  replace (Z.to_nat (idx + 1)) with (S (Z.to_nat idx)) by lia.
  set (b := a ++ repeat valueNull (S (Z.to_nat idx) - List.length a)).
  assert (Hb : (Z.to_nat idx < List.length b)%nat).
  { unfold b. rewrite length_app, repeat_length. lia. }
  destruct (nth_error_replace b (Z.to_nat idx) value Hb) as (H1 & H2 & _).
  split; [rewrite H1; lia|exact H2].
Qed.

(** X10.  [Value.SetArrayItem] at an index from 0 on puts the value at
    that index of the array.  An index past the end is no error: the array
    first grows by null values up to the index.  The items at the other
    indices stay as they were. *)
Theorem SetArrayItem_grows (a : list Value) (idx : Z) (value : Value) :
  0 <= idx ->
  exists a',
    Value_SetArrayItem (VArray a) idx value = Some (VArray a') /\
    List.length a' = Nat.max (List.length a) (S (Z.to_nat idx)) /\
    nth_error a' (Z.to_nat idx) = Some value /\
    (forall j, j <> Z.to_nat idx -> (j < List.length a)%nat ->
               nth_error a' j = nth_error a j) /\
    (forall j, (List.length a <= j < Z.to_nat idx)%nat -> nth_error a' j = Some valueNull).
Proof.
  intros Hidx. unfold Value_SetArrayItem.
  replace (idx <? 0) with false by (symmetry; apply Z.ltb_ge; lia).
  cbv zeta. eexists. split; [reflexivity|].
  set (n := Z.to_nat idx).
  replace (Z.to_nat (idx + 1)) with (S n) by lia.
  set (b := a ++ repeat valueNull (S n - List.length a)).
  assert (Hb : List.length b = Nat.max (List.length a) (S n)).
  { unfold b. rewrite length_app, repeat_length. lia. }
  destruct (nth_error_replace b n value ltac:(lia)) as (H1 & H2 & H3).
  split; [now rewrite H1|]. split; [exact H2|]. split.
  - intros j Hj Hlt. rewrite (H3 j Hj). unfold b. now apply nth_error_app1.
  - intros j Hj. rewrite (H3 j ltac:(lia)). unfold b.
    rewrite nth_error_app2 by lia. apply nth_error_repeat. lia.
Qed.

Lemma SetArrayItem_grows_witness :
  0 <= 3 /\
  exists a',
    Value_SetArrayItem (VArray [VTrue]) 3 VFalse = Some (VArray a') /\
    List.length a' = Nat.max (List.length [VTrue]) (S (Z.to_nat 3)) /\
    nth_error a' (Z.to_nat 3) = Some VFalse /\
    (forall j, j <> Z.to_nat 3 -> (j < List.length [VTrue])%nat ->
               nth_error a' j = nth_error [VTrue] j) /\
    (forall j, (List.length [VTrue] <= j < Z.to_nat 3)%nat ->
               nth_error a' j = Some valueNull).
Proof. split; [lia|]. apply (SetArrayItem_grows [VTrue] 3 VFalse). lia. Defined.

(** X11.  What [Value.Set] stores, [Value.Get] finds under the same key:
    in an object always, in an array when the key is the decimal text of an
    index from 0 on.  A key that is no such text leaves an array as it is,
    and a value that is neither an object nor an array is left as it
    is. *)
Theorem Value_Set_then_Get (key : gostring) (value : Value) :
  (forall o, Value_Get (Value_Set (VObject o) key value) [key] = Some value) /\
  (forall a n, Atoi key = (n, None) -> 0 <= n ->
     Value_Get (Value_Set (VArray a) key value) [key] = Some value) /\
  (forall a, snd (Atoi key) <> None \/ fst (Atoi key) < 0 ->
     Value_Set (VArray a) key value = VArray a) /\
  (forall x, t x <> TypeObject -> t x <> TypeArray -> Value_Set x key value = x).
Proof.
  split; [|split; [|split]].
  - intros o. cbn [Value_Set Value_Get].
    now rewrite (Object_Set_Get_same o key (Some value)).
  - intros a n HA Hn. cbn [Value_Set]. rewrite HA.
    replace (n <? 0) with false by (symmetry; apply Z.ltb_ge; lia).
    destruct (SetArrayItem_at a n value Hn) as (a' & E & Hl & Hv).
    rewrite E. cbn [Value_Get]. rewrite HA.
    replace (n <? 0) with false by (symmetry; apply Z.ltb_ge; lia).
    replace (Z.of_nat (List.length a') <=? n) with false
      by (symmetry; apply Z.leb_gt; lia).
    cbn [orb]. now rewrite Hv.
  - intros a H. cbn [Value_Set]. destruct (Atoi key) as [n [e|]]; [reflexivity|].
    cbn [fst snd] in H. destruct H as [H|H]; [now contradiction H|].
    now replace (n <? 0) with true by (symmetry; apply Z.ltb_lt; lia).
  - intros x Ho Ha. destruct x; try reflexivity; cbn [t] in *; congruence.
Qed.

Example array_Set_then_Get_run :
  Atoi (str "2") = (2, None) /\
  Value_Set (VArray [VTrue]) (str "2") VFalse = VArray [VTrue; VNull; VFalse] /\
  Value_Get (VArray [VTrue; VNull; VFalse]) [str "2"] = Some VFalse /\
  Value_Set (VArray [VTrue]) (str "x") VFalse = VArray [VTrue] /\
  Value_Set (VArray [VTrue]) (str "-1") VFalse = VArray [VTrue].
Proof. repeat split; reflexivity. Qed.

(** X12.  [Value.Del] on an array takes the item at the index out when
    the key is the decimal text of an index of the array: the items before
    it stay where they are and the items after it move down by one.  Any
    other key leaves the array as it is. *)
Theorem Value_Del_array (a : list Value) (key : gostring) :
  (forall n, Atoi key = (n, None) -> 0 <= n < Z.of_nat (List.length a) ->
     exists a',
       Value_Del (VArray a) key = VArray a' /\
       S (List.length a') = List.length a /\
       forall j, nth_error a' j =
                 if (j <? Z.to_nat n)%nat then nth_error a j else nth_error a (S j)) /\
  (snd (Atoi key) <> None \/ fst (Atoi key) < 0 \/
   Z.of_nat (List.length a) <= fst (Atoi key) ->
   Value_Del (VArray a) key = VArray a).
Proof.
  split.
  - intros n HA Hn. cbn [Value_Del]. rewrite HA.
    replace (n <? 0) with false by (symmetry; apply Z.ltb_ge; lia).
    replace (Z.of_nat (List.length a) <=? n) with false by (symmetry; apply Z.leb_gt; lia).
    cbn [orb]. eexists. split; [reflexivity|].
    apply nth_error_remove. lia.
  - intros H. cbn [Value_Del]. destruct (Atoi key) as [n [e|]]; [reflexivity|].
    cbn [fst snd] in H. destruct H as [H|[H|H]]; [now contradiction H| |].
    + now replace (n <? 0) with true by (symmetry; apply Z.ltb_lt; lia).
    + replace (Z.of_nat (List.length a) <=? n) with true by (symmetry; apply Z.leb_le; lia).
      now rewrite orb_true_r.
Qed.

Example array_Del_run :
  Value_Del (VArray [VTrue; VNull; VFalse]) (str "1") = VArray [VTrue; VFalse] /\
  Value_Del (VArray [VTrue; VNull; VFalse]) (str "3") = VArray [VTrue; VNull; VFalse] /\
  Value_Del (VArray [VTrue; VNull; VFalse]) (str "+0") = VArray [VNull; VFalse].
Proof. repeat split; reflexivity. Qed.

(** ** What the validator takes for a number *)

Lemma from_app_plus a c b : from (len a + 1) (a ++ c :: b) = b.
Proof.
  replace (len a + 1) with (len (a ++ [c])) by (rewrite len_app; reflexivity).
  replace (a ++ c :: b) with ((a ++ [c]) ++ b) by (now rewrite <- app_assoc).
  apply from_app.
Qed.

Lemma at_nil_app a : at_ (a ++ []) (len a) = Ascii.zero.
Proof.
  rewrite app_nil_r. unfold at_, len. rewrite Nat2Z.id.
  apply nth_overflow. lia.
Qed.

Lemma at_0 c s : at_ (c :: s) 0 = c.
Proof. reflexivity. Qed.

Lemma from_1 c s : from 1 (c :: s) = s.
Proof. reflexivity. Qed.

Lemma digits_end_shift rest : forall i, digits_end rest i = i + digits_end rest 0.
Proof.
  induction rest as [|c rest IH]; intros i; cbn [digits_end]; [lia|].
  destruct (is_digit c); [|lia]. rewrite (IH (i + 1)), (IH (0 + 1)). lia.
Qed.

(** The digits at the head of a string, and the rest. *)
Lemma digits_split s :
  exists ds rest, s = ds ++ rest /\ forallb is_digit ds = true /\
                  digits_end s 0 = len ds /\ no_digit_ahead rest = true.
Proof.
  induction s as [|c s (ds & rest & Hs & Hd & He & Hr)].
  - exists [], []. repeat split.
  - cbn [digits_end]. destruct (is_digit c) eqn:Ec.
    + exists (c :: ds), rest. rewrite Hs at 1. cbn [forallb app]. rewrite Ec, Hd.
      repeat split; [|exact Hr]. rewrite digits_end_shift, He, len_cons. lia.
    + exists [], (c :: s). repeat split. cbn [no_digit_ahead]. now rewrite Ec.
Qed.

Lemma digit_number_byte c : is_digit c = true -> is_number_byte c = true.
Proof. intros H. unfold is_number_byte. now rewrite H. Qed.

Lemma digits_number_bytes ds :
  forallb is_digit ds = true -> forallb is_number_byte ds = true.
Proof.
  induction ds as [|c ds IH]; cbn [forallb]; [reflexivity|].
  intros H. apply andb_prop in H. destruct H as [Hc H].
  now rewrite (digit_number_byte c Hc), IH.
Qed.

(** The digits a part of a number needs, read at the head of [s]: either
    they are all of [s], or the scan goes on at the byte after them. *)
Lemma digits_then s :
  (digits_end s 0 =? 0) = false ->
  exists ds rest, s = ds ++ rest /\ forallb is_digit ds = true /\ ds <> [] /\
    digits_end s 0 = len ds /\
    ((len s <=? digits_end s 0) = true -> rest = []) /\
    from (digits_end s 0) s = rest.
Proof.
  intros H0. destruct (digits_split s) as (ds & rest & Hs & Hd & He & _).
  exists ds, rest. rewrite He in *. apply Z.eqb_neq in H0.
  repeat split; try assumption.
  - intros ->. now apply H0.
  - intros Hl. apply Z.leb_le in Hl. rewrite Hs, len_app in Hl.
    apply len_0_nil. pose proof (len_nonneg rest). lia.
  - rewrite Hs. apply from_app.
Qed.

Lemma exponent_shape a b tail :
  validateNumber_exponent (a ++ b) (len a) = (tail, None) ->
  exists m, b = m ++ tail /\ forallb is_number_byte m = true.
Proof.
  unfold validateNumber_exponent. destruct b as [|c b].
  - rewrite at_nil_app. cbn [is_byte code orb]. change (is_byte 101 Ascii.zero) with false.
    change (is_byte 69 Ascii.zero) with false. cbn [orb].
    rewrite app_nil_r. replace (from (len a) a) with (@nil ascii)
      by (rewrite <- (app_nil_r a) at 2; now rewrite from_app).
    intros H. injection H as <-. now exists [].
  - rewrite at_app. destruct (is_byte 101 c || is_byte 69 c) eqn:Ee.
    + rewrite from_app_plus. destruct (len b =? 0) eqn:Eb; [discriminate|]. cbv zeta.
      destruct b as [|c2 b2]; [discriminate Eb|]. rewrite at_0.
      assert (Hc : is_number_byte c = true).
      { unfold is_number_byte. apply orb_prop in Ee. destruct Ee as [-> | ->];
          now rewrite ?orb_true_r. }
      destruct (is_byte 45 c2 || is_byte 43 c2) eqn:Es.
      * rewrite from_1. cbn [andb]. destruct (len b2 =? 0); [discriminate|].
        destruct (digits_end b2 0 =? 0) eqn:E0; [discriminate|].
        destruct (digits_then b2 E0) as (ds & rest & Hs & Hd & Hne & He & Hall & Hfrom).
        assert (Hc2 : is_number_byte c2 = true).
        { unfold is_number_byte. apply orb_prop in Es. destruct Es as [-> | ->];
            now rewrite ?orb_true_r. }
        destruct (len b2 <=? digits_end b2 0) eqn:El.
        -- intros H. injection H as <-. specialize (Hall eq_refl). subst rest.
           exists (c :: c2 :: ds). rewrite Hs. split; [reflexivity|].
           cbn [forallb]. now rewrite Hc, Hc2, (digits_number_bytes ds Hd).
        -- rewrite Hfrom. intros H. injection H as <-.
           exists (c :: c2 :: ds). rewrite Hs at 1. split; [reflexivity|].
           cbn [forallb]. now rewrite Hc, Hc2, (digits_number_bytes ds Hd).
      * cbn [andb].
        destruct (digits_end (c2 :: b2) 0 =? 0) eqn:E0; [discriminate|].
        destruct (digits_then (c2 :: b2) E0) as (ds & rest & Hs & Hd & Hne & He & Hall & Hfrom).
        destruct (len (c2 :: b2) <=? digits_end (c2 :: b2) 0) eqn:El.
        -- intros H. injection H as <-. specialize (Hall eq_refl). subst rest.
           exists (c :: ds). rewrite Hs. split; [reflexivity|].
           cbn [forallb]. now rewrite Hc, (digits_number_bytes ds Hd).
        -- rewrite Hfrom. intros H. injection H as <-.
           exists (c :: ds). rewrite Hs at 1. split; [reflexivity|].
           cbn [forallb]. now rewrite Hc, (digits_number_bytes ds Hd).
    + rewrite from_app. intros H. injection H as <-. now exists [].
Qed.

Lemma fraction_shape a b tail :
  validateNumber_fraction (a ++ b) (len a) = (tail, None) ->
  exists m, b = m ++ tail /\ forallb is_number_byte m = true.
Proof.
  unfold validateNumber_fraction. destruct b as [|c b].
  - rewrite at_nil_app. change (is_byte 46 Ascii.zero) with false. cbv iota.
    apply exponent_shape.
  - rewrite at_app. destruct (is_byte 46 c) eqn:Ec; [|apply exponent_shape].
    rewrite from_app_plus. destruct (len b =? 0); [discriminate|]. cbv zeta.
    destruct (digits_end b 0 =? 0) eqn:E0; [discriminate|].
    destruct (digits_then b E0) as (ds & rest & Hs & Hd & Hne & He & Hall & Hfrom).
    assert (Hc : is_number_byte c = true).
    { unfold is_number_byte. now rewrite Ec, ?orb_true_r. }
    destruct (len b <=? digits_end b 0) eqn:El.
    + intros H. injection H as <-. specialize (Hall eq_refl). subst rest.
      exists (c :: ds). rewrite Hs. split; [reflexivity|].
      cbn [forallb]. now rewrite Hc, (digits_number_bytes ds Hd).
    + rewrite He. rewrite Hs at 1. intros H.
      apply exponent_shape in H. destruct H as (m & Hm & Hnb).
      exists (c :: ds ++ m).
      split; [rewrite Hs, Hm; cbn [app]; now rewrite app_assoc|].
      cbn [forallb]. rewrite Hc, forallb_app, (digits_number_bytes ds Hd), Hnb. reflexivity.
Qed.

(** What [validateNumber] takes: bytes that a number may hold, the first
    of them a digit, or a minus with a digit after it. *)
Lemma validateNumber_shape s tail :
  validateNumber s = (tail, None) ->
  exists c m, s = (c :: m) ++ tail /\ forallb is_number_byte (c :: m) = true /\
              (is_digit c = true \/ m <> []).
Proof.
  unfold validateNumber. destruct (len s =? 0) eqn:E0; [discriminate|].
  destruct s as [|c s]; [discriminate E0|]. cbv zeta. rewrite at_0.
  destruct (is_byte 45 c) eqn:Em.
  - rewrite from_1. cbn [andb]. destruct (len s =? 0); [discriminate|].
    destruct (digits_end s 0 <=? 0) eqn:Ed; [discriminate|]. apply Z.leb_gt in Ed.
    assert (Ed0 : (digits_end s 0 =? 0) = false) by (apply Z.eqb_neq; lia).
    destruct (digits_then s Ed0) as (ds & rest & Hs & Hd & Hne & He & Hall & Hfrom).
    destruct (is_byte 48 (at_ s 0) && negb (digits_end s 0 =? 1)); [discriminate|].
    assert (Hc : is_number_byte c = true).
    { unfold is_number_byte. now rewrite Em, ?orb_true_r. }
    destruct (len s <=? digits_end s 0) eqn:El.
    + intros H. injection H as <-. specialize (Hall eq_refl). subst rest.
      exists c, ds. rewrite Hs. split; [reflexivity|]. split; [|now right].
      cbn [forallb]. now rewrite Hc, (digits_number_bytes ds Hd).
    + rewrite He. rewrite Hs at 1. intros H.
      apply fraction_shape in H. destruct H as (m & Hm & Hnb).
      exists c, (ds ++ m).
      split; [rewrite Hs, Hm; cbn [app]; now rewrite app_assoc|]. split.
      * cbn [forallb]. rewrite Hc, forallb_app, (digits_number_bytes ds Hd), Hnb. reflexivity.
      * right. destruct ds; [congruence|discriminate].
  - cbn [andb].
    destruct (digits_end (c :: s) 0 <=? 0) eqn:Ed; [discriminate|]. apply Z.leb_gt in Ed.
    assert (Ed0 : (digits_end (c :: s) 0 =? 0) = false) by (apply Z.eqb_neq; lia).
    destruct (digits_then (c :: s) Ed0) as (ds & rest & Hs & Hd & Hne & He & Hall & Hfrom).
    destruct (is_byte 48 (at_ (c :: s) 0) && negb (digits_end (c :: s) 0 =? 1));
      [discriminate|].
    destruct ds as [|d ds]; [congruence|]. injection Hs as <- Hs.
    assert (Hdc : is_digit c = true) by (cbn [forallb] in Hd; now apply andb_prop in Hd).
    destruct (len (c :: s) <=? digits_end (c :: s) 0) eqn:El.
    + intros H. injection H as <-. specialize (Hall eq_refl). subst rest.
      exists c, ds. rewrite Hs. split; [reflexivity|]. split; [|now left].
      now apply digits_number_bytes.
    + rewrite He. replace (c :: s) with ((c :: ds) ++ rest) at 1 by (cbn [app]; congruence).
      intros H. apply fraction_shape in H. destruct H as (m & Hm & Hnb).
      exists c, (ds ++ m).
      split; [rewrite Hs, Hm; cbn [app]; now rewrite app_assoc|]. split; [|now left].
      change (c :: ds ++ m) with ((c :: ds) ++ m).
      rewrite forallb_app, (digits_number_bytes _ Hd), Hnb. reflexivity.
Qed.

(** ** The parser on what the validator accepts *)

Lemma at_0_app c pre rest : at_ ((c :: pre) ++ rest) 0 = c.
Proof. reflexivity. Qed.

Lemma parseRawNumber_loop_run m : forall pre tail,
  forallb is_number_byte m = true -> number_ends tail = true ->
  pre ++ m <> [] ->
  (len (pre ++ m) = 1 ->
   is_byte 45 (at_ (pre ++ m) 0) || is_byte 43 (at_ (pre ++ m) 0) = false) ->
  parseRawNumber_loop (pre ++ m ++ tail) (m ++ tail) (len pre) = (pre ++ m, tail, None).
Proof.
  induction m as [|x m IH]; intros pre tail Hm Ht Hne Hsign.
  - rewrite app_nil_r in *. cbn [app]. destruct tail as [|c r]; cbn [parseRawNumber_loop].
    + now rewrite app_nil_r.
    + cbn [number_ends] in Ht. apply negb_true_iff in Ht. rewrite Ht.
      destruct pre as [|p pre]; [congruence|].
      assert (Hl : (len (p :: pre) =? 0) = false).
      { apply Z.eqb_neq. rewrite len_cons. pose proof (len_nonneg pre). lia. }
      rewrite Hl. cbn [orb]. rewrite at_0_app.
      assert (Hc : (len (p :: pre) =? 1) && (is_byte 45 p || is_byte 43 p) = false).
      { destruct (len (p :: pre) =? 1) eqn:E1; [|reflexivity]. apply Z.eqb_eq in E1.
        cbn [andb]. apply (Hsign E1). }
      rewrite Hc. now rewrite upto_app, from_app.
  - cbn [forallb] in Hm. apply andb_prop in Hm. destruct Hm as [Hx Hm].
    cbn [app parseRawNumber_loop]. rewrite Hx.
    specialize (IH (pre ++ [x]) tail Hm Ht).
    replace ((pre ++ [x]) ++ m) with (pre ++ x :: m) in IH by (now rewrite <- app_assoc).
    replace ((pre ++ [x]) ++ m ++ tail) with (pre ++ x :: m ++ tail) in IH
      by (now rewrite <- app_assoc).
    replace (len pre + 1) with (len (pre ++ [x])) by (rewrite len_app; reflexivity).
    apply IH; [exact Hne|exact Hsign].
Qed.

(** Where the validator takes a number and a byte that no number holds
    follows, the parser takes the same bytes. *)
Lemma validateNumber_parseRawNumber s tail :
  validateNumber s = (tail, None) -> number_ends tail = true ->
  exists ns, parseRawNumber s = (ns, tail, None).
Proof.
  intros H Ht. apply validateNumber_shape in H. destruct H as (c & m & Hs & Hnb & Hc).
  exists (c :: m). unfold parseRawNumber. rewrite Hs.
  apply (parseRawNumber_loop_run (c :: m) [] tail Hnb Ht); [discriminate|].
  cbn [app]. rewrite len_cons. intros Hl.
  assert (Hm : m = []) by (apply len_0_nil; pose proof (len_nonneg m); lia).
  destruct Hc as [Hc|Hc]; [|congruence].
  rewrite at_0. apply is_digit_not_sign in Hc. destruct Hc as [-> ->]. reflexivity.
Qed.

Lemma IndexByte_none_at l c : IndexByte l c < 0 ->
  forall j, (j < List.length l)%nat -> is_byte c (nth j l Ascii.zero) = false.
Proof.
  induction l as [|x l IH]; cbn [IndexByte List.length]; [lia|].
  destruct (is_byte c x) eqn:Ex; [lia|].
  destruct (IndexByte l c <? 0) eqn:E; [apply Z.ltb_lt in E|apply Z.ltb_ge in E; lia].
  intros _ [|j] Hj; [exact Ex|]. cbn [nth]. apply IH; [exact E|lia].
Qed.

Lemma nth_firstn_lt {A} (l : list A) n j d : (j < n)%nat -> nth j (firstn n l) d = nth j l d.
Proof.
  revert n j. induction l as [|x l IH]; intros n j Hj.
  - now rewrite firstn_nil.
  - destruct n as [|n]; [lia|]. destruct j as [|j]; [reflexivity|].
    cbn [firstn nth]. apply IH. lia.
Qed.

Lemma validateString_parseRawString s sv tail :
  validateString s = (sv, tail, None) -> exists ss, parseRawString s = (ss, tail, None).
Proof.
  unfold validateString.
  destruct ((0 <=? IndexByte s 34) && (IndexByte (upto (IndexByte s 34) s) 92 <? 0)) eqn:E.
  - intros H. injection H as _ <-. apply andb_prop in E. destruct E as [E1 E2].
    apply Z.leb_le in E1. apply Z.ltb_lt in E2.
    exists (upto (IndexByte s 34) s). unfold parseRawString.
    replace (IndexByte s 34 <? 0) with false by (symmetry; apply Z.ltb_ge; lia).
    assert (Hp : (IndexByte s 34 =? 0) ||
                 negb (is_byte 92 (at_ s (IndexByte s 34 - 1))) = true).
    { destruct (IndexByte s 34 =? 0) eqn:E0; [reflexivity|]. apply Z.eqb_neq in E0.
      cbn [orb]. apply negb_true_iff.
      pose proof (IndexByte_bounds s 34) as Hb.
      pose proof (IndexByte_none_at _ _ E2 (Z.to_nat (IndexByte s 34 - 1))) as Hn.
      unfold upto in Hn. rewrite length_firstn in Hn. unfold len in Hb.
      rewrite nth_firstn_lt in Hn by lia. apply Hn. lia. }
    now rewrite Hp.
  - destruct (parseRawString s) as [[rs tl] [err|]] eqn:EP; [discriminate|].
    intros H. apply length_validateString_loop in H. subst tail. now exists rs.
Qed.

Lemma validateKey_loop_parseRawKey s : forall rest i key tail,
  validateKey_loop s rest i = (key, tail, None) ->
  exists kk, parseRawKey_loop s rest i = (kk, tail, None).
Proof.
  induction rest as [|c rest IH]; intros i key tail H; cbn [validateKey_loop] in H;
    [discriminate|]. cbn [parseRawKey_loop].
  destruct (is_byte 34 c).
  - injection H as _ <-. eauto.
  - destruct (is_byte 92 c).
    + now apply validateString_parseRawString in H.
    + eapply IH, H.
Qed.

Lemma validateKey_parseRawKey s key tail :
  validateKey s = (key, tail, None) -> exists kk, parseRawKey s = (kk, tail, None).
Proof. apply validateKey_loop_parseRawKey. Qed.

Lemma low_byte_no_number c : (32 <? code c) = false -> is_number_byte c = false.
Proof.
  intros H. apply Z.ltb_ge in H. unfold is_number_byte, is_digit, is_byte.
  repeat match goal with
  | |- context [?a =? ?b] => replace (a =? b) with false by (symmetry; apply Z.eqb_neq; lia)
  | |- context [?a <=? ?b] => replace (a <=? b) with false by (symmetry; apply Z.leb_gt; lia)
  end. reflexivity.
Qed.

Lemma skipWS_head t c r :
  skipWS t = c :: r -> is_number_byte c = false -> number_ends t = true.
Proof.
  destruct t as [|x t]; [discriminate|]. cbn [skipWS number_ends].
  destruct (32 <? code x) eqn:E.
  - intros H. injection H as -> _. intros ->. reflexivity.
  - intros _ _. now rewrite (low_byte_no_number x E).
Qed.

Lemma skipWS_nil_ends t : skipWS t = [] -> number_ends t = true.
Proof.
  destruct t as [|x t]; [reflexivity|]. cbn [skipWS number_ends].
  destruct (32 <? code x) eqn:E; [discriminate|].
  intros _. now rewrite (low_byte_no_number x E).
Qed.

Lemma comma_no_number c :
  is_byte 44 c = true \/ is_byte 93 c = true \/ is_byte 125 c = true ->
  is_number_byte c = false.
Proof.
  unfold is_number_byte, is_digit, is_byte. intros H.
  assert (Hc : code c = 44 \/ code c = 93 \/ code c = 125).
  { destruct H as [H|[H|H]]; apply Z.eqb_eq in H; lia. }
  repeat match goal with
  | |- context [?a =? ?b] => replace (a =? b) with false by (symmetry; apply Z.eqb_neq; lia)
  end.
  destruct (48 <=? code c) eqn:E1; [|reflexivity].
  replace (code c <=? 57) with false by (symmetry; apply Z.leb_gt; apply Z.leb_le in E1; lia).
  reflexivity.
Qed.

Lemma parses_to_wrap r tail format :
  parses_to r tail ->
  parses_to match r with
            | Parsed x tl => Parsed x tl
            | Failed tl err => Failed tl (Wrapf format [] err)
            | OutOfFuel => OutOfFuel
            end tail.
Proof.
  intros [(x & ->)|(tl & e & -> & He)]; [left; eauto|].
  right. exists tl, (Wrapf format [] e). now split.
Qed.

Lemma validate_parse limit fuel :
  (forall s d tail, validateValue fuel s = Valid tail -> number_ends tail = true ->
     parses_to (parseValue limit fuel s d) tail) /\
  (forall s a d tail, validateArray_loop fuel s = Valid tail ->
     parses_to (parseArray_loop limit fuel a s d) tail) /\
  (forall s d tail, validateArray fuel s = Valid tail ->
     parses_to (parseArray limit fuel s d) tail) /\
  (forall s o d tail, validateObject_loop fuel s = Valid tail ->
     parses_to (parseObject_loop limit fuel o s d) tail) /\
  (forall s d tail, validateObject fuel s = Valid tail ->
     parses_to (parseObject limit fuel s d) tail).
Proof.
  induction fuel as [|fuel (HV & HAL & HA & HOL & HO)].
  - split; [intros s d tail H; discriminate H|].
    split; [intros s a d tail H; discriminate H|].
    split; [intros s d tail H; discriminate H|].
    split; [intros s o d tail H; discriminate H|intros s d tail H; discriminate H].
  - split; [|split; [|split; [|split]]].
    + intros s d tail H Ht. cbn [validateValue] in H. cbn [parseValue].
      destruct s as [|c s1]; [discriminate|].
      destruct (limit <? d + 1); [right; apply too_deep_fails|].
      destruct (is_byte 123 c).
      { destruct (validateObject fuel s1) as [tl|tl e|] eqn:E; try discriminate.
        injection H as ->.
        apply (parses_to_wrap _ _ "cannot parse object: %s"), HO, E. }
      destruct (is_byte 91 c).
      { destruct (validateArray fuel s1) as [tl|tl e|] eqn:E; try discriminate.
        injection H as ->.
        apply (parses_to_wrap _ _ "cannot parse array: %s"), HA, E. }
      destruct (is_byte 34 c).
      { destruct (validateString s1) as [[sv tl] [err|]] eqn:E; [discriminate|].
        destruct (control_char sv); [discriminate|]. injection H as ->.
        apply validateString_parseRawString in E. destruct E as (ss & ->).
        left. eauto. }
      destruct (is_byte 116 c).
      { destruct (negb _); [discriminate|]. injection H as <-. left. eauto. }
      destruct (is_byte 102 c).
      { destruct (negb _); [discriminate|]. injection H as <-. left. eauto. }
      destruct (is_byte 110 c).
      { destruct (negb _); [discriminate|]. injection H as <-. left. eauto. }
      destruct (validateNumber (c :: s1)) as [tl [err|]] eqn:E; [discriminate|].
      injection H as ->.
      destruct (validateNumber_parseRawNumber _ _ E Ht) as (ns & ->). left. eauto.
    + intros s a d tail H. cbn [validateArray_loop] in H. cbn [parseArray_loop].
      destruct (validateValue fuel (skipWS s)) as [s2|s2 e|] eqn:EV; try discriminate.
      destruct (skipWS s2) as [|c s4] eqn:E2; [discriminate|].
      assert (Hc : is_byte 44 c = true \/ is_byte 93 c = true).
      { destruct (is_byte 44 c); [now left|]. destruct (is_byte 93 c); [now right|discriminate]. }
      assert (Hends : number_ends s2 = true).
      { apply (skipWS_head _ _ _ E2), comma_no_number. tauto. }
      destruct (HV _ d _ EV Hends) as [(x & ->)|(tl & e & -> & He)].
      * rewrite E2. destruct (is_byte 44 c); [now apply HAL|].
        destruct (is_byte 93 c); [|discriminate]. injection H as <-. left. eauto.
      * right. exists tl, (Wrapf "cannot parse array value: %s" [] e). now split.
    + intros s d tail H. cbn [validateArray] in H. cbn [parseArray].
      destruct (skipWS s) as [|c s1]; [discriminate|].
      destruct (is_byte 93 c); [injection H as <-; left; eauto|]. now apply HAL.
    + intros s o d tail H. cbn [validateObject_loop] in H. cbn [parseObject_loop].
      destruct (skipWS s) as [|c s1]; [discriminate|].
      destruct (negb (is_byte 34 c)); [discriminate|].
      destruct (validateKey s1) as [[key s2] [err|]] eqn:EK; [discriminate|].
      destruct (control_char key); [discriminate|].
      apply validateKey_parseRawKey in EK. destruct EK as (kk & ->).
      destruct (skipWS s2) as [|c2 s3]; [discriminate|].
      destruct (negb (is_byte 58 c2)); [discriminate|].
      destruct (validateValue fuel (skipWS s3)) as [s4|s4 e|] eqn:EV; try discriminate.
      destruct (skipWS s4) as [|c5 s5] eqn:E4; [discriminate|].
      assert (Hc : is_byte 44 c5 = true \/ is_byte 125 c5 = true).
      { destruct (is_byte 44 c5); [now left|].
        destruct (is_byte 125 c5); [now right|discriminate]. }
      assert (Hends : number_ends s4 = true).
      { apply (skipWS_head _ _ _ E4), comma_no_number. tauto. }
      destruct (HV _ d _ EV Hends) as [(x & ->)|(tl & e & -> & He)].
      * rewrite E4. destruct (is_byte 44 c5); [now apply HOL|].
        destruct (is_byte 125 c5); [|discriminate]. injection H as <-. left. eauto.
      * right. exists tl, (Wrapf "cannot parse object value: %s" [] e). now split.
    + intros s d tail H. cbn [validateObject] in H. cbn [parseObject].
      destruct (skipWS s) as [|c s1]; [discriminate|].
      destruct (is_byte 125 c); [injection H as <-; left; eauto|]. now apply HOL.
Qed.

(** X13.  What [Validate] accepts, [Parser.Parse] parses: a document on
    which [Validate] returns nil is parsed into a value, unless it is
    nested deeper than the limit, in which case the parser's error is the
    one for the depth.  (The validator has no limit of its own.) *)
Theorem Validate_then_Parse
    (limit : Z) (startEndString : gostring -> gostring) (s : gostring) :
  Validate startEndString s = None ->
  (exists x, Parser_Parse limit startEndString s = inl x) \/
  (exists e, Parser_Parse limit startEndString s = inr e /\ is_depth_error e = true).
Proof.
  unfold Validate, Parser_Parse. intros H.
  destruct (validateValue (fuel_for (skipWS s)) (skipWS s)) as [tail|tail e|] eqn:E;
    try discriminate H.
  destruct (0 <? len (skipWS tail)) eqn:Et; [discriminate H|].
  assert (Hnil : skipWS tail = []).
  { apply Z.ltb_ge in Et. apply len_0_nil. pose proof (len_nonneg (skipWS tail)). lia. }
  destruct (validate_parse limit (fuel_for (skipWS s))) as (HV & _).
  destruct (HV _ 0 _ E (skipWS_nil_ends _ Hnil)) as [(x & ->)|(tl & e & -> & He)].
  - left. exists x. now rewrite Et.
  - right. eexists. split; [reflexivity|exact He].
Qed.

Lemma Validate_then_Parse_witness :
  Validate (fun tail => tail) sample_document = None /\
  ((exists x, Parser_Parse MaxDepth (fun tail => tail) sample_document = inl x) \/
   (exists e, Parser_Parse MaxDepth (fun tail => tail) sample_document = inr e /\
              is_depth_error e = true)).
Proof.
  split; [reflexivity|].
  apply (Validate_then_Parse MaxDepth (fun tail => tail)). reflexivity.
Defined.

(** ** The tokenizer of strings looks no further than the closing quote *)

Lemma IndexByte_quote_snoc m : 0 <= IndexByte (m ++ [quote]) 34 <= len m.
Proof.
  induction m as [|x m IH]; cbn [app IndexByte].
  - cbn. lia.
  - rewrite len_cons. destruct (is_byte 34 x); [pose proof (len_nonneg m); lia|].
    destruct (IndexByte (m ++ [quote]) 34 <? 0) eqn:E; [apply Z.ltb_lt in E; lia|lia].
Qed.

Lemma IndexByte_quote_tail m t :
  IndexByte (m ++ quote :: t) 34 = IndexByte (m ++ [quote]) 34.
Proof.
  replace (m ++ quote :: t) with ((m ++ [quote]) ++ t) by (now rewrite <- app_assoc).
  apply IndexByte_app_hit. apply IndexByte_quote_snoc.
Qed.

Lemma backslash_run_app a b : forall i,
  (i <= List.length a)%nat -> backslash_run (a ++ b) i = backslash_run a i.
Proof.
  induction i as [|i IH]; intros Hi; cbn [backslash_run]; [reflexivity|].
  rewrite app_nth1 by lia. rewrite IH by lia. reflexivity.
Qed.

Lemma at_app_lt a b j : 0 <= j < len a -> at_ (a ++ b) j = at_ a j.
Proof. intros Hj. unfold at_, len in *. apply app_nth1. lia. Qed.

Lemma upto_app_le a b n : 0 <= n <= len a -> upto n (a ++ b) = upto n a.
Proof.
  intros Hn. unfold upto, len in *. rewrite firstn_app.
  replace (Z.to_nat n - List.length a)%nat with O by lia. cbn [firstn]. apply app_nil_r.
Qed.

Lemma upto_len a : upto (len a) a = a.
Proof. unfold upto, len. rewrite Nat2Z.id. apply firstn_all. Qed.

Lemma upto_eq_all n m : 0 <= n <= len m -> upto n m = m -> n = len m.
Proof.
  intros Hn H. apply (f_equal len) in H. rewrite len_upto in H by lia. exact H.
Qed.

(** The first quote of [m ++ quote :: t]: the one after [m], or one inside
    [m]. *)
Lemma first_quote m :
  IndexByte (m ++ [quote]) 34 = len m \/
  exists m1 m2, m = m1 ++ quote :: m2 /\ IndexByte (m ++ [quote]) 34 = len m1.
Proof.
  pose proof (IndexByte_quote_snoc m) as Hb.
  destruct (Z.eq_dec (IndexByte (m ++ [quote]) 34) (len m)) as [E|E]; [now left|right].
  assert (Hm : 0 <= IndexByte m 34).
  { destruct (Z_lt_le_dec (IndexByte m 34) 0) as [Hlt|Hge]; [|exact Hge].
    rewrite IndexByte_app_miss in E, Hb by exact Hlt. cbn [IndexByte] in E, Hb.
    change (is_byte 34 quote) with true in E, Hb. cbn in E. lia. }
  rewrite (IndexByte_app_hit m [quote] 34 Hm).
  exists (upto (IndexByte m 34) m), (from (IndexByte m 34 + 1) m).
  split; [now apply quote_split|].
  pose proof (IndexByte_bounds m 34). rewrite len_upto; lia.
Qed.

Lemma parseRawString_loop_shorter fuel : forall ss s n r tail,
  0 <= n -> n = IndexByte s 34 ->
  parseRawString_loop fuel ss s n = (r, tail, None) ->
  (List.length tail < List.length s)%nat.
Proof.
  induction fuel as [|fuel IH]; intros ss s n r tail Hn En H;
    cbn [parseRawString_loop] in H; [discriminate|].
  assert (Hs : s <> []) by (intros ->; cbn [IndexByte] in En; lia).
  pose proof (length_from_pos (n + 1) s ltac:(lia) Hs) as H1.
  destruct ((n - Z.of_nat (backslash_run s (Z.to_nat (n - 1)))) mod 2 =? 0).
  - injection H as _ <-. exact H1.
  - cbv zeta in H. set (s' := from (n + 1) s) in *.
    destruct (IndexByte s' 34 <? 0) eqn:E; [discriminate|]. apply Z.ltb_ge in E.
    assert (Hs' : s' <> []) by (intros Hnil; rewrite Hnil in E; cbn [IndexByte] in E; lia).
    pose proof (length_from_pos (IndexByte s' 34 + 1) s' ltac:(lia) Hs') as H2.
    destruct ((IndexByte s' 34 =? 0) || _).
    + injection H as _ <-. lia.
    + apply IH in H; [lia|exact E|reflexivity].
Qed.

Lemma backslash_run_quote m t i :
  (i <= List.length m)%nat ->
  backslash_run (m ++ quote :: t) i = backslash_run m i.
Proof. apply backslash_run_app. Qed.

Lemma app_inv_pre {A} (pre a b : list A) : pre ++ a = pre ++ b -> a = b.
Proof. apply app_inv_head. Qed.

(** Where the slow path closes the string at the quote after [m] with
    [t1] behind it, it closes it there with anything else behind it. *)
Lemma parseRawString_loop_tail fuel : forall pre m t1 t2,
  parseRawString_loop fuel (pre ++ m ++ quote :: t1) (m ++ quote :: t1)
    (IndexByte (m ++ [quote]) 34) = (pre ++ m, t1, None) ->
  parseRawString_loop fuel (pre ++ m ++ quote :: t2) (m ++ quote :: t2)
    (IndexByte (m ++ [quote]) 34) = (pre ++ m, t2, None).
Proof.
  induction fuel as [|fuel IH]; intros pre m t1 t2 H; cbn [parseRawString_loop] in H;
    [discriminate|]. cbn [parseRawString_loop].
  pose proof (IndexByte_quote_snoc m) as Hb.
  set (n := IndexByte (m ++ [quote]) 34) in *.
  assert (Hrun : forall t, backslash_run (m ++ quote :: t) (Z.to_nat (n - 1)) =
                           backslash_run m (Z.to_nat (n - 1))).
  { intros t. apply backslash_run_quote. unfold len in Hb. lia. }
  rewrite Hrun in H. rewrite Hrun.
  assert (Hlen : forall t, len (pre ++ m ++ quote :: t) - len (m ++ quote :: t) = len pre).
  { intros t. rewrite len_app. lia. }
  rewrite !Hlen in H. rewrite !Hlen.
  assert (Hupto : forall t j, 0 <= j <= len m ->
            upto (len pre + j) (pre ++ m ++ quote :: t) = pre ++ upto j m).
  { intros t j Hj. rewrite upto_app_plus by lia. f_equal. now apply upto_app_le. }
  destruct ((n - Z.of_nat (backslash_run m (Z.to_nat (n - 1)))) mod 2 =? 0).
  - rewrite Hupto in H by lia. rewrite Hupto by lia.
    injection H as Hm Ht. apply app_inv_head in Hm.
    assert (En : n = len m) by (apply upto_eq_all; [lia|exact Hm]).
    rewrite En, upto_len. now rewrite from_app_plus.
  - cbv zeta in H. cbv zeta.
    destruct (first_quote m) as [En|(m1 & m2 & Em & En)]; fold n in En.
    + exfalso. rewrite En, from_app_plus in H.
      destruct (IndexByte t1 34 <? 0) eqn:E; [discriminate|]. apply Z.ltb_ge in E.
      assert (Ht1 : t1 <> []) by (intros ->; cbn [IndexByte] in E; lia).
      pose proof (length_from_pos (IndexByte t1 34 + 1) t1 ltac:(lia) Ht1) as Hs.
      destruct ((IndexByte t1 34 =? 0) || _).
      * injection H as _ Ht. rewrite Ht in Hs. lia.
      * apply parseRawString_loop_shorter in H; [lia|exact E|reflexivity].
    + assert (Hfrom : forall t, from (n + 1) (m ++ quote :: t) = m2 ++ quote :: t).
      { intros t. rewrite En, Em. rewrite <- (app_assoc m1 (quote :: m2) (quote :: t)).
        cbn [app]. apply from_app_plus. }
      rewrite Hfrom in H. rewrite Hfrom.
      rewrite !IndexByte_quote_tail in H. rewrite !IndexByte_quote_tail.
      pose proof (IndexByte_quote_snoc m2) as Hb2.
      set (n2 := IndexByte (m2 ++ [quote]) 34) in *.
      replace (n2 <? 0) with false in H by (symmetry; apply Z.ltb_ge; lia).
      replace (n2 <? 0) with false by (symmetry; apply Z.ltb_ge; lia).
      assert (Hat : forall t, (n2 =? 0) || negb (is_byte 92 (at_ (m2 ++ quote :: t) (n2 - 1)))
                            = (n2 =? 0) || negb (is_byte 92 (at_ m2 (n2 - 1)))).
      { intros t. destruct (n2 =? 0) eqn:E0; [reflexivity|]. apply Z.eqb_neq in E0.
        cbn [orb]. rewrite at_app_lt by lia. reflexivity. }
      rewrite Hat in H. rewrite Hat.
      assert (Hss : forall t, pre ++ m ++ quote :: t =
                              (pre ++ m1 ++ [quote]) ++ m2 ++ quote :: t).
      { intros t. rewrite Em, <- !app_assoc. reflexivity. }
      assert (Hpm : pre ++ m = (pre ++ m1 ++ [quote]) ++ m2).
      { rewrite Em, <- !app_assoc. reflexivity. }
      assert (Hlen2 : forall t,
                len (pre ++ m ++ quote :: t) - len (m2 ++ quote :: t) =
                len (pre ++ m1 ++ [quote])).
      { intros t. rewrite Hss, len_app. lia. }
      rewrite Hlen2 in H. rewrite Hlen2.
      destruct ((n2 =? 0) || negb (is_byte 92 (at_ m2 (n2 - 1)))).
      * rewrite Hss in H. rewrite Hss.
        rewrite upto_app_plus in H by lia. rewrite upto_app_plus by lia.
        rewrite upto_app_le in H by lia. rewrite upto_app_le by lia.
        injection H as Hm Ht. rewrite Hpm in Hm. apply app_inv_head in Hm.
        assert (En2 : n2 = len m2) by (apply upto_eq_all; [lia|exact Hm]).
        rewrite Hpm, En2, upto_len. now rewrite from_app_plus.
      * rewrite Hss, Hpm in H. rewrite Hss, Hpm.
        exact (IH (pre ++ m1 ++ [quote]) m2 t1 t2 H).
Qed.

(** What [parseRawString] takes for the string depends on nothing behind
    the closing quote. *)
Lemma parseRawString_tail s ss tail tail' :
  parseRawString s = (ss, tail, None) ->
  parseRawString (ss ++ quote :: tail') = (ss, tail', None).
Proof.
  intros H. pose proof (parseRawString_sound _ _ _ H) as Hs. subst s.
  unfold parseRawString in *. rewrite IndexByte_quote_tail in *.
  pose proof (IndexByte_quote_snoc ss) as Hb.
  set (n := IndexByte (ss ++ [quote]) 34) in *.
  replace (n <? 0) with false in H by (symmetry; apply Z.ltb_ge; lia).
  replace (n <? 0) with false by (symmetry; apply Z.ltb_ge; lia).
  assert (Hat : forall t, (n =? 0) || negb (is_byte 92 (at_ (ss ++ quote :: t) (n - 1)))
                        = (n =? 0) || negb (is_byte 92 (at_ ss (n - 1)))).
  { intros t. destruct (n =? 0) eqn:E0; [reflexivity|]. apply Z.eqb_neq in E0.
    cbn [orb]. rewrite at_app_lt by lia. reflexivity. }
  rewrite Hat in H. rewrite Hat.
  destruct ((n =? 0) || negb (is_byte 92 (at_ ss (n - 1)))).
  - rewrite upto_app_le in H by lia. rewrite upto_app_le by lia.
    injection H as Hm Ht.
    assert (En : n = len ss) by (apply upto_eq_all; [lia|exact Hm]).
    rewrite En, upto_len. now rewrite from_app_plus.
  - set (F := Nat.max (List.length (ss ++ quote :: tail)) (List.length (ss ++ quote :: tail'))).
    assert (Hn : forall t, n = IndexByte (ss ++ quote :: t) 34)
      by (intros t; now rewrite IndexByte_quote_tail).
    rewrite (parseRawString_loop_fuel _ F _ _ n (Hn tail)) in H by lia.
    rewrite (parseRawString_loop_fuel _ F _ _ n (Hn tail')) by lia.
    apply (parseRawString_loop_tail F [] ss tail tail'). exact H.
Qed.

(** ** The tokenizer of numbers on its own result *)

Lemma parseRawNumber_loop_walk m : forall pre rest,
  forallb is_number_byte m = true ->
  parseRawNumber_loop (pre ++ m ++ rest) (m ++ rest) (len pre) =
  parseRawNumber_loop (pre ++ m ++ rest) rest (len (pre ++ m)).
Proof.
  induction m as [|x m IH]; intros pre rest Hm.
  - now rewrite app_nil_r.
  - cbn [forallb] in Hm. apply andb_prop in Hm. destruct Hm as [Hx Hm].
    cbn [app parseRawNumber_loop]. rewrite Hx.
    specialize (IH (pre ++ [x]) rest Hm).
    replace ((pre ++ [x]) ++ m ++ rest) with (pre ++ x :: m ++ rest) in IH
      by (now rewrite <- app_assoc).
    replace ((pre ++ [x]) ++ m) with (pre ++ x :: m) in IH by (now rewrite <- app_assoc).
    replace (len pre + 1) with (len (pre ++ [x])) by (rewrite len_app; reflexivity).
    exact IH.
Qed.

Lemma parseRawNumber_all m :
  forallb is_number_byte m = true -> parseRawNumber m = (m, [], None).
Proof.
  intros Hm. unfold parseRawNumber.
  pose proof (parseRawNumber_loop_walk m [] [] Hm) as H.
  cbn [app] in H. rewrite app_nil_r in H. rewrite len_nil in H. rewrite H. reflexivity.
Qed.

Lemma code_byte_of y : 0 <= y < 256 -> code (byte_of y) = y.
Proof. intros Hy. unfold code, byte_of. rewrite N_ascii_embedding; lia. Qed.

Lemma code_lower c :
  code (lower c) = if (65 <=? code c) && (code c <=? 90) then code c + 32 else code c.
Proof.
  unfold lower. destruct ((65 <=? code c) && (code c <=? 90)) eqn:E; [|reflexivity].
  apply andb_prop in E. destruct E as [E1 E2]. apply Z.leb_le in E1, E2.
  apply code_byte_of. lia.
Qed.

Lemma head_number_byte c :
  is_number_byte c = true -> 32 < code c /\ is_byte 93 c = false.
Proof.
  unfold is_number_byte, is_digit, is_byte. intros H.
  repeat (apply orb_prop in H; destruct H as [H|H]);
    try (apply andb_prop in H; destruct H as [H1 H2]; apply Z.leb_le in H1, H2);
    try apply Z.eqb_eq in H; (split; [lia|apply Z.eqb_neq; lia]).
Qed.

Lemma head_letter c :
  code (lower c) = 105 \/ code (lower c) = 110 ->
  32 < code c /\ is_byte 93 c = false /\ is_byte 123 c = false /\ is_byte 91 c = false /\
  is_byte 34 c = false /\ is_byte 116 c = false /\ is_byte 102 c = false.
Proof.
  rewrite code_lower. unfold is_byte. intros H.
  destruct ((65 <=? code c) && (code c <=? 90)) eqn:E.
  - apply andb_prop in E. destruct E as [E1 E2]. apply Z.leb_le in E1, E2.
    repeat split; try lia; apply Z.eqb_neq; lia.
  - repeat split; try lia; apply Z.eqb_neq; lia.
Qed.

Lemma EqualFold_head c s p t :
  EqualFold (c :: s) (p :: t) = true -> code (lower c) = code (lower p).
Proof.
  unfold EqualFold. intros H. apply gostring_eqb_eq in H. cbn [map] in H.
  now injection H as -> _.
Qed.

Lemma upto_3_cons c s : upto 3 (c :: s) = c :: upto 2 s.
Proof. reflexivity. Qed.

Lemma infnan_head c s :
  EqualFold (upto 3 (c :: s)) (str "inf") || EqualFold (upto 3 (c :: s)) (str "nan") = true ->
  code (lower c) = 105 \/ code (lower c) = 110.
Proof.
  rewrite upto_3_cons. intros H. apply orb_prop in H.
  destruct H as [H|H]; apply EqualFold_head in H; [left|right]; exact H.
Qed.

Lemma at_0_pre c pre rest : at_ ((c :: pre) ++ rest) 0 = c.
Proof. reflexivity. Qed.

Lemma parseRawNumber_loop_reparse rest : forall pre ns tail,
  forallb is_number_byte pre = true ->
  parseRawNumber_loop (pre ++ rest) rest (len pre) = (ns, tail, None) ->
  pre ++ rest <> [] ->
  (exists c r, ns = c :: r /\ pre ++ rest = c :: r ++ tail /\
               (is_number_byte c = true \/ code (lower c) = 105 \/ code (lower c) = 110)) /\
  forall tail', follows tail tail' -> parseRawNumber (ns ++ tail') = (ns, tail', None).
Proof.
  induction rest as [|ch rest IH]; intros pre ns tail Hpre H Hne.
  - cbn [parseRawNumber_loop] in H. injection H as <- <-. rewrite app_nil_r in *.
    split.
    + destruct pre as [|c r]; [congruence|]. exists c, r. rewrite app_nil_r.
      repeat split. left. cbn [forallb] in Hpre. now apply andb_prop in Hpre.
    + intros tail' [->|[Hn _]]; [|congruence]. rewrite app_nil_r.
      now apply parseRawNumber_all.
  - cbn [parseRawNumber_loop] in H. destruct (is_number_byte ch) eqn:Ech.
    + specialize (IH (pre ++ [ch]) ns tail).
      replace ((pre ++ [ch]) ++ rest) with (pre ++ ch :: rest) in IH
        by (now rewrite <- app_assoc).
      rewrite len_app in IH. change (len [ch]) with 1 in IH.
      apply IH; [|exact H|exact Hne].
      rewrite forallb_app, Hpre. cbn [forallb]. now rewrite Ech.
    + rewrite from_app in H.
      destruct ((len pre =? 0) ||
                ((len pre =? 1) &&
                 (is_byte 45 (at_ (pre ++ ch :: rest) 0) ||
                  is_byte 43 (at_ (pre ++ ch :: rest) 0)))) eqn:Ec.
      * destruct ((3 <=? len (ch :: rest)) &&
                  (EqualFold (upto 3 (ch :: rest)) (str "inf") ||
                   EqualFold (upto 3 (ch :: rest)) (str "nan"))) eqn:E3; [|discriminate].
        apply andb_prop in E3. destruct E3 as [E3 Efold]. apply Z.leb_le in E3.
        injection H as <- <-.
        pose proof (len_nonneg pre) as Hlp.
        assert (Hup : forall t, 3 <= len t ->
                  upto (len pre + 3) (pre ++ t) = pre ++ upto 3 t).
        { intros t _. apply upto_app_plus. lia. }
        assert (Hfr : forall t, from (len pre + 3) (pre ++ t) = from 3 t).
        { intros t. unfold from, len.
          replace (Z.to_nat (Z.of_nat (List.length pre) + 3))
            with (List.length pre + 3)%nat by lia.
          rewrite skipn_app, skipn_all2 by lia.
          replace (List.length pre + 3 - List.length pre)%nat with 3%nat by lia.
          reflexivity. }
        rewrite Hup by exact E3. rewrite Hfr.
        set (x3 := upto 3 (ch :: rest)) in *. set (tl := from 3 (ch :: rest)) in *.
        assert (Hx : ch :: rest = x3 ++ tl) by (symmetry; apply firstn_skipn).
        assert (Hl3 : len x3 = 3) by (apply len_upto; lia).
        split.
        -- destruct pre as [|c r].
           ++ exists ch, (upto 2 rest). cbn [app]. unfold x3. rewrite upto_3_cons.
              split; [reflexivity|]. split.
              ** change (ch :: upto 2 rest ++ tl) with ((ch :: upto 2 rest) ++ tl).
                 now rewrite <- upto_3_cons.
              ** right. now apply (infnan_head ch rest).
           ++ exists c, (r ++ x3). cbn [app]. split; [reflexivity|]. split.
              ** rewrite Hx, <- app_assoc. reflexivity.
              ** left. cbn [forallb] in Hpre. now apply andb_prop in Hpre.
        -- intros tail' _. unfold parseRawNumber.
           replace ((pre ++ x3) ++ tail') with (pre ++ [] ++ x3 ++ tail')
             by (cbn [app]; now rewrite <- app_assoc).
           pose proof (parseRawNumber_loop_walk pre [] (x3 ++ tail') Hpre) as Hw.
           cbn [app] in Hw. rewrite len_nil in Hw. cbn [app]. rewrite Hw. clear Hw.
           assert (Hx3 : exists x3', x3 = ch :: x3').
           { unfold x3. rewrite upto_3_cons. eauto. }
           destruct Hx3 as (x3' & Hx3). rewrite Hx3. cbn [app parseRawNumber_loop].
           rewrite Ech. rewrite <- Hx3.
           assert (Hc' : (len pre =? 0) ||
                ((len pre =? 1) &&
                 (is_byte 45 (at_ (pre ++ x3 ++ tail') 0) ||
                  is_byte 43 (at_ (pre ++ x3 ++ tail') 0))) = true).
           { destruct pre as [|c r]; [reflexivity|].
             rewrite at_0_pre in Ec. rewrite at_0_pre. exact Ec. }
           replace (pre ++ ch :: x3' ++ tail') with (pre ++ x3 ++ tail')
             by (rewrite Hx3; reflexivity).
           rewrite Hc'. rewrite from_app.
           assert (Hu3 : upto 3 (x3 ++ tail') = x3).
           { rewrite <- Hl3. apply upto_app. }
           rewrite Hu3.
           replace (3 <=? len (x3 ++ tail')) with true
             by (symmetry; apply Z.leb_le; rewrite len_app;
                 pose proof (len_nonneg tail'); lia).
           rewrite Efold. cbn [andb].
           rewrite Hup by (rewrite len_app; pose proof (len_nonneg tail'); lia).
           rewrite Hfr, Hu3.
           replace (from 3 (x3 ++ tail')) with tail'
             by (rewrite <- Hl3; now rewrite from_app).
           reflexivity.
      * injection H as <- <-. rewrite upto_app.
        destruct pre as [|c r]; [discriminate Ec|].
        split.
        -- exists c, r. repeat split. left. cbn [forallb] in Hpre.
           now apply andb_prop in Hpre.
        -- intros tail' [->|[_ Hends]].
           ++ rewrite app_nil_r. now apply parseRawNumber_all.
           ++ unfold parseRawNumber.
              apply (parseRawNumber_loop_run (c :: r) [] tail' Hpre Hends); [discriminate|].
              cbn [app]. intros Hl1. rewrite at_0_pre in Ec. rewrite at_0.
              apply orb_false_iff in Ec. destruct Ec as [_ Ec].
              replace (len (c :: r) =? 1) with true in Ec
                by (symmetry; apply Z.eqb_eq; exact Hl1).
              exact Ec.
Qed.

(** The number the tokenizer took is what it takes again from its own
    text, with nothing behind it or with a byte behind it that no number
    holds. *)
Lemma parseRawNumber_reparse c s ns tail :
  parseRawNumber (c :: s) = (ns, tail, None) ->
  (exists r, ns = c :: r /\ c :: s = c :: r ++ tail /\
             (is_number_byte c = true \/ code (lower c) = 105 \/ code (lower c) = 110)) /\
  forall tail', follows tail tail' -> parseRawNumber (ns ++ tail') = (ns, tail', None).
Proof.
  intros H.
  destruct (parseRawNumber_loop_reparse (c :: s) [] ns tail eq_refl H ltac:(discriminate))
    as ((c' & r & Hns & Hs & Hc) & Hre).
  cbn [app] in Hs. injection Hs as <- Hs. split; [|exact Hre].
  exists r. subst ns s. repeat split. exact Hc.
Qed.

(** ** The text of arrays and objects *)

Section Texts.

Variable AppendQuote : gostring -> gostring -> gostring.

Lemma MarshalTo_array a dst :
  MarshalTo AppendQuote (VArray a) dst =
  marshal_elements (MarshalTo AppendQuote) a (dst ++ str "[") ++ str "]".
Proof.
  cbn [MarshalTo]. f_equal.
  generalize (dst ++ str "["). induction a as [|y l IH]; intros d; [reflexivity|].
  cbn [marshal_elements]. rewrite <- IH. reflexivity.
Qed.

Lemma marshal_elements_dst l : Forall (marshals AppendQuote) l -> forall dst,
  marshal_elements (MarshalTo AppendQuote) l dst =
  dst ++ marshal_elements (MarshalTo AppendQuote) l [].
Proof.
  induction 1 as [|y l [Hy _] Hl IH]; intros dst; cbn [marshal_elements].
  - now rewrite app_nil_r.
  - destruct l as [|z l'].
    + cbn [marshal_elements]. apply Hy.
    + rewrite (IH (MarshalTo AppendQuote y dst ++ str ",")).
      rewrite (IH (MarshalTo AppendQuote y [] ++ str ",")).
      rewrite (Hy dst), <- !app_assoc. reflexivity.
Qed.

Lemma marshal_elements_cons y l :
  Forall (marshals AppendQuote) l ->
  marshal_elements (MarshalTo AppendQuote) (y :: l) [] =
  MarshalTo AppendQuote y [] ++ match l with
            | [] => []
            | _ => str "," ++ marshal_elements (MarshalTo AppendQuote) l []
            end.
Proof.
  intros Hl. cbn [marshal_elements]. destruct l as [|z l'].
  - cbn [marshal_elements]. now rewrite app_nil_r.
  - rewrite (marshal_elements_dst _ Hl). now rewrite <- app_assoc.
Qed.

Lemma marshals_array l :
  Forall (marshals AppendQuote) l -> marshals AppendQuote (VArray l).
Proof.
  intros Hl. split.
  - intros dst. rewrite !MarshalTo_array.
    rewrite (marshal_elements_dst _ Hl (dst ++ str "[")).
    rewrite (marshal_elements_dst _ Hl ([] ++ str "[")).
    now rewrite <- !app_assoc.
  - rewrite MarshalTo_array, (marshal_elements_dst _ Hl). cbn [app str].
    eexists _, _. split; [reflexivity|]. split; [cbn; lia|reflexivity].
Qed.

Lemma marshal_members_dst l : Forall (member_marshals AppendQuote) l -> forall dst,
  marshal_members (MarshalTo AppendQuote) raw_key_bytes l dst =
  dst ++ marshal_members (MarshalTo AppendQuote) raw_key_bytes l [].
Proof.
  induction 1 as [|e l [_ [He _]] Hl IH]; intros dst; cbn [marshal_members].
  - now rewrite app_nil_r.
  - unfold raw_key_bytes. destruct l as [|z l'].
    + cbn [marshal_members]. rewrite (He ((dst ++ _) ++ _)), (He (([] ++ _) ++ _)).
      now rewrite <- !app_assoc.
    + rewrite (IH (MarshalTo AppendQuote (v e) _ ++ str ",")).
      rewrite (IH (MarshalTo AppendQuote (v e) (([] ++ _) ++ _) ++ str ",")).
      rewrite (He ((dst ++ _) ++ _)), (He (([] ++ _) ++ _)).
      now rewrite <- !app_assoc.
Qed.

Lemma marshal_members_cons e l :
  marshals AppendQuote (v e) -> Forall (member_marshals AppendQuote) l ->
  marshal_members (MarshalTo AppendQuote) raw_key_bytes (e :: l) [] =
  [quote] ++ k e ++ [quote] ++ str ":" ++ MarshalTo AppendQuote (v e) [] ++
  match l with
  | [] => []
  | _ => str "," ++ marshal_members (MarshalTo AppendQuote) raw_key_bytes l []
  end.
Proof.
  intros [He _] Hl. cbn [marshal_members]. unfold raw_key_bytes.
  rewrite (He (([] ++ _) ++ _)). destruct l as [|z l'].
  - cbn [marshal_members]. rewrite app_nil_r. now rewrite <- !app_assoc.
  - rewrite (marshal_members_dst _ Hl). now rewrite <- !app_assoc.
Qed.

Lemma marshals_object l :
  Forall (member_marshals AppendQuote) l ->
  marshals AppendQuote (VObject (mkObject l false)).
Proof.
  intros Hl. pose proof (Object_MarshalTo_members AppendQuote (mkObject l false)) as HM.
  unfold Object_MarshalTo in HM. cbn [keysUnescaped kvs] in HM. split.
  - intros dst. rewrite !HM.
    rewrite (marshal_members_dst _ Hl (dst ++ str "{")).
    rewrite (marshal_members_dst _ Hl ([] ++ str "{")).
    now rewrite <- !app_assoc.
  - rewrite HM, (marshal_members_dst _ Hl). cbn [app str].
    eexists _, _. split; [reflexivity|]. split; [cbn; lia|reflexivity].
Qed.

End Texts.

(** ** What is parsed is parsed again from its text *)

Lemma skipWS_high c r : 32 < code c -> skipWS (c :: r) = c :: r.
Proof.
  intros H. cbn [skipWS].
  now replace (32 <? code c) with true by (symmetry; apply Z.ltb_lt; exact H).
Qed.

Lemma parseRawKey_eq s : parseRawKey s = parseRawString s.
Proof.
  unfold parseRawKey. apply (parseRawKey_loop_parseRawString s []); cbn; lia.
Qed.

Lemma parseRawKey_tail s key tail :
  parseRawKey s = (key, tail, None) -> key_reparses key.
Proof.
  intros H rest. rewrite parseRawKey_eq in *. eapply parseRawString_tail, H.
Qed.

Lemma starts_with_app lit tail : starts_with lit (lit ++ tail) = true.
Proof.
  unfold starts_with. rewrite upto_app, len_app.
  pose proof (len_nonneg tail).
  replace (len lit <=? len lit + len tail) with true by (symmetry; apply Z.leb_le; lia).
  apply gostring_eqb_refl.
Qed.

Section Reparse.

Variable AppendQuote : gostring -> gostring -> gostring.
Variable limit : Z.

Lemma reparses_marshals fuel d tail x :
  reparses AppendQuote limit fuel d tail x -> marshals AppendQuote x.
Proof. intros (H1 & H2 & _). now split. Qed.

Lemma skipWS_text x rest :
  marshals AppendQuote x ->
  skipWS (MarshalTo AppendQuote x [] ++ rest) = MarshalTo AppendQuote x [] ++ rest.
Proof.
  intros (_ & c & r & -> & Hc & _). cbn [app]. now apply skipWS_high.
Qed.

Lemma text_not_closing x rest :
  marshals AppendQuote x ->
  exists c r, MarshalTo AppendQuote x [] ++ rest = c :: r /\ is_byte 93 c = false.
Proof. intros (_ & c & r & -> & _ & Hc). cbn [app]. eauto. Qed.

Lemma array_loop_reparses_step fuel :
  value_reparses AppendQuote limit fuel -> array_loop_reparses AppendQuote limit fuel ->
  array_loop_reparses AppendQuote limit (S fuel).
Proof.
  intros HV HAL a s d x tail H. cbn [parseArray_loop] in H.
  destruct (parseValue limit fuel (skipWS s) d) as [y s2| |] eqn:EV; try discriminate.
  pose proof (HV _ _ _ _ EV) as Hy. pose proof (reparses_marshals _ _ _ _ Hy) as Hym.
  destruct Hy as (_ & _ & Hre).
  destruct (skipWS s2) as [|c s4] eqn:E2; [discriminate|].
  assert (Hs2 : s2 <> []) by (intros ->; discriminate E2).
  destruct (is_byte 44 c) eqn:Ecomma.
  - destruct (HAL _ _ _ _ _ H) as (new & -> & Hnew' & Hnew & Hloop).
    exists (y :: new). split; [now rewrite <- app_assoc|]. split; [discriminate|].
    split; [now constructor|].
    intros a' tail'. rewrite (marshal_elements_cons _ _ _ Hnew).
    destruct new as [|z new']; [congruence|].
    rewrite <- !app_assoc. cbn [parseArray_loop].
    rewrite (skipWS_text _ _ Hym).
    rewrite Hre by (right; split; [exact Hs2|reflexivity]).
    change (str ",") with [","%char]. cbn [app]. rewrite skipWS_high by (cbn; lia).
    change (is_byte 44 ","%char) with true. cbv iota.
    specialize (Hloop (a' ++ [y]) tail'). rewrite <- !app_assoc in Hloop. exact Hloop.
  - destruct (is_byte 93 c) eqn:Eclose; [|discriminate]. injection H as <- <-.
    exists [y]. split; [reflexivity|]. split; [discriminate|].
    split; [constructor; [exact Hym|constructor]|].
    intros a' tail'. rewrite (marshal_elements_cons _ _ _ (Forall_nil _)).
    rewrite app_nil_r. cbn [parseArray_loop].
    rewrite (skipWS_text _ _ Hym).
    rewrite Hre by (right; split; [exact Hs2|reflexivity]).
    change (str "]") with ["]"%char]. cbn [app]. rewrite skipWS_high by (cbn; lia).
    change (is_byte 44 "]"%char) with false. change (is_byte 93 "]"%char) with true.
    reflexivity.
Qed.

Lemma array_reparses_step fuel :
  array_loop_reparses AppendQuote limit fuel -> array_reparses AppendQuote limit (S fuel).
Proof.
  intros HAL s d x tail H. cbn [parseArray] in H.
  destruct (skipWS s) as [|c s1] eqn:E; [discriminate|].
  destruct (is_byte 93 c) eqn:Eclose.
  - injection H as <- <-. exists []. split; [reflexivity|]. split; [constructor|].
    intros tail'. cbn [marshal_elements parseArray]. change (str "]") with ["]"%char].
    cbn [app]. rewrite skipWS_high by (cbn; lia). reflexivity.
  - destruct (HAL _ _ _ _ _ H) as (new & -> & Hne & Hnew & Hloop).
    exists new. split; [reflexivity|]. split; [exact Hnew|].
    intros tail'. cbn [parseArray].
    destruct new as [|y new']; [congruence|].
    assert (Hy : marshals AppendQuote y) by (now inversion Hnew).
    assert (Hnew' : Forall (marshals AppendQuote) new') by (now inversion Hnew).
    pose proof (Hloop [] tail') as Hl. cbn [app] in Hl.
    rewrite (marshal_elements_cons _ _ _ Hnew') in Hl |- *.
    rewrite <- !app_assoc in Hl |- *.
    rewrite (skipWS_text _ _ Hy).
    destruct (text_not_closing y
                (match new' with
                 | [] => []
                 | _ :: _ => str "," ++ marshal_elements (MarshalTo AppendQuote) new' []
                 end ++ str "]" ++ tail') Hy) as (c' & r' & Etext & Hc').
    rewrite Etext in Hl |- *. rewrite Hc'. exact Hl.
Qed.

Lemma object_loop_reparses_step fuel :
  value_reparses AppendQuote limit fuel -> object_loop_reparses AppendQuote limit fuel ->
  object_loop_reparses AppendQuote limit (S fuel).
Proof.
  intros HV HOL o s d x tail H. cbn [parseObject_loop] in H.
  destruct (skipWS s) as [|c s1]; [discriminate|].
  destruct (negb (is_byte 34 c)); [discriminate|].
  destruct (parseRawKey s1) as [[key s2] [err|]] eqn:EK; [discriminate|].
  apply parseRawKey_tail in EK.
  destruct (skipWS s2) as [|c2 s3]; [discriminate|].
  destruct (negb (is_byte 58 c2)); [discriminate|].
  destruct (parseValue limit fuel (skipWS s3) d) as [y s4| |] eqn:EV; try discriminate.
  pose proof (HV _ _ _ _ EV) as Hy. pose proof (reparses_marshals _ _ _ _ Hy) as Hym.
  destruct Hy as (_ & _ & Hre).
  destruct (skipWS s4) as [|c5 s5] eqn:E4; [discriminate|].
  assert (Hs4 : s4 <> []) by (intros ->; discriminate E4).
  assert (Hmem : member_marshals AppendQuote (mkKV key y)) by (now split).
  assert (Hhead : forall rest o',
    parseObject_loop limit (S fuel) o'
      ([quote] ++ key ++ [quote] ++ str ":" ++ MarshalTo AppendQuote y [] ++ rest) d =
    match skipWS rest with
    | [] => Failed [] (Errorf "unexpected end of object" [])
    | c :: s1 =>
        if is_byte 44 c then parseObject_loop limit fuel (o' ++ [mkKV key y]) s1 d
        else if is_byte 125 c
        then Parsed (VObject (mkObject (o' ++ [mkKV key y]) false)) s1
        else Failed (skipWS rest) (Errorf "missing ',' after object value" [])
    end \/ number_ends rest = false).
  { intros rest o'. destruct (number_ends rest) eqn:Er; [left|now right].
    cbn [parseObject_loop app]. rewrite skipWS_high by (cbn; lia).
    change (negb (is_byte 34 quote)) with false. cbv iota.
    rewrite (EK (str ":" ++ MarshalTo AppendQuote y [] ++ rest)).
    change (str ":") with [":"%char]. cbn [app]. rewrite skipWS_high by (cbn; lia).
    change (negb (is_byte 58 ":"%char)) with false. cbv iota.
    rewrite (skipWS_text _ _ Hym).
    rewrite Hre by (right; split; [exact Hs4|exact Er]).
    destruct (skipWS rest); reflexivity. }
  destruct (is_byte 44 c5) eqn:Ecomma.
  - destruct (HOL _ _ _ _ _ H) as (new & -> & Hnew' & Hnew & Hloop).
    exists (mkKV key y :: new). split; [now rewrite <- app_assoc|]. split; [discriminate|].
    split; [now constructor|].
    intros o' tail'. rewrite (marshal_members_cons AppendQuote (mkKV key y) new Hym Hnew). cbn [k v].
    destruct new as [|z new']; [congruence|].
    rewrite <- !app_assoc.
    destruct (Hhead (str "," ++
                marshal_members (MarshalTo AppendQuote) raw_key_bytes (z :: new') [] ++
                str "}" ++ tail') o') as [E|E]; [|discriminate E].
    rewrite E. change (str ",") with [","%char]. cbn [app].
    rewrite skipWS_high by (cbn; lia). change (is_byte 44 ","%char) with true. cbv iota.
    specialize (Hloop (o' ++ [mkKV key y]) tail'). rewrite <- !app_assoc in Hloop.
    exact Hloop.
  - destruct (is_byte 125 c5) eqn:Eclose; [|discriminate]. injection H as <- <-.
    exists [mkKV key y]. split; [reflexivity|]. split; [discriminate|].
    split; [constructor; [exact Hmem|constructor]|].
    intros o' tail'. rewrite (marshal_members_cons AppendQuote (mkKV key y) [] Hym (Forall_nil _)). cbn [k v].
    rewrite app_nil_r. rewrite <- !app_assoc.
    destruct (Hhead (str "}" ++ tail') o') as [E|E]; [|discriminate E].
    rewrite E. change (str "}") with ["}"%char]. cbn [app].
    rewrite skipWS_high by (cbn; lia).
    change (is_byte 44 "}"%char) with false. change (is_byte 125 "}"%char) with true.
    reflexivity.
Qed.

Lemma object_reparses_step fuel :
  object_loop_reparses AppendQuote limit fuel -> object_reparses AppendQuote limit (S fuel).
Proof.
  intros HOL s d x tail H. cbn [parseObject] in H.
  destruct (skipWS s) as [|c s1] eqn:E; [discriminate|].
  destruct (is_byte 125 c) eqn:Eclose.
  - injection H as <- <-. exists []. split; [reflexivity|]. split; [constructor|].
    intros tail'. cbn [marshal_members parseObject]. change (str "}") with ["}"%char].
    cbn [app]. rewrite skipWS_high by (cbn; lia). reflexivity.
  - destruct (HOL _ _ _ _ _ H) as (new & -> & Hne & Hnew & Hloop).
    exists new. split; [reflexivity|]. split; [exact Hnew|].
    intros tail'. cbn [parseObject].
    destruct new as [|e new']; [congruence|].
    assert (He : marshals AppendQuote (v e)) by (inversion Hnew as [|? ? [_ Hv] ?]; exact Hv).
    assert (Hnew' : Forall (member_marshals AppendQuote) new') by (now inversion Hnew).
    pose proof (Hloop [] tail') as Hl. cbn [app] in Hl.
    rewrite (marshal_members_cons _ _ _ He Hnew') in Hl |- *.
    rewrite <- !app_assoc in Hl |- *. cbn [app] in Hl |- *.
    rewrite skipWS_high by (cbn; lia).
    change (is_byte 125 quote) with false. cbv iota. exact Hl.
Qed.

Lemma parse_true fuel d tail' :
  (limit <? d + 1) = false ->
  parseValue limit (S fuel) (str "true" ++ tail') d = Parsed VTrue tail'.
Proof.
  intros EL. pose proof (starts_with_app (str "true") tail') as Hs.
  change (str "true" ++ tail') with ("t"%char :: str "rue" ++ tail') in *.
  cbn [parseValue]. rewrite EL, Hs. reflexivity.
Qed.

Lemma parse_false fuel d tail' :
  (limit <? d + 1) = false ->
  parseValue limit (S fuel) (str "false" ++ tail') d = Parsed VFalse tail'.
Proof.
  intros EL. pose proof (starts_with_app (str "false") tail') as Hs.
  change (str "false" ++ tail') with ("f"%char :: str "alse" ++ tail') in *.
  cbn [parseValue]. rewrite EL, Hs. reflexivity.
Qed.

Lemma parse_null fuel d tail' :
  (limit <? d + 1) = false ->
  parseValue limit (S fuel) (str "null" ++ tail') d = Parsed VNull tail'.
Proof.
  intros EL. pose proof (starts_with_app (str "null") tail') as Hs.
  change (str "null" ++ tail') with ("n"%char :: str "ull" ++ tail') in *.
  cbn [parseValue]. rewrite EL, Hs. reflexivity.
Qed.

Lemma value_reparses_step fuel :
  array_reparses AppendQuote limit fuel -> object_reparses AppendQuote limit fuel ->
  value_reparses AppendQuote limit (S fuel).
Proof.
  intros HA HO s d x tail H. cbn [parseValue] in H.
  destruct s as [|c s1]; [discriminate|].
  destruct (limit <? d + 1) eqn:EL; [discriminate|].
  destruct (is_byte 123 c) eqn:E123.
  { destruct (parseObject limit fuel s1 (d + 1)) as [y tl| |] eqn:E; try discriminate.
    injection H as -> ->. destruct (HO _ _ _ _ E) as (new & -> & Hnew & Hre).
    destruct (marshals_object AppendQuote new Hnew) as [Hm1 Hm2].
    split; [exact Hm1|]. split; [exact Hm2|]. intros tail' _.
    pose proof (Object_MarshalTo_members AppendQuote (mkObject new false) []) as HM.
    unfold Object_MarshalTo in HM. cbn [keysUnescaped kvs] in HM.
    rewrite HM, (marshal_members_dst _ _ Hnew). change (str "{") with ["{"%char].
    cbn [app]. rewrite <- !app_assoc. cbn [parseValue]. rewrite EL.
    change (is_byte 123 "{"%char) with true. cbv iota. now rewrite Hre. }
  destruct (is_byte 91 c) eqn:E91.
  { destruct (parseArray limit fuel s1 (d + 1)) as [y tl| |] eqn:E; try discriminate.
    injection H as -> ->. destruct (HA _ _ _ _ E) as (new & -> & Hnew & Hre).
    destruct (marshals_array AppendQuote new Hnew) as [Hm1 Hm2].
    split; [exact Hm1|]. split; [exact Hm2|]. intros tail' _.
    rewrite MarshalTo_array, (marshal_elements_dst _ _ Hnew). change (str "[") with ["["%char].
    cbn [app]. rewrite <- !app_assoc. cbn [parseValue]. rewrite EL.
    change (is_byte 123 "["%char) with false. change (is_byte 91 "["%char) with true.
    cbv iota. now rewrite Hre. }
  destruct (is_byte 34 c) eqn:E34.
  { destruct (parseRawString s1) as [[ss tl] [err|]] eqn:E; [discriminate|].
    injection H as <- <-. split; [|split].
    - intros dst. reflexivity.
    - exists quote, (ss ++ [quote]). split; [reflexivity|]. split; [cbn; lia|reflexivity].
    - intros tail' _. cbn [MarshalTo app]. rewrite <- app_assoc. cbn [app parseValue].
      rewrite EL. change (is_byte 123 quote) with false. change (is_byte 91 quote) with false.
      change (is_byte 34 quote) with true. cbv iota.
      now rewrite (parseRawString_tail _ _ _ tail' E). }
  destruct (is_byte 116 c) eqn:E116.
  { destruct (negb _); [discriminate|]. injection H as <- <-. split; [|split].
    - intros dst. reflexivity.
    - eexists _, _. split; [reflexivity|]. split; [cbn; lia|reflexivity].
    - intros tail' _. now apply parse_true. }
  destruct (is_byte 102 c) eqn:E102.
  { destruct (negb _); [discriminate|]. injection H as <- <-. split; [|split].
    - intros dst. reflexivity.
    - eexists _, _. split; [reflexivity|]. split; [cbn; lia|reflexivity].
    - intros tail' _. now apply parse_false. }
  destruct (is_byte 110 c) eqn:E110.
  { destruct (negb (starts_with (str "null") (c :: s1))) eqn:Enull.
    - destruct ((3 <=? len (c :: s1)) && EqualFold (upto 3 (c :: s1)) (str "nan")) eqn:Enan;
        [|discriminate].
      injection H as <- <-. apply andb_prop in Enan. destruct Enan as [E3 Efold].
      apply Z.leb_le in E3.
      destruct s1 as [|c2 [|c3 rest]];
        try (rewrite ?len_cons, len_nil in E3; lia).
      change (upto 3 (c :: c2 :: c3 :: rest)) with [c; c2; c3] in *.
      assert (Hc2 : c2 <> "u"%char).
      { intros ->. unfold EqualFold in Efold. apply gostring_eqb_eq in Efold.
        cbn [map] in Efold. injection Efold as _ Hu _. vm_compute in Hu. discriminate Hu. }
      split; [|split].
      + intros dst. reflexivity.
      + exists c, [c2; c3]. split; [reflexivity|].
        unfold is_byte in E110 |- *. apply Z.eqb_eq in E110.
        split; [lia|apply Z.eqb_neq; lia].
      + intros tail' _. cbn [MarshalTo app parseValue]. rewrite EL, E123, E91, E34, E116, E102, E110.
        assert (Hn : starts_with (str "null") (c :: c2 :: c3 :: tail') = false).
        { unfold starts_with. apply andb_false_iff. right.
          apply gostring_eqb_neq. intros Heq.
          change (len (str "null")) with 4 in Heq.
          destruct tail' as [|c4 t4]; cbn in Heq; injection Heq as _ Hu; congruence. }
        rewrite Hn. cbn [negb].
        change (upto 3 (c :: c2 :: c3 :: tail')) with [c; c2; c3].
        rewrite Efold.
        replace (3 <=? len (c :: c2 :: c3 :: tail')) with true
          by (symmetry; apply Z.leb_le; rewrite !len_cons; pose proof (len_nonneg tail'); lia).
        reflexivity.
    - injection H as <- <-. split; [|split].
      + intros dst. reflexivity.
      + eexists _, _. split; [reflexivity|]. split; [cbn; lia|reflexivity].
      + intros tail' _. now apply parse_null. }
  destruct (parseRawNumber (c :: s1)) as [[ns tl] [err|]] eqn:E; [discriminate|].
  injection H as <- <-.
  destruct (parseRawNumber_reparse _ _ _ _ E) as ((r & -> & _ & Hc) & Hre).
  split; [|split].
  - intros dst. reflexivity.
  - exists c, r. split; [reflexivity|].
    destruct Hc as [Hc|Hc]; [now apply head_number_byte|].
    destruct (head_letter c Hc) as (H1 & H2 & _). now split.
  - intros tail' Hf. cbn [MarshalTo app parseValue].
    rewrite EL, E123, E91, E34, E116, E102, E110.
    change (c :: r ++ tail') with ((c :: r) ++ tail'). now rewrite (Hre tail' Hf).
Qed.

Lemma parse_reparses fuel :
  value_reparses AppendQuote limit fuel /\ array_loop_reparses AppendQuote limit fuel /\
  array_reparses AppendQuote limit fuel /\ object_loop_reparses AppendQuote limit fuel /\
  object_reparses AppendQuote limit fuel.
Proof.
  induction fuel as [|fuel (HV & HAL & HA & HOL & HO)].
  - split; [intros s d x tail H; discriminate H|].
    split; [intros a s d x tail H; discriminate H|].
    split; [intros s d x tail H; discriminate H|].
    split; [intros o s d x tail H; discriminate H|intros s d x tail H; discriminate H].
  - split; [now apply value_reparses_step|].
    split; [now apply array_loop_reparses_step|].
    split; [now apply array_reparses_step|].
    split; [now apply object_loop_reparses_step|now apply object_reparses_step].
Qed.

End Reparse.

Lemma parseValue_fuel_for limit fuel s d x tail :
  parseValue limit fuel s d = Parsed x tail ->
  parseValue limit (fuel_for s) s d = Parsed x tail.
Proof.
  intros H. destruct (Nat.le_ge_cases fuel (fuel_for s)) as [Hle|Hge].
  - replace (fuel_for s) with ((fuel_for s - fuel) + fuel)%nat by lia.
    apply parseValue_more_fuel; [exact H|discriminate].
  - pose proof (Parser_Parse_fuel limit s d) as H0.
    pose proof (parseValue_more_fuel limit (fuel_for s) (fuel - fuel_for s) s d _ eq_refl H0)
      as H1.
    replace (fuel - fuel_for s + fuel_for s)%nat with fuel in H1 by lia. congruence.
Qed.

(** X14.  What [Parser.Parse] returns, serialized by [MarshalTo], parses
    to the same value again: for every document the parser accepts, under
    any depth limit, the text [MarshalTo] writes for the value is accepted
    too and denotes that value.  [MarshalTo] appends this text to the
    buffer it is given, and the text starts with no white space. *)
Theorem Parse_MarshalTo_Parse
    (AppendQuote : gostring -> gostring -> gostring) (limit : Z)
    (startEndString : gostring -> gostring) (s : gostring) (x : Value) :
  Parser_Parse limit startEndString s = inl x ->
  Parser_Parse limit startEndString (MarshalTo AppendQuote x []) = inl x /\
  (forall dst, MarshalTo AppendQuote x dst = dst ++ MarshalTo AppendQuote x []) /\
  skipWS (MarshalTo AppendQuote x []) = MarshalTo AppendQuote x [].
Proof.
  unfold Parser_Parse at 1. intros H.
  destruct (parseValue limit (fuel_for (skipWS s)) (skipWS s) 0) as [y tail| |] eqn:E;
    try discriminate H.
  destruct (0 <? len (skipWS tail)); [discriminate H|]. injection H as ->.
  destruct (parse_reparses AppendQuote limit (fuel_for (skipWS s))) as (HV & _).
  pose proof (HV _ _ _ _ E) as Hx. pose proof (reparses_marshals _ _ _ _ _ _ Hx) as Hm.
  destruct Hx as (Hdst & _ & Hre).
  pose proof (skipWS_text AppendQuote x [] Hm) as Hws. rewrite app_nil_r in Hws.
  split; [|split; [exact Hdst|exact Hws]].
  unfold Parser_Parse. rewrite Hws.
  specialize (Hre [] (or_introl eq_refl)). rewrite app_nil_r in Hre.
  rewrite (parseValue_fuel_for _ _ _ _ _ _ Hre). reflexivity.
Qed.

Lemma Parse_MarshalTo_Parse_witness :
  Parser_Parse MaxDepth (fun tail => tail) sample_document = inl sample_value /\
  (Parser_Parse MaxDepth (fun tail => tail) (MarshalTo (fun dst _ => dst) sample_value [])
     = inl sample_value /\
   (forall dst, MarshalTo (fun dst _ => dst) sample_value dst
                = dst ++ MarshalTo (fun dst _ => dst) sample_value []) /\
   skipWS (MarshalTo (fun dst _ => dst) sample_value [])
     = MarshalTo (fun dst _ => dst) sample_value []).
Proof.
  split; [reflexivity|].
  apply (Parse_MarshalTo_Parse (fun dst _ => dst) MaxDepth (fun tail => tail) sample_document).
  reflexivity.
Defined.

(** ** White space *)

Lemma is_ws_low c : is_ws c = true -> (32 <? code c) = false.
Proof.
  unfold is_ws, is_byte. intros H. apply Z.ltb_ge.
  repeat (apply orb_prop in H; destruct H as [H|H]); apply Z.eqb_eq in H; lia.
Qed.

Lemma skipWS_loop_drop s : skipWS_loop s = drop_while is_ws s.
Proof.
  induction s as [|c s IH]; cbn [skipWS_loop drop_while]; [reflexivity|].
  destruct (is_ws c); cbn [negb]; [exact IH|reflexivity].
Qed.

Lemma skipWS_drop s : skipWS s = drop_while is_ws s.
Proof.
  destruct s as [|c s]; [reflexivity|]. cbn [skipWS drop_while].
  destruct (32 <? code c) eqn:E.
  - destruct (is_ws c) eqn:Ew; [|reflexivity]. apply is_ws_low in Ew. congruence.
  - cbn [skipWSSlow]. destruct (is_ws c); cbn [negb]; [apply skipWS_loop_drop|reflexivity].
Qed.

Lemma drop_while_app_all p a b :
  forallb p a = true -> drop_while p (a ++ b) = drop_while p b.
Proof.
  induction a as [|c a IH]; cbn [forallb app drop_while]; [reflexivity|].
  intros H. apply andb_prop in H. destruct H as [-> H]. now apply IH.
Qed.

Lemma drop_while_head p s c r : drop_while p s = c :: r -> p c = false.
Proof.
  induction s as [|x s IH]; cbn [drop_while]; [discriminate|].
  destruct (p x) eqn:E; [exact IH|]. intros H. now injection H as <- _.
Qed.

Lemma drop_while_idem p s : drop_while p (drop_while p s) = drop_while p s.
Proof.
  destruct (drop_while p s) as [|c r] eqn:E; [reflexivity|].
  cbn [drop_while]. now rewrite (drop_while_head p s c r E).
Qed.

(** X15.  [skipWS] drops the leading spaces, tabs, line feeds and
    carriage returns of a string, and nothing else: what it returns starts
    with none of them.  Its fast path, which returns at once on a first
    byte above the space, and [skipWSSlow] agree.  White space before a
    document changes nothing of what [Parser.Parse] and [Validate]
    return. *)
Theorem skipWS_drops_leading_white_space (s : gostring) :
  skipWS s = drop_while is_ws s /\
  skipWSSlow s = drop_while is_ws s /\
  skipWS (skipWS s) = skipWS s /\
  (forall ws, forallb is_ws ws = true -> skipWS (ws ++ s) = skipWS s) /\
  (forall limit startEndString ws, forallb is_ws ws = true ->
     Parser_Parse limit startEndString (ws ++ s) = Parser_Parse limit startEndString s /\
     Validate startEndString (ws ++ s) = Validate startEndString s).
Proof.
  assert (Hslow : skipWSSlow s = drop_while is_ws s).
  { destruct s as [|c r]; [reflexivity|]. cbn [skipWSSlow drop_while].
    destruct (is_ws c); cbn [negb]; [apply skipWS_loop_drop|reflexivity]. }
  assert (Happ : forall ws, forallb is_ws ws = true -> skipWS (ws ++ s) = skipWS s).
  { intros ws Hws. rewrite !skipWS_drop. now apply drop_while_app_all. }
  split; [apply skipWS_drop|]. split; [exact Hslow|].
  split; [rewrite !skipWS_drop; apply drop_while_idem|].
  split; [exact Happ|].
  intros limit f ws Hws. unfold Parser_Parse, Validate. now rewrite (Happ ws Hws).
Qed.

(** ** The decoders that return no error *)

(** X16.  Each best-effort decoder of [fastfloat] returns what the strict
    decoder of the same type returns when that one returns no error, and 0
    when it returns one, whatever the library's decoder they fall back to
    does. *)
Theorem best_effort_is_strict_or_zero (s : gostring) :
  (forall slow,
     fastfloat.ParseUint64BestEffort slow s =
     match fastfloat.ParseUint64 slow s with (n, None) => n | (_, Some _) => 0 end) /\
  (forall slow,
     fastfloat.ParseInt64BestEffort slow s =
     match fastfloat.ParseInt64 slow s with (n, None) => n | (_, Some _) => 0 end) /\
  (forall slow,
     fastfloat.ParseBestEffort slow s =
     match fastfloat.Parse slow s with (f, None) => f | (_, Some _) => PrimFloat.zero end).
Proof.
  split; [|split]; intros slow.
  - rewrite ParseUint64BestEffort_strict. unfold best_of.
    now destruct (fastfloat.ParseUint64 slow s) as [n [e|]].
  - rewrite ParseInt64BestEffort_strict. unfold best_of.
    now destruct (fastfloat.ParseInt64 slow s) as [n [e|]].
  - rewrite ParseBestEffort_Parse.
    destruct (fastfloat.Parse slow s) as [f [e|]] eqn:E; [|reflexivity].
    now apply Parse_error_zero in E.
Qed.

(** ** Strings without escape sequences *)

Lemma IndexByte_body body rest :
  IndexByte body 34 < 0 -> IndexByte (body ++ quote :: rest) 34 = len body.
Proof.
  intros H. rewrite IndexByte_app_miss by exact H. cbn [IndexByte].
  change (is_byte 34 quote) with true. cbn. lia.
Qed.

Lemma validateString_plain body rest :
  IndexByte body 34 < 0 -> IndexByte body 92 < 0 ->
  validateString (body ++ quote :: rest) = (body, rest, None).
Proof.
  intros Hq Hb. unfold validateString. rewrite (IndexByte_body body rest Hq).
  rewrite upto_app, from_app_plus.
  pose proof (len_nonneg body).
  replace (0 <=? len body) with true by (symmetry; apply Z.leb_le; lia).
  replace (IndexByte body 92 <? 0) with true by (symmetry; apply Z.ltb_lt; lia).
  reflexivity.
Qed.

Lemma parseRawString_plain body rest :
  IndexByte body 34 < 0 -> IndexByte body 92 < 0 ->
  parseRawString (body ++ quote :: rest) = (body, rest, None).
Proof.
  intros Hq Hb. unfold parseRawString. rewrite (IndexByte_body body rest Hq).
  rewrite upto_app, from_app_plus. pose proof (len_nonneg body) as Hl.
  replace (len body <? 0) with false by (symmetry; apply Z.ltb_ge; lia).
  destruct (len body =? 0) eqn:E0; [reflexivity|]. apply Z.eqb_neq in E0. cbn [orb].
  rewrite at_app_lt by lia. unfold at_.
  rewrite (IndexByte_none_at body 92 Hb) by (unfold len in *; lia). reflexivity.
Qed.

Lemma control_char_some sv ch : control_char sv = Some ch -> code ch < 32 /\ In ch sv.
Proof.
  induction sv as [|c sv IH]; cbn [control_char]; [discriminate|].
  destruct (code c <? 32) eqn:E.
  - intros H. injection H as <-. apply Z.ltb_lt in E. split; [exact E|now left].
  - intros H. destruct (IH H) as [H1 H2]. split; [exact H1|now right].
Qed.

Lemma control_char_none sv : control_char sv = None <-> forallb (fun c => 32 <=? code c) sv = true.
Proof.
  induction sv as [|c sv IH]; cbn [control_char forallb]; [tauto|].
  destruct (code c <? 32) eqn:E.
  - replace (32 <=? code c) with false by (symmetry; apply Z.leb_gt; apply Z.ltb_lt in E; lia).
    cbn [andb]. split; discriminate.
  - replace (32 <=? code c) with true by (symmetry; apply Z.leb_le; apply Z.ltb_ge in E; lia).
    cbn [andb]. exact IH.
Qed.

Lemma Validate_plain (startEndString : gostring -> gostring) body :
  IndexByte body 34 < 0 -> IndexByte body 92 < 0 ->
  Validate startEndString ([quote] ++ body ++ [quote]) =
    match control_char body with
    | Some ch =>
        Some (Wrapf "cannot parse JSON: %s; unparsed tail: %q" [startEndString []]
                (Errorf "string cannot contain control char 0x%02X" [[ch]]))
    | None => None
    end.
Proof.
  intros Hq Hb.
  assert (Hws : skipWS ([quote] ++ body ++ [quote]) = quote :: body ++ [quote])
    by (cbn [app]; apply skipWS_high; cbn; lia).
  unfold Validate. rewrite Hws. unfold fuel_for.
  replace (3 * List.length (quote :: body ++ [quote]) + 3)%nat
    with (S (3 * List.length (quote :: body ++ [quote]) + 2)) by lia.
  cbn [validateValue]. change (is_byte 123 quote) with false.
  change (is_byte 91 quote) with false. change (is_byte 34 quote) with true. cbv iota.
  rewrite (validateString_plain body [] Hq Hb).
  destruct (control_char body); reflexivity.
Qed.

Lemma Parse_plain (startEndString : gostring -> gostring) body :
  IndexByte body 34 < 0 -> IndexByte body 92 < 0 ->
  Parser_Parse MaxDepth startEndString ([quote] ++ body ++ [quote]) = inl (VRawString body).
Proof.
  intros Hq Hb.
  assert (Hws : skipWS ([quote] ++ body ++ [quote]) = quote :: body ++ [quote])
    by (cbn [app]; apply skipWS_high; cbn; lia).
  unfold Parser_Parse. rewrite Hws. unfold fuel_for.
  replace (3 * List.length (quote :: body ++ [quote]) + 3)%nat
    with (S (3 * List.length (quote :: body ++ [quote]) + 2)) by lia.
  cbn [parseValue]. change (MaxDepth <? 0 + 1) with false.
  change (is_byte 123 quote) with false.
  change (is_byte 91 quote) with false. change (is_byte 34 quote) with true. cbv iota.
  rewrite (parseRawString_plain body [] Hq Hb). reflexivity.
Qed.

(** X17.  A string literal without a backslash: [Parser.Parse] accepts it
    whatever bytes it holds and returns them as they are, and [Validate]
    accepts it exactly when none of its bytes is below 0x20; when one is,
    the error names the first such byte. *)
Theorem plain_string_literal
    (startEndString : gostring -> gostring) (body : gostring) :
  IndexByte body 34 < 0 -> IndexByte body 92 < 0 ->
  Parser_Parse MaxDepth startEndString ([quote] ++ body ++ [quote]) = inl (VRawString body) /\
  Validate startEndString ([quote] ++ body ++ [quote]) =
    match control_char body with
    | Some ch =>
        Some (Wrapf "cannot parse JSON: %s; unparsed tail: %q" [startEndString []]
                (Errorf "string cannot contain control char 0x%02X" [[ch]]))
    | None => None
    end /\
  (Validate startEndString ([quote] ++ body ++ [quote]) = None <->
   forallb (fun c => 32 <=? code c) body = true).
Proof.
  intros Hq Hb. pose proof (Validate_plain startEndString body Hq Hb) as HV.
  split; [now apply Parse_plain|]. split; [exact HV|].
  rewrite HV, <- control_char_none. destruct (control_char body); split; congruence.
Qed.

Lemma plain_string_literal_witness :
  IndexByte [byte_of 97; byte_of 1] 34 < 0 /\ IndexByte [byte_of 97; byte_of 1] 92 < 0 /\
  (Parser_Parse MaxDepth (fun tail => tail) ([quote] ++ [byte_of 97; byte_of 1] ++ [quote])
     = inl (VRawString [byte_of 97; byte_of 1]) /\
   Validate (fun tail => tail) ([quote] ++ [byte_of 97; byte_of 1] ++ [quote]) =
     match control_char [byte_of 97; byte_of 1] with
     | Some ch =>
         Some (Wrapf "cannot parse JSON: %s; unparsed tail: %q" [[]]
                 (Errorf "string cannot contain control char 0x%02X" [[ch]]))
     | None => None
     end /\
   (Validate (fun tail => tail) ([quote] ++ [byte_of 97; byte_of 1] ++ [quote]) = None <->
    forallb (fun c => 32 <=? code c) [byte_of 97; byte_of 1] = true)).
Proof.
  split; [cbn; lia|]. split; [cbn; lia|].
  apply (plain_string_literal (fun tail => tail) [byte_of 97; byte_of 1]); cbn; lia.
Defined.

(** ** The numbers the validator accepts *)

Lemma exponent_grammar a b tail :
  validateNumber_exponent (a ++ b) (len a) = (tail, None) ->
  exists m, b = m ++ tail /\ json_exp m.
Proof.
  unfold validateNumber_exponent. destruct b as [|c b].
  - rewrite at_nil_app. change (is_byte 101 Ascii.zero) with false.
    change (is_byte 69 Ascii.zero) with false. cbn [orb].
    rewrite app_nil_r. replace (from (len a) a) with (@nil ascii)
      by (rewrite <- (app_nil_r a) at 2; now rewrite from_app).
    intros H. injection H as <-. exists []. split; [reflexivity|now left].
  - rewrite at_app. destruct (is_byte 101 c || is_byte 69 c) eqn:Ee.
    + rewrite from_app_plus. destruct (len b =? 0) eqn:Eb; [discriminate|]. cbv zeta.
      destruct b as [|c2 b2]; [discriminate Eb|]. rewrite at_0.
      apply orb_prop in Ee.
      destruct (is_byte 45 c2 || is_byte 43 c2) eqn:Es.
      * rewrite from_1. cbn [andb]. destruct (len b2 =? 0); [discriminate|].
        destruct (digits_end b2 0 =? 0) eqn:E0; [discriminate|].
        destruct (digits_then b2 E0) as (ds & rest & Hs & Hd & Hne & He & Hall & Hfrom).
        apply orb_prop in Es.
        assert (Hexp : json_exp (c :: [c2] ++ ds)).
        { right. exists c, [c2], ds. repeat split; try assumption. right. eauto. }
        destruct (len b2 <=? digits_end b2 0) eqn:El.
        -- intros H. injection H as <-. specialize (Hall eq_refl). subst rest.
           exists (c :: [c2] ++ ds). rewrite Hs. split; [reflexivity|exact Hexp].
        -- rewrite Hfrom. intros H. injection H as <-.
           exists (c :: [c2] ++ ds). rewrite Hs at 1. split; [reflexivity|exact Hexp].
      * cbn [andb].
        destruct (digits_end (c2 :: b2) 0 =? 0) eqn:E0; [discriminate|].
        destruct (digits_then (c2 :: b2) E0) as (ds & rest & Hs & Hd & Hne & He & Hall & Hfrom).
        assert (Hexp : json_exp (c :: [] ++ ds)).
        { right. exists c, [], ds. repeat split; try assumption. now left. }
        destruct (len (c2 :: b2) <=? digits_end (c2 :: b2) 0) eqn:El.
        -- intros H. injection H as <-. specialize (Hall eq_refl). subst rest.
           exists (c :: [] ++ ds). rewrite Hs. split; [reflexivity|exact Hexp].
        -- rewrite Hfrom. intros H. injection H as <-.
           exists (c :: [] ++ ds). rewrite Hs at 1. split; [reflexivity|exact Hexp].
    + rewrite from_app. intros H. injection H as <-.
      exists []. split; [reflexivity|now left].
Qed.

Lemma fraction_grammar a b tail :
  validateNumber_fraction (a ++ b) (len a) = (tail, None) ->
  exists frac exp, b = frac ++ exp ++ tail /\ json_frac frac /\ json_exp exp.
Proof.
  unfold validateNumber_fraction. destruct b as [|c b].
  - rewrite at_nil_app. change (is_byte 46 Ascii.zero) with false. cbv iota.
    intros H. apply exponent_grammar in H. destruct H as (m & Hm & He).
    exists [], m. split; [exact Hm|]. split; [now left|exact He].
  - rewrite at_app. destruct (is_byte 46 c) eqn:Ec.
    + rewrite from_app_plus. destruct (len b =? 0); [discriminate|]. cbv zeta.
      destruct (digits_end b 0 =? 0) eqn:E0; [discriminate|].
      destruct (digits_then b E0) as (ds & rest & Hs & Hd & Hne & He & Hall & Hfrom).
      assert (Hfrac : json_frac (c :: ds)).
      { right. exists c, ds. now repeat split. }
      destruct (len b <=? digits_end b 0) eqn:El.
      * intros H. injection H as <-. specialize (Hall eq_refl). subst rest.
        exists (c :: ds), []. rewrite Hs. split; [now rewrite !app_nil_r|].
        split; [exact Hfrac|now left].
      * rewrite He. rewrite Hs at 1. intros H.
        apply exponent_grammar in H. destruct H as (m & Hm & Hexp).
        exists (c :: ds), m. split; [rewrite Hs, Hm; reflexivity|]. now split.
    + intros H. apply exponent_grammar in H. destruct H as (m & Hm & He).
      exists [], m. split; [exact Hm|]. split; [now left|exact He].
Qed.

Lemma digits_int ds s rest :
  forallb is_digit ds = true -> ds <> [] -> s = ds ++ rest ->
  (is_byte 48 (at_ s 0) && negb (len ds =? 1)) = false ->
  json_int ds.
Proof.
  intros Hd Hne Hs Hz. destruct ds as [|d ds]; [congruence|]. subst s.
  rewrite at_0_pre in Hz. cbn [forallb] in Hd. apply andb_prop in Hd. destruct Hd as [Hd Hds].
  destruct (is_byte 48 d) eqn:E48.
  - left. cbn [andb] in Hz. apply negb_false_iff, Z.eqb_eq in Hz. rewrite len_cons in Hz.
    assert (ds = []) by (apply len_0_nil; lia). subst ds.
    apply is_byte_eq in E48; [|lia]. now subst d.
  - right. exists d, ds. now repeat split.
Qed.

Lemma validateNumber_grammar s tail :
  validateNumber s = (tail, None) -> exists m, s = m ++ tail /\ json_number m.
Proof.
  unfold validateNumber. destruct (len s =? 0) eqn:E0; [discriminate|].
  destruct s as [|c s]; [discriminate E0|]. cbv zeta. rewrite at_0.
  destruct (is_byte 45 c) eqn:Em.
  - rewrite from_1. cbn [andb]. destruct (len s =? 0); [discriminate|].
    destruct (digits_end s 0 <=? 0) eqn:Ed; [discriminate|]. apply Z.leb_gt in Ed.
    assert (Ed0 : (digits_end s 0 =? 0) = false) by (apply Z.eqb_neq; lia).
    destruct (digits_then s Ed0) as (ds & rest & Hs & Hd & Hne & He & Hall & Hfrom).
    destruct (is_byte 48 (at_ s 0) && negb (digits_end s 0 =? 1)) eqn:Ez; [discriminate|].
    rewrite He in Ez. pose proof (digits_int ds s rest Hd Hne Hs Ez) as Hint.
    destruct (len s <=? digits_end s 0) eqn:El.
    + intros H. injection H as <-. specialize (Hall eq_refl). subst rest.
      exists (c :: ds). rewrite Hs, !app_nil_r. split; [reflexivity|].
      exists [c], ds, [], []. rewrite !app_nil_r. split; [reflexivity|].
      split; [right; eauto|]. split; [exact Hint|]. split; now left.
    + rewrite He. rewrite Hs at 1. intros H.
      apply fraction_grammar in H. destruct H as (frac & exp & Hm & Hf & Hx).
      exists (c :: ds ++ frac ++ exp). split.
      * rewrite Hs, Hm. cbn [app]. now rewrite <- !app_assoc.
      * exists [c], ds, frac, exp. split; [reflexivity|].
        split; [right; eauto|]. now repeat split.
  - cbn [andb].
    destruct (digits_end (c :: s) 0 <=? 0) eqn:Ed; [discriminate|]. apply Z.leb_gt in Ed.
    assert (Ed0 : (digits_end (c :: s) 0 =? 0) = false) by (apply Z.eqb_neq; lia).
    destruct (digits_then (c :: s) Ed0) as (ds & rest & Hs & Hd & Hne & He & Hall & Hfrom).
    destruct (is_byte 48 (at_ (c :: s) 0) && negb (digits_end (c :: s) 0 =? 1)) eqn:Ez;
      [discriminate|].
    rewrite He in Ez. pose proof (digits_int ds (c :: s) rest Hd Hne Hs Ez) as Hint.
    destruct (len (c :: s) <=? digits_end (c :: s) 0) eqn:El.
    + intros H. injection H as <-. specialize (Hall eq_refl). subst rest.
      exists ds. rewrite Hs, !app_nil_r. split; [reflexivity|].
      exists [], ds, [], []. rewrite !app_nil_r. split; [reflexivity|].
      split; [now left|]. split; [exact Hint|]. split; now left.
    + rewrite He. rewrite Hs at 1. intros H.
      apply fraction_grammar in H. destruct H as (frac & exp & Hm & Hf & Hx).
      exists (ds ++ frac ++ exp). split.
      * rewrite Hs, Hm. now rewrite <- !app_assoc.
      * exists [], ds, frac, exp. split; [reflexivity|].
        split; [now left|]. now repeat split.
Qed.

Lemma digits_end_app ds rest :
  forallb is_digit ds = true -> no_digit_ahead rest = true ->
  digits_end (ds ++ rest) 0 = len ds.
Proof.
  intros Hd Hr. induction ds as [|d ds IH]; cbn [app digits_end forallb] in *.
  - destruct rest as [|c r]; [reflexivity|]. cbn [digits_end no_digit_ahead] in *.
    apply negb_true_iff in Hr. now rewrite Hr.
  - apply andb_prop in Hd. destruct Hd as [Hd Hds]. rewrite Hd.
    rewrite digits_end_shift, (IH Hds), len_cons. lia.
Qed.

Lemma number_ends_no_digit tail : number_ends tail = true -> no_digit_ahead tail = true.
Proof.
  destruct tail as [|c r]; [reflexivity|]. cbn [number_ends no_digit_ahead].
  intros H. apply negb_true_iff in H. apply negb_true_iff.
  destruct (is_digit c) eqn:E; [|reflexivity]. now rewrite (digit_number_byte c E) in H.
Qed.

Lemma number_ends_head c r z :
  number_ends (c :: r) = true ->
  z = 46 \/ z = 45 \/ z = 101 \/ z = 69 \/ z = 43 -> is_byte z c = false.
Proof.
  cbn [number_ends]. intros H Hz. apply negb_true_iff in H.
  unfold is_number_byte in H. repeat (apply orb_false_iff in H; destruct H as [H ?]).
  destruct Hz as [->|[->|[->|[->| ->]]]]; assumption.
Qed.

Lemma digits_tail_done ds rest :
  (len (ds ++ rest) <=? len ds) = true -> rest = [].
Proof.
  intros H. apply Z.leb_le in H. rewrite len_app in H.
  apply len_0_nil. pose proof (len_nonneg rest). lia.
Qed.

Lemma len_pos_cons (c : ascii) s : (len (c :: s) =? 0) = false.
Proof. apply Z.eqb_neq. rewrite len_cons. pose proof (len_nonneg s). lia. Qed.

Lemma digits_run ds tail :
  forallb is_digit ds = true -> ds <> [] -> number_ends tail = true ->
  (len (ds ++ tail) =? 0) = false /\
  digits_end (ds ++ tail) 0 = len ds /\ (len ds =? 0) = false /\
  (if len (ds ++ tail) <=? len ds then ([], @None error)
   else (from (len ds) (ds ++ tail), None)) = (tail, None).
Proof.
  intros Hd Hne Ht. destruct ds as [|d ds]; [congruence|].
  split; [apply len_pos_cons|].
  split; [apply digits_end_app; [exact Hd|now apply number_ends_no_digit]|].
  split; [apply len_pos_cons|].
  destruct (len ((d :: ds) ++ tail) <=? len (d :: ds)) eqn:E.
  - now rewrite (digits_tail_done _ _ E).
  - now rewrite from_app.
Qed.

Lemma exponent_complete a exp tail :
  json_exp exp -> number_ends tail = true ->
  validateNumber_exponent (a ++ exp ++ tail) (len a) = (tail, None).
Proof.
  intros [->|(e & sign & es & -> & He & Hsign & Hne & Hd)] Ht; unfold validateNumber_exponent.
  - cbn [app]. destruct tail as [|c r].
    + rewrite at_nil_app. change (is_byte 101 Ascii.zero || is_byte 69 Ascii.zero) with false.
      now rewrite (from_app a []).
    + rewrite at_app, (number_ends_head c r 101 Ht), (number_ends_head c r 69 Ht) by tauto.
      cbn [orb]. now rewrite from_app.
  - cbn [app]. rewrite at_app.
    replace (is_byte 101 e || is_byte 69 e) with true
      by (symmetry; apply orb_true_iff; exact He).
    rewrite from_app_plus. cbv zeta.
    destruct (digits_run es tail Hd Hne Ht) as (H0 & Hend & Hz & Hres).
    destruct Hsign as [->|(c & -> & Hc)].
    + cbn [app]. rewrite H0. destruct es as [|d es']; [congruence|].
      cbn [app]. rewrite at_0.
      cbn [forallb] in Hd. apply andb_prop in Hd. destruct Hd as [Hdd _].
      apply is_digit_not_sign in Hdd. destruct Hdd as [H43 H45]. rewrite H43, H45.
      cbn [orb andb]. cbn [app] in Hend, Hres. rewrite Hend, Hz. exact Hres.
    + cbn [app]. rewrite len_pos_cons, at_0.
      replace (is_byte 45 c || is_byte 43 c) with true
        by (symmetry; apply orb_true_iff; exact Hc).
      rewrite from_1. cbn [andb]. rewrite H0, Hend, Hz. exact Hres.
Qed.

Lemma exp_head_no_digit exp tail :
  json_exp exp -> number_ends tail = true -> no_digit_ahead (exp ++ tail) = true.
Proof.
  intros [->|(e & sign & es & -> & He & _)] Ht; [now apply number_ends_no_digit|].
  cbn [app no_digit_ahead]. apply negb_true_iff.
  destruct (is_digit e) eqn:E; [|reflexivity]. apply is_digit_range in E.
  unfold is_byte in He. destruct He as [He|He]; apply Z.eqb_eq in He; lia.
Qed.

Lemma exp_head_no_dot exp tail :
  json_exp exp -> number_ends tail = true ->
  is_byte 46 (at_ (exp ++ tail) 0) = false.
Proof.
  intros [->|(e & sign & es & -> & He & _)] Ht.
  - destruct tail as [|c r]; [reflexivity|]. cbn [app]. rewrite at_0.
    apply (number_ends_head c r 46 Ht). tauto.
  - cbn [app]. rewrite at_0. unfold is_byte in *.
    destruct He as [He|He]; apply Z.eqb_eq in He; apply Z.eqb_neq; lia.
Qed.

Lemma at_len_app a b : at_ (a ++ b) (len a) = at_ b 0.
Proof.
  destruct b as [|c b]; [now rewrite at_nil_app|]. now rewrite at_app.
Qed.

Lemma fraction_complete a frac exp tail :
  json_frac frac -> json_exp exp -> number_ends tail = true ->
  validateNumber_fraction (a ++ frac ++ exp ++ tail) (len a) = (tail, None).
Proof.
  intros [->|(c & fs & -> & Hc & Hne & Hd)] He Ht; unfold validateNumber_fraction.
  - cbn [app]. rewrite at_len_app, (exp_head_no_dot exp tail He Ht).
    now apply exponent_complete.
  - cbn [app]. rewrite at_app, Hc, from_app_plus. cbv zeta.
    pose proof (exp_head_no_digit exp tail He Ht) as Hnd.
    destruct fs as [|d fs']; [congruence|].
    rewrite (digits_end_app (d :: fs') (exp ++ tail) Hd Hnd).
    change ((d :: fs') ++ exp ++ tail) with (d :: fs' ++ exp ++ tail).
    rewrite !len_pos_cons.
    change (d :: fs' ++ exp ++ tail) with ((d :: fs') ++ exp ++ tail).
    destruct (len ((d :: fs') ++ exp ++ tail) <=? len (d :: fs')) eqn:E.
    + apply digits_tail_done in E. apply app_eq_nil in E. destruct E as [_ ->]. reflexivity.
    + now apply exponent_complete.
Qed.

Lemma frac_head_no_digit frac exp tail :
  json_frac frac -> json_exp exp -> number_ends tail = true ->
  no_digit_ahead (frac ++ exp ++ tail) = true.
Proof.
  intros [->|(c & fs & -> & Hc & _)] He Ht; [cbn [app]; now apply exp_head_no_digit|].
  cbn [app no_digit_ahead]. apply negb_true_iff.
  destruct (is_digit c) eqn:E; [|reflexivity]. apply is_digit_range in E.
  unfold is_byte in Hc. apply Z.eqb_eq in Hc. lia.
Qed.

Lemma len_cons_pos (c : ascii) s : (len (c :: s) <=? 0) = false.
Proof. apply Z.leb_gt. rewrite len_cons. pose proof (len_nonneg s). lia. Qed.

Lemma json_int_shape int :
  json_int int ->
  exists d ds, int = d :: ds /\ forallb is_digit int = true /\
               (is_byte 48 d && negb (len int =? 1)) = false.
Proof.
  intros [->|(d & ds & -> & Hd & H48 & Hds)].
  - exists "0"%char, []. now repeat split.
  - exists d, ds. split; [reflexivity|]. split; [cbn [forallb]; now rewrite Hd|].
    now rewrite H48.
Qed.

Lemma number_body int frac exp tail :
  json_int int -> json_frac frac -> json_exp exp -> number_ends tail = true ->
  let s := int ++ frac ++ exp ++ tail in
  (let i := digits_end s 0 in
   if i <=? 0 then (s, Some (Errorf "expecting 0..9 digit, got %c" [[at_ s 0]]))
   else if is_byte 48 (at_ s 0) && negb (i =? 1)
   then (s, Some (Errorf "unexpected number starting from 0" []))
   else if len s <=? i then ([], None)
   else validateNumber_fraction s i) = (tail, None).
Proof.
  intros Hint Hf He Ht. cbv zeta.
  destruct (json_int_shape int Hint) as (d & ds & -> & Hdig & Hzero).
  pose proof (frac_head_no_digit frac exp tail Hf He Ht) as Hnd.
  rewrite (digits_end_app (d :: ds) _ Hdig Hnd), len_cons_pos.
  replace (at_ ((d :: ds) ++ frac ++ exp ++ tail) 0) with d by reflexivity.
  rewrite Hzero.
  destruct (len ((d :: ds) ++ frac ++ exp ++ tail) <=? len (d :: ds)) eqn:E.
  - apply digits_tail_done in E. apply app_eq_nil in E. destruct E as [_ E].
    apply app_eq_nil in E. destruct E as [_ ->]. reflexivity.
  - now apply fraction_complete.
Qed.

Lemma validateNumber_complete m tail :
  json_number m -> number_ends tail = true ->
  validateNumber (m ++ tail) = (tail, None).
Proof.
  intros (minus & int & frac & exp & -> & Hminus & Hint & Hf & He) Ht.
  pose proof (number_body int frac exp tail Hint Hf He Ht) as Hbody. cbv zeta in Hbody.
  destruct (json_int_shape int Hint) as (d & ds & Ei & Hdig & _).
  unfold validateNumber. rewrite <- !app_assoc.
  destruct Hminus as [->|(c & -> & Hc)].
  - cbn [app]. subst int. cbn [forallb] in Hdig.
    apply andb_prop in Hdig. destruct Hdig as [Hd _].
    apply is_digit_not_sign in Hd. destruct Hd as [_ H45].
    change ((d :: ds) ++ frac ++ exp ++ tail) with (d :: ds ++ frac ++ exp ++ tail) in *.
    rewrite len_pos_cons. cbv zeta. rewrite at_0, H45. cbn [andb]. exact Hbody.
  - cbn [app]. rewrite len_pos_cons. cbv zeta. rewrite at_0, Hc, from_1.
    cbn [andb]. subst int.
    change ((d :: ds) ++ frac ++ exp ++ tail) with (d :: ds ++ frac ++ exp ++ tail) in *.
    rewrite len_pos_cons. exact Hbody.
Qed.

(** X18.  [validateNumber] accepts the numbers of JSON and nothing else:
    when it returns no error, what it has consumed is a number of the
    grammar (an optional minus, an integer part without a leading zero, an
    optional fraction, an optional exponent); and it consumes every such
    number whole, when the number stands at the end of the input or before
    a byte that no number holds. *)
Theorem validateNumber_json_numbers :
  (forall s tail, validateNumber s = (tail, None) ->
     exists m, s = m ++ tail /\ json_number m) /\
  (forall m tail, json_number m -> number_ends tail = true ->
     validateNumber (m ++ tail) = (tail, None)).
Proof.
  split.
  - intros s tail H. now apply validateNumber_grammar.
  - intros m tail Hm Ht. now apply validateNumber_complete.
Qed.

Example json_number_sample :
  json_number (str "-2.5e+3") /\ number_ends (str ", 1") = true /\
  validateNumber (str "-2.5e+3, 1") = (str ", 1", None) /\
  snd (validateNumber (str "01")) <> None /\
  snd (validateNumber (str "1.")) <> None /\
  snd (validateNumber (str "1e")) <> None /\
  snd (validateNumber (str "-")) <> None.
Proof.
  split; [|repeat split; discriminate].
  exists (str "-"), (str "2"), (str ".5"), (str "e+3"). split; [reflexivity|].
  split; [right; exists "-"%char; now split|].
  split; [right; exists "2"%char, []; now repeat split|].
  split; [right; exists "."%char, (str "5"); repeat split; discriminate|].
  right. exists "e"%char, (str "+"), (str "3"). split; [reflexivity|].
  split; [now left|]. split; [right; exists "+"%char; split; [reflexivity|now right]|].
  split; [discriminate|reflexivity].
Qed.

(** ** Keys *)

(** X4.  [parseRawKey] is [parseRawString]: its loop for short keys
    without escape sequences returns on every input what the tokenizer of
    strings returns, the key, the tail and the error alike.  When it
    returns no error the input is the key, a quote and the tail, and the
    key it takes depends on nothing behind that quote. *)
Theorem parseRawKey_is_parseRawString (s : gostring) :
  parseRawKey s = parseRawString s /\
  (forall key tail, parseRawKey s = (key, tail, None) ->
     s = key ++ quote :: tail /\
     forall tail', parseRawKey (key ++ quote :: tail') = (key, tail', None)).
Proof.
  split; [apply parseRawKey_eq|].
  intros key tail H. split.
  - rewrite parseRawKey_eq in H. now apply parseRawString_sound.
  - intros tail'. exact (parseRawKey_tail s key tail H tail').
Qed.

(** ** The empty document *)

Lemma skipWS_all_ws s : forallb is_ws s = true -> skipWS s = [].
Proof.
  intros H. rewrite skipWS_drop, <- (app_nil_r s).
  now rewrite (drop_while_app_all is_ws s [] H).
Qed.

(** X19.  A document that holds nothing but white space is no value:
    [Parser.Parse] and [Validate] return the error for the empty string on
    it, under any depth limit, while a [Scanner] on the same input ends
    with [Next] false and no error. *)
Theorem white_space_is_no_document
    (limit : Z) (startEndString : gostring -> gostring) (s : gostring) :
  forallb is_ws s = true ->
  Parser_Parse limit startEndString s =
    inr (Wrapf "cannot parse JSON: %s; unparsed tail: %q" [startEndString []]
           (Errorf "cannot parse empty string" [])) /\
  Validate startEndString s =
    Some (Wrapf "cannot parse JSON: %s; unparsed tail: %q" [startEndString []]
            (Errorf "cannot parse empty string" [])) /\
  fst (Scanner_Next (Scanner_Init s)) = false /\
  Scanner_Error (snd (Scanner_Next (Scanner_Init s))) = None /\
  Scanner_Value (snd (Scanner_Next (Scanner_Init s))) = None.
Proof.
  intros H. pose proof (skipWS_all_ws s H) as Hws.
  unfold Parser_Parse, Validate, Scanner_Next, Scanner_Init. cbn [sc_err sc_s sc_v].
  rewrite Hws. repeat split; reflexivity.
Qed.

Lemma white_space_is_no_document_witness :
  forallb is_ws (str "  ") = true /\
  (Parser_Parse MaxDepth (fun tail => tail) (str "  ") =
     inr (Wrapf "cannot parse JSON: %s; unparsed tail: %q" [[]]
            (Errorf "cannot parse empty string" [])) /\
   Validate (fun tail => tail) (str "  ") =
     Some (Wrapf "cannot parse JSON: %s; unparsed tail: %q" [[]]
             (Errorf "cannot parse empty string" [])) /\
   fst (Scanner_Next (Scanner_Init (str "  "))) = false /\
   Scanner_Error (snd (Scanner_Next (Scanner_Init (str "  ")))) = None /\
   Scanner_Value (snd (Scanner_Next (Scanner_Init (str "  ")))) = None).
Proof.
  split; [reflexivity|].
  apply (white_space_is_no_document MaxDepth (fun tail => tail) (str "  ")). reflexivity.
Defined.

(** ** Number tokens *)







(** ** The value of the integers decoded without the library *)

Lemma int_loop_digits wrap ds i :
  wide wrap -> forallb is_digit ds = true -> 0 <= i -> i + len ds <= 18 ->
  fastfloat.int_loop wrap ds i 0 = Some (i + len ds, decimal ds 0) /\
  0 <= decimal ds 0 < 10 ^ (i + len ds).
Proof.
  intros Hw Hd Hi Hlen.
  pose proof (leading_digits_forallb ds Hd) as Hl.
  destruct (leading_digits_all ds Hl) as [_ Hu].
  pose proof (len_nonneg ds) as Hn.
  assert (H0 : 0 <= 0 < 10 ^ i) by (split; [lia|apply Z.pow_pos_nonneg; lia]).
  destruct (fastfloat.int_loop wrap ds i 0) as [[i' d']|] eqn:E.
  - destruct (int_loop_Some wrap ds Hw i 0 i' d' ltac:(lia) H0 E) as (Hi' & _ & Hd' & Hb).
    rewrite Hu in Hd'. rewrite Hl in Hi'. subst i' d'. split; [reflexivity|exact Hb].
  - apply int_loop_None in E; lia.
Qed.

Lemma pow10_18 i : 0 <= i <= 18 -> 10 ^ i <= 10 ^ 18.
Proof. intros H. apply Z.pow_le_mono_r; lia. Qed.

Lemma digit_head_no_minus c ds :
  forallb is_digit (c :: ds) = true -> is_byte 45 (at_ (c :: ds) 0) = false.
Proof.
  cbn [forallb]. intros H. apply andb_prop in H. destruct H as [H _].
  now apply is_digit_not_sign in H.
Qed.

Lemma Parse_scan_digits ds :
  forallb is_digit ds = true -> ds <> [] -> len ds <= 18 ->
  fastfloat.Parse_scan ds = fastfloat.Own (float64_of_Z (decimal ds 0), None).
Proof.
  intros Hd Hne Hlen. destruct ds as [|c ds']; [congruence|].
  set (ds := c :: ds') in *.
  assert (Hpos : 1 <= len ds) by (unfold ds; rewrite len_cons; pose proof (len_nonneg ds'); lia).
  destruct (int_loop_digits uint64 ds 0 uint64_wide Hd ltac:(lia) ltac:(lia)) as [HU _].
  cbn [Z.add] in HU.
  pose proof (digit_head_no_minus c ds' Hd) as Hm. fold ds in Hm.
  assert (Hdot : is_byte 46 (at_ ds 0) = false).
  { unfold ds. rewrite at_0. cbn [forallb] in Hd. apply andb_prop in Hd. destruct Hd as [Hc _].
    apply is_digit_range in Hc. unfold is_byte. apply Z.eqb_neq. lia. }
  unfold fastfloat.Parse_scan, fastfloat.lone_dot.
  replace (len ds =? 0) with false by (symmetry; apply Z.eqb_neq; lia).
  rewrite Hm. cbv zeta. cbn [andb]. rewrite Hdot. cbn [andb].
  change (from 0 ds) with ds. rewrite HU.
  replace (len ds <=? 0) with false by (symmetry; apply Z.leb_gt; lia).
  cbn [andb]. rewrite Z.leb_refl. reflexivity.
Qed.

Lemma Parse_scan_minus_digits ds :
  forallb is_digit ds = true -> ds <> [] -> len ds <= 17 ->
  fastfloat.Parse_scan ("-"%char :: ds) =
  fastfloat.Own (PrimFloat.opp (float64_of_Z (decimal ds 0)), None).
Proof.
  intros Hd Hne Hlen. destruct ds as [|c ds']; [congruence|].
  set (ds := c :: ds') in *.
  assert (Hpos : 1 <= len ds) by (unfold ds; rewrite len_cons; pose proof (len_nonneg ds'); lia).
  destruct (int_loop_digits uint64 ds 1 uint64_wide Hd ltac:(lia) ltac:(lia)) as [HU _].
  assert (Hdot : is_byte 46 (at_ ("-"%char :: ds) 1) = false).
  { change (at_ ("-"%char :: ds) 1) with c.
    cbn [forallb] in Hd. apply andb_prop in Hd. destruct Hd as [Hc _].
    apply is_digit_range in Hc. unfold is_byte. apply Z.eqb_neq. lia. }
  unfold fastfloat.Parse_scan, fastfloat.lone_dot.
  rewrite len_pos_cons, at_0. change (is_byte 45 "-"%char) with true. cbv zeta.
  change (if true then 1 else 0) with 1.
  rewrite Hdot, from_1, HU, len_cons. cbn [andb].
  replace (1 + len ds <=? 1) with false by (symmetry; apply Z.leb_gt; lia).
  cbn [andb]. rewrite Z.leb_refl. reflexivity.
Qed.

(** X21.  The decoders of [fastfloat] return the decimal value of the
    digits: on one to eighteen digits, the unsigned and the signed integer
    decoders, strict and best-effort, return the number the digits denote
    and no error, and the float decoders the float64 nearest to it, without
    a call of the library's decoders; so do the signed ones, with the
    negated number, on a minus and one to seventeen digits. *)
Theorem decoders_decimal_value (ds : gostring) :
  forallb is_digit ds = true -> ds <> [] ->
  (len ds <= 18 ->
   0 <= decimal ds 0 < 10 ^ len ds /\
   (forall slow,
      fastfloat.ParseUint64 slow ds = (decimal ds 0, None) /\
      fastfloat.ParseUint64BestEffort slow ds = decimal ds 0 /\
      fastfloat.ParseInt64 slow ds = (decimal ds 0, None) /\
      fastfloat.ParseInt64BestEffort slow ds = decimal ds 0) /\
   (forall slow,
      fastfloat.Parse slow ds = (float64_of_Z (decimal ds 0), None) /\
      fastfloat.ParseBestEffort slow ds = float64_of_Z (decimal ds 0))) /\
  (len ds <= 17 ->
   (forall slow,
      fastfloat.ParseInt64 slow ("-"%char :: ds) = (- decimal ds 0, None) /\
      fastfloat.ParseInt64BestEffort slow ("-"%char :: ds) = - decimal ds 0) /\
   (forall slow,
      fastfloat.Parse slow ("-"%char :: ds) =
        (PrimFloat.opp (float64_of_Z (decimal ds 0)), None) /\
      fastfloat.ParseBestEffort slow ("-"%char :: ds) =
        PrimFloat.opp (float64_of_Z (decimal ds 0)))).
Proof.
  intros Hd Hne. pose proof Hne as Hne'. destruct ds as [|c ds']; [congruence|].
  set (ds := c :: ds') in *.
  assert (Hpos : 1 <= len ds) by (unfold ds; rewrite len_cons; pose proof (len_nonneg ds'); lia).
  assert (E0 : (len ds =? 0) = false) by (apply Z.eqb_neq; lia).
  assert (E1 : (len ds <=? 0) = false) by (apply Z.leb_gt; lia).
  assert (E2 : (len ds <? len ds) = false) by (apply Z.ltb_irrefl).
  split.
  - intros Hlen.
    destruct (int_loop_digits uint64 ds 0 uint64_wide Hd ltac:(lia) ltac:(lia)) as [HU Hb].
    destruct (int_loop_digits int64 ds 0 int64_wide Hd ltac:(lia) ltac:(lia)) as [HI _].
    cbn [Z.add] in HU, HI, Hb. split; [exact Hb|]. split; intros slow.
    + pose proof (digit_head_no_minus c ds' Hd) as Hm. fold ds in Hm.
      unfold fastfloat.ParseUint64, fastfloat.ParseUint64BestEffort,
        fastfloat.ParseInt64, fastfloat.ParseInt64BestEffort.
      rewrite E0, Hm. cbv zeta. cbn [andb]. change (from 0 ds) with ds.
      rewrite HU, HI, E1, E2. repeat split; reflexivity.
    + rewrite ParseBestEffort_Parse. unfold fastfloat.Parse.
      rewrite (Parse_scan_digits ds Hd Hne' Hlen). split; reflexivity.
  - intros Hlen. split; intros slow.
    + destruct (int_loop_digits int64 ds 1 int64_wide Hd ltac:(lia) ltac:(lia)) as [HI Hb].
      pose proof (pow10_18 (1 + len ds) ltac:(lia)) as Hp.
      assert (Hneg : int64 (- decimal ds 0) = - decimal ds 0).
      { unfold int64. rewrite Z.mod_small; lia. }
      unfold fastfloat.ParseInt64, fastfloat.ParseInt64BestEffort.
      rewrite len_pos_cons, at_0. change (is_byte 45 "-"%char) with true. cbv zeta.
      rewrite from_1, HI. rewrite len_cons.
      replace (1 + len ds <=? 1) with false by (symmetry; apply Z.leb_gt; lia).
      rewrite Z.ltb_irrefl. cbn [andb]. rewrite Hneg. split; reflexivity.
    + rewrite ParseBestEffort_Parse. unfold fastfloat.Parse.
      rewrite (Parse_scan_minus_digits ds Hd Hne' Hlen). split; reflexivity.
Qed.

Lemma decoders_decimal_value_witness :
  forallb is_digit (str "007") = true /\ str "007" <> [] /\
  ((len (str "007") <= 18 ->
    0 <= decimal (str "007") 0 < 10 ^ len (str "007") /\
    (forall slow,
       fastfloat.ParseUint64 slow (str "007") = (decimal (str "007") 0, None) /\
       fastfloat.ParseUint64BestEffort slow (str "007") = decimal (str "007") 0 /\
       fastfloat.ParseInt64 slow (str "007") = (decimal (str "007") 0, None) /\
       fastfloat.ParseInt64BestEffort slow (str "007") = decimal (str "007") 0) /\
    (forall slow,
       fastfloat.Parse slow (str "007") = (float64_of_Z (decimal (str "007") 0), None) /\
       fastfloat.ParseBestEffort slow (str "007") = float64_of_Z (decimal (str "007") 0))) /\
   (len (str "007") <= 17 ->
    (forall slow,
       fastfloat.ParseInt64 slow ("-"%char :: str "007") = (- decimal (str "007") 0, None) /\
       fastfloat.ParseInt64BestEffort slow ("-"%char :: str "007") = - decimal (str "007") 0) /\
    (forall slow,
       fastfloat.Parse slow ("-"%char :: str "007") =
         (PrimFloat.opp (float64_of_Z (decimal (str "007") 0)), None) /\
       fastfloat.ParseBestEffort slow ("-"%char :: str "007") =
         PrimFloat.opp (float64_of_Z (decimal (str "007") 0))))).
Proof.
  split; [reflexivity|]. split; [discriminate|].
  apply (decoders_decimal_value (str "007")); [reflexivity|discriminate].
Defined.

(** ** Unescaping, escape sequence by escape sequence *)

Lemma unescape_loop_prefix fuel : forall p b s,
  unescape_loop fuel (p ++ b) s = p ++ unescape_loop fuel b s.
Proof.
  induction fuel as [|fuel IH]; intros p b s.
  - destruct s; reflexivity.
  - destruct s as [|ch s1]; [reflexivity|]. cbn [unescape_loop].
    destruct (unescape_one ch s1) as [out s2].
    destruct (IndexByte s2 92 <? 0).
    + now rewrite <- !app_assoc.
    + rewrite <- !app_assoc. apply IH.
Qed.

Lemma IndexByte_backslash_after a rest :
  IndexByte a 92 < 0 -> IndexByte (a ++ backslash :: rest) 92 = len a.
Proof.
  intros H. rewrite (IndexByte_app_miss a (backslash :: rest) 92 H).
  cbn [IndexByte]. change (is_byte 92 backslash) with true. cbv iota.
  change (0 <? 0) with false. cbv iota. lia.
Qed.

(** X22.  [unescapeStringBestEffort] works escape sequence by escape
    sequence: the bytes before the first backslash are copied as they are,
    the sequence behind it is decoded by the switch of the loop, and what
    is left is unescaped the same way.  A string without a backslash is
    returned as it is, and a backslash at the very end is dropped. *)
Theorem unescape_by_segments (a : gostring) :
  IndexByte a 92 < 0 ->
  unescapeStringBestEffort a = a /\
  unescapeStringBestEffort (a ++ [backslash]) = a /\
  (forall ch rest,
     unescapeStringBestEffort (a ++ backslash :: ch :: rest) =
     a ++ fst (unescape_one ch rest) ++
       unescapeStringBestEffort (snd (unescape_one ch rest))).
Proof.
  intros Ha. split; [|split].
  - apply unescape_no_backslash. now apply Z.ltb_lt.
  - unfold unescapeStringBestEffort. rewrite (IndexByte_backslash_after a [] Ha).
    pose proof (len_nonneg a) as Hn.
    replace (len a <? 0) with false by (symmetry; apply Z.ltb_ge; lia).
    rewrite upto_app, from_app_plus. now destruct (List.length (a ++ [backslash])).
  - intros ch rest. unfold unescapeStringBestEffort at 1.
    rewrite (IndexByte_backslash_after a (ch :: rest) Ha).
    pose proof (len_nonneg a) as Hn.
    replace (len a <? 0) with false by (symmetry; apply Z.ltb_ge; lia).
    rewrite upto_app, from_app_plus.
    rewrite length_app. cbn [List.length].
    replace (List.length a + S (S (List.length rest)))%nat
      with (S (List.length a + 1 + List.length rest)) by lia.
    cbn [unescape_loop].
    destruct (unescape_one ch rest) as [out s2] eqn:E. cbn [fst snd].
    apply length_unescape_one in E.
    unfold unescapeStringBestEffort.
    destruct (IndexByte s2 92 <? 0).
    + now rewrite <- app_assoc.
    + rewrite <- app_assoc, unescape_loop_prefix. rewrite unescape_loop_prefix.
      do 2 f_equal.
      pose proof (length_from (IndexByte s2 92 + 1) s2).
      apply unescape_loop_fuel; lia.
Qed.

Lemma unescape_by_segments_witness :
  IndexByte (str "ab") 92 < 0 /\
  (unescapeStringBestEffort (str "ab") = str "ab" /\
   unescapeStringBestEffort (str "ab" ++ [backslash]) = str "ab" /\
   (forall ch rest,
      unescapeStringBestEffort (str "ab" ++ backslash :: ch :: rest) =
      str "ab" ++ fst (unescape_one ch rest) ++
        unescapeStringBestEffort (snd (unescape_one ch rest)))).
Proof.
  split; [cbn; lia|]. apply (unescape_by_segments (str "ab")). cbn. lia.
Defined.

Example unescape_run :
  unescapeStringBestEffort (str "a" ++ [backslash] ++ str "nb" ++ [backslash] ++ str "u0041" ++
                            [backslash] ++ str "q" ++ [backslash] ++ str "u12" ++ [backslash])
  = str "a" ++ [byte_of 10] ++ str "bA" ++ [backslash] ++ str "q" ++ [backslash] ++ str "u12".
Proof. vm_compute. reflexivity. Qed.

(** ** Strings that need no escaping *)

Lemma no_control_char s :
  existsb (fun c => code c <? 32) s = false -> control_char s = None.
Proof.
  induction s as [|c s IH]; cbn [existsb control_char]; [reflexivity|].
  intros H. apply orb_false_iff in H. destruct H as [-> H]. now apply IH.
Qed.

Lemma hasSpecialChars_false s :
  hasSpecialChars s = false ->
  IndexByte s 34 < 0 /\ IndexByte s 92 < 0 /\ control_char s = None.
Proof.
  unfold hasSpecialChars. intros H.
  apply orb_false_iff in H. destruct H as [H H3].
  apply orb_false_iff in H. destruct H as [H1 H2].
  apply Z.leb_gt in H1, H2. split; [exact H1|]. split; [exact H2|now apply no_control_char].
Qed.

(** X23.  A string without a quote, a backslash or a byte below 0x20 goes
    through the serializer and back unchanged: [MarshalTo] writes it
    between two quotes without a call of [strconv.AppendQuote], [Validate]
    accepts the text, and [Parser.Parse] returns a value whose
    [StringBytes] is the string and whose text is the same text again. *)
Theorem String_value_round_trip
    (AppendQuote : gostring -> gostring -> gostring)
    (startEndString : gostring -> gostring) (s : gostring) :
  hasSpecialChars s = false ->
  MarshalTo AppendQuote (VString s) [] = [quote] ++ s ++ [quote] /\
  Validate startEndString (MarshalTo AppendQuote (VString s) []) = None /\
  exists y,
    Parser_Parse MaxDepth startEndString (MarshalTo AppendQuote (VString s) []) = inl y /\
    Value_StringBytes y = (s, None) /\
    MarshalTo AppendQuote y [] = MarshalTo AppendQuote (VString s) [].
Proof.
  intros H. destruct (hasSpecialChars_false s H) as (Hq & Hb & Hc).
  assert (Hm : MarshalTo AppendQuote (VString s) [] = [quote] ++ s ++ [quote]).
  { cbn [MarshalTo]. unfold escapeString. now rewrite H. }
  rewrite Hm. split; [reflexivity|]. split.
  - rewrite (Validate_plain startEndString s Hq Hb). now rewrite Hc.
  - exists (VRawString s). split; [now apply Parse_plain|]. split; [|reflexivity].
    unfold Value_StringBytes, string_text. cbn [Value_Type].
    rewrite unescape_no_backslash by (now apply Z.ltb_lt). reflexivity.
Qed.

Lemma String_value_round_trip_witness :
  hasSpecialChars (str "a b") = false /\
  (MarshalTo (fun dst _ => dst) (VString (str "a b")) [] = [quote] ++ str "a b" ++ [quote] /\
   Validate (fun tail => tail) (MarshalTo (fun dst _ => dst) (VString (str "a b")) []) = None /\
   exists y,
     Parser_Parse MaxDepth (fun tail => tail)
       (MarshalTo (fun dst _ => dst) (VString (str "a b")) []) = inl y /\
     Value_StringBytes y = (str "a b", None) /\
     MarshalTo (fun dst _ => dst) y [] = MarshalTo (fun dst _ => dst) (VString (str "a b")) []).
Proof.
  split; [reflexivity|].
  apply (String_value_round_trip (fun dst _ => dst) (fun tail => tail) (str "a b")).
  reflexivity.
Defined.

(** * Lookups, the float decoder, string literals and paths *)

(** ** C7 *)

Lemma Object_Get_after_miss o key key' :
  fst (Object_Get o key') = None ->
  fst (Object_Get (snd (Object_Get o key')) key) = first_match (logical_key o) (kvs o) key.
Proof.
  intros Hmiss.
  assert (Hsnd : snd (Object_Get o key') = unescapeKeys o).
  { unfold Object_Get in *.
    destruct (if negb (keysUnescaped o) && (IndexByte key' 92 <? 0)
              then scan_kvs (kvs o) key' else None) as [x|]; [discriminate Hmiss|reflexivity]. }
  rewrite Hsnd, Object_Get_unescaped by apply keysUnescaped_unescapeKeys.
  apply scan_unescaped.
Qed.

(** C7.  [Object.Get] does not always return the first match.  In the
    object parsed from the document with the members [u0061 : 1] and
    [a : 2], the first key written as the escape of the letter a, so that
    the two keys are the same key, [Get("a")] returns 2, the value of the
    second entry: the scan of the raw keys, which runs first, passes over
    the escaped spelling of the first.  The scan of the unescaped keys,
    which the same function runs when the raw one finds nothing, returns
    the first match; so after any lookup that has found nothing,
    [Get("a")] on the same object returns 1, and so for every object and
    key.  Where no stored key holds a backslash, or the keys are unescaped
    already, [Get] returns the first match as claimed, and [Object.Visit]
    calls its callback on every entry, duplicates included, in insertion
    order. *)
Theorem Object_Get_raw_scan_skips_first_match :
  (exists o,
     Parser_Parse MaxDepth (fun tail => tail) escaped_duplicate = inl (VObject o) /\
     map (logical_key o) (kvs o) = [str "a"; str "a"] /\
     first_match (logical_key o) (kvs o) (str "a") = Some (VNumber (str "1")) /\
     fst (Object_Get o (str "a")) = Some (VNumber (str "2")) /\
     fst (Object_Get (snd (Object_Get o (str "b"))) (str "a")) = Some (VNumber (str "1"))) /\
  (forall o key key',
     fst (Object_Get o key') = None ->
     fst (Object_Get (snd (Object_Get o key')) key) =
     first_match (logical_key o) (kvs o) key) /\
  (forall o key,
     keysUnescaped o = true \/
     (forall e, In e (kvs o) -> (IndexByte (k e) 92 <? 0) = true) ->
     fst (Object_Get o key) = first_match (logical_key o) (kvs o) key) /\
  (forall o (S : Type) (f : gostring -> Value -> S -> S) (st : S),
     fst (Object_Visit o f st) =
     fold_left (fun st e => f (logical_key o e) (v e) st) (kvs o) st) /\
  (forall o,
     fst (Object_Visit o (fun key x seen => seen ++ [(key, x)]) []) =
     map (fun e => (logical_key o e, v e)) (kvs o)).
Proof.
  assert (HV : forall o (S : Type) (f : gostring -> Value -> S -> S) (st : S),
     fst (Object_Visit o f st) =
     fold_left (fun st e => f (logical_key o e) (v e) st) (kvs o) st).
  { intros o S f st. unfold Object_Visit. cbn [fst]. unfold unescapeKeys, logical_key.
    destruct (keysUnescaped o); [reflexivity|]. cbn [kvs].
    revert st. induction (kvs o) as [|e l IH]; intros st; cbn [map fold_left]; [reflexivity|].
    cbn [k v]. apply IH. }
  split; [eexists; repeat split; reflexivity|].
  split; [intros o key key'; apply Object_Get_after_miss|].
  split; [|split; [exact HV|]].
  - intros o key Hk. rewrite Object_Get_value.
    destruct (negb (keysUnescaped o) && (IndexByte key 92 <? 0)) eqn:E; [|reflexivity].
    apply andb_prop in E. destruct E as [E1 E2]. apply negb_true_iff in E1.
    destruct Hk as [Hk|Hk]; [congruence|].
    assert (Heq : first_match k (kvs o) key = first_match (logical_key o) (kvs o) key).
    { apply first_match_ext. intros e He. unfold logical_key. rewrite E1.
      symmetry. apply unescape_no_backslash. now apply Hk. }
    rewrite Heq. now destruct (first_match (logical_key o) (kvs o) key).
  - intros o. rewrite HV.
    apply (fold_left_collect (fun e => (logical_key o e, v e)) (kvs o) []).
Qed.

(** ** C1 *)

Lemma int_loop_digits_then wrap ds rest i :
  wide wrap -> forallb is_digit ds = true -> no_digit_ahead rest = true ->
  0 <= i -> i + len ds <= 18 ->
  fastfloat.int_loop wrap (ds ++ rest) i 0 = Some (i + len ds, decimal ds 0).
Proof.
  intros Hw Hd Hr Hi Hlen.
  pose proof (leading_digits_app ds rest Hd Hr) as Hl.
  pose proof (len_nonneg ds) as Hn.
  assert (H0 : 0 <= 0 < 10 ^ i) by (split; [lia|apply Z.pow_pos_nonneg; lia]).
  destruct (fastfloat.int_loop wrap (ds ++ rest) i 0) as [[i' d']|] eqn:E.
  - destruct (int_loop_Some wrap (ds ++ rest) Hw i 0 i' d' ltac:(lia) H0 E) as (Hi' & _ & Hd' & _).
    rewrite Hl in Hi', Hd'. rewrite upto_app in Hd'. now subst i' d'.
  - apply int_loop_None in E; lia.
Qed.

Lemma Parse_scan_elided_fraction (minus : bool) ds :
  forallb is_digit ds = true -> ds <> [] -> len ds <= 17 ->
  fastfloat.Parse_scan ((if minus then str "-" else []) ++ ds ++ str ".") =
  fastfloat.Own (float64_of_Z (decimal ds 0), None).
Proof.
  intros Hd Hne Hlen. destruct ds as [|c ds']; [congruence|].
  set (ds := c :: ds') in *.
  assert (Hpos : 1 <= len ds) by (unfold ds; rewrite len_cons; pose proof (len_nonneg ds'); lia).
  assert (Hc : is_digit c = true) by (cbn [forallb] in Hd; apply andb_prop in Hd; tauto).
  pose proof (is_digit_range c Hc) as Hr.
  assert (Hc45 : is_byte 45 c = false) by (unfold is_byte; apply Z.eqb_neq; lia).
  assert (Hc46 : is_byte 46 c = false) by (unfold is_byte; apply Z.eqb_neq; lia).
  assert (Hlens : len (ds ++ str ".") = len ds + 1) by (rewrite len_app; reflexivity).
  unfold fastfloat.Parse_scan, fastfloat.lone_dot. destruct minus.
  - change (str "-" ++ ds ++ str ".") with ("-"%char :: ds ++ str ".").
    rewrite len_pos_cons, at_0. change (is_byte 45 "-"%char) with true. cbv zeta.
    change (if true then 1 else 0) with 1.
    rewrite len_cons, Hlens.
    replace (1 + (len ds + 1) <=? 1) with false by (symmetry; apply Z.leb_gt; lia).
    change (at_ ("-"%char :: ds ++ str ".") 1) with c. rewrite Hc46. cbn [andb].
    rewrite from_1.
    rewrite (int_loop_digits_then uint64 ds (str ".") 1 uint64_wide Hd eq_refl) by lia.
    replace (1 + len ds <=? 1) with false by (symmetry; apply Z.leb_gt; lia).
    cbn [andb].
    replace (1 + (len ds + 1) <=? 1 + len ds) with false by (symmetry; apply Z.leb_gt; lia).
    unfold fastfloat.Parse_fraction.
    replace (at_ ("-"%char :: ds ++ str ".") (1 + len ds)) with "."%char
      by (symmetry; rewrite <- (len_cons "-"%char ds);
          apply (at_app ("-"%char :: ds) "."%char [])).
    change (is_byte 46 "."%char) with true. cbv zeta iota.
    rewrite len_cons, Hlens.
    replace (1 + (len ds + 1) <=? 1 + len ds + 1) with true by (symmetry; apply Z.leb_le; lia).
    reflexivity.
  - change ([] ++ ds ++ str ".") with (ds ++ str ".").
    replace (len (ds ++ str ".") =? 0) with false by (symmetry; apply Z.eqb_neq; lia).
    change (at_ (ds ++ str ".") 0) with c. rewrite Hc45. cbv zeta. cbn [andb].
    change (if false then 1 else 0) with 0.
    change (at_ (ds ++ str ".") 0) with c. rewrite Hc46. cbn [andb]. change (from 0 (ds ++ str ".")) with (ds ++ str ".").
    rewrite (int_loop_digits_then uint64 ds (str ".") 0 uint64_wide Hd eq_refl) by lia.
    cbn [Z.add].
    replace (len ds <=? 0) with false by (symmetry; apply Z.leb_gt; lia).
    cbn [andb]. rewrite Hlens.
    replace (len ds + 1 <=? len ds) with false by (symmetry; apply Z.leb_gt; lia).
    unfold fastfloat.Parse_fraction.
    replace (at_ (ds ++ str ".") (len ds)) with "."%char
      by (symmetry; apply (at_app ds "."%char [])).
    change (is_byte 46 "."%char) with true. cbv zeta iota.
    rewrite Hlens, Z.leb_refl. reflexivity.
Qed.

(** C1.  The integer decoders agree with the library: where [ParseUint64]
    and [ParseInt64] return no error they return the value of
    [strconv.ParseUint(s, 10, 64)] and [strconv.ParseInt(s, 10, 64)].
    [Parse] does not agree with [strconv.ParseFloat(s, 64)]: on a minus,
    one to seventeen digits and a dot with nothing behind it, it returns
    the value of the digits without the minus, the value it returns for the
    same digits and dot without a minus, where on the minus and the digits
    alone it returns the negated value.  On [-5.] it returns 5 and the
    library -5, neither with an error.  On [3e-5] its value is greater than
    the library's. *)
Theorem Parse_loses_minus_before_elided_fraction :
  (forall s v,
      fastfloat.ParseUint64 strconv.ParseUint s = (v, None) ->
      strconv.ParseUint s = (v, None)) /\
  (forall s v,
      fastfloat.ParseInt64 strconv.ParseInt s = (v, None) ->
      strconv.ParseInt s = (v, None)) /\
  (forall ds slow,
      forallb is_digit ds = true -> ds <> [] -> len ds <= 17 ->
      fastfloat.Parse slow (str "-" ++ ds ++ str ".") = (float64_of_Z (decimal ds 0), None) /\
      fastfloat.Parse slow (ds ++ str ".") = (float64_of_Z (decimal ds 0), None) /\
      fastfloat.Parse slow (str "-" ++ ds) =
        (PrimFloat.opp (float64_of_Z (decimal ds 0)), None)) /\
  (fastfloat.Parse strconv.ParseFloat (str "-5.") = (float64_of_Z 5, None) /\
   strconv.ParseFloat (str "-5.") = (PrimFloat.opp (float64_of_Z 5), None) /\
   PrimFloat.ltb (PrimFloat.opp (float64_of_Z 5)) (float64_of_Z 5) = true) /\
  (snd (fastfloat.Parse strconv.ParseFloat (str "3e-5")) = None /\
   snd (strconv.ParseFloat (str "3e-5")) = None /\
   PrimFloat.ltb (fst (strconv.ParseFloat (str "3e-5")))
                 (fst (fastfloat.Parse strconv.ParseFloat (str "3e-5"))) = true).
Proof.
  split; [intros s v; apply ParseUint64_sound; auto|].
  split; [intros s v; apply ParseInt64_sound; auto|].
  split; [|split; repeat split; reflexivity].
  intros ds slow Hd Hne Hlen. unfold fastfloat.Parse.
  pose proof (Parse_scan_elided_fraction true ds Hd Hne Hlen) as H1.
  pose proof (Parse_scan_elided_fraction false ds Hd Hne Hlen) as H2.
  cbn [app] in H2. rewrite H1, H2.
  change (str "-" ++ ds) with ("-"%char :: ds).
  rewrite (Parse_scan_minus_digits ds Hd Hne Hlen). repeat split; reflexivity.
Qed.

(** ** C6 *)

Lemma IndexByte_cons_miss c a z :
  IndexByte (c :: a) z < 0 -> is_byte z c = false /\ IndexByte a z < 0.
Proof.
  cbn [IndexByte]. destruct (is_byte z c); [lia|]. cbv zeta.
  destruct (IndexByte a z <? 0) eqn:E; [apply Z.ltb_lt in E; tauto|].
  apply Z.ltb_ge in E. lia.
Qed.

(** The first quote of [m ++ quote :: t], with what stands before it free
    of quotes. *)
Lemma first_quote_split m :
  (IndexByte m 34 < 0 /\ IndexByte (m ++ [quote]) 34 = len m) \/
  exists m1 m2, m = m1 ++ quote :: m2 /\ IndexByte m1 34 < 0 /\
                IndexByte (m ++ [quote]) 34 = len m1.
Proof.
  destruct (Z_lt_le_dec (IndexByte m 34) 0) as [Hlt|Hge].
  - left. split; [exact Hlt|]. now rewrite (IndexByte_body m [] Hlt).
  - right. exists (upto (IndexByte m 34) m), (from (IndexByte m 34 + 1) m).
    pose proof (IndexByte_bounds m 34) as Hb.
    split; [now apply quote_split|]. split.
    + clear Hb. induction m as [|x m IH]; [cbn in Hge; lia|].
      cbn [IndexByte] in *. destruct (is_byte 34 x) eqn:Ex; [cbn; lia|]. cbv zeta in *.
      destruct (IndexByte m 34 <? 0) eqn:E; [lia|]. apply Z.ltb_ge in E.
      replace (upto (IndexByte m 34 + 1) (x :: m)) with (x :: upto (IndexByte m 34) m)
        by (rewrite Z.add_comm; symmetry; now apply upto_succ).
      cbn [IndexByte]. rewrite Ex. cbv zeta.
      specialize (IH E).
      now replace (IndexByte (upto (IndexByte m 34) m) 34 <? 0) with true
        by (symmetry; apply Z.ltb_lt; exact IH).
    + rewrite (IndexByte_app_hit m [quote] 34 Hge). rewrite len_upto; lia.
Qed.

Lemma raw_from_app a : forall esc b,
  IndexByte a 34 < 0 -> raw_from esc (a ++ b) = raw_from (esc_after esc a) b.
Proof.
  induction a as [|c a IH]; intros esc b H; [reflexivity|].
  apply IndexByte_cons_miss in H. destruct H as [Hc Ha].
  cbn [app raw_from esc_after]. destruct esc; [now apply IH|].
  destruct (is_byte 92 c); [now apply IH|]. rewrite Hc. now apply IH.
Qed.

Lemma esc_after_app a : forall esc b,
  esc_after esc (a ++ b) = esc_after (esc_after esc a) b.
Proof.
  induction a as [|c a IH]; intros esc b; [reflexivity|]. cbn [app esc_after]. apply IH.
Qed.

Lemma esc_after_backslashes r : forall esc,
  esc_after esc (repeat backslash r) = if Nat.even r then esc else negb esc.
Proof.
  induction r as [|r IH]; intros esc; [reflexivity|].
  cbn [repeat esc_after]. change (is_byte 92 backslash) with true.
  rewrite IH, Nat.even_succ, <- Nat.negb_even.
  destruct (Nat.even r), esc; reflexivity.
Qed.

Lemma esc_after_snoc a c esc : is_byte 92 c = false -> esc_after esc (a ++ [c]) = false.
Proof.
  intros Hc. rewrite esc_after_app. cbn [esc_after]. rewrite Hc.
  now destruct (esc_after esc a).
Qed.

(** A string is a run of backslashes after a string that does not end with
    one. *)
Lemma trailing_backslashes a :
  exists a0 r, a = a0 ++ repeat backslash r /\
    (a0 = [] \/ exists a1 c, a0 = a1 ++ [c] /\ is_byte 92 c = false).
Proof.
  induction a as [|c a IH] using rev_ind.
  - exists [], O. split; [reflexivity|now left].
  - destruct (is_byte 92 c) eqn:Ec.
    + destruct IH as (a0 & r & -> & H0). exists a0, (S r). split; [|exact H0].
      apply is_byte_eq in Ec; [|lia]. rewrite Ec. change (byte_of 92) with backslash.
      rewrite <- app_assoc. f_equal. change [backslash] with (repeat backslash 1).
      rewrite <- repeat_app. f_equal. lia.
    + exists (a ++ [c]), O. split; [now rewrite app_nil_r|]. right. now exists a, c.
Qed.

Lemma nth_repeat_lt {A} (x d : A) r rest j :
  (j < r)%nat -> nth j (repeat x r ++ rest) d = x.
Proof.
  revert j. induction r as [|r IH]; intros j Hj; [lia|].
  destruct j as [|j]; [reflexivity|]. cbn [repeat app nth]. apply IH. lia.
Qed.

Lemma backslash_run_trailing a0 r rest :
  (a0 = [] \/ exists a1 c, a0 = a1 ++ [c] /\ is_byte 92 c = false) ->
  forall j, (j <= r)%nat ->
  backslash_run (a0 ++ repeat backslash r ++ rest) (List.length a0 + j) = List.length a0.
Proof.
  intros H0 j. induction j as [|j IH]; intros Hj.
  - rewrite Nat.add_0_r. destruct H0 as [->|(a1 & c & -> & Hc)]; [reflexivity|].
    rewrite length_app. cbn [List.length]. rewrite Nat.add_1_r. cbn [backslash_run].
    rewrite <- !app_assoc. rewrite app_nth2 by lia. rewrite Nat.sub_diag. cbn [app nth].
    now rewrite Hc.
  - replace (List.length a0 + S j)%nat with (S (List.length a0 + j)) by lia.
    cbn [backslash_run]. rewrite app_nth2 by lia.
    replace (List.length a0 + j - List.length a0)%nat with j by lia.
    rewrite nth_repeat_lt by lia. change (is_byte 92 backslash) with true.
    apply IH. lia.
Qed.

Lemma even_mod2 r : (Z.of_nat r mod 2 =? 0) = Nat.even r.
Proof.
  destruct (Nat.even r) eqn:E.
  - apply Nat.even_spec in E. destruct E as [q ->]. apply Z.eqb_eq.
    rewrite Nat2Z.inj_mul, Z.mul_comm. apply Z_mod_mult.
  - apply Z.eqb_neq. rewrite <- Nat.negb_odd in E. apply negb_false_iff, Nat.odd_spec in E.
    destruct E as [q ->]. rewrite Nat2Z.inj_add, Nat2Z.inj_mul.
    rewrite Z.add_comm, Z.mul_comm, Z_mod_plus_full. cbn. lia.
Qed.

(** The count of the backslashes before a quote, as the inner loop of
    [parseRawString] takes it from the right, against the pairing of the
    bytes from the left: the quote is escaped exactly when the count is
    odd. *)
Lemma run_parity a t :
  0 < len a -> is_byte 92 (at_ a (len a - 1)) = true ->
  ((len a - Z.of_nat (backslash_run (a ++ t) (Z.to_nat (len a - 1)))) mod 2 =? 0) =
  negb (esc_after false a).
Proof.
  intros Hpos Hlast. destruct (trailing_backslashes a) as (a0 & r & Ha & H0).
  assert (Hr : (1 <= r)%nat).
  { destruct r as [|r]; [|lia]. exfalso. cbn [repeat] in Ha. rewrite app_nil_r in Ha. subst a0.
    destruct H0 as [->|(a1 & c & -> & Hc)]; [cbn in Hpos; lia|].
    unfold at_, len in Hlast. rewrite length_app in Hlast. cbn [List.length] in Hlast.
    rewrite app_nth2 in Hlast by lia.
    replace (Z.to_nat (Z.of_nat (List.length a1 + 1) - 1) - List.length a1)%nat with O
      in Hlast by lia.
    cbn [nth] in Hlast. congruence. }
  assert (Hlen : List.length a = (List.length a0 + r)%nat)
    by (rewrite Ha, length_app, repeat_length; reflexivity).
  assert (Hesc : esc_after false a = negb (Nat.even r)).
  { rewrite Ha, esc_after_app, esc_after_backslashes.
    destruct H0 as [->|(a1 & c & -> & Hc)].
    - cbn [esc_after]. now destruct (Nat.even r).
    - rewrite (esc_after_snoc a1 c false Hc). now destruct (Nat.even r). }
  rewrite Hesc, negb_involutive, <- even_mod2.
  replace (Z.to_nat (len a - 1)) with (List.length a0 + (r - 1))%nat by (unfold len; lia).
  rewrite Ha, <- app_assoc, (backslash_run_trailing a0 r t H0) by lia.
  f_equal. f_equal. unfold len. rewrite length_app, repeat_length. lia.
Qed.

Lemma esc_after_last a :
  esc_after false a = true -> 0 < len a /\ is_byte 92 (at_ a (len a - 1)) = true.
Proof.
  intros H. destruct (trailing_backslashes a) as (a0 & r & Ha & H0).
  assert (Hesc : esc_after false a = negb (Nat.even r)).
  { rewrite Ha, esc_after_app, esc_after_backslashes.
    destruct H0 as [->|(a1 & c & -> & Hc)].
    - cbn [esc_after]. now destruct (Nat.even r).
    - rewrite (esc_after_snoc a1 c false Hc). now destruct (Nat.even r). }
  rewrite Hesc in H. destruct r as [|r]; [discriminate H|].
  assert (Hlen : List.length a = (List.length a0 + S r)%nat)
    by (rewrite Ha, length_app, repeat_length; reflexivity).
  split; [unfold len; lia|].
  unfold at_, len.
  replace (Z.to_nat (Z.of_nat (List.length a) - 1)) with (List.length a0 + r)%nat by lia.
  rewrite Ha, app_nth2 by lia.
  replace (List.length a0 + r - List.length a0)%nat with r by lia.
  rewrite <- (app_nil_r (repeat backslash (S r))). now rewrite nth_repeat_lt by lia.
Qed.

(** What a body is around its first quote. *)
Lemma raw_body_first_quote m :
  raw_body m = true ->
  (IndexByte m 34 < 0 /\ IndexByte (m ++ [quote]) 34 = len m /\ esc_after false m = false) \/
  exists m1 m2, m = m1 ++ quote :: m2 /\ IndexByte m1 34 < 0 /\
    IndexByte (m ++ [quote]) 34 = len m1 /\ esc_after false m1 = true /\ raw_body m2 = true.
Proof.
  unfold raw_body. intros H.
  destruct (first_quote_split m) as [[Hq En]|(m1 & m2 & Em & Hq & En)].
  - left. split; [exact Hq|]. split; [exact En|].
    rewrite <- (app_nil_r m), raw_from_app in H by exact Hq. cbn [raw_from] in H.
    now apply negb_true_iff in H.
  - right. exists m1, m2. split; [exact Em|]. split; [exact Hq|]. split; [exact En|].
    rewrite Em, raw_from_app in H by exact Hq.
    destruct (esc_after false m1); cbn [raw_from] in H; [now split|].
    change (is_byte 92 quote) with false in H. change (is_byte 34 quote) with true in H.
    discriminate H.
Qed.

(** A quote that [parseRawString] takes for the closing one at once, for
    want of a backslash before it, is the quote behind the body. *)
Lemma unescaped_quote_closes m :
  raw_body m = true ->
  (IndexByte (m ++ [quote]) 34 =? 0) ||
    negb (is_byte 92 (at_ m (IndexByte (m ++ [quote]) 34 - 1))) = true ->
  IndexByte (m ++ [quote]) 34 = len m.
Proof.
  intros Hm H. destruct (raw_body_first_quote m Hm) as [(_ & En & _)|(m1 & m2 & Em & Hq & En & He & _)];
    [exact En|].
  exfalso. destruct (esc_after_last m1 He) as [Hpos Hlast].
  rewrite En in H. replace (len m1 =? 0) with false in H by (symmetry; apply Z.eqb_neq; lia).
  rewrite Em, at_app_lt, Hlast in H by lia. discriminate H.
Qed.

Lemma at_before_quote m t j : 0 <= j < len m -> at_ (m ++ quote :: t) j = at_ m j.
Proof. apply at_app_lt. Qed.

(** The slow path of [parseRawString] on a body, a quote and a tail,
    entered at the first quote of the body, which is escaped. *)
Lemma parseRawString_loop_body fuel : forall pre m t,
  raw_body m = true -> (List.length m < fuel)%nat ->
  0 < IndexByte (m ++ [quote]) 34 ->
  is_byte 92 (at_ m (IndexByte (m ++ [quote]) 34 - 1)) = true ->
  parseRawString_loop fuel (pre ++ m ++ quote :: t) (m ++ quote :: t)
    (IndexByte (m ++ [quote]) 34) = (pre ++ m, t, None).
Proof.
  induction fuel as [|fuel IH]; intros pre m t Hm Hf Hn Hlast; [lia|].
  cbn [parseRawString_loop].
  assert (Hlen : forall m' t', len (pre ++ m ++ quote :: t) - len (m' ++ quote :: t') =
                               len pre + len m - len m' + len t - len t').
  { intros m' t'. rewrite !len_app, !len_cons. lia. }
  destruct (raw_body_first_quote m Hm) as [(Hq & En & He)|(m1 & m2 & Em & Hq & En & He & Hm2)].
  - rewrite En in *. rewrite (run_parity m (quote :: t) Hn Hlast), He. cbn [negb].
    rewrite Hlen. replace (len pre + len m - len m + len t - len t + len m)
      with (len (pre ++ m)) by (rewrite len_app; lia).
    rewrite app_assoc, upto_app, from_app_plus. reflexivity.
  - rewrite En in *.
    assert (Hrun : backslash_run (m ++ quote :: t) (Z.to_nat (len m1 - 1)) =
                   backslash_run (m1 ++ quote :: m2 ++ quote :: t) (Z.to_nat (len m1 - 1))).
    { rewrite Em, <- app_assoc. reflexivity. }
    rewrite Hrun, (run_parity m1 (quote :: m2 ++ quote :: t) Hn), He.
    2:{ rewrite Em, at_app_lt in Hlast by lia. exact Hlast. }
    cbn [negb]. cbv zeta.
    assert (Hfrom : from (len m1 + 1) (m ++ quote :: t) = m2 ++ quote :: t).
    { rewrite Em, <- app_assoc. cbn [app]. apply from_app_plus. }
    rewrite Hfrom, IndexByte_quote_tail.
    pose proof (IndexByte_quote_snoc m2) as Hb2.
    set (n2 := IndexByte (m2 ++ [quote]) 34) in *.
    replace (n2 <? 0) with false by (symmetry; apply Z.ltb_ge; lia).
    assert (Hss : pre ++ m ++ quote :: t = (pre ++ m1 ++ [quote]) ++ m2 ++ quote :: t).
    { rewrite Em, <- !app_assoc. reflexivity. }
    assert (Hpm : pre ++ m = (pre ++ m1 ++ [quote]) ++ m2).
    { rewrite Em, <- !app_assoc. reflexivity. }
    assert (Hat : (n2 =? 0) || negb (is_byte 92 (at_ (m2 ++ quote :: t) (n2 - 1))) =
                  (n2 =? 0) || negb (is_byte 92 (at_ m2 (n2 - 1)))).
    { destruct (n2 =? 0) eqn:E0; [reflexivity|]. apply Z.eqb_neq in E0.
      cbn [orb]. rewrite at_app_lt by lia. reflexivity. }
    rewrite Hat.
    destruct ((n2 =? 0) || negb (is_byte 92 (at_ m2 (n2 - 1)))) eqn:Efast.
    + pose proof (unescaped_quote_closes m2 Hm2 Efast) as E2. fold n2 in E2.
      rewrite E2, from_app_plus. rewrite Hss at 1 2.
      replace (len ((pre ++ m1 ++ [quote]) ++ m2 ++ quote :: t) - len (m2 ++ quote :: t) + len m2)
        with (len ((pre ++ m1 ++ [quote]) ++ m2)) by (rewrite !len_app, !len_cons; lia).
      rewrite (app_assoc (pre ++ m1 ++ [quote]) m2 (quote :: t)), upto_app, <- Hpm.
      reflexivity.
    + apply orb_false_iff in Efast. destruct Efast as [E0 Eb].
      apply Z.eqb_neq in E0. apply negb_false_iff in Eb.
      rewrite Hss, Hpm. apply IH; [exact Hm2| |lia|exact Eb].
      rewrite Em, length_app in Hf. cbn [List.length] in Hf. lia.
Qed.

(** [parseRawString] takes a body up to the quote behind it, whatever
    follows. *)
Lemma parseRawString_body body tail :
  raw_body body = true ->
  parseRawString (body ++ quote :: tail) = (body, tail, None).
Proof.
  intros Hm. unfold parseRawString. rewrite IndexByte_quote_tail.
  pose proof (IndexByte_quote_snoc body) as Hb.
  set (n := IndexByte (body ++ [quote]) 34) in *.
  replace (n <? 0) with false by (symmetry; apply Z.ltb_ge; lia).
  assert (Hat : (n =? 0) || negb (is_byte 92 (at_ (body ++ quote :: tail) (n - 1))) =
                (n =? 0) || negb (is_byte 92 (at_ body (n - 1)))).
  { destruct (n =? 0) eqn:E0; [reflexivity|]. apply Z.eqb_neq in E0.
    cbn [orb]. rewrite at_app_lt by lia. reflexivity. }
  rewrite Hat.
  destruct ((n =? 0) || negb (is_byte 92 (at_ body (n - 1)))) eqn:Efast.
  - pose proof (unescaped_quote_closes body Hm Efast) as E. fold n in E.
    rewrite E, upto_app, from_app_plus. reflexivity.
  - apply orb_false_iff in Efast. destruct Efast as [E0 Eb].
    apply Z.eqb_neq in E0. apply negb_false_iff in Eb.
    apply (parseRawString_loop_body _ [] body tail Hm); [|lia|exact Eb].
    rewrite length_app. cbn [List.length]. lia.
Qed.

Lemma parseValue_literal limit fuel body tail depth :
  raw_body body = true -> depth + 1 <= limit ->
  parseValue limit (S fuel) (quote :: body ++ quote :: tail) depth =
  Parsed (VRawString body) tail.
Proof.
  intros Hb Hd. cbn [parseValue].
  replace (limit <? depth + 1) with false by (symmetry; apply Z.ltb_ge; lia).
  change (is_byte 123 quote) with false. change (is_byte 91 quote) with false.
  change (is_byte 34 quote) with true. cbv iota.
  now rewrite (parseRawString_body body tail Hb).
Qed.

Lemma parseValue_never_string limit fuel s depth x tail :
  parseValue limit fuel s depth = Parsed x tail -> t x <> TypeString.
Proof.
  destruct fuel as [|fuel]; [discriminate|]. cbn [parseValue].
  destruct s as [|c s1]; [discriminate|].
  destruct (limit <? depth + 1); [discriminate|].
  destruct (is_byte 123 c).
  { destruct (parseObject limit fuel s1 (depth + 1)) as [y tl| |] eqn:E; try discriminate.
    intros H. injection H as -> ->. apply parse_containers in E. congruence. }
  destruct (is_byte 91 c).
  { destruct (parseArray limit fuel s1 (depth + 1)) as [y tl| |] eqn:E; try discriminate.
    intros H. injection H as -> ->. apply parse_containers in E. congruence. }
  destruct (is_byte 34 c).
  { destruct (parseRawString s1) as [[ss tl] [err|]]; [discriminate|].
    intros H. injection H as <- _. discriminate. }
  destruct (is_byte 116 c).
  { destruct (negb _); [discriminate|]. intros H. injection H as <- _. discriminate. }
  destruct (is_byte 102 c).
  { destruct (negb _); [discriminate|]. intros H. injection H as <- _. discriminate. }
  destruct (is_byte 110 c).
  { destruct (negb _).
    - destruct (_ && _); [|discriminate]. intros H. injection H as <- _. discriminate.
    - intros H. injection H as <- _. discriminate. }
  destruct (parseRawNumber (c :: s1)) as [[ns tl] [err|]]; [discriminate|].
  intros H. injection H as <- _. discriminate.
Qed.

Lemma Parse_literal (startEndString : gostring -> gostring) body :
  raw_body body = true ->
  Parser_Parse MaxDepth startEndString ([quote] ++ body ++ [quote]) = inl (VRawString body).
Proof.
  intros Hb. unfold Parser_Parse.
  assert (Hws : skipWS ([quote] ++ body ++ [quote]) = quote :: body ++ [quote])
    by (cbn [app]; apply skipWS_high; cbn; lia).
  rewrite Hws. unfold fuel_for.
  replace (3 * List.length (quote :: body ++ [quote]) + 3)%nat
    with (S (3 * List.length (quote :: body ++ [quote]) + 2)) by lia.
  rewrite (parseValue_literal MaxDepth _ body [] 0 Hb) by (unfold MaxDepth; lia).
  reflexivity.
Qed.

Lemma Parse_literal_in_array (startEndString : gostring -> gostring) body :
  raw_body body = true ->
  Parser_Parse MaxDepth startEndString (str "[" ++ [quote] ++ body ++ [quote] ++ str "]") =
  inl (VArray [VRawString body]).
Proof.
  intros Hb. unfold Parser_Parse.
  change (str "[" ++ [quote] ++ body ++ [quote] ++ str "]")
    with ("["%char :: quote :: body ++ quote :: str "]").
  rewrite skipWS_high by (cbn; lia). unfold fuel_for.
  replace (3 * List.length ("["%char :: quote :: body ++ quote :: str "]") + 3)%nat
    with (S (S (S (S (3 * List.length ("["%char :: quote :: body ++ quote :: str "]") - 1)))))
    by (cbn [List.length]; lia).
  set (fuel := (3 * List.length ("["%char :: quote :: body ++ quote :: str "]") - 1)%nat).
  cbn [parseValue]. change (MaxDepth <? 0 + 1) with false.
  change (is_byte 123 "["%char) with false. change (is_byte 91 "["%char) with true. cbv iota.
  cbn [parseArray]. rewrite skipWS_high by (cbn; lia).
  change (is_byte 93 quote) with false. cbv iota.
  cbn [parseArray_loop]. rewrite skipWS_high by (cbn; lia).
  rewrite (parseValue_literal MaxDepth fuel body (str "]") (0 + 1) Hb) by (unfold MaxDepth; lia).
  reflexivity.
Qed.

(** C6.  [MarshalTo] writes a value that is still a raw string as a quote,
    the payload as it is and a quote.  The parser holds every string
    literal raw: for every body of bytes other than a quote and a
    backslash and of pairs of a backslash and any byte, [parseValue] at
    whatever depth below the limit returns the raw string of the body from
    the body between two quotes, whatever follows, and [Parser.Parse] does
    so for the literal as a document and as the element of an array; the
    text [MarshalTo] writes for what is parsed is the input again, byte for
    byte, escapes included.  No value that [parseValue] returns is an
    unescaped string, and every raw string it returns is the bytes between
    the quotes it was read from. *)
Theorem raw_string_round_trips_byte_for_byte
  (AppendQuote : gostring -> gostring -> gostring)
  (startEndString : gostring -> gostring) :
  (forall raw dst,
     MarshalTo AppendQuote (VRawString raw) dst = dst ++ [quote] ++ raw ++ [quote]) /\
  (forall body tail fuel depth,
     raw_body body = true -> depth < MaxDepth ->
     parseValue MaxDepth (S fuel) ([quote] ++ body ++ [quote] ++ tail) depth =
       Parsed (VRawString body) tail /\
     [quote] ++ body ++ [quote] ++ tail = MarshalTo AppendQuote (VRawString body) [] ++ tail) /\
  (forall body,
     raw_body body = true ->
     Parser_Parse MaxDepth startEndString ([quote] ++ body ++ [quote]) =
       inl (VRawString body) /\
     MarshalTo AppendQuote (VRawString body) [] = [quote] ++ body ++ [quote] /\
     Parser_Parse MaxDepth startEndString (str "[" ++ [quote] ++ body ++ [quote] ++ str "]") =
       inl (VArray [VRawString body]) /\
     MarshalTo AppendQuote (VArray [VRawString body]) [] =
       str "[" ++ [quote] ++ body ++ [quote] ++ str "]") /\
  (raw_body escaped_body = true /\
   IndexByte escaped_body 34 = 2 /\ IndexByte escaped_body 92 = 1) /\
  (forall limit fuel s depth x tail,
     parseValue limit fuel s depth = Parsed x tail ->
     t x <> TypeString /\
     (t x = typeRawString -> s = MarshalTo AppendQuote x [] ++ tail)) /\
  (forall s x,
     Parser_Parse MaxDepth startEndString s = inl x -> t x = typeRawString ->
     exists tail,
       skipWS s = MarshalTo AppendQuote x [] ++ tail /\ skipWS tail = []).
Proof.
  split; [reflexivity|]. split; [|split; [|split; [|split]]].
  - intros body tail fuel depth Hb Hd. split.
    + apply parseValue_literal; [exact Hb|lia].
    + cbn [MarshalTo app]. now rewrite <- !app_assoc.
  - intros body Hb. split; [now apply Parse_literal|]. split; [reflexivity|].
    split; [now apply Parse_literal_in_array|].
    cbn [MarshalTo app]. change (str "[") with ["["%char]. cbn [app].
    now rewrite <- app_assoc.
  - repeat split; reflexivity.
  - intros limit fuel s depth x tail H. split; [eapply parseValue_never_string, H|].
    intros Ht. destruct (parseValue_raw_string _ _ _ _ _ _ H Ht) as (raw & -> & ->).
    cbn [MarshalTo app]. now rewrite <- !app_assoc.
  - intros s x. unfold Parser_Parse.
    destruct (parseValue MaxDepth (fuel_for (skipWS s)) (skipWS s) 0) as [y tail| |] eqn:E;
      try discriminate.
    destruct (0 <? len (skipWS tail)) eqn:El; [discriminate|].
    intros H Ht. injection H as ->. exists tail. split.
    + destruct (parseValue_raw_string _ _ _ _ _ _ E Ht) as (raw & -> & Hs).
      rewrite Hs. cbn [MarshalTo app]. now rewrite <- !app_assoc.
    + apply Z.ltb_ge in El. apply len_0_nil. pose proof (len_nonneg (skipWS tail)). lia.
Qed.

(** ** Paths *)

Lemma ParseUint_digits ds :
  forallb is_digit ds = true -> ds <> [] -> decimal ds 0 <= strconv.maxUint64 ->
  strconv.ParseUint ds = (decimal ds 0, None).
Proof.
  intros Hd Hne Hmax. unfold strconv.ParseUint. destruct ds as [|c ds']; [congruence|].
  now apply uint_loop_digits.
Qed.

Lemma pow2_63_max : 2 ^ 63 <= strconv.maxUint64.
Proof. unfold strconv.maxUint64. lia. Qed.

(** [strconv.Atoi] on decimal digits whose value fits an [int]. *)
Lemma Atoi_digits ds :
  forallb is_digit ds = true -> ds <> [] -> decimal ds 0 < 2 ^ 63 ->
  Atoi ds = (decimal ds 0, None).
Proof.
  intros Hd Hne Hmax. pose proof pow2_63_max as Hp.
  pose proof (decimal_bound ds 0 0 Hd ltac:(lia) ltac:(lia)) as Hb.
  pose proof (ParseUint_digits ds Hd Hne ltac:(lia)) as HU.
  unfold Atoi, strconv.ParseInt. destruct ds as [|c ds']; [congruence|].
  assert (Hc : is_digit c = true) by (cbn [forallb] in Hd; apply andb_prop in Hd; tauto).
  destruct (is_digit_not_sign c Hc) as [H43 H45]. rewrite H43, H45. cbn [orb]. cbv zeta.
  rewrite HU.
  replace (2 ^ 63 <=? decimal (c :: ds') 0) with false by (symmetry; apply Z.leb_gt; lia).
  cbn [negb andb]. cbv beta iota. unfold int.
  rewrite (int64_small (decimal (c :: ds') 0)) by lia.
  rewrite (int64_small (decimal (c :: ds') 0)) by lia. reflexivity.
Qed.

Lemma Atoi_minus_digits ds :
  forallb is_digit ds = true -> ds <> [] -> decimal ds 0 < 2 ^ 63 ->
  Atoi ("-"%char :: ds) = (- decimal ds 0, None).
Proof.
  intros Hd Hne Hmax. pose proof pow2_63_max as Hp.
  pose proof (decimal_bound ds 0 0 Hd ltac:(lia) ltac:(lia)) as Hb.
  unfold Atoi, strconv.ParseInt.
  change (is_byte 45 "-"%char) with true. change (is_byte 43 "-"%char) with false.
  cbn [orb]. cbv zeta. rewrite (ParseUint_digits ds Hd Hne) by lia.
  cbn [negb andb].
  replace (2 ^ 63 <? decimal ds 0) with false by (symmetry; apply Z.ltb_ge; lia).
  cbv beta iota. unfold int. rewrite (int64_small (decimal ds 0)) by lia.
  rewrite (int64_small (- decimal ds 0)) by lia.
  rewrite (int64_small (- decimal ds 0)) by lia. reflexivity.
Qed.

(** [strconv.Atoi] on a key with a byte that is neither a digit nor a
    sign. *)
Lemma Atoi_not_a_number key :
  existsb (fun c => negb (is_digit c || is_byte 43 c || is_byte 45 c)) key = true ->
  snd (Atoi key) <> None.
Proof.
  intros H.
  assert (Hu : forall s, existsb (fun c => negb (is_digit c || is_byte 43 c || is_byte 45 c)) s
                         = true ->
               forall v, strconv.ParseUint s <> (v, None)).
  { intros s Hs v Hv. unfold strconv.ParseUint in Hv. destruct s as [|c s]; [discriminate|].
    apply uint_loop_accepts in Hv. apply existsb_exists in Hs.
    destruct Hs as (x & Hin & Hx). rewrite forallb_forall in Hv. specialize (Hv x Hin).
    rewrite Hv in Hx. discriminate Hx. }
  assert (HI : snd (strconv.ParseInt key) <> None).
  { unfold strconv.ParseInt. destruct key as [|c s']; [discriminate|]. cbv zeta.
    set (s := if is_byte 43 c || is_byte 45 c then s' else c :: s').
    assert (Hs : existsb (fun c => negb (is_digit c || is_byte 43 c || is_byte 45 c)) s = true).
    { unfold s. destruct (is_byte 43 c || is_byte 45 c) eqn:E; [|exact H].
      cbn [existsb] in H. rewrite <- orb_assoc, E, orb_true_r in H. exact H. }
    destruct (strconv.ParseUint s) as [un [e|]] eqn:EU; [|now apply Hu in EU].
    destruct (ParseUint_error s un e EU) as [[-> ->]|[-> ->]]; [discriminate|].
    unfold strconv.maxUint64. destruct (is_byte 45 c); cbn; discriminate. }
  unfold Atoi. destruct (strconv.ParseInt key) as [n [e|]]; [|now elim HI].
  destruct e; discriminate.
Qed.

(** X6.  [Value.Get] follows a path key by key.  In an object a key leads
    to what [Object.Get] finds under it, and nowhere when that is nil.  In
    an array a key of decimal digits leads to the item at the index the
    digits denote, leading zeros included, and nowhere past the end; a
    minus before the digits of a number above 0, a byte that is neither a
    digit nor a sign, or no byte at all leads nowhere.  In any other value
    a key leads nowhere.  With no key the value itself is returned, and a
    path that is two paths, one after the other, leads where the second
    leads from where the first has led. *)
Theorem Value_Get_follows_path :
  (forall x, Value_Get x [] = Some x) /\
  (forall o key keys,
     Value_Get (VObject o) (key :: keys) =
     match fst (Object_Get o key) with
     | Some y => Value_Get y keys
     | None => None
     end) /\
  (forall a ds keys,
     forallb is_digit ds = true -> ds <> [] -> decimal ds 0 < 2 ^ 63 ->
     Value_Get (VArray a) (ds :: keys) =
     match nth_error a (Z.to_nat (decimal ds 0)) with
     | Some y => Value_Get y keys
     | None => None
     end) /\
  (forall a ds keys,
     forallb is_digit ds = true -> 0 < decimal ds 0 < 2 ^ 63 ->
     Value_Get (VArray a) (("-"%char :: ds) :: keys) = None) /\
  (forall a key keys,
     key = [] \/
     existsb (fun c => negb (is_digit c || is_byte 43 c || is_byte 45 c)) key = true ->
     Value_Get (VArray a) (key :: keys) = None) /\
  (forall x key keys,
     t x <> TypeObject -> t x <> TypeArray -> Value_Get x (key :: keys) = None) /\
  (forall x keys1 keys2,
     Value_Get x (keys1 ++ keys2) =
     match Value_Get x keys1 with
     | Some y => Value_Get y keys2
     | None => None
     end).
Proof.
  split; [reflexivity|]. split; [reflexivity|]. split; [|split; [|split; [|split]]].
  - intros a ds keys Hd Hne Hmax. cbn [Value_Get]. rewrite (Atoi_digits ds Hd Hne Hmax).
    pose proof (decimal_bound ds 0 0 Hd ltac:(lia) ltac:(lia)) as Hb.
    replace (decimal ds 0 <? 0) with false by (symmetry; apply Z.ltb_ge; lia). cbn [orb].
    destruct (Z.of_nat (List.length a) <=? decimal ds 0) eqn:E; [|reflexivity].
    apply Z.leb_le in E.
    now rewrite (proj2 (nth_error_None a (Z.to_nat (decimal ds 0))) ltac:(lia)).
  - intros a ds keys Hd Hpos. cbn [Value_Get].
    assert (Hne : ds <> []) by (intros ->; cbn in Hpos; lia).
    rewrite (Atoi_minus_digits ds Hd Hne ltac:(lia)).
    now replace (- decimal ds 0 <? 0) with true by (symmetry; apply Z.ltb_lt; lia).
  - intros a key keys [->|H]; [reflexivity|]. cbn [Value_Get].
    pose proof (Atoi_not_a_number key H) as He.
    destruct (Atoi key) as [n [e|]]; [reflexivity|now elim He].
  - intros x key keys Ho Ha. destruct x; try reflexivity; cbn [t] in *; congruence.
  - intros x keys1. revert x. induction keys1 as [|key keys1 IH]; intros x keys2; [reflexivity|].
    cbn [app Value_Get]. destruct x as [|o|a|s|s| | |s]; try reflexivity.
    + destruct (fst (Object_Get o key)) as [y|]; [apply IH|reflexivity].
    + destruct (Atoi key) as [n [err|]]; [reflexivity|].
      destruct ((n <? 0) || _); [reflexivity|].
      destruct (nth_error a (Z.to_nat n)) as [y|]; [apply IH|reflexivity].
Qed.

Example Value_Get_run :
  let doc := str "{" ++ [quote] ++ str "a" ++ [quote] ++ str ":[10,{" ++
             [quote] ++ str "b" ++ [quote] ++ str ":true}]}" in
  exists x,
    Parser_Parse MaxDepth (fun tail => tail) doc = inl x /\
    Value_Get x [str "a"; str "1"; str "b"] = Some VTrue /\
    Value_Get x [str "a"; str "01"; str "b"] = Some VTrue /\
    Value_Get x [str "a"; str "0"] = Some (VNumber (str "10")) /\
    Value_Get x [str "a"; str "2"] = None /\
    Value_Get x [str "a"; str "-1"] = None /\
    Value_Get x [str "a"; str "x"] = None /\
    Value_Get x [str "a"; str "0"; str "b"] = None /\
    Value_Get x [str "b"] = None.
Proof. eexists. repeat split; reflexivity. Qed.
